(** * gophpparser: lexer, Pratt parser and symbol resolution

    A shallow embedding of the Go sources ([token], [lexer], [parser.go],
    [semantic.go], [semantic_ast.go]) together with the properties of the
    specification that are stated about them.

    Conventions of the embedding.
    - A Go [string] is a byte sequence; it is a Rocq [string] (a list of
      8-bit [ascii]), and a Go [byte] is an [ascii].
    - Go's [int] line, column and offset counters are [nat]: they only
      count bytes of the input and never come near 2^63.
    - A nil and an empty slice are both the empty list: [len], [range] and
      [append], which is all the code applies to them, do not tell them
      apart.
    - A runtime panic (slice bounds out of range, nil dereference) is the
      result [Panic]; running out of fuel in a fuelled definition is
      [Timeout] and is never a result of the Go code. *)

From Stdlib Require Import String Ascii List ZArith Lia Bool Arith.
From stdpp Require Import gmap strings.
Import ListNotations.
Local Open Scope string_scope.
Local Open Scope list_scope.

(** ** Tokens *)

Module Token.

Inductive TokenType : Set :=
| ILLEGAL | EOF
| IDENT | INT | FLOAT | STRING
| PHP_OPEN | PHP_CLOSE
| VARIABLE
| ASSIGN | PLUS | MINUS | MULTIPLY | DIVIDE | MODULO | CONCAT
| INCREMENT | DECREMENT
| EQ | NOT_EQ | LT | GT | LTE | GTE
| AND | OR | NOT
| COMMA | SEMICOLON | COLON | LPAREN | RPAREN | LBRACE | RBRACE
| LBRACKET | RBRACKET
| FUNCTION | CLASS | IF | ELSE | ELSEIF | WHILE | FOR | FOREACH | RETURN
| ECHO | PRINT | VAR | PUBLIC | PRIVATE | PROTECTED | STATIC | CONST | NEW
| EXTENDS | IMPLEMENTS | INTERFACE | NAMESPACE | USE | REQUIRE | INCLUDE
| TRUE | FALSE | NULL | ARRAY | BREAK | CONTINUE | DO | AS
| ARROW | DOUBLE_ARROW | OBJECT_ACCESS | STATIC_ACCESS | NAMESPACE_SEPARATOR
| TRY | CATCH | FINALLY | THROW | EXCEPTION | CLOSURE | YIELD | YIELD_FROM
| QUESTION | QUESTION_QUESTION | QUESTION_QUESTION_ASSIGN | SPACESHIP
| QUESTION_ARROW
| TRAIT | ABSTRACT | FINAL | GLOBAL | LIST | UNSET | ISSET | EMPTY | CLONE
| INSTANCEOF | MATCH
| UNION_TYPE | INTERSECTION_TYPE
| REFERENCE | VARIABLE_VAR
| INCLUDE_ONCE | REQUIRE_ONCE
| MAGIC_CONSTANT
| ARROW_FUNCTION.

(** The value [iota] gives each constant: [TokenType] is an [int] in Go. *)
Definition code (t : TokenType) : nat :=
  match t with
  | ILLEGAL => 0 | EOF => 1
  | IDENT => 2 | INT => 3 | FLOAT => 4 | STRING => 5
  | PHP_OPEN => 6 | PHP_CLOSE => 7
  | VARIABLE => 8
  | ASSIGN => 9 | PLUS => 10 | MINUS => 11 | MULTIPLY => 12 | DIVIDE => 13
  | MODULO => 14 | CONCAT => 15
  | INCREMENT => 16 | DECREMENT => 17
  | EQ => 18 | NOT_EQ => 19 | LT => 20 | GT => 21 | LTE => 22 | GTE => 23
  | AND => 24 | OR => 25 | NOT => 26
  | COMMA => 27 | SEMICOLON => 28 | COLON => 29 | LPAREN => 30 | RPAREN => 31
  | LBRACE => 32 | RBRACE => 33 | LBRACKET => 34 | RBRACKET => 35
  | FUNCTION => 36 | CLASS => 37 | IF => 38 | ELSE => 39 | ELSEIF => 40
  | WHILE => 41 | FOR => 42 | FOREACH => 43 | RETURN => 44
  | ECHO => 45 | PRINT => 46 | VAR => 47 | PUBLIC => 48 | PRIVATE => 49
  | PROTECTED => 50 | STATIC => 51 | CONST => 52 | NEW => 53
  | EXTENDS => 54 | IMPLEMENTS => 55 | INTERFACE => 56 | NAMESPACE => 57
  | USE => 58 | REQUIRE => 59 | INCLUDE => 60
  | TRUE => 61 | FALSE => 62 | NULL => 63 | ARRAY => 64 | BREAK => 65
  | CONTINUE => 66 | DO => 67 | AS => 68
  | ARROW => 69 | DOUBLE_ARROW => 70 | OBJECT_ACCESS => 71
  | STATIC_ACCESS => 72 | NAMESPACE_SEPARATOR => 73
  | TRY => 74 | CATCH => 75 | FINALLY => 76 | THROW => 77 | EXCEPTION => 78
  | CLOSURE => 79 | YIELD => 80 | YIELD_FROM => 81
  | QUESTION => 82 | QUESTION_QUESTION => 83
  | QUESTION_QUESTION_ASSIGN => 84 | SPACESHIP => 85 | QUESTION_ARROW => 86
  | TRAIT => 87 | ABSTRACT => 88 | FINAL => 89 | GLOBAL => 90 | LIST => 91
  | UNSET => 92 | ISSET => 93 | EMPTY => 94 | CLONE => 95
  | INSTANCEOF => 96 | MATCH => 97
  | UNION_TYPE => 98 | INTERSECTION_TYPE => 99
  | REFERENCE => 100 | VARIABLE_VAR => 101
  | INCLUDE_ONCE => 102 | REQUIRE_ONCE => 103
  | MAGIC_CONSTANT => 104
  | ARROW_FUNCTION => 105
  end.

(** [a == b] on token types. *)
Definition tt_eqb (a b : TokenType) : bool := Nat.eqb (code a) (code b).

Record Token : Set := mkToken {
  Type_ : TokenType;
  Literal : string;
  Line : nat;
  Column : nat;
  Position : nat
}.

(** The [keywords] map, as the function its lookups compute. *)
Definition keywords (ident : string) : option TokenType :=
  if String.eqb ident "function" then Some FUNCTION
  else if String.eqb ident "class" then Some CLASS
  else if String.eqb ident "if" then Some IF
  else if String.eqb ident "else" then Some ELSE
  else if String.eqb ident "elseif" then Some ELSEIF
  else if String.eqb ident "while" then Some WHILE
  else if String.eqb ident "for" then Some FOR
  else if String.eqb ident "foreach" then Some FOREACH
  else if String.eqb ident "return" then Some RETURN
  else if String.eqb ident "echo" then Some ECHO
  else if String.eqb ident "print" then Some PRINT
  else if String.eqb ident "var" then Some VAR
  else if String.eqb ident "public" then Some PUBLIC
  else if String.eqb ident "private" then Some PRIVATE
  else if String.eqb ident "protected" then Some PROTECTED
  else if String.eqb ident "static" then Some STATIC
  else if String.eqb ident "const" then Some CONST
  else if String.eqb ident "new" then Some NEW
  else if String.eqb ident "extends" then Some EXTENDS
  else if String.eqb ident "implements" then Some IMPLEMENTS
  else if String.eqb ident "interface" then Some INTERFACE
  else if String.eqb ident "namespace" then Some NAMESPACE
  else if String.eqb ident "use" then Some USE
  else if String.eqb ident "require" then Some REQUIRE
  else if String.eqb ident "include" then Some INCLUDE
  else if String.eqb ident "true" then Some TRUE
  else if String.eqb ident "false" then Some FALSE
  else if String.eqb ident "null" then Some NULL
  else if String.eqb ident "array" then Some ARRAY
  else if String.eqb ident "break" then Some BREAK
  else if String.eqb ident "continue" then Some CONTINUE
  else if String.eqb ident "do" then Some DO
  else if String.eqb ident "as" then Some AS
  else if String.eqb ident "try" then Some TRY
  else if String.eqb ident "catch" then Some CATCH
  else if String.eqb ident "finally" then Some FINALLY
  else if String.eqb ident "throw" then Some THROW
  else if String.eqb ident "exception" then Some EXCEPTION
  else if String.eqb ident "closure" then Some CLOSURE
  else if String.eqb ident "yield" then Some YIELD
  else if String.eqb ident "trait" then Some TRAIT
  else if String.eqb ident "abstract" then Some ABSTRACT
  else if String.eqb ident "final" then Some FINAL
  else if String.eqb ident "global" then Some GLOBAL
  else if String.eqb ident "list" then Some LIST
  else if String.eqb ident "unset" then Some UNSET
  else if String.eqb ident "isset" then Some ISSET
  else if String.eqb ident "empty" then Some EMPTY
  else if String.eqb ident "clone" then Some CLONE
  else if String.eqb ident "instanceof" then Some INSTANCEOF
  else if String.eqb ident "match" then Some MATCH
  else if String.eqb ident "include_once" then Some INCLUDE_ONCE
  else if String.eqb ident "require_once" then Some REQUIRE_ONCE
  else if String.eqb ident "fn" then Some ARROW_FUNCTION
  else None.

Definition LookupIdent (ident : string) : TokenType :=
  match keywords ident with
  | Some tok => tok
  | None => IDENT
  end.

(** [TokenType.String]: the name printed by [%s] in the parser's messages.
    The constants after [RBRACKET] and before [BREAK] have no case of their
    own and print as [KEYWORD(n)]. *)
Definition digit_char (n : nat) : string :=
  String (ascii_of_nat (48 + n)) EmptyString.

Fixpoint nat_to_string_aux (fuel n : nat) (acc : string) : string :=
  match fuel with
  | O => acc
  | S f =>
      let acc' := digit_char (n mod 10) +:+ acc in
      if Nat.ltb n 10 then acc' else nat_to_string_aux f (n / 10) acc'
  end.

Definition nat_to_string (n : nat) : string := nat_to_string_aux (S n) n "".

Definition TokenType_String (t : TokenType) : string :=
  match t with
  | ILLEGAL => "ILLEGAL" | EOF => "EOF" | IDENT => "IDENT" | INT => "INT"
  | FLOAT => "FLOAT" | STRING => "STRING" | PHP_OPEN => "PHP_OPEN"
  | PHP_CLOSE => "PHP_CLOSE" | VARIABLE => "VARIABLE" | ASSIGN => "ASSIGN"
  | PLUS => "PLUS" | MINUS => "MINUS" | MULTIPLY => "MULTIPLY"
  | DIVIDE => "DIVIDE" | MODULO => "MODULO" | CONCAT => "CONCAT"
  | INCREMENT => "INCREMENT" | DECREMENT => "DECREMENT" | EQ => "EQ"
  | NOT_EQ => "NOT_EQ" | LT => "LT" | GT => "GT" | LTE => "LTE"
  | GTE => "GTE" | AND => "AND" | OR => "OR" | NOT => "NOT"
  | COMMA => "COMMA" | SEMICOLON => "SEMICOLON" | COLON => "COLON"
  | LPAREN => "LPAREN" | RPAREN => "RPAREN" | LBRACE => "LBRACE"
  | RBRACE => "RBRACE" | LBRACKET => "LBRACKET" | RBRACKET => "RBRACKET"
  | BREAK => "BREAK" | CONTINUE => "CONTINUE" | DO => "DO" | AS => "AS"
  | ARROW => "ARROW" | DOUBLE_ARROW => "DOUBLE_ARROW"
  | OBJECT_ACCESS => "OBJECT_ACCESS" | STATIC_ACCESS => "STATIC_ACCESS"
  | NAMESPACE_SEPARATOR => "NAMESPACE_SEPARATOR"
  | TRY => "TRY" | CATCH => "CATCH" | FINALLY => "FINALLY"
  | THROW => "THROW" | EXCEPTION => "EXCEPTION" | CLOSURE => "CLOSURE"
  | YIELD => "YIELD" | YIELD_FROM => "YIELD_FROM"
  | QUESTION => "QUESTION" | QUESTION_QUESTION => "QUESTION_QUESTION"
  | QUESTION_QUESTION_ASSIGN => "QUESTION_QUESTION_ASSIGN"
  | SPACESHIP => "SPACESHIP" | QUESTION_ARROW => "QUESTION_ARROW"
  | TRAIT => "TRAIT" | ABSTRACT => "ABSTRACT" | FINAL => "FINAL"
  | GLOBAL => "GLOBAL" | LIST => "LIST" | UNSET => "UNSET"
  | ISSET => "ISSET" | EMPTY => "EMPTY" | CLONE => "CLONE"
  | INSTANCEOF => "INSTANCEOF" | MATCH => "MATCH"
  | UNION_TYPE => "UNION_TYPE" | INTERSECTION_TYPE => "INTERSECTION_TYPE"
  | REFERENCE => "REFERENCE" | VARIABLE_VAR => "VARIABLE_VAR"
  | INCLUDE_ONCE => "INCLUDE_ONCE" | REQUIRE_ONCE => "REQUIRE_ONCE"
  | MAGIC_CONSTANT => "MAGIC_CONSTANT" | ARROW_FUNCTION => "ARROW_FUNCTION"
  | other => "KEYWORD(" +:+ nat_to_string (code other) +:+ ")"
  end.

End Token.
Export Token.

(** ** Results of partial computations *)

Inductive Res (A : Type) : Type :=
| Ok (a : A)
| Panic
| Timeout.
Arguments Ok {A} a.
Arguments Panic {A}.
Arguments Timeout {A}.

(** [s[lo:hi]]: Go panics when the bounds are out of range. *)
Definition slice (s : string) (lo hi : nat) : Res string :=
  if Nat.leb hi (String.length s) && Nat.leb lo hi
  then Ok (String.substring lo (hi - lo) s)
  else Panic.

(** [s[lo:]] *)
Definition slice_from (s : string) (lo : nat) : Res string :=
  slice s lo (String.length s).

(** [string(b)] for a byte [b]: the UTF-8 encoding of the code point [b],
    one byte below 128 and two bytes from 128 on. *)
Definition string_of_byte (c : ascii) : string :=
  let n := nat_of_ascii c in
  if Nat.ltb n 128 then String c EmptyString
  else String (ascii_of_nat (192 + n / 64))
         (String (ascii_of_nat (128 + n mod 64)) EmptyString).

(** ** Lexer *)

Module Lexer.

Record Lexer : Set := mkLexer {
  input : string;
  position : nat;
  readPosition : nat;
  ch : ascii;
  line : nat;
  column : nat
}.

Definition NUL : ascii := "000"%char.
Definition LF : ascii := "010"%char.
Definition TAB : ascii := "009"%char.
Definition CR : ascii := "013"%char.
Definition DQUOTE : ascii := "034"%char.
Definition SQUOTE : ascii := "039"%char.
Definition BACKSLASH : ascii := "092"%char.

(** [s[i]] for an index that the caller has checked to be in range. *)
Definition byte_at (s : string) (i : nat) : ascii :=
  match String.get i s with
  | Some c => c
  | None => NUL
  end.

Definition readChar (l : Lexer) : Lexer :=
  let c := if Nat.leb (String.length (input l)) (readPosition l)
           then NUL
           else byte_at (input l) (readPosition l) in
  {| input := input l;
     position := readPosition l;
     readPosition := S (readPosition l);
     ch := c;
     line := if Ascii.eqb c LF then S (line l) else line l;
     column := if Ascii.eqb c LF then 0 else S (column l) |}.

Arguments readChar : simpl never.

Definition New (inp : string) : Lexer :=
  readChar {| input := inp; position := 0; readPosition := 0; ch := NUL;
              line := 1; column := 0 |}.

Definition peekChar (l : Lexer) : ascii :=
  if Nat.leb (String.length (input l)) (readPosition l)
  then NUL
  else byte_at (input l) (readPosition l).

Definition peekCharAt (l : Lexer) (offset : nat) : ascii :=
  let pos := readPosition l + offset in
  if Nat.leb (String.length (input l)) pos
  then NUL
  else byte_at (input l) pos.

Definition byte_between (lo hi c : ascii) : bool :=
  Nat.leb (nat_of_ascii lo) (nat_of_ascii c)
  && Nat.leb (nat_of_ascii c) (nat_of_ascii hi).

Definition isLetter (c : ascii) : bool :=
  byte_between "a" "z" c || byte_between "A" "Z" c
  || Ascii.eqb c "_" || Nat.ltb 127 (nat_of_ascii c).

Definition isDigit (c : ascii) : bool := byte_between "0" "9" c.

Definition isWhitespace (c : ascii) : bool :=
  Ascii.eqb c " " || Ascii.eqb c TAB || Ascii.eqb c LF || Ascii.eqb c CR.

Definition newToken (tokenType : TokenType) (c : ascii) (ln col : nat)
  : Token :=
  {| Type_ := tokenType; Literal := string_of_byte c;
     Line := ln; Column := col; Position := 0 |}.

(** [for cond(l.ch) { l.readChar() }].  Every [readChar] moves
    [readPosition] one byte on and, from the end of the input, sets [ch] to
    0, where every loop condition of the lexer is false: the loop makes at
    most [len(input) + 1] steps, which is the bound [loop_bound] gives it
    (see [readWhile_exit]). *)
Fixpoint readWhile (cond : ascii -> bool) (fuel : nat) (l : Lexer) : Lexer :=
  if cond (ch l) then
    match fuel with
    | O => l
    | S f => readWhile cond f (readChar l)
    end
  else l.

Definition loop_bound (l : Lexer) : nat := S (String.length (input l)).

Definition skipWhitespace (l : Lexer) : Lexer :=
  readWhile isWhitespace (loop_bound l) l.

Definition readIdentifier (l : Lexer) : Res string * Lexer :=
  let pos := position l in
  let l' := readWhile (fun c => isLetter c || isDigit c) (loop_bound l) l in
  (slice (input l') pos (position l'), l').

Definition readNumber (l : Lexer) : TokenType * Res string * Lexer :=
  let pos := position l in
  let l1 := readWhile isDigit (loop_bound l) l in
  if Ascii.eqb (ch l1) "." && isDigit (peekChar l1) then
    let l2 := readChar l1 in
    let l3 := readWhile isDigit (loop_bound l2) l2 in
    (FLOAT, slice (input l3) pos (position l3), l3)
  else (INT, slice (input l1) pos (position l1), l1).

(** The body of [readString]'s [for] loop; it leaves through [break] when
    the byte just read is the delimiter or 0. *)
Fixpoint readString_loop (delimiter : ascii) (fuel : nat) (l : Lexer)
  : Lexer :=
  match fuel with
  | O => l
  | S f =>
      let l1 := readChar l in
      if Ascii.eqb (ch l1) delimiter || Ascii.eqb (ch l1) NUL then l1
      else
        let l2 := if Ascii.eqb (ch l1) BACKSLASH then readChar l1 else l1 in
        readString_loop delimiter f l2
  end.

Definition readString (delimiter : ascii) (l : Lexer) : Res string * Lexer :=
  let pos := position l + 1 in
  let l' := readString_loop delimiter (loop_bound l) l in
  (slice (input l') pos (position l'), l').

(** The loop of the block comment branch of [skipComment]. *)
Fixpoint skipBlock_loop (fuel : nat) (l : Lexer) : Lexer :=
  match fuel with
  | O => l
  | S f =>
      if Ascii.eqb (ch l) NUL then l
      else if Ascii.eqb (ch l) "*" && Ascii.eqb (peekChar l) "/"
      then readChar (readChar l)
      else skipBlock_loop f (readChar l)
  end.

Definition not_eol (c : ascii) : bool :=
  negb (Ascii.eqb c LF) && negb (Ascii.eqb c NUL).

Definition skipComment (l : Lexer) : Lexer :=
  if Ascii.eqb (ch l) "/" && Ascii.eqb (peekChar l) "/" then
    readWhile not_eol (loop_bound l) l
  else if Ascii.eqb (ch l) "/" && Ascii.eqb (peekChar l) "*" then
    let l2 := readChar (readChar l) in
    skipBlock_loop (loop_bound l2) l2
  else if Ascii.eqb (ch l) "#" then
    readWhile not_eol (loop_bound l) l
  else l.

(** [Token{Type: t, Literal: lit, Line: l.line, Column: l.column}] *)
Definition tokenAt (t : TokenType) (lit : string) (l : Lexer) : Token :=
  {| Type_ := t; Literal := lit; Line := line l; Column := column l;
     Position := 0 |}.

(** [ch := l.ch; l.readChar(); tok = Token{t, string(ch) + string(l.ch), ..}] *)
Definition twoCharToken (t : TokenType) (l : Lexer) : Token * Lexer :=
  let c := ch l in
  let l1 := readChar l in
  (tokenAt t (string_of_byte c +:+ string_of_byte (ch l1)) l1, l1).

(** The common exit of [NextToken]: [l.readChar(); return tok]. *)
Definition advance (r : Token * Lexer) : Res (Token * Lexer) :=
  Ok (fst r, readChar (snd r)).

Definition withLiteral (t : TokenType) (lit : Res string) (ln col : nat)
  (l : Lexer) : Res (Token * Lexer) :=
  match lit with
  | Ok s => Ok ({| Type_ := t; Literal := s; Line := ln; Column := col;
                   Position := 0 |}, l)
  | Panic => Panic
  | Timeout => Timeout
  end.

Definition lexLess (l : Lexer) : Token * Lexer :=
  if Ascii.eqb (peekChar l) "=" && Ascii.eqb (peekCharAt l 1) ">" then
    let c := ch l in
    let l2 := readChar (readChar l) in
    (tokenAt SPACESHIP (string_of_byte c +:+ "=>") l2, l2)
  else if Ascii.eqb (peekChar l) "=" then twoCharToken LTE l
  else if Ascii.eqb (peekChar l) "?" then
    let c := ch l in
    let l1 := readChar l in
    if Ascii.eqb (peekChar l1) "p" then
      let l2 := readChar l1 in
      if Ascii.eqb (peekChar l2) "h" then
        let l3 := readChar l2 in
        if Ascii.eqb (peekChar l3) "p" then
          let l4 := readChar l3 in
          (tokenAt PHP_OPEN "<?php" l4, l4)
        else (newToken LT c (line l3) (column l3), l3)
      else (newToken LT c (line l2) (column l2), l2)
    else (newToken LT c (line l1) (column l1), l1)
  else (newToken LT (ch l) (line l) (column l), l).

Definition lexQuestion (l : Lexer) : Token * Lexer :=
  if Ascii.eqb (peekChar l) ">" then twoCharToken PHP_CLOSE l
  else if Ascii.eqb (peekChar l) "?" then
    let c := ch l in
    let l1 := readChar l in
    if Ascii.eqb (peekChar l1) "=" then
      let l2 := readChar l1 in
      (tokenAt QUESTION_QUESTION_ASSIGN (string_of_byte c +:+ "?=") l2, l2)
    else
      (tokenAt QUESTION_QUESTION
         (string_of_byte c +:+ string_of_byte (ch l1)) l1, l1)
  else if Ascii.eqb (peekChar l) "-" && Ascii.eqb (peekCharAt l 1) ">" then
    let c := ch l in
    let l2 := readChar (readChar l) in
    (tokenAt QUESTION_ARROW (string_of_byte c +:+ "->") l2, l2)
  else (newToken QUESTION (ch l) (line l) (column l), l).

(** A single-byte token of the current byte. *)
Definition single (t : TokenType) (l : Lexer) : Token * Lexer :=
  (newToken t (ch l) (line l) (column l), l).

(** [NextToken].  The only recursive call is the one after a line comment;
    [fuel] bounds the number of such calls. *)
Fixpoint NextToken_rec (fuel : nat) (l0 : Lexer) : Res (Token * Lexer) :=
  let l := skipWhitespace l0 in
  let c := ch l in
  if Ascii.eqb c "=" then
    if Ascii.eqb (peekChar l) "=" then advance (twoCharToken EQ l)
    else if Ascii.eqb (peekChar l) ">" then
      advance (twoCharToken DOUBLE_ARROW l)
    else advance (single ASSIGN l)
  else if Ascii.eqb c "+" then
    if Ascii.eqb (peekChar l) "+" then advance (twoCharToken INCREMENT l)
    else advance (single PLUS l)
  else if Ascii.eqb c "-" then
    if Ascii.eqb (peekChar l) ">" then advance (twoCharToken OBJECT_ACCESS l)
    else advance (single MINUS l)
  else if Ascii.eqb c "*" then advance (single MULTIPLY l)
  else if Ascii.eqb c "/" then
    if Ascii.eqb (peekChar l) "/" then
      match fuel with
      | O => Timeout
      | S f => NextToken_rec f (skipComment l)
      end
    else advance (single DIVIDE l)
  else if Ascii.eqb c "%" then advance (single MODULO l)
  else if Ascii.eqb c "." then advance (single CONCAT l)
  else if Ascii.eqb c "!" then
    if Ascii.eqb (peekChar l) "=" then advance (twoCharToken NOT_EQ l)
    else advance (single NOT l)
  else if Ascii.eqb c "<" then advance (lexLess l)
  else if Ascii.eqb c ">" then
    if Ascii.eqb (peekChar l) "=" then advance (twoCharToken GTE l)
    else advance (single GT l)
  else if Ascii.eqb c "&" then
    if Ascii.eqb (peekChar l) "&" then advance (twoCharToken AND l)
    else advance (single ILLEGAL l)
  else if Ascii.eqb c "|" then
    if Ascii.eqb (peekChar l) "|" then advance (twoCharToken OR l)
    else advance (single ILLEGAL l)
  else if Ascii.eqb c "?" then advance (lexQuestion l)
  else if Ascii.eqb c "," then advance (single COMMA l)
  else if Ascii.eqb c ";" then advance (single SEMICOLON l)
  else if Ascii.eqb c "(" then advance (single LPAREN l)
  else if Ascii.eqb c ")" then advance (single RPAREN l)
  else if Ascii.eqb c "{" then advance (single LBRACE l)
  else if Ascii.eqb c "}" then advance (single RBRACE l)
  else if Ascii.eqb c "[" then advance (single LBRACKET l)
  else if Ascii.eqb c "]" then advance (single RBRACKET l)
  else if Ascii.eqb c DQUOTE || Ascii.eqb c SQUOTE then
    let '(lit, l1) := readString c l in
    match withLiteral STRING lit (line l1) (column l1) l1 with
    | Ok r => advance r
    | Panic => Panic
    | Timeout => Timeout
    end
  else if Ascii.eqb c "$" then
    let '(name, l1) := readIdentifier (readChar l) in
    match name with
    | Ok s => withLiteral VARIABLE (Ok ("$" +:+ s)) (line l1) (column l1) l1
    | Panic => Panic
    | Timeout => Timeout
    end
  else if Ascii.eqb c ":" then
    if Ascii.eqb (peekChar l) ":" then advance (twoCharToken STATIC_ACCESS l)
    else advance (single COLON l)
  else if Ascii.eqb c BACKSLASH then advance (single NAMESPACE_SEPARATOR l)
  else if Ascii.eqb c NUL then advance (tokenAt EOF "" l, l)
  else if isLetter c then
    let '(lit, l1) := readIdentifier l in
    match lit with
    | Ok s => withLiteral (LookupIdent s) lit (line l) (column l) l1
    | Panic => Panic
    | Timeout => Timeout
    end
  else if isDigit c then
    let '(t, lit, l1) := readNumber l in
    withLiteral t lit (line l1) (column l1) l1
  else advance (single ILLEGAL l).

Definition NextToken (l : Lexer) : Res (Token * Lexer) :=
  NextToken_rec (loop_bound l) l.

(** The tokens of the next [n] calls of [NextToken]. *)
Fixpoint tokens (n : nat) (l : Lexer) : Res (list Token) :=
  match n with
  | O => Ok []
  | S n' =>
      match NextToken l with
      | Ok (tok, l') =>
          match tokens n' l' with
          | Ok toks => Ok (tok :: toks)
          | Panic => Panic
          | Timeout => Timeout
          end
      | Panic => Panic
      | Timeout => Timeout
      end
  end.

End Lexer.
Export Lexer.


(** ** Abstract syntax *)

Module AST.

Record Identifier : Set := mkIdentifier {
  IdentToken : Token;
  IdentValue : string
}.

Record Variable_ : Set := mkVariable {
  VarToken : Token;
  VarName : string
}.

Record TraitUse : Set := mkTraitUse {
  TraitUseToken : Token;
  Traits : list Identifier
}.

Record InterfaceMethod : Set := mkInterfaceMethod {
  IMToken : Token;
  IMVisibility : string;
  IMName : Identifier;
  IMParameters : list Variable_
}.

(** The value of a [FloatLiteral] is kept as the decimal number the literal
    denotes, [mantissa / 10^scale]; Go stores the [float64] nearest to it. *)
Record Decimal : Set := mkDecimal {
  mantissa : Z;
  scale : nat
}.

(** The statement types of which [parseStatement] can return a nil
    pointer.  Such a pointer, stored in the [Statement] interface, is not a
    nil interface: it is the statement [NilStatement k]. *)
Inductive StatementKind : Set :=
| KFunctionDeclaration | KClassDeclaration | KInterfaceDeclaration
| KTraitDeclaration | KConstantDeclaration | KNamespaceDeclaration
| KUseStatement | KTryStatement | KIfStatement | KForStatement
| KWhileStatement | KForeachStatement.

(** ([Variable_], [Program_] and the field [Type_] stand for Go's [Variable],
    [Program] and [Type], which are reserved words here.)

    An [Expression] or a pointer field that may be nil is an [option].
    A field that is set in every node the parser returns is not. *)
Local Unset Elimination Schemes.

Inductive Expression : Set :=
| EIdentifier (i : Identifier)
| EVariable (v : Variable_)
| IntegerLiteral (tok : Token) (Value : Z)
| FloatLiteral (tok : Token) (Value : Decimal)
| StringLiteral (tok : Token) (Value : string)
| BooleanLiteral (tok : Token) (Value : bool)
| InterpolatedString (tok : Token) (Parts : list Expression)
| AssignmentExpression (tok : Token) (Name : Variable_)
    (Value : option Expression)
| InfixExpression (tok : Token) (Left : option Expression)
    (Operator : string) (Right : option Expression)
| PrefixExpression (tok : Token) (Operator : string)
    (Right : option Expression)
| PostfixExpression (tok : Token) (Left : option Expression)
    (Operator : string)
| TernaryExpression (tok : Token)
    (Condition TrueValue FalseValue : option Expression)
| CallExpression (tok : Token) (Function : option Expression)
    (Arguments : list (option Expression))
| NewExpression (tok : Token) (ClassName : Identifier)
    (Arguments : list (option Expression))
| ObjectAccessExpression (tok : Token) (Object Property : option Expression)
| StaticAccessExpression (tok : Token) (Class Property : option Expression)
| ArrayLiteral (tok : Token) (Elements : list (option Expression))
| AssociativeArrayLiteral (tok : Token)
    (Pairs : list (option Expression * option Expression))
| IndexExpression (tok : Token) (Left Index : option Expression)
| AnonymousFunction (tok : Token) (Parameters UseClause : list Variable_)
    (Body : BlockStatement)
| YieldExpression (tok : Token) (Key Value : option Expression)

with Statement : Set :=
| ExpressionStatement (tok : Token) (Expr : option Expression)
| FunctionDeclaration (tok : Token) (Name : Identifier)
    (Parameters : list Variable_) (Body : BlockStatement)
| ReturnStatement (tok : Token) (ReturnValue : option Expression)
| BlockStmt (b : BlockStatement)
| IfStatement (tok : Token) (Condition : option Expression)
    (Consequence : BlockStatement) (Alternative : option BlockStatement)
| EchoStatement (tok : Token) (Values : list (option Expression))
| ForStatement (tok : Token) (Init Condition Update : option Expression)
    (Body : BlockStatement)
| WhileStatement (tok : Token) (Condition : option Expression)
    (Body : BlockStatement)
| ForeachStatement (tok : Token) (Array : option Expression)
    (Key : option Variable_) (Value : Variable_) (Body : BlockStatement)
| BreakStatement (tok : Token) (Level : option Expression)
| ContinueStatement (tok : Token) (Level : option Expression)
| ClassDeclaration (tok : Token) (Name : Identifier)
    (SuperClass : option Identifier) (Interfaces : list Identifier)
    (TraitUses : list TraitUse) (Properties : list PropertyDeclaration)
    (Methods : list MethodDeclaration) (Constants : list ConstantDeclaration)
| InterfaceDeclaration (tok : Token) (Name : Identifier)
    (Methods : list InterfaceMethod)
| TraitDeclaration (tok : Token) (Name : Identifier)
    (Properties : list PropertyDeclaration)
    (Methods : list MethodDeclaration)
| ConstantStmt (c : ConstantDeclaration)
| NamespaceDeclaration (tok : Token) (Name : Identifier)
| UseStatement (tok : Token) (Namespace : Identifier)
    (Alias : option Identifier)
| TryStatement (tok : Token) (Body : BlockStatement)
    (Catches : list CatchClause) (Finally : option BlockStatement)
| ThrowStatement (tok : Token) (Expr : option Expression)
| NilStatement (k : StatementKind)

with BlockStatement : Set :=
| mkBlock (tok : Token) (Statements : list Statement)

with PropertyDeclaration : Set :=
| mkProperty (tok : Token) (Visibility : string) (Static : bool)
    (Name : Variable_) (Value : option Expression)

with MethodDeclaration : Set :=
| mkMethod (tok : Token) (Visibility : string) (Static : bool)
    (Name : Identifier) (Parameters : list Variable_) (Body : BlockStatement)

with ConstantDeclaration : Set :=
| mkConstant (tok : Token) (Visibility : string) (Name : Identifier)
    (Value : option Expression)

with CatchClause : Set :=
| mkCatch (tok : Token) (ExceptionType : option Identifier)
    (Var : Variable_) (Body : BlockStatement).

Local Set Elimination Schemes.

Record Program_ : Set := mkProgram {
  Statements : list Statement
}.

End AST.
Export AST.

(** ** The library functions the parser calls *)

Module strconv.

(** [lower(c)] of package strconv: [c | ('x' - 'X')], on the byte's value. *)
Definition lower (n : nat) : nat := Nat.lor n 32.

Definition bytes (s : string) : list nat :=
  map nat_of_ascii (list_ascii_of_string s).

Definition maxUint64 : Z := 2 ^ 64 - 1.

(** [underscoreOK]: underscores may only separate digits (or follow the
    base prefix).  [saw] is the kind of the last byte seen: [0] the
    beginning, [1] a digit or base prefix, [2] an underscore, [3] another
    byte. *)
Fixpoint underscoreOK_loop (hex : bool) (saw : nat) (s : list nat) : bool :=
  match s with
  | [] => negb (Nat.eqb saw 2)
  | c :: rest =>
      if (Nat.leb 48 c && Nat.leb c 57)
         || (hex && Nat.leb 97 (lower c) && Nat.leb (lower c) 102)
      then underscoreOK_loop hex 1 rest
      else if Nat.eqb c 95 then
        if negb (Nat.eqb saw 1) then false
        else underscoreOK_loop hex 2 rest
      else if Nat.eqb saw 2 then false
      else underscoreOK_loop hex 3 rest
  end.

Definition underscoreOK (s : list nat) : bool :=
  let s := match s with
           | c :: rest => if Nat.eqb c 45 || Nat.eqb c 43 then rest else s
           | [] => s
           end in
  match s with
  | 48 :: c :: rest =>
      if Nat.eqb (lower c) 98 || Nat.eqb (lower c) 111
         || Nat.eqb (lower c) 120
      then underscoreOK_loop (Nat.eqb (lower c) 120) 1 rest
      else underscoreOK_loop false 0 s
  | _ => underscoreOK_loop false 0 s
  end.

(** The digit loop of [ParseUint] for base [base] with [base0] set: [None]
    is an error (of syntax or of range), [Some (n, underscores)] the value
    and whether an underscore was met. *)
Fixpoint digits_loop (base : Z) (s : list nat) (n : Z) (underscores : bool)
  : option (Z * bool) :=
  match s with
  | [] => Some (n, underscores)
  | c :: rest =>
      if Nat.eqb c 95 then digits_loop base rest n true
      else
        let d := if Nat.leb 48 c && Nat.leb c 57 then Some (c - 48)
                 else if Nat.leb 97 (lower c) && Nat.leb (lower c) 122
                 then Some (lower c - 97 + 10)
                 else None in
        match d with
        | None => None
        | Some d =>
            if Z.leb base (Z.of_nat d) then None
            else if Z.leb (maxUint64 / base + 1) n then None
            else
              let n1 := (n * base + Z.of_nat d)%Z in
              if Z.ltb maxUint64 n1 then None
              else digits_loop base rest n1 underscores
        end
  end.

(** [ParseUint(s, 0, 64)]; [None] stands for a non-nil [err]. *)
Definition ParseUint0 (s : list nat) : option Z :=
  match s with
  | [] => None
  | c0 :: _ =>
      let '(base, body) :=
        if Nat.eqb c0 48 then
          match s with
          | _ :: c1 :: _ :: _ =>
              if Nat.eqb (lower c1) 98 then (2%Z, skipn 2 s)
              else if Nat.eqb (lower c1) 111 then (8%Z, skipn 2 s)
              else if Nat.eqb (lower c1) 120 then (16%Z, skipn 2 s)
              else (8%Z, skipn 1 s)
          | _ => (8%Z, skipn 1 s)
          end
        else (10%Z, s) in
      match digits_loop base body 0%Z false with
      | None => None
      | Some (n, underscores) =>
          if underscores && negb (underscoreOK s) then None else Some n
      end
  end.

(** [ParseInt(s, 0, 64)]: an optional sign, then [ParseUint], then the
    range of [int64].  [None] stands for a non-nil [err]. *)
Definition ParseInt0 (str : string) : option Z :=
  let s0 := bytes str in
  match s0 with
  | [] => None
  | c :: rest =>
      let '(neg, s) := if Nat.eqb c 43 then (false, rest)
                       else if Nat.eqb c 45 then (true, rest)
                       else (false, s0) in
      match ParseUint0 s with
      | None => None
      | Some un =>
          let cutoff := (2 ^ 63)%Z in
          if negb neg && Z.leb cutoff un then None
          else if neg && Z.ltb cutoff un then None
          else Some (if neg then (- un)%Z else un)
      end
  end.

(** [ParseFloat(s, 64)] on the text of a FLOAT token, which is a run of
    digits, a dot and a run of digits: the text is always well formed, and
    [err] is non-nil exactly when the decimal rounds to infinity, that is
    from [2^1024 - 2^970] on. *)
Fixpoint decimal_digits (s : list nat) (acc : Z) (seen_dot : bool)
  (sc : nat) : Z * nat :=
  match s with
  | [] => (acc, sc)
  | c :: rest =>
      if Nat.eqb c 46 then decimal_digits rest acc true sc
      else decimal_digits rest (acc * 10 + Z.of_nat (c - 48))%Z seen_dot
             (if seen_dot then S sc else sc)
  end.

Definition ParseFloat (str : string) : option Decimal :=
  let '(m, sc) := decimal_digits (bytes str) 0%Z false 0 in
  if Z.leb ((2 ^ 1024 - 2 ^ 970) * 10 ^ Z.of_nat sc) m then None
  else Some {| mantissa := m; scale := sc |}.

(** [%q] of a token's text.  The text of an INT or FLOAT token has no
    quote, backslash or unprintable byte, so [%q] only puts it between
    double quotes. *)
Definition Quote (s : string) : string :=
  String DQUOTE (s +:+ String DQUOTE EmptyString).

End strconv.

Module strings_.

(** [strings.Contains(s, "$")] and [strings.Split(s, "$")] for the one-byte
    separator the parser passes. *)
Fixpoint ContainsByte (s : string) (sep : ascii) : bool :=
  match s with
  | EmptyString => false
  | String c rest => Ascii.eqb c sep || ContainsByte rest sep
  end.

Fixpoint SplitByte (s : string) (sep : ascii) : list string :=
  match s with
  | EmptyString => [EmptyString]
  | String c rest =>
      if Ascii.eqb c sep then EmptyString :: SplitByte rest sep
      else match SplitByte rest sep with
           | [] => [String c EmptyString]
           | first :: others => String c first :: others
           end
  end.

(** [strings.Join(elems, sep)] *)
Fixpoint Join (elems : list string) (sep : string) : string :=
  match elems with
  | [] => EmptyString
  | [e] => e
  | e :: rest => e +:+ sep +:+ Join rest sep
  end.

End strings_.

(** ** Parser *)

Module Parser.

Definition LOWEST : nat := 1.
Definition TERNARY : nat := 2.
Definition EQUALS : nat := 3.
Definition LESSGREATER : nat := 4.
Definition SUM : nat := 5.
Definition PRODUCT : nat := 6.
Definition PREFIX : nat := 7.
Definition CALL : nat := 8.

(** The [precedences] map. *)
Definition precedences (t : TokenType) : option nat :=
  match t with
  | QUESTION => Some TERNARY
  | QUESTION_QUESTION => Some EQUALS
  | QUESTION_QUESTION_ASSIGN => Some EQUALS
  | QUESTION_ARROW => Some CALL
  | EQ => Some EQUALS
  | NOT_EQ => Some EQUALS
  | LT => Some LESSGREATER
  | GT => Some LESSGREATER
  | LTE => Some LESSGREATER
  | GTE => Some LESSGREATER
  | SPACESHIP => Some LESSGREATER
  | PLUS => Some SUM
  | MINUS => Some SUM
  | CONCAT => Some SUM
  | DIVIDE => Some PRODUCT
  | MULTIPLY => Some PRODUCT
  | MODULO => Some PRODUCT
  | LPAREN => Some CALL
  | OBJECT_ACCESS => Some CALL
  | STATIC_ACCESS => Some CALL
  | _ => None
  end.

(** The functions registered in [prefixParseFns] and [infixParseFns]. *)
Inductive prefixParseFn : Set :=
| parseIdentifier_fn | parseVariable_fn | parseIntegerLiteral_fn
| parseFloatLiteral_fn | parseStringLiteral_fn | parseBooleanLiteral_fn
| parsePrefixExpression_fn | parseNewExpression_fn
| parseAnonymousFunction_fn | parseYieldExpression_fn
| parseGroupedExpression_fn | parseArrayLiteral_fn.

Inductive infixParseFn : Set :=
| parseInfixExpression_fn | parseTernaryExpression_fn
| parseAssignmentExpression_fn | parseObjectAccessExpression_fn
| parseCallExpression_fn | parseIndexExpression_fn
| parsePostfixExpression_fn | parseStaticAccessExpression_fn.

(** The two maps as [NewParser] fills them. *)
Definition prefixParseFns (t : TokenType) : option prefixParseFn :=
  match t with
  | IDENT => Some parseIdentifier_fn
  | VARIABLE => Some parseVariable_fn
  | INT => Some parseIntegerLiteral_fn
  | FLOAT => Some parseFloatLiteral_fn
  | STRING => Some parseStringLiteral_fn
  | TRUE => Some parseBooleanLiteral_fn
  | FALSE => Some parseBooleanLiteral_fn
  | NOT => Some parsePrefixExpression_fn
  | MINUS => Some parsePrefixExpression_fn
  | INCREMENT => Some parsePrefixExpression_fn
  | DECREMENT => Some parsePrefixExpression_fn
  | NEW => Some parseNewExpression_fn
  | FUNCTION => Some parseAnonymousFunction_fn
  | YIELD => Some parseYieldExpression_fn
  | LPAREN => Some parseGroupedExpression_fn
  | LBRACKET => Some parseArrayLiteral_fn
  | _ => None
  end.

Definition infixParseFns (t : TokenType) : option infixParseFn :=
  match t with
  | PLUS | MINUS | MULTIPLY | DIVIDE | MODULO | CONCAT
  | EQ | NOT_EQ | LT | GT | LTE | GTE | SPACESHIP | AND | OR
  | QUESTION_QUESTION => Some parseInfixExpression_fn
  | QUESTION => Some parseTernaryExpression_fn
  | QUESTION_QUESTION_ASSIGN => Some parseAssignmentExpression_fn
  | QUESTION_ARROW => Some parseObjectAccessExpression_fn
  | ASSIGN => Some parseAssignmentExpression_fn
  | LPAREN => Some parseCallExpression_fn
  | LBRACKET => Some parseIndexExpression_fn
  | INCREMENT | DECREMENT => Some parsePostfixExpression_fn
  | OBJECT_ACCESS => Some parseObjectAccessExpression_fn
  | STATIC_ACCESS => Some parseStaticAccessExpression_fn
  | _ => None
  end.

(** The parser's state.  The two maps are the constants above. *)
Record Parser : Set := mkParser {
  l : Lexer;
  curToken : Token;
  peekToken : Token;
  errors : list string
}.

(** A method of [*Parser]: it reads and updates the parser, and returns a
    value unless it panics or the fuel of the model runs out. *)
Definition M (A : Type) : Type := Parser -> Res (A * Parser).

Definition ret {A} (a : A) : M A := fun p => Ok (a, p).

Definition bind {A B} (m : M A) (k : A -> M B) : M B :=
  fun p =>
    match m p with
    | Ok (a, p') => k a p'
    | Panic => Panic
    | Timeout => Timeout
    end.

Definition timeout {A} : M A := fun _ => Timeout.
Definition panic {A} : M A := fun _ => Panic.

Definition lift {A} (r : Res A) : M A :=
  fun p => match r with
           | Ok a => Ok (a, p)
           | Panic => Panic
           | Timeout => Timeout
           end.

Declare Scope parser_scope.
Delimit Scope parser_scope with parser.
Notation "'do' x <- m ; k" := (bind m (fun x => k))
  (at level 10, x name, m at level 100, k at level 200) : parser_scope.
Local Open Scope parser_scope.

Definition zeroToken : Token :=
  {| Type_ := ILLEGAL; Literal := ""; Line := 0; Column := 0; Position := 0 |}.

Definition nextToken : M unit :=
  fun p =>
    match NextToken (l p) with
    | Ok (tok, l') =>
        Ok (tt, {| l := l'; curToken := peekToken p; peekToken := tok;
                   errors := errors p |})
    | Panic => Panic
    | Timeout => Timeout
    end.

Definition NewParser (lx : Lexer) : Res Parser :=
  match (do _ <- nextToken; nextToken)
          {| l := lx; curToken := zeroToken; peekToken := zeroToken;
             errors := [] |} with
  | Ok (_, p) => Ok p
  | Panic => Panic
  | Timeout => Timeout
  end.

Definition cur : M Token := fun p => Ok (curToken p, p).
Definition peek : M Token := fun p => Ok (peekToken p, p).

Definition curTokenIs (t : TokenType) : M bool :=
  fun p => Ok (tt_eqb (Type_ (curToken p)) t, p).

Definition peekTokenIs (t : TokenType) : M bool :=
  fun p => Ok (tt_eqb (Type_ (peekToken p)) t, p).

(** [p.errors = append(p.errors, msg)] *)
Definition addError (msg : string) : M unit :=
  fun p => Ok (tt, {| l := l p; curToken := curToken p;
                      peekToken := peekToken p;
                      errors := errors p ++ [msg] |}).

Definition peekError (t : TokenType) : M unit :=
  fun p =>
    addError ("expected next token to be " +:+ TokenType_String t
              +:+ ", got " +:+ TokenType_String (Type_ (peekToken p))
              +:+ " instead") p.

Definition expectPeek (t : TokenType) : M bool :=
  do b <- peekTokenIs t;
  if b then do _ <- nextToken; ret true
  else do _ <- peekError t; ret false.

Definition noPrefixParseFnError (t : TokenType) : M unit :=
  addError ("no prefix parse function for " +:+ TokenType_String t
            +:+ " found").

Definition peekPrecedence : M nat :=
  fun p => Ok (match precedences (Type_ (peekToken p)) with
               | Some n => n
               | None => LOWEST
               end, p).

Definition curPrecedence : M nat :=
  fun p => Ok (match precedences (Type_ (curToken p)) with
               | Some n => n
               | None => LOWEST
               end, p).

(** [if p.peekTokenIs(t) { p.nextToken() }] *)
Definition skipPeek (t : TokenType) : M unit :=
  do b <- peekTokenIs t;
  if b then nextToken else ret tt.

(** [&Variable{Token: p.curToken, Name: p.curToken.Literal[1:]}] *)
Definition variableOfCur : M Variable_ :=
  do tok <- cur;
  do name <- lift (slice_from (Literal tok) 1);
  ret {| VarToken := tok; VarName := name |}.

(** [&Identifier{Token: p.curToken, Value: p.curToken.Literal}] *)
Definition identifierOfCur : M Identifier :=
  do tok <- cur;
  ret {| IdentToken := tok; IdentValue := Literal tok |}.

(** *** The prefix functions that read one token *)

Definition parseIdentifier : M (option Expression) :=
  do i <- identifierOfCur; ret (Some (EIdentifier i)).

Definition parseVariable : M (option Expression) :=
  do v <- variableOfCur; ret (Some (EVariable v)).

Definition parseIntegerLiteral : M (option Expression) :=
  do tok <- cur;
  match strconv.ParseInt0 (Literal tok) with
  | None =>
      do _ <- addError ("could not parse " +:+ strconv.Quote (Literal tok)
                +:+ " as integer");
      ret None
  | Some value => ret (Some (IntegerLiteral tok value))
  end.

Definition parseFloatLiteral : M (option Expression) :=
  do tok <- cur;
  match strconv.ParseFloat (Literal tok) with
  | None =>
      do _ <- addError ("could not parse " +:+ strconv.Quote (Literal tok)
                +:+ " as float");
      ret None
  | Some value => ret (Some (FloatLiteral tok value))
  end.

(** The length of the identifier run at the start of [part]: the bytes
    [part[j]] with [isLetter(part[j]) || (j > 0 && isDigit(part[j]))]. *)
Fixpoint identRun (part : string) (j : nat) : nat :=
  match part with
  | EmptyString => j
  | String c rest =>
      if isLetter c || (Nat.ltb 0 j && isDigit c) then identRun rest (S j)
      else j
  end.

Definition stringPart (tok : Token) (text : string) : Expression :=
  StringLiteral {| Type_ := STRING; Literal := text; Line := Line tok;
                   Column := Column tok; Position := 0 |} text.

Definition interpolatedPart (tok : Token) (part : string) : list Expression :=
  let j := identRun part 0 in
  if Nat.ltb 0 j then
    let varName := String.substring 0 j part in
    let v := EVariable
      {| VarToken := {| Type_ := VARIABLE; Literal := "$" +:+ varName;
                        Line := Line tok; Column := Column tok;
                        Position := 0 |};
         VarName := varName |} in
    if Nat.ltb j (String.length part)
    then [v; stringPart tok
               (String.substring j (String.length part - j) part)]
    else [v]
  else [stringPart tok ("$" +:+ part)].

Definition parseInterpolatedString : M (option Expression) :=
  do tok <- cur;
  match strings_.SplitByte (Literal tok) "$" with
  | [] => panic
  | first :: others =>
      let head := if String.eqb first "" then []
                  else [stringPart tok first] in
      ret (Some (InterpolatedString tok
                   (head ++ concat (map (interpolatedPart tok) others))))
  end.

Definition parseStringLiteral : M (option Expression) :=
  do tok <- cur;
  if strings_.ContainsByte (Literal tok) "$" then parseInterpolatedString
  else ret (Some (StringLiteral tok (Literal tok))).

Definition parseBooleanLiteral : M (option Expression) :=
  do tok <- cur;
  ret (Some (BooleanLiteral tok (tt_eqb (Type_ tok) TRUE))).

(** [if !p.expectPeek(t) { return nil }] *)
Notation "'expect' t ; k" :=
  (bind (expectPeek t) (fun ok => if ok then k else ret None))
  (at level 10, t at level 9, k at level 200, only parsing) : parser_scope.

(** *** The mutually recursive functions

    [parseExpression] and [parseStatement] call each other through most of
    the parser.  The functions are written here over the two of them (the
    section variables) and the knot is tied below, by recursion on a fuel
    that one call of either consumes.  Each [for] loop has a counter of its
    own, started at [fuel]. *)

Section Body.

Variable fuel : nat.
Variable parseExpression : nat -> M (option Expression).
Variable parseStatement : M Statement.

Definition isVisibility : M bool :=
  do a <- curTokenIs PUBLIC;
  do b <- curTokenIs PRIVATE;
  do c <- curTokenIs PROTECTED;
  ret (a || b || c).

Fixpoint parameters_loop (n : nat) (identifiers : list Variable_)
  : M (list Variable_) :=
  do more <- peekTokenIs COMMA;
  if more then
    match n with
    | O => timeout
    | S n' =>
        do _ <- nextToken;
        do _ <- nextToken;
        do isVar <- curTokenIs VARIABLE;
        if isVar then
          do ident <- variableOfCur;
          parameters_loop n' (identifiers ++ [ident])
        else parameters_loop n' identifiers
    end
  else ret identifiers.

Definition parseFunctionParameters : M (list Variable_) :=
  do empty <- peekTokenIs RPAREN;
  if empty then do _ <- nextToken; ret []
  else
    do _ <- nextToken;
    do isVar <- curTokenIs VARIABLE;
    do first <- (if isVar then do ident <- variableOfCur; ret [ident]
                 else ret []);
    do identifiers <- parameters_loop fuel first;
    do ok <- expectPeek RPAREN;
    if ok then ret identifiers else ret [].

(** [parseStatement] returns a pointer in the [Statement] interface, so
    [stmt != nil] holds for every statement it returns (also for a nil
    pointer): the loop appends them all. *)
Fixpoint block_loop (n : nat) (stmts : list Statement)
  : M (list Statement) :=
  do atBrace <- curTokenIs RBRACE;
  do atEOF <- curTokenIs EOF;
  if negb atBrace && negb atEOF then
    match n with
    | O => timeout
    | S n' =>
        do stmt <- parseStatement;
        do _ <- nextToken;
        block_loop n' (stmts ++ [stmt])
    end
  else ret stmts.

Definition parseBlockStatement : M BlockStatement :=
  do tok <- cur;
  do _ <- nextToken;
  do stmts <- block_loop fuel [];
  ret (mkBlock tok stmts).

Definition parseFunctionDeclaration : M (option Statement) :=
  do tok <- cur;
  expect IDENT;
  do name <- identifierOfCur;
  expect LPAREN;
  do params <- parseFunctionParameters;
  expect LBRACE;
  do body <- parseBlockStatement;
  ret (Some (FunctionDeclaration tok name params body)).

Definition parseReturnStatement : M Statement :=
  do tok <- cur;
  do _ <- nextToken;
  do semi <- curTokenIs SEMICOLON;
  do value <- (if semi then ret None else parseExpression LOWEST);
  do _ <- skipPeek SEMICOLON;
  ret (ReturnStatement tok value).

Definition parseIfStatement : M (option Statement) :=
  do tok <- cur;
  expect LPAREN;
  do _ <- nextToken;
  do condition <- parseExpression LOWEST;
  expect RPAREN;
  expect LBRACE;
  do consequence <- parseBlockStatement;
  do hasElse <- peekTokenIs ELSE;
  if hasElse then
    do _ <- nextToken;
    expect LBRACE;
    do alternative <- parseBlockStatement;
    ret (Some (IfStatement tok condition consequence (Some alternative)))
  else ret (Some (IfStatement tok condition consequence None)).

(** [for p.peekTokenIs(COMMA) { p.nextToken(); p.nextToken();
    xs = append(xs, p.parseExpression(LOWEST)) }] *)
Fixpoint expressions_loop (n : nat) (xs : list (option Expression))
  : M (list (option Expression)) :=
  do more <- peekTokenIs COMMA;
  if more then
    match n with
    | O => timeout
    | S n' =>
        do _ <- nextToken;
        do _ <- nextToken;
        do e <- parseExpression LOWEST;
        expressions_loop n' (xs ++ [e])
    end
  else ret xs.

Definition parseEchoStatement : M Statement :=
  do tok <- cur;
  do _ <- nextToken;
  do first <- parseExpression LOWEST;
  do values <- expressions_loop fuel [first];
  do _ <- skipPeek SEMICOLON;
  ret (EchoStatement tok values).

Definition parseAssignmentExpressionFromVariable : M (option Expression) :=
  do variable <- variableOfCur;
  expect ASSIGN;
  do tok <- cur;
  do _ <- nextToken;
  do value <- parseExpression LOWEST;
  ret (Some (AssignmentExpression tok variable value)).

Definition parseExpressionStatement : M Statement :=
  do tok <- cur;
  do isVar <- curTokenIs VARIABLE;
  do isAssign <- peekTokenIs ASSIGN;
  do e <- (if isVar && isAssign then parseAssignmentExpressionFromVariable
           else parseExpression LOWEST);
  do _ <- skipPeek SEMICOLON;
  ret (ExpressionStatement tok e).

Definition parsePrefixExpression : M (option Expression) :=
  do tok <- cur;
  do _ <- nextToken;
  do right <- parseExpression PREFIX;
  ret (Some (PrefixExpression tok (Literal tok) right)).

Definition parseInfixExpression (left : option Expression)
  : M (option Expression) :=
  do tok <- cur;
  do precedence <- curPrecedence;
  do _ <- nextToken;
  do right <- parseExpression precedence;
  ret (Some (InfixExpression tok left (Literal tok) right)).

Definition parseAssignmentExpression (left : option Expression)
  : M (option Expression) :=
  match left with
  | Some (EVariable variable) =>
      do tok <- cur;
      do _ <- nextToken;
      do value <- parseExpression LOWEST;
      ret (Some (AssignmentExpression tok variable value))
  | _ =>
      do _ <- addError "left side of assignment must be a variable";
      ret None
  end.

Definition parseGroupedExpression : M (option Expression) :=
  do _ <- nextToken;
  do exp <- parseExpression LOWEST;
  expect RPAREN;
  ret exp.

Definition parseExpressionList (closing : TokenType)
  : M (list (option Expression)) :=
  do empty <- peekTokenIs closing;
  if empty then do _ <- nextToken; ret []
  else
    do _ <- nextToken;
    do first <- parseExpression LOWEST;
    do args <- expressions_loop fuel [first];
    do ok <- expectPeek closing;
    if ok then ret args else ret [].

Definition parseCallExpression (fn : option Expression)
  : M (option Expression) :=
  do tok <- cur;
  do args <- parseExpressionList RPAREN;
  ret (Some (CallExpression tok fn args)).

(** The loop over the remaining pairs of an associative array; [None] is
    the [return nil] inside the loop. *)
Fixpoint pairs_loop (n : nat)
  (pairs : list (option Expression * option Expression))
  : M (option (list (option Expression * option Expression))) :=
  do more <- peekTokenIs COMMA;
  if more then
    match n with
    | O => timeout
    | S n' =>
        do _ <- nextToken;
        do _ <- nextToken;
        do key <- parseExpression LOWEST;
        expect DOUBLE_ARROW;
        do _ <- nextToken;
        do value <- parseExpression LOWEST;
        pairs_loop n' (pairs ++ [(key, value)])
    end
  else ret (Some pairs).

Definition parseArrayLiteral : M (option Expression) :=
  do tok <- cur;
  do empty <- peekTokenIs RBRACKET;
  if empty then do _ <- nextToken; ret (Some (ArrayLiteral tok []))
  else
    do _ <- nextToken;
    do firstElement <- parseExpression LOWEST;
    do assoc <- peekTokenIs DOUBLE_ARROW;
    if assoc then
      do _ <- nextToken;
      do _ <- nextToken;
      do value <- parseExpression LOWEST;
      do pairs <- pairs_loop fuel [(firstElement, value)];
      match pairs with
      | None => ret None
      | Some pairs =>
          expect RBRACKET;
          ret (Some (AssociativeArrayLiteral tok pairs))
      end
    else
      do elements <- expressions_loop fuel [firstElement];
      expect RBRACKET;
      ret (Some (ArrayLiteral tok elements)).

Definition parseIndexExpression (left : option Expression)
  : M (option Expression) :=
  do tok <- cur;
  do _ <- nextToken;
  do index <- parseExpression LOWEST;
  expect RBRACKET;
  ret (Some (IndexExpression tok left index)).

Definition parsePostfixExpression (left : option Expression)
  : M (option Expression) :=
  do tok <- cur;
  ret (Some (PostfixExpression tok left (Literal tok))).

Definition parseForStatement : M (option Statement) :=
  do tok <- cur;
  expect LPAREN;
  do _ <- nextToken;
  do isVar <- curTokenIs VARIABLE;
  do isAssign <- peekTokenIs ASSIGN;
  do init <- (if isVar && isAssign then parseAssignmentExpressionFromVariable
              else parseExpression LOWEST);
  expect SEMICOLON;
  do _ <- nextToken;
  do condition <- parseExpression LOWEST;
  expect SEMICOLON;
  do _ <- nextToken;
  do isVar <- curTokenIs VARIABLE;
  do isAssign <- peekTokenIs ASSIGN;
  do isIncrement <- peekTokenIs INCREMENT;
  do update <-
    (if isVar && isAssign then parseAssignmentExpressionFromVariable
     else if isVar && isIncrement then
       do variable <- variableOfCur;
       do _ <- nextToken;
       do op <- cur;
       ret (Some (PostfixExpression op (Some (EVariable variable))
                    (Literal op)))
     else parseExpression LOWEST);
  expect RPAREN;
  expect LBRACE;
  do body <- parseBlockStatement;
  ret (Some (ForStatement tok init condition update body)).

Definition parseWhileStatement : M (option Statement) :=
  do tok <- cur;
  expect LPAREN;
  do _ <- nextToken;
  do condition <- parseExpression LOWEST;
  expect RPAREN;
  expect LBRACE;
  do body <- parseBlockStatement;
  ret (Some (WhileStatement tok condition body)).

Definition parseForeachStatement : M (option Statement) :=
  do tok <- cur;
  expect LPAREN;
  do _ <- nextToken;
  do array <- parseExpression LOWEST;
  expect AS;
  do _ <- nextToken;
  do hasKey <- peekTokenIs DOUBLE_ARROW;
  do key <-
    (if hasKey then
       do isVar <- curTokenIs VARIABLE;
       if isVar then
         do k <- variableOfCur;
         do _ <- nextToken;
         do _ <- nextToken;
         ret (Some (Some k))
       else
         do _ <- addError "foreach key must be a variable";
         ret None
     else ret (Some None));
  match key with
  | None => ret None
  | Some key =>
      do isVar <- curTokenIs VARIABLE;
      if isVar then
        do value <- variableOfCur;
        expect RPAREN;
        expect LBRACE;
        do body <- parseBlockStatement;
        ret (Some (ForeachStatement tok array key value body))
      else
        do _ <- addError "foreach value must be a variable";
        ret None
  end.

(** [break] and [continue]: the level is read when the next token is an
    INT, by [parseExpression(LOWEST)] from that token. *)
Definition parseLevel : M (option Expression) :=
  do hasLevel <- peekTokenIs INT;
  if hasLevel then do _ <- nextToken; parseExpression LOWEST
  else ret None.

Definition parseBreakStatement : M Statement :=
  do tok <- cur;
  do level <- parseLevel;
  do _ <- skipPeek SEMICOLON;
  ret (BreakStatement tok level).

Definition parseContinueStatement : M Statement :=
  do tok <- cur;
  do level <- parseLevel;
  do _ <- skipPeek SEMICOLON;
  ret (ContinueStatement tok level).

Definition parsePropertyDeclaration (visibility : string) (static : bool)
  : M (option PropertyDeclaration) :=
  do isVar <- curTokenIs VARIABLE;
  if negb isVar then ret None
  else
    do tok <- cur;
    do name <- variableOfCur;
    do hasDefault <- peekTokenIs ASSIGN;
    do value <- (if hasDefault then
                   do _ <- nextToken;
                   do _ <- nextToken;
                   parseExpression LOWEST
                 else ret None);
    do _ <- skipPeek SEMICOLON;
    ret (Some (mkProperty tok visibility static name value)).

Definition parseMethodDeclaration (visibility : string) (static : bool)
  : M (option MethodDeclaration) :=
  do isFunction <- curTokenIs FUNCTION;
  if negb isFunction then ret None
  else
    do tok <- cur;
    expect IDENT;
    do name <- identifierOfCur;
    expect LPAREN;
    do params <- parseFunctionParameters;
    expect LBRACE;
    do body <- parseBlockStatement;
    ret (Some (mkMethod tok visibility static name params body)).

Definition parseConstantDeclaration : M (option ConstantDeclaration) :=
  do tok <- cur;
  do vis <- isVisibility;
  do visibility <-
    (if vis then
       do ok <- expectPeek CONST;
       if ok then ret (Some (Literal tok)) else ret None
     else ret (Some "public"));
  match visibility with
  | None => ret None
  | Some visibility =>
      expect IDENT;
      do name <- identifierOfCur;
      expect ASSIGN;
      do _ <- nextToken;
      do value <- parseExpression LOWEST;
      do _ <- skipPeek SEMICOLON;
      ret (Some (mkConstant tok visibility name value))
  end.

Definition withVisibility (visibility : string) (c : ConstantDeclaration)
  : ConstantDeclaration :=
  match c with
  | mkConstant tok _ name value => mkConstant tok visibility name value
  end.

(** The loop of [parseTraitUse], of the [use] clause of an anonymous
    function ([RPAREN]) and, with [stopAtBrace], of the [implements] list:
    it collects the tokens of type [want] up to the token [closing]. *)
Fixpoint names_loop (n : nat) (want closing : TokenType)
  (stopAtBrace : bool) (acc : list Token) : M (list Token) :=
  do atClose <- curTokenIs closing;
  do atEOF <- curTokenIs EOF;
  if negb atClose && negb atEOF then
    match n with
    | O => timeout
    | S n' =>
        do tok <- cur;
        let acc' := if tt_eqb (Type_ tok) want then acc ++ [tok] else acc in
        do _ <- skipPeek COMMA;
        do brace <- peekTokenIs LBRACE;
        if stopAtBrace && brace then ret acc'
        else do _ <- nextToken; names_loop n' want closing stopAtBrace acc'
    end
  else ret acc.

Definition identifierOfToken (tok : Token) : Identifier :=
  {| IdentToken := tok; IdentValue := Literal tok |}.

Definition parseTraitUse : M TraitUse :=
  do tok <- cur;
  do _ <- nextToken;
  do names <- names_loop fuel IDENT SEMICOLON false [];
  ret {| TraitUseToken := tok; Traits := map identifierOfToken names |}.

(** The members of a class body, as the loop collects them. *)
Record Members : Set := mkMembers {
  mTraitUses : list TraitUse;
  mProperties : list PropertyDeclaration;
  mMethods : list MethodDeclaration;
  mConstants : list ConstantDeclaration
}.

Definition classMember (m : Members) : M Members :=
  do isUse <- curTokenIs USE;
  if isUse then
    do traitUse <- parseTraitUse;
    ret (mkMembers (mTraitUses m ++ [traitUse]) (mProperties m)
           (mMethods m) (mConstants m))
  else
    do tok <- cur;
    do vis <- isVisibility;
    do _ <- (if vis then nextToken else ret tt);
    let visibility := if vis then Literal tok else "public" in
    do static <- curTokenIs STATIC;
    do _ <- (if static then nextToken else ret tt);
    do isConst <- curTokenIs CONST;
    do isFunction <- curTokenIs FUNCTION;
    do isVar <- curTokenIs VARIABLE;
    if isConst then
      do constant <- parseConstantDeclaration;
      match constant with
      | Some c =>
          ret (mkMembers (mTraitUses m) (mProperties m) (mMethods m)
                 (mConstants m ++ [withVisibility visibility c]))
      | None => ret m
      end
    else if isFunction then
      do method <- parseMethodDeclaration visibility static;
      match method with
      | Some x =>
          ret (mkMembers (mTraitUses m) (mProperties m) (mMethods m ++ [x])
                 (mConstants m))
      | None => ret m
      end
    else if isVar then
      do property <- parsePropertyDeclaration visibility static;
      match property with
      | Some x =>
          ret (mkMembers (mTraitUses m) (mProperties m ++ [x]) (mMethods m)
                 (mConstants m))
      | None => ret m
      end
    else ret m.

Definition traitMember (m : Members) : M Members :=
  do tok <- cur;
  do vis <- isVisibility;
  do _ <- (if vis then nextToken else ret tt);
  let visibility := if vis then Literal tok else "public" in
  do static <- curTokenIs STATIC;
  do _ <- (if static then nextToken else ret tt);
  do isVar <- curTokenIs VARIABLE;
  do isFunction <- curTokenIs FUNCTION;
  if isVar then
    do property <- parsePropertyDeclaration visibility static;
    match property with
    | Some x =>
        ret (mkMembers (mTraitUses m) (mProperties m ++ [x]) (mMethods m)
               (mConstants m))
    | None => ret m
    end
  else if isFunction then
    do method <- parseMethodDeclaration visibility static;
    match method with
    | Some x =>
        ret (mkMembers (mTraitUses m) (mProperties m) (mMethods m ++ [x])
               (mConstants m))
    | None => ret m
    end
  else ret m.

(** [for !p.curTokenIs(RBRACE) && !p.curTokenIs(EOF) { member; p.nextToken() }] *)
Fixpoint members_loop (n : nat) (member : Members -> M Members)
  (m : Members) : M Members :=
  do atBrace <- curTokenIs RBRACE;
  do atEOF <- curTokenIs EOF;
  if negb atBrace && negb atEOF then
    match n with
    | O => timeout
    | S n' =>
        do m' <- member m;
        do _ <- nextToken;
        members_loop n' member m'
    end
  else ret m.

Definition parseClassDeclaration : M (option Statement) :=
  do tok <- cur;
  expect IDENT;
  do name <- identifierOfCur;
  do hasSuper <- peekTokenIs EXTENDS;
  do super <-
    (if hasSuper then
       do _ <- nextToken;
       do ok <- expectPeek IDENT;
       if ok then do s <- identifierOfCur; ret (Some (Some s))
       else ret None
     else ret (Some None));
  match super with
  | None => ret None
  | Some superClass =>
      do hasInterfaces <- peekTokenIs IMPLEMENTS;
      do interfaces <-
        (if hasInterfaces then
           do _ <- nextToken;
           do _ <- nextToken;
           names_loop fuel IDENT LBRACE true []
         else ret []);
      expect LBRACE;
      do _ <- nextToken;
      do m <- members_loop fuel classMember (mkMembers [] [] [] []);
      ret (Some (ClassDeclaration tok name superClass
                   (map identifierOfToken interfaces)
                   (mTraitUses m) (mProperties m) (mMethods m)
                   (mConstants m)))
  end.

Definition parseTraitDeclaration : M (option Statement) :=
  do tok <- cur;
  expect IDENT;
  do name <- identifierOfCur;
  expect LBRACE;
  do _ <- nextToken;
  do m <- members_loop fuel traitMember (mkMembers [] [] [] []);
  ret (Some (TraitDeclaration tok name (mProperties m) (mMethods m))).

Definition parseInterfaceMethod : M (option InterfaceMethod) :=
  do tok <- cur;
  do vis <- isVisibility;
  do _ <- (if vis then nextToken else ret tt);
  let visibility := if vis then Literal tok else "public" in
  do isFunction <- curTokenIs FUNCTION;
  if negb isFunction then ret None
  else
    do _ <- nextToken;
    do isIdent <- curTokenIs IDENT;
    if negb isIdent then ret None
    else
      do name <- identifierOfCur;
      expect LPAREN;
      do params <- parseFunctionParameters;
      do _ <- skipPeek SEMICOLON;
      ret (Some {| IMToken := tok; IMVisibility := visibility;
                   IMName := name; IMParameters := params |}).

Fixpoint interface_loop (n : nat) (methods : list InterfaceMethod)
  : M (list InterfaceMethod) :=
  do atBrace <- curTokenIs RBRACE;
  do atEOF <- curTokenIs EOF;
  if negb atBrace && negb atEOF then
    match n with
    | O => timeout
    | S n' =>
        do method <- parseInterfaceMethod;
        do _ <- nextToken;
        interface_loop n'
          (match method with Some x => methods ++ [x] | None => methods end)
    end
  else ret methods.

Definition parseInterfaceDeclaration : M (option Statement) :=
  do tok <- cur;
  expect IDENT;
  do name <- identifierOfCur;
  expect LBRACE;
  do _ <- nextToken;
  do methods <- interface_loop fuel [];
  ret (Some (InterfaceDeclaration tok name methods)).

Definition parseNewExpression : M (option Expression) :=
  do tok <- cur;
  expect IDENT;
  do className <- identifierOfCur;
  do hasArgs <- peekTokenIs LPAREN;
  do args <- (if hasArgs then do _ <- nextToken; parseExpressionList RPAREN
              else ret []);
  ret (Some (NewExpression tok className args)).

Definition parseObjectAccessExpression (left : option Expression)
  : M (option Expression) :=
  do tok <- cur;
  do _ <- nextToken;
  do property <- parseExpression CALL;
  ret (Some (ObjectAccessExpression tok left property)).

Definition parseStaticAccessExpression (left : option Expression)
  : M (option Expression) :=
  do tok <- cur;
  do _ <- nextToken;
  do property <- parseExpression CALL;
  ret (Some (StaticAccessExpression tok left property)).

Definition parseNamespaceDeclaration : M (option Statement) :=
  do tok <- cur;
  expect IDENT;
  do name <- identifierOfCur;
  do _ <- skipPeek SEMICOLON;
  ret (Some (NamespaceDeclaration tok name)).

Definition parseUseStatement : M (option Statement) :=
  do tok <- cur;
  expect IDENT;
  do namespace <- identifierOfCur;
  do hasAlias <- peekTokenIs AS;
  if hasAlias then
    do _ <- nextToken;
    expect IDENT;
    do alias <- identifierOfCur;
    do _ <- skipPeek SEMICOLON;
    ret (Some (UseStatement tok namespace (Some alias)))
  else
    do _ <- skipPeek SEMICOLON;
    ret (Some (UseStatement tok namespace None)).

Definition parseCatchClause : M (option CatchClause) :=
  do tok <- cur;
  expect LPAREN;
  do _ <- nextToken;
  do isIdent <- curTokenIs IDENT;
  do exceptionType <-
    (if isIdent then
       do i <- identifierOfCur; do _ <- nextToken; ret (Some i)
     else ret None);
  do isVar <- curTokenIs VARIABLE;
  if negb isVar then
    do _ <- addError "expected variable in catch clause";
    ret None
  else
    do variable <- variableOfCur;
    expect RPAREN;
    expect LBRACE;
    do body <- parseBlockStatement;
    ret (Some (mkCatch tok exceptionType variable body)).

Fixpoint catches_loop (n : nat) (catches : list CatchClause)
  : M (list CatchClause) :=
  do more <- peekTokenIs CATCH;
  if more then
    match n with
    | O => timeout
    | S n' =>
        do _ <- nextToken;
        do clause <- parseCatchClause;
        catches_loop n'
          (match clause with Some c => catches ++ [c] | None => catches end)
    end
  else ret catches.

Definition parseTryStatement : M (option Statement) :=
  do tok <- cur;
  expect LBRACE;
  do body <- parseBlockStatement;
  do catches <- catches_loop fuel [];
  do hasFinally <- peekTokenIs FINALLY;
  do finally <-
    (if hasFinally then
       do _ <- nextToken;
       do ok <- expectPeek LBRACE;
       if ok then do b <- parseBlockStatement; ret (Some b) else ret None
     else ret None);
  ret (Some (TryStatement tok body catches finally)).

Definition parseThrowStatement : M Statement :=
  do tok <- cur;
  do _ <- nextToken;
  do e <- parseExpression LOWEST;
  do _ <- skipPeek SEMICOLON;
  ret (ThrowStatement tok e).

Definition variableOfToken (tok : Token) : M Variable_ :=
  do name <- lift (slice_from (Literal tok) 1);
  ret {| VarToken := tok; VarName := name |}.

Fixpoint variablesOfTokens (toks : list Token) : M (list Variable_) :=
  match toks with
  | [] => ret []
  | tok :: rest =>
      do v <- variableOfToken tok;
      do vs <- variablesOfTokens rest;
      ret (v :: vs)
  end.

Definition parseAnonymousFunction : M (option Expression) :=
  do tok <- cur;
  expect LPAREN;
  do params <- parseFunctionParameters;
  do hasUse <- peekTokenIs USE;
  do uses <-
    (if hasUse then
       do _ <- nextToken;
       do ok <- expectPeek LPAREN;
       if ok then
         do _ <- nextToken;
         do toks <- names_loop fuel VARIABLE RPAREN false [];
         do vars <- variablesOfTokens toks;
         ret (Some vars)
       else ret None
     else ret (Some []));
  match uses with
  | None => ret None
  | Some useClause =>
      expect LBRACE;
      do body <- parseBlockStatement;
      ret (Some (AnonymousFunction tok params useClause body))
  end.

Definition parseYieldExpression : M (option Expression) :=
  do tok <- cur;
  do semi <- peekTokenIs SEMICOLON;
  do brace <- peekTokenIs RBRACE;
  do eof <- peekTokenIs EOF;
  if negb semi && negb brace && negb eof then
    do _ <- nextToken;
    do value <- parseExpression LOWEST;
    do keyed <- peekTokenIs DOUBLE_ARROW;
    if keyed then
      do _ <- nextToken;
      do _ <- nextToken;
      do value' <- parseExpression LOWEST;
      ret (Some (YieldExpression tok value value'))
    else ret (Some (YieldExpression tok None value))
  else ret (Some (YieldExpression tok None None)).

Definition parseTernaryExpression (condition : option Expression)
  : M (option Expression) :=
  do tok <- cur;
  do _ <- nextToken;
  do trueValue <- parseExpression LOWEST;
  expect COLON;
  do _ <- nextToken;
  do falseValue <- parseExpression LOWEST;
  ret (Some (TernaryExpression tok condition trueValue falseValue)).

(** Calling the function found in [prefixParseFns] or [infixParseFns]. *)
Definition callPrefix (fn : prefixParseFn) : M (option Expression) :=
  match fn with
  | parseIdentifier_fn => parseIdentifier
  | parseVariable_fn => parseVariable
  | parseIntegerLiteral_fn => parseIntegerLiteral
  | parseFloatLiteral_fn => parseFloatLiteral
  | parseStringLiteral_fn => parseStringLiteral
  | parseBooleanLiteral_fn => parseBooleanLiteral
  | parsePrefixExpression_fn => parsePrefixExpression
  | parseNewExpression_fn => parseNewExpression
  | parseAnonymousFunction_fn => parseAnonymousFunction
  | parseYieldExpression_fn => parseYieldExpression
  | parseGroupedExpression_fn => parseGroupedExpression
  | parseArrayLiteral_fn => parseArrayLiteral
  end.

Definition callInfix (fn : infixParseFn) (left : option Expression)
  : M (option Expression) :=
  match fn with
  | parseInfixExpression_fn => parseInfixExpression left
  | parseTernaryExpression_fn => parseTernaryExpression left
  | parseAssignmentExpression_fn => parseAssignmentExpression left
  | parseObjectAccessExpression_fn => parseObjectAccessExpression left
  | parseCallExpression_fn => parseCallExpression left
  | parseIndexExpression_fn => parseIndexExpression left
  | parsePostfixExpression_fn => parsePostfixExpression left
  | parseStaticAccessExpression_fn => parseStaticAccessExpression left
  end.

(** The loop of [parseExpression]:
    [for !p.peekTokenIs(SEMICOLON) && precedence < p.peekPrecedence()]. *)
Fixpoint climb (n : nat) (precedence : nat) (leftExp : option Expression)
  : M (option Expression) :=
  do semi <- peekTokenIs SEMICOLON;
  do peekPrec <- peekPrecedence;
  if negb semi && Nat.ltb precedence peekPrec then
    do next <- peek;
    match infixParseFns (Type_ next) with
    | None => ret leftExp
    | Some infix =>
        match n with
        | O => timeout
        | S n' =>
            do _ <- nextToken;
            do leftExp' <- callInfix infix leftExp;
            climb n' precedence leftExp'
        end
    end
  else ret leftExp.

Definition parseExpression_body (precedence : nat) : M (option Expression) :=
  do tok <- cur;
  match prefixParseFns (Type_ tok) with
  | None => do _ <- noPrefixParseFnError (Type_ tok); ret None
  | Some prefix =>
      do leftExp <- callPrefix prefix;
      climb fuel precedence leftExp
  end.

(** A nil pointer of a statement type, returned through the [Statement]
    interface, is the statement [NilStatement] of that type. *)
Definition orNil (k : StatementKind) (m : M (option Statement))
  : M Statement :=
  do r <- m;
  ret (match r with Some s => s | None => NilStatement k end).

Definition parseStatement_body : M Statement :=
  do tok <- cur;
  match Type_ tok with
  | FUNCTION => orNil KFunctionDeclaration parseFunctionDeclaration
  | CLASS => orNil KClassDeclaration parseClassDeclaration
  | INTERFACE => orNil KInterfaceDeclaration parseInterfaceDeclaration
  | TRAIT => orNil KTraitDeclaration parseTraitDeclaration
  | CONST =>
      do c <- parseConstantDeclaration;
      ret (match c with
           | Some c => ConstantStmt c
           | None => NilStatement KConstantDeclaration
           end)
  | NAMESPACE => orNil KNamespaceDeclaration parseNamespaceDeclaration
  | USE => orNil KUseStatement parseUseStatement
  | TRY => orNil KTryStatement parseTryStatement
  | THROW => parseThrowStatement
  | RETURN => parseReturnStatement
  | IF => orNil KIfStatement parseIfStatement
  | ECHO => parseEchoStatement
  | FOR => orNil KForStatement parseForStatement
  | WHILE => orNil KWhileStatement parseWhileStatement
  | FOREACH => orNil KForeachStatement parseForeachStatement
  | BREAK => parseBreakStatement
  | CONTINUE => parseContinueStatement
  | _ => parseExpressionStatement
  end.

End Body.

(** Tying the knot: one call of [parseExpression] or [parseStatement]
    takes one unit of fuel. *)
Fixpoint parseExpression (fuel : nat) (precedence : nat)
  : M (option Expression) :=
  match fuel with
  | O => timeout
  | S f =>
      parseExpression_body f (parseExpression f) (parseStatement f) precedence
  end

with parseStatement (fuel : nat) : M Statement :=
  match fuel with
  | O => timeout
  | S f => parseStatement_body f (parseExpression f) (parseStatement f)
  end.

(** The loop of [ParseProgram]; like [block_loop] it appends every
    statement [parseStatement] returns. *)
Fixpoint program_loop (n : nat) (stmts : list Statement)
  : M (list Statement) :=
  do atEOF <- curTokenIs EOF;
  if atEOF then ret stmts
  else
    match n with
    | O => timeout
    | S n' =>
        do open <- curTokenIs PHP_OPEN;
        do close <- curTokenIs PHP_CLOSE;
        if open || close then do _ <- nextToken; program_loop n' stmts
        else
          do stmt <- parseStatement n';
          do _ <- nextToken;
          program_loop n' (stmts ++ [stmt])
    end.

Definition ParseProgram (fuel : nat) : M Program_ :=
  do stmts <- program_loop fuel [];
  ret {| Statements := stmts |}.

(** [p := NewParser(New(input)); program := p.ParseProgram()]: the program
    and the parser's errors. *)
Definition Parse (fuel : nat) (inp : string)
  : Res (Program_ * list string) :=
  match NewParser (New inp) with
  | Ok p =>
      match ParseProgram fuel p with
      | Ok (program, p') => Ok (program, errors p')
      | Panic => Panic
      | Timeout => Timeout
      end
  | Panic => Panic
  | Timeout => Timeout
  end.

End Parser.
Export Parser.


(** ** Symbol table *)

Module Semantic.

Inductive SymbolType : Set :=
| CLASS_SYMBOL | FUNCTION_SYMBOL | VARIABLE_SYMBOL | CONSTANT_SYMBOL
| INTERFACE_SYMBOL | TRAIT_SYMBOL.

Definition SymbolType_eqb (a b : SymbolType) : bool :=
  match a, b with
  | CLASS_SYMBOL, CLASS_SYMBOL | FUNCTION_SYMBOL, FUNCTION_SYMBOL
  | VARIABLE_SYMBOL, VARIABLE_SYMBOL | CONSTANT_SYMBOL, CONSTANT_SYMBOL
  | INTERFACE_SYMBOL, INTERFACE_SYMBOL | TRAIT_SYMBOL, TRAIT_SYMBOL => true
  | _, _ => false
  end.

Record Symbol : Set := mkSymbol {
  SymName : string;
  FullyQualified : string;
  SymType : SymbolType;
  SymNamespace : string;
  File : string;
  SymLine : nat
}.

Record SymbolReference : Set := mkSymbolReference {
  RefName : string;
  ResolvedSymbol : option Symbol;
  RefLine : nat;
  RefColumn : nat
}.

(** Scopes point to each other ([Parent], [Children], [CurrentScope]) and
    are updated in place.  They live in a table, [scopes], and a pointer to
    a scope is its index there; the global scope has index 0.  A symbol is
    never updated after it is made, so a [*Symbol] is the symbol. *)
Record Scope : Type := mkScope {
  ScopeType : string;
  ScopeName : string;
  Parent : option nat;
  Symbols : gmap string Symbol;
  Children : list nat;
  Namespace_ : string;
  Imports : gmap string string
}.

Record SymbolTable : Type := mkSymbolTable {
  scopes : list Scope;
  CurrentScope : nat;
  AllSymbols : gmap string Symbol;
  References : list SymbolReference;
  Namespaces : gmap string (list Symbol);
  ClassHierarchy : gmap string (list string)
}.

Definition GlobalScope : nat := 0.

Definition NewSymbolTable : SymbolTable :=
  {| scopes := [ {| ScopeType := "global"; ScopeName := "global";
                    Parent := None; Symbols := ∅; Children := [];
                    Namespace_ := ""; Imports := ∅ |} ];
     CurrentScope := GlobalScope;
     AllSymbols := ∅;
     References := [];
     Namespaces := ∅;
     ClassHierarchy := ∅ |}.

(** [*st.CurrentScope]; a dangling pointer would be a panic. *)
Definition current (st : SymbolTable) : Res Scope :=
  match scopes st !! CurrentScope st with
  | Some s => Ok s
  | None => Panic
  end.

Definition setScopes (st : SymbolTable) (ss : list Scope) : SymbolTable :=
  {| scopes := ss; CurrentScope := CurrentScope st;
     AllSymbols := AllSymbols st; References := References st;
     Namespaces := Namespaces st; ClassHierarchy := ClassHierarchy st |}.

(** An update of the current scope in place. *)
Definition updateCurrent (f : Scope -> Scope) (st : SymbolTable)
  : Res SymbolTable :=
  match current st with
  | Ok s => Ok (setScopes st (<[CurrentScope st := f s]> (scopes st)))
  | Panic => Panic
  | Timeout => Timeout
  end.

Definition EnterScope (scopeType name : string) (st : SymbolTable)
  : Res SymbolTable :=
  match current st with
  | Ok cur =>
      let newScope :=
        {| ScopeType := scopeType; ScopeName := name;
           Parent := Some (CurrentScope st); Symbols := ∅; Children := [];
           Namespace_ := Namespace_ cur;
           Imports := Imports cur |} in
      let new := List.length (scopes st) in
      let cur' :=
        {| ScopeType := ScopeType cur; ScopeName := ScopeName cur;
           Parent := Parent cur; Symbols := Symbols cur;
           Children := Children cur ++ [new];
           Namespace_ := Namespace_ cur; Imports := Imports cur |} in
      Ok {| scopes := <[CurrentScope st := cur']> (scopes st) ++ [newScope];
            CurrentScope := new;
            AllSymbols := AllSymbols st; References := References st;
            Namespaces := Namespaces st;
            ClassHierarchy := ClassHierarchy st |}
  | Panic => Panic
  | Timeout => Timeout
  end.

Definition ExitScope (st : SymbolTable) : Res SymbolTable :=
  match current st with
  | Ok cur =>
      match Parent cur with
      | Some parent =>
          Ok {| scopes := scopes st; CurrentScope := parent;
                AllSymbols := AllSymbols st; References := References st;
                Namespaces := Namespaces st;
                ClassHierarchy := ClassHierarchy st |}
      | None => Ok st
      end
  | Panic => Panic
  | Timeout => Timeout
  end.

Definition SetNamespace (namespace : string) (st : SymbolTable)
  : Res SymbolTable :=
  updateCurrent
    (fun s => {| ScopeType := ScopeType s; ScopeName := ScopeName s;
                 Parent := Parent s; Symbols := Symbols s;
                 Children := Children s; Namespace_ := namespace;
                 Imports := Imports s |}) st.

Definition HasPrefixBackslash (s : string) : bool :=
  match s with
  | String c _ => Ascii.eqb c BACKSLASH
  | EmptyString => false
  end.

Definition AddImport (fullyQualified alias : string) (st : SymbolTable)
  : Res SymbolTable :=
  let alias' :=
    if String.eqb alias ""
    then List.last (strings_.SplitByte fullyQualified BACKSLASH) ""
    else alias in
  updateCurrent
    (fun s => {| ScopeType := ScopeType s; ScopeName := ScopeName s;
                 Parent := Parent s; Symbols := Symbols s;
                 Children := Children s; Namespace_ := Namespace_ s;
                 Imports := <[alias' := fullyQualified]> (Imports s) |}) st.

Definition makeFullyQualified (name : string) (st : SymbolTable)
  : Res string :=
  if HasPrefixBackslash name then Ok name
  else
    match current st with
    | Ok cur =>
        if String.eqb (Namespace_ cur) "" then Ok name
        else Ok (Namespace_ cur +:+ String BACKSLASH EmptyString +:+ name)
    | Panic => Panic
    | Timeout => Timeout
    end.

Definition DeclareSymbol (name : string) (symbolType : SymbolType)
  (file : string) (ln : nat) (st : SymbolTable)
  : Res (Symbol * SymbolTable) :=
  match makeFullyQualified name st, current st with
  | Ok fqn, Ok cur =>
      let symbol :=
        {| SymName := name; FullyQualified := fqn; SymType := symbolType;
           SymNamespace := Namespace_ cur; File := file; SymLine := ln |} in
      let cur' :=
        {| ScopeType := ScopeType cur; ScopeName := ScopeName cur;
           Parent := Parent cur;
           Symbols := <[name := symbol]> (Symbols cur);
           Children := Children cur; Namespace_ := Namespace_ cur;
           Imports := Imports cur |} in
      let inNamespace :=
        match Namespaces st !! Namespace_ cur with
        | Some syms => syms
        | None => []
        end in
      Ok (symbol,
          {| scopes := <[CurrentScope st := cur']> (scopes st);
             CurrentScope := CurrentScope st;
             AllSymbols := <[fqn := symbol]> (AllSymbols st);
             References := References st;
             Namespaces :=
               <[Namespace_ cur := inNamespace ++ [symbol]]> (Namespaces st);
             ClassHierarchy := ClassHierarchy st |})
  | Panic, _ | _, Panic => Panic
  | _, _ => Timeout
  end.

(** [if symbol, exists := m[key]; exists && symbol.Type == symbolType] *)
Definition lookupOfType (m : gmap string Symbol) (key : string)
  (symbolType : SymbolType) : option Symbol :=
  match m !! key with
  | Some symbol =>
      if SymbolType_eqb (SymType symbol) symbolType then Some symbol
      else None
  | None => None
  end.

(** Step 3 of [ResolveSymbol]: the walk from a scope up its parents.  The
    chain has no more scopes than the table, which bounds the walk. *)
Fixpoint resolveInScopes (fuel : nat) (ss : list Scope) (scope : option nat)
  (name : string) (symbolType : SymbolType) : Res (option Symbol) :=
  match scope with
  | None => Ok None
  | Some i =>
      match fuel with
      | O => Timeout
      | S f =>
          match ss !! i with
          | None => Panic
          | Some s =>
              match lookupOfType (Symbols s) name symbolType with
              | Some symbol => Ok (Some symbol)
              | None => resolveInScopes f ss (Parent s) name symbolType
              end
          end
      end
  end.

Definition ResolveSymbol (name : string) (symbolType : SymbolType)
  (st : SymbolTable) : Res (option Symbol) :=
  (* 1. absolute reference *)
  if HasPrefixBackslash name then
    Ok (lookupOfType (AllSymbols st) name symbolType)
  else
    match current st with
    | Ok cur =>
        (* 2. imports and aliases *)
        let imported :=
          match Imports cur !! name with
          | Some fqn => lookupOfType (AllSymbols st) fqn symbolType
          | None => None
          end in
        match imported with
        | Some symbol => Ok (Some symbol)
        | None =>
            (* 3. current scope and parent scopes *)
            match resolveInScopes (S (List.length (scopes st))) (scopes st)
                    (Some (CurrentScope st)) name symbolType with
            | Ok (Some symbol) => Ok (Some symbol)
            | Ok None =>
                (* 4. current namespace *)
                let inNamespace :=
                  if String.eqb (Namespace_ cur) "" then None
                  else lookupOfType (AllSymbols st)
                         (Namespace_ cur +:+ String BACKSLASH EmptyString
                          +:+ name) symbolType in
                match inNamespace with
                | Some symbol => Ok (Some symbol)
                | None =>
                    (* 5. global namespace *)
                    Ok (lookupOfType (AllSymbols st) name symbolType)
                end
            | Panic => Panic
            | Timeout => Timeout
            end
        end
    | Panic => Panic
    | Timeout => Timeout
    end.

Definition AddReference (name : string) (symbolType : SymbolType)
  (ln col : nat) (st : SymbolTable) : Res (SymbolReference * SymbolTable) :=
  match ResolveSymbol name symbolType st with
  | Ok resolved =>
      let ref := {| RefName := name; ResolvedSymbol := resolved;
                    RefLine := ln; RefColumn := col |} in
      Ok (ref,
          {| scopes := scopes st; CurrentScope := CurrentScope st;
             AllSymbols := AllSymbols st;
             References := References st ++ [ref];
             Namespaces := Namespaces st;
             ClassHierarchy := ClassHierarchy st |})
  | Panic => Panic
  | Timeout => Timeout
  end.

Definition AddClassHierarchy (className extends : string)
  (implements : list string) (st : SymbolTable) : SymbolTable :=
  let hierarchy := (if String.eqb extends "" then [] else [extends])
                   ++ implements in
  {| scopes := scopes st; CurrentScope := CurrentScope st;
     AllSymbols := AllSymbols st; References := References st;
     Namespaces := Namespaces st;
     ClassHierarchy := <[className := hierarchy]> (ClassHierarchy st) |}.

Definition GetUnresolvedReferences (st : SymbolTable)
  : list SymbolReference :=
  List.filter (fun ref => match ResolvedSymbol ref with
                     | None => true
                     | Some _ => false
                     end) (References st).

(** ** Semantic analysis *)

Record SemanticAnalyzer : Type := mkSemanticAnalyzer {
  SymbolTable_ : SymbolTable;
  CurrentFile : string;
  Errors : list string
}.

Definition NewSemanticAnalyzer : SemanticAnalyzer :=
  {| SymbolTable_ := NewSymbolTable; CurrentFile := ""; Errors := [] |}.

(** A visit reads and updates the analyser; it panics where the Go code
    would dereference a nil pointer. *)
Definition Visit : Type := SemanticAnalyzer -> Res SemanticAnalyzer.

Definition done_ : Visit := fun sa => Ok sa.

Definition andThen (v1 v2 : Visit) : Visit :=
  fun sa =>
    match v1 sa with
    | Ok sa' => v2 sa'
    | Panic => Panic
    | Timeout => Timeout
    end.

Definition visitAll {X} (visit : X -> Visit) : list X -> Visit :=
  fix go (xs : list X) : Visit :=
    match xs with
    | [] => done_
    | x :: rest => andThen (visit x) (go rest)
    end.

Definition withTable (sa : SemanticAnalyzer) (st : SymbolTable)
  : SemanticAnalyzer :=
  {| SymbolTable_ := st; CurrentFile := CurrentFile sa;
     Errors := Errors sa |}.

Definition onTable (f : SymbolTable -> Res SymbolTable) : Visit :=
  fun sa =>
    match f (SymbolTable_ sa) with
    | Ok st => Ok (withTable sa st)
    | Panic => Panic
    | Timeout => Timeout
    end.

(** [sa.SymbolTable.DeclareSymbol(name, t, sa.CurrentFile, line)] *)
Definition declare (name : string) (t : SymbolType) (ln : nat) : Visit :=
  fun sa =>
    match DeclareSymbol name t (CurrentFile sa) ln (SymbolTable_ sa) with
    | Ok (_, st) => Ok (withTable sa st)
    | Panic => Panic
    | Timeout => Timeout
    end.

(** [sa.SymbolTable.AddReference(name, t, line, 0)] *)
Definition refer (name : string) (t : SymbolType) (ln : nat) : Visit :=
  fun sa =>
    match AddReference name t ln 0 (SymbolTable_ sa) with
    | Ok (_, st) => Ok (withTable sa st)
    | Panic => Panic
    | Timeout => Timeout
    end.

Definition addIdentifierReference (identifier : Identifier) : Visit :=
  fun sa =>
    let ln := Line (IdentToken identifier) in
    match AddReference (IdentValue identifier) FUNCTION_SYMBOL ln 0
            (SymbolTable_ sa) with
    | Ok (ref, st) =>
        match ResolvedSymbol ref with
        | None =>
            refer (IdentValue identifier) CONSTANT_SYMBOL ln (withTable sa st)
        | Some _ => Ok (withTable sa st)
        end
    | Panic => Panic
    | Timeout => Timeout
    end.

Definition declareParameters (params : list Variable_) : Visit :=
  visitAll (fun param =>
              declare (VarName param) VARIABLE_SYMBOL (Line (VarToken param)))
    params.

Definition visitClassHeader (tok : Token) (name : Identifier)
  (superClass : option Identifier) (interfaces : list Identifier) : Visit :=
  fun sa =>
    match DeclareSymbol (IdentValue name) CLASS_SYMBOL (CurrentFile sa)
            (Line tok) (SymbolTable_ sa) with
    | Ok (symbol, st) =>
        let extends := match superClass with
                       | Some s => IdentValue s
                       | None => ""
                       end in
        Ok (withTable sa
              (AddClassHierarchy (FullyQualified symbol) extends
                 (map IdentValue interfaces) st))
    | Panic => Panic
    | Timeout => Timeout
    end.

Definition visitInterfaceMethod (m : InterfaceMethod) : Visit :=
  declare (IdentValue (IMName m)) FUNCTION_SYMBOL (Line (IMToken m)).

(** The walk over the tree.  A nil [Expression] matches no case of the
    type switch; a nil pointer of a statement type matches the case of its
    type, whose visit then dereferences it. *)
Fixpoint visitExpression (e : Expression) {struct e} : Visit :=
  let visitOpt := fun (o : option Expression) =>
    match o with
    | Some e' => visitExpression e'
    | None => done_
    end in
  match e with
  | NewExpression tok className args =>
      andThen (refer (IdentValue className) CLASS_SYMBOL (Line tok))
        (visitAll visitOpt args)
  | CallExpression tok fn args =>
      andThen
        (match fn with
         | Some (EIdentifier identifier) =>
             refer (IdentValue identifier) FUNCTION_SYMBOL (Line tok)
         | Some other => visitExpression other
         | None => done_
         end)
        (visitAll visitOpt args)
  | ObjectAccessExpression _ object property =>
      andThen (visitOpt object) (visitOpt property)
  | StaticAccessExpression tok class property =>
      andThen
        (match class with
         | Some (EIdentifier identifier) =>
             refer (IdentValue identifier) CLASS_SYMBOL (Line tok)
         | Some other => visitExpression other
         | None => done_
         end)
        (visitOpt property)
  | AssignmentExpression tok name value =>
      andThen (declare (VarName name) VARIABLE_SYMBOL (Line tok))
        (visitOpt value)
  | InfixExpression _ leftExpr _ rightExpr =>
      andThen (visitOpt leftExpr) (visitOpt rightExpr)
  | PrefixExpression _ _ rightExpr => visitOpt rightExpr
  | PostfixExpression _ leftExpr _ => visitOpt leftExpr
  | ArrayLiteral _ elements => visitAll visitOpt elements
  | AssociativeArrayLiteral _ pairs =>
      visitAll (fun pair => andThen (visitOpt (fst pair))
                              (visitOpt (snd pair))) pairs
  | IndexExpression _ leftExpr index =>
      andThen (visitOpt leftExpr) (visitOpt index)
  | AnonymousFunction _ params uses body =>
      andThen (onTable (EnterScope "function" "anonymous"))
        (andThen (declareParameters params)
           (andThen
              (visitAll (fun useVar =>
                           refer (VarName useVar) VARIABLE_SYMBOL
                             (Line (VarToken useVar))) uses)
              (andThen (visitBlockStatement body) (onTable ExitScope))))
  | YieldExpression _ key value => andThen (visitOpt key) (visitOpt value)
  | TernaryExpression _ condition trueValue falseValue =>
      andThen (visitOpt condition)
        (andThen (visitOpt trueValue) (visitOpt falseValue))
  | EIdentifier identifier => addIdentifierReference identifier
  | _ => done_
  end

with visitStatement (s : Statement) {struct s} : Visit :=
  let visitOpt := fun (o : option Expression) =>
    match o with
    | Some e' => visitExpression e'
    | None => done_
    end in
  match s with
  | NamespaceDeclaration _ name => onTable (SetNamespace (IdentValue name))
  | UseStatement _ namespace alias =>
      onTable (AddImport (IdentValue namespace)
                 (match alias with
                  | Some a => IdentValue a
                  | None => ""
                  end))
  | ClassDeclaration tok name superClass interfaces _ properties methods
      constants =>
      andThen (visitClassHeader tok name superClass interfaces)
        (andThen (onTable (EnterScope "class" (IdentValue name)))
           (andThen (visitAll visitConstantDeclaration constants)
              (andThen (visitAll visitPropertyDeclaration properties)
                 (andThen (visitAll visitMethodDeclaration methods)
                    (onTable ExitScope)))))
  | InterfaceDeclaration tok name methods =>
      andThen (declare (IdentValue name) INTERFACE_SYMBOL (Line tok))
        (andThen (onTable (EnterScope "interface" (IdentValue name)))
           (andThen (visitAll visitInterfaceMethod methods)
              (onTable ExitScope)))
  | TraitDeclaration tok name properties methods =>
      andThen (declare (IdentValue name) TRAIT_SYMBOL (Line tok))
        (andThen (onTable (EnterScope "trait" (IdentValue name)))
           (andThen (visitAll visitPropertyDeclaration properties)
              (andThen (visitAll visitMethodDeclaration methods)
                 (onTable ExitScope))))
  | FunctionDeclaration tok name params body =>
      andThen (declare (IdentValue name) FUNCTION_SYMBOL (Line tok))
        (andThen (onTable (EnterScope "function" (IdentValue name)))
           (andThen (declareParameters params)
              (andThen (visitBlockStatement body) (onTable ExitScope))))
  | ExpressionStatement _ e => visitOpt e
  | BlockStmt b => visitBlockStatement b
  | IfStatement _ condition consequence alternative =>
      andThen (visitOpt condition)
        (andThen (visitBlockStatement consequence)
           (match alternative with
            | Some b => visitBlockStatement b
            | None => done_
            end))
  | ForStatement _ init condition update body =>
      andThen (visitOpt init)
        (andThen (visitOpt condition)
           (andThen (visitOpt update) (visitBlockStatement body)))
  | WhileStatement _ condition body =>
      andThen (visitOpt condition) (visitBlockStatement body)
  | ForeachStatement tok array key value body =>
      andThen (visitOpt array)
        (andThen
           (match key with
            | Some k => declare (VarName k) VARIABLE_SYMBOL (Line tok)
            | None => done_
            end)
           (andThen (declare (VarName value) VARIABLE_SYMBOL (Line tok))
              (visitBlockStatement body)))
  | ReturnStatement _ value => visitOpt value
  | EchoStatement _ values => visitAll visitOpt values
  | TryStatement _ body catches finally =>
      andThen (visitBlockStatement body)
        (andThen (visitAll visitCatchClause catches)
           (match finally with
            | Some b => visitBlockStatement b
            | None => done_
            end))
  | ThrowStatement _ e => visitOpt e
  | NilStatement KConstantDeclaration => done_
  | NilStatement _ => fun _ => Panic
  | ConstantStmt _ | BreakStatement _ _ | ContinueStatement _ _ => done_
  end

with visitBlockStatement (b : BlockStatement) {struct b} : Visit :=
  match b with
  | mkBlock _ stmts => visitAll visitStatement stmts
  end

with visitConstantDeclaration (c : ConstantDeclaration) {struct c} : Visit :=
  match c with
  | mkConstant tok _ name value =>
      andThen (declare (IdentValue name) CONSTANT_SYMBOL (Line tok))
        (match value with
         | Some e => visitExpression e
         | None => done_
         end)
  end

with visitPropertyDeclaration (d : PropertyDeclaration) {struct d} : Visit :=
  match d with
  | mkProperty tok _ _ name value =>
      andThen (declare (VarName name) VARIABLE_SYMBOL (Line tok))
        (match value with
         | Some e => visitExpression e
         | None => done_
         end)
  end

with visitMethodDeclaration (m : MethodDeclaration) {struct m} : Visit :=
  match m with
  | mkMethod tok _ _ name params body =>
      andThen (declare (IdentValue name) FUNCTION_SYMBOL (Line tok))
        (andThen (onTable (EnterScope "method" (IdentValue name)))
           (andThen (declareParameters params)
              (andThen (visitBlockStatement body) (onTable ExitScope))))
  end

with visitCatchClause (c : CatchClause) {struct c} : Visit :=
  match c with
  | mkCatch tok exceptionType variable body =>
      andThen
        (match exceptionType with
         | Some t => refer (IdentValue t) CLASS_SYMBOL (Line tok)
         | None => done_
         end)
        (andThen (declare (VarName variable) VARIABLE_SYMBOL (Line tok))
           (visitBlockStatement body))
  end.

Definition visitProgram (program : Program_) : Visit :=
  visitAll visitStatement (Statements program).

Definition AnalyzeProgram (program : Program_) (filename : string) : Visit :=
  fun sa =>
    visitProgram program
      {| SymbolTable_ := SymbolTable_ sa; CurrentFile := filename;
         Errors := Errors sa |}.

(** [ValidateReferences]: an error for every unresolved reference;
    [getSymbolTypeString] is the constant ["symbol"]. *)
Definition ValidateReferences (sa : SemanticAnalyzer) : SemanticAnalyzer :=
  {| SymbolTable_ := SymbolTable_ sa; CurrentFile := CurrentFile sa;
     Errors :=
       Errors sa ++
       map (fun ref => "Undefined symbol '" +:+ RefName ref +:+ "' at line "
                       +:+ nat_to_string (RefLine ref))
         (GetUnresolvedReferences (SymbolTable_ sa)) |}.

Record SemanticProgram : Type := mkSemanticProgram {
  Program : Program_;
  SymbolTableOf : SymbolTable;
  AllReferences : list SymbolReference;
  UnresolvedRefs : list SymbolReference
}.

(** [ParseWithSemantics]: [inl] is the error it returns when the parser
    has recorded errors, [inr] the analysed program.  ([ClassHierarchy] and
    [NamespaceSymbols] of the Go struct are fields of the table.) *)
Definition ParseWithSemantics (fuel : nat) (inp filename : string)
  : Res (string + SemanticProgram) :=
  match Parse fuel inp with
  | Ok (program, errs) =>
      match errs with
      | _ :: _ => Ok (inl ("parsing errors: " +:+ strings_.Join errs "; "))
      | [] =>
          match AnalyzeProgram program filename NewSemanticAnalyzer with
          | Ok sa =>
              let sa' := ValidateReferences sa in
              Ok (inr {| Program := program;
                         SymbolTableOf := SymbolTable_ sa';
                         AllReferences := References (SymbolTable_ sa');
                         UnresolvedRefs :=
                           GetUnresolvedReferences (SymbolTable_ sa') |})
          | Panic => Panic
          | Timeout => Timeout
          end
      end
  | Panic => Panic
  | Timeout => Timeout
  end.

End Semantic.
Export Semantic.


(** ** Notions used in the statements *)

(** The byte [k] places after the current one: [l.ch] for [k = 0], then
    what [peekChar] and [peekCharAt] read. *)
Definition lookahead (l : Lexer) (k : nat) : ascii :=
  match k with
  | O => ch l
  | S k' => peekCharAt l k'
  end.

Fixpoint starts_with_from (l : Lexer) (k : nat) (op : string) : bool :=
  match op with
  | EmptyString => true
  | String c rest =>
      Ascii.eqb (lookahead l k) c && starts_with_from l (S k) rest
  end.

(** The input at the lexer's current byte reads [op]. *)
Definition starts_with (l : Lexer) (op : string) : bool :=
  starts_with_from l 0 op.

(** The tokens of more than one byte that [NextToken] knows, with their
    text. *)
Definition multi_char_operators : list (string * TokenType) :=
  [ ("==", EQ); ("=>", DOUBLE_ARROW); ("++", INCREMENT);
    ("->", OBJECT_ACCESS); ("!=", NOT_EQ);
    ("<=", LTE); ("<=>", SPACESHIP); ("<?php", PHP_OPEN);
    (">=", GTE); ("&&", AND); ("||", OR);
    ("?>", PHP_CLOSE); ("??", QUESTION_QUESTION);
    ("??=", QUESTION_QUESTION_ASSIGN); ("?->", QUESTION_ARROW);
    ("::", STATIC_ACCESS) ].

(** The types of the tokens of [n] calls of [NextToken]. *)
Definition token_types (n : nat) (l : Lexer) : Res (list TokenType) :=
  match tokens n l with
  | Ok toks => Ok (map Type_ toks)
  | Panic => Panic
  | Timeout => Timeout
  end.

(** Type and text of the tokens of [n] calls of [NextToken]. *)
Definition token_texts (n : nat) (l : Lexer)
  : Res (list (TokenType * string)) :=
  match tokens n l with
  | Ok toks => Ok (map (fun t => (Type_ t, Literal t)) toks)
  | Panic => Panic
  | Timeout => Timeout
  end.

(** The result of the call of [NextToken] that follows [n] earlier calls. *)
Fixpoint nth_token (n : nat) (l : Lexer) : Res (Token * Lexer) :=
  match n with
  | O => NextToken l
  | S n' =>
      match NextToken l with
      | Ok (_, l') => nth_token n' l'
      | Panic => Panic
      | Timeout => Timeout
      end
  end.

(** The lexer has read past the last byte of its input. *)
Definition at_end (l : Lexer) : Prop :=
  ch l = NUL /\ String.length (input l) <= readPosition l.

(** "Once [NextToken] has returned an EOF token, every later call returns
    an EOF token at the same line and column", for the lexer of [inp]. *)
Definition eof_is_stable (inp : string) : Prop :=
  forall n m tok1 l1 tok2 l2,
    nth_token n (New inp) = Ok (tok1, l1) ->
    Type_ tok1 = EOF ->
    nth_token m l1 = Ok (tok2, l2) ->
    Type_ tok2 = EOF /\ Line tok2 = Line tok1 /\ Column tok2 = Column tok1.

(** "Once [NextToken] has returned an EOF token, every later call returns
    an EOF token" alone. *)
Definition eof_repeats (inp : string) : Prop :=
  forall n m tok1 l1 tok2 l2,
    nth_token n (New inp) = Ok (tok1, l1) ->
    Type_ tok1 = EOF ->
    nth_token m l1 = Ok (tok2, l2) ->
    Type_ tok2 = EOF.

(** The text [s] between double quotes. *)
Definition quoted (s : string) : string :=
  String DQUOTE (s +:+ String DQUOTE EmptyString).

(** Type, line and column of the first token of [inp]. *)
Definition first_token_position (inp : string)
  : Res (TokenType * nat * nat) :=
  match NextToken (New inp) with
  | Ok (tok, _) => Ok (Type_ tok, Line tok, Column tok)
  | Panic => Panic
  | Timeout => Timeout
  end.

(** The parser of an input, ready to parse. *)
Definition parserOf (inp : string) : Res Parser := NewParser (New inp).

(** The parser [p] with one more error. *)
Definition withError (p : Parser) (msg : string) : Parser :=
  {| l := l p; curToken := curToken p; peekToken := peekToken p;
     errors := errors p ++ [msg] |}.

(** A token is an operand for the expression [e] when its prefix function
    returns [e] for it without reading further: a variable, an identifier,
    a literal. *)
Definition operand (tok : Token) (e : Expression) : Prop :=
  exists fn,
    prefixParseFns (Type_ tok) = Some fn /\
    forall fuel pe ps p,
      curToken p = tok -> callPrefix fuel pe ps fn p = Ok (Some e, p).

(** A computation [m2] refines [m1] when it returns what [m1] returns,
    wherever [m1] returns. *)
Definition refines {A} (m1 m2 : M A) : Prop :=
  forall p r, m1 p = Ok r -> m2 p = Ok r.

Definition refinesE (pe1 pe2 : nat -> M (option Expression)) : Prop :=
  forall precedence, refines (pe1 precedence) (pe2 precedence).

(** What [peekPrecedence] returns in the state [p]. *)
Definition peekPrecedenceOf (p : Parser) : nat :=
  match precedences (Type_ (peekToken p)) with
  | Some n => n
  | None => LOWEST
  end.

(** A token on line 1. *)
Definition tokenOn1 (t : TokenType) (lit : string) (col : nat) : Token :=
  {| Type_ := t; Literal := lit; Line := 1; Column := col; Position := 0 |}.

(** The parser after [n] calls of [nextToken]. *)
Fixpoint advance (n : nat) (p : Parser) : Res Parser :=
  match n with
  | O => Ok p
  | S n' =>
      match nextToken p with
      | Ok (_, p') => advance n' p'
      | Panic => Panic
      | Timeout => Timeout
      end
  end.

(** The tokens the parser steps onto in its next [n] calls of
    [nextToken]. *)
Fixpoint advanced (n : nat) (p : Parser) : list Token :=
  match n with
  | O => []
  | S n' =>
      match nextToken p with
      | Ok (_, p') => curToken p' :: advanced n' p'
      | _ => []
      end
  end.

(** "No expression node ever spans a [;]": whenever [parseExpression],
    started at the current token of [p], returns an expression and has
    moved the parser [k] tokens on, none of the tokens it stepped onto is
    a semicolon. *)
Definition no_expression_spans_semicolon : Prop :=
  forall fuel precedence p e p' k p'',
    parseExpression fuel precedence p = Ok (Some e, p') ->
    advance k p = Ok p'' ->
    l p'' = l p' ->
    Forall (fun t => Type_ t <> SEMICOLON) (advanced k p).


(** The number of tokens of type [t] among [toks]. *)
Definition count_type (t : TokenType) (toks : list Token) : nat :=
  List.length (List.filter (fun tok => tt_eqb (Type_ tok) t) toks).

(** The input has exactly one unsupported (ILLEGAL) token: among its [n]
    tokens before the EOF token. *)
Definition one_unsupported_token (inp : string) : Prop :=
  exists n toks eof lx,
    tokens n (New inp) = Ok toks /\
    nth_token n (New inp) = Ok (eof, lx) /\
    Type_ eof = EOF /\
    count_type EOF toks = 0 /\
    count_type ILLEGAL toks = 1.

(** "For every input with exactly one unsupported token, exactly one
    error is recorded." *)
Definition one_unsupported_token_one_error : Prop :=
  forall fuel inp program errs,
    one_unsupported_token inp ->
    Parse fuel inp = Ok (program, errs) ->
    List.length errs = 1.

(** The text of a run of decimal digits, and the number it denotes when
    read in base 8. *)
Definition digit_text (ds : list nat) : string :=
  string_of_list_ascii (map (fun d => ascii_of_nat (48 + d)) ds).

Definition octal_from (n : Z) (ds : list nat) : Z :=
  fold_left (fun acc d => (acc * 8 + Z.of_nat d)%Z) ds n.

Definition octal_value (ds : list nat) : Z := octal_from 0 ds.

(** The message of [parseIntegerLiteral] for the text [lit]. *)
Definition integer_error (lit : string) : string :=
  "could not parse " +:+ quoted lit +:+ " as integer".

(** The scenario of the import: a file in the namespace [Payroll] imports
    [HR\User] and instantiates [User]. *)
Definition imported_class_input : string :=
  "<?php namespace Payroll; use HR\User; class Payroll{} $u = new User(); ?>".

Definition identOn1 (name : string) (col : nat) : Identifier :=
  {| IdentToken := tokenOn1 IDENT name col; IdentValue := name |}.

(** The tree the parser returns for it. *)
Definition imported_class_tree : Program_ :=
  {| Statements :=
       [NamespaceDeclaration (tokenOn1 NAMESPACE "namespace" 7)
          (identOn1 "Payroll" 17);
        UseStatement (tokenOn1 USE "use" 26) (identOn1 "HR" 30) None;
        ExpressionStatement (tokenOn1 NAMESPACE_SEPARATOR "\" 32) None;
        ExpressionStatement (tokenOn1 IDENT "User" 33)
          (Some (EIdentifier (identOn1 "User" 33)));
        ClassDeclaration (tokenOn1 CLASS "class" 39) (identOn1 "Payroll" 45)
          None [] [] [] [] [];
        ExpressionStatement (tokenOn1 VARIABLE "$u" 57)
          (Some (AssignmentExpression (tokenOn1 ASSIGN "=" 58)
                   {| VarToken := tokenOn1 VARIABLE "$u" 57;
                      VarName := "u" |}
                   (Some (NewExpression (tokenOn1 NEW "new" 60)
                            (identOn1 "User" 64) []))))] |}.

(** The references an analysis of [program] records, and the import table
    of the scope it ends in. *)
Definition references_of (program : Program_) (file : string)
  : Res (list SymbolReference) :=
  match AnalyzeProgram program file NewSemanticAnalyzer with
  | Ok sa => Ok (References (SymbolTable_ sa))
  | Panic => Panic
  | Timeout => Timeout
  end.

Definition imports_of (program : Program_) (file : string)
  : Res (list (string * string)) :=
  match AnalyzeProgram program file NewSemanticAnalyzer with
  | Ok sa =>
      match current (SymbolTable_ sa) with
      | Ok cur => Ok (map_to_list (Imports cur))
      | Panic => Panic
      | Timeout => Timeout
      end
  | Panic => Panic
  | Timeout => Timeout
  end.

(** "Semantic analysis resolves the reference [User] at the [new] site to
    the symbol [HR\User]": the analysis succeeds and one of its references
    named [name] is resolved to the symbol [fqn]. *)
Definition resolves_to (refs : list SymbolReference) (name fqn : string)
  : Prop :=
  exists ref symbol,
    In ref refs /\ RefName ref = name /\
    ResolvedSymbol ref = Some symbol /\ FullyQualified symbol = fqn.

Definition import_is_resolved : Prop :=
  exists fuel file sp,
    ParseWithSemantics fuel imported_class_input file = Ok (inr sp) /\
    resolves_to (AllReferences sp) "User" "HR\User".

(** The symbol table of the scenario built by hand, with the import the
    scenario means: namespace [Payroll], import of [HR\User], class
    [Payroll] and, if [localUser], a class [User] of the namespace. *)
Definition payroll_table (localUser : bool) : Res SymbolTable :=
  match SetNamespace "Payroll" NewSymbolTable with
  | Ok st =>
      match AddImport "HR\User" "" st with
      | Ok st =>
          match DeclareSymbol "Payroll" CLASS_SYMBOL "payroll.php" 1 st with
          | Ok (_, st) =>
              if localUser then
                match DeclareSymbol "User" CLASS_SYMBOL "payroll.php" 1 st
                with
                | Ok (_, st) => Ok st
                | Panic => Panic
                | Timeout => Timeout
                end
              else Ok st
          | Panic => Panic
          | Timeout => Timeout
          end
      | Panic => Panic
      | Timeout => Timeout
      end
  | Panic => Panic
  | Timeout => Timeout
  end.

Definition resolve_in (t : Res SymbolTable) (name : string)
  (symbolType : SymbolType) : Res (option Symbol) :=
  match t with
  | Ok st => ResolveSymbol name symbolType st
  | Panic => Panic
  | Timeout => Timeout
  end.

(** ** Tables made by the operations of the symbol table *)

(** The tables a client can reach: [NewSymbolTable] and what the exported
    operations make of a reachable table. *)
Inductive built : SymbolTable -> Prop :=
| built_new : built NewSymbolTable
| built_enter scopeType name st st' :
    built st -> EnterScope scopeType name st = Ok st' -> built st'
| built_exit st st' :
    built st -> ExitScope st = Ok st' -> built st'
| built_namespace namespace st st' :
    built st -> SetNamespace namespace st = Ok st' -> built st'
| built_import fullyQualified alias st st' :
    built st -> AddImport fullyQualified alias st = Ok st' -> built st'
| built_declare name symbolType file ln st symbol st' :
    built st ->
    DeclareSymbol name symbolType file ln st = Ok (symbol, st') -> built st'
| built_reference name symbolType ln col st ref st' :
    built st ->
    AddReference name symbolType ln col st = Ok (ref, st') -> built st'
| built_hierarchy className extends implements st :
    built st -> built (AddClassHierarchy className extends implements st).

(** The shape the operations keep: the current scope is in the table, and
    the parent of a scope is a scope made before it. *)
Definition well_scoped (st : SymbolTable) : Prop :=
  CurrentScope st < List.length (scopes st) /\
  forall i s p, scopes st !! i = Some s -> Parent s = Some p -> p < i.

(** The name [AddImport] files an import under: the alias, or without one
    the last segment of the fully qualified name. *)
Definition import_name (fullyQualified alias : string) : string :=
  if String.eqb alias ""
  then List.last (strings_.SplitByte fullyQualified BACKSLASH) ""
  else alias.

(** ** Lexer states *)

(** [reads l l']: the lexer [l'] is [l] after some calls of [readChar]. *)
Inductive reads : Lexer -> Lexer -> Prop :=
| reads_none l : reads l l
| reads_more l l' : reads l l' -> reads l (readChar l').

(** The number of newline bytes among the first [n] bytes of [s]. *)
Fixpoint newlines (s : string) (n : nat) {struct n} : nat :=
  match n, s with
  | S n', String c rest =>
      (if Ascii.eqb c LF then 1 else 0) + newlines rest n'
  | _, _ => 0
  end.

(** What [readChar] keeps of a lexer of the input [inp]: the byte it
    holds is the one at [position], [readPosition] is one further, and the
    line is one more than the number of newlines read. *)
Definition in_step (inp : string) (l : Lexer) : Prop :=
  input l = inp /\
  readPosition l = S (position l) /\
  ch l = (if Nat.leb (String.length inp) (position l) then NUL
          else byte_at inp (position l)) /\
  line l = S (newlines inp (readPosition l)).

(** The text [s] has no byte [delimiter], no backslash and no 0 byte. *)
Fixpoint plain_text (delimiter : ascii) (s : string) : bool :=
  match s with
  | EmptyString => true
  | String c rest =>
      negb (Ascii.eqb c delimiter) && negb (Ascii.eqb c NUL)
      && negb (Ascii.eqb c BACKSLASH) && plain_text delimiter rest
  end.

(** Every byte of [s] satisfies [P]. *)
Fixpoint all_bytes (P : ascii -> bool) (s : string) : bool :=
  match s with
  | EmptyString => true
  | String c rest => P c && all_bytes P rest
  end.

(** A run of bytes that satisfy [P] cannot go on into [rest]. *)
Definition stops (P : ascii -> bool) (rest : string) : bool :=
  match rest with
  | EmptyString => true
  | String c _ => negb (P c)
  end.

(** The bytes of identifiers: the condition of [readIdentifier]'s loop. *)
Definition word_byte (c : ascii) : bool := isLetter c || isDigit c.

(** What a call of [NextToken] does to the lexer: it reads at least one
    byte, and a token other than EOF starts at a byte that is not 0. *)
Definition moved (l : Lexer) (r : Res (Token * Lexer)) : Prop :=
  match r with
  | Ok (tok, l') =>
      reads (readChar l) l' /\
      (Type_ tok <> EOF -> ch (skipWhitespace l) <> NUL)
  | _ => True
  end.


(** ** Notions for the parser *)

(** The variable [$name] whose token is on line 1. *)
Definition variableOn1 (name : string) (col : nat) : Variable_ :=
  {| VarToken := tokenOn1 VARIABLE (String "$" name) col; VarName := name |}.

(** The token types that have an infix function and no precedence. *)
Definition infix_without_precedence : list TokenType :=
  [ASSIGN; INCREMENT; DECREMENT; AND; OR; LBRACKET].

(** The tree of [left op right]. *)
Definition infixOf (op : Token) (left right : Expression) : Expression :=
  InfixExpression op (Some left) (Literal op) (Some right).

(** The number a run of decimal digits denotes. *)
Definition decimal_from (n : Z) (ds : list nat) : Z :=
  fold_left (fun acc d => (acc * 10 + Z.of_nat d)%Z) ds n.

Definition decimal_value (ds : list nat) : Z := decimal_from 0 ds.

(** The tree of [op right], a prefix operator applied to [right]. *)
Definition prefixOf (op : Token) (right : Expression) : Expression :=
  PrefixExpression op (Literal op) (Some right).

(** ** Trees without nil statements *)

(** No statement of the tree is a nil pointer of a statement type. *)
Fixpoint non_nil_expression (e : Expression) {struct e} : bool :=
  let opt := fun (o : option Expression) =>
    match o with
    | Some e' => non_nil_expression e'
    | None => true
    end in
  match e with
  | InterpolatedString _ parts => forallb non_nil_expression parts
  | AssignmentExpression _ _ value => opt value
  | InfixExpression _ leftExpr _ rightExpr => opt leftExpr && opt rightExpr
  | PrefixExpression _ _ rightExpr => opt rightExpr
  | PostfixExpression _ leftExpr _ => opt leftExpr
  | TernaryExpression _ condition trueValue falseValue =>
      opt condition && opt trueValue && opt falseValue
  | CallExpression _ fn args => opt fn && forallb opt args
  | NewExpression _ _ args => forallb opt args
  | ObjectAccessExpression _ object property => opt object && opt property
  | StaticAccessExpression _ class property => opt class && opt property
  | ArrayLiteral _ elements => forallb opt elements
  | AssociativeArrayLiteral _ pairs =>
      forallb (fun pair => opt (fst pair) && opt (snd pair)) pairs
  | IndexExpression _ leftExpr index => opt leftExpr && opt index
  | AnonymousFunction _ _ _ body => non_nil_block body
  | YieldExpression _ key value => opt key && opt value
  | EIdentifier _ | EVariable _ | IntegerLiteral _ _ | FloatLiteral _ _
  | StringLiteral _ _ | BooleanLiteral _ _ => true
  end

with non_nil_statement (s : Statement) {struct s} : bool :=
  let opt := fun (o : option Expression) =>
    match o with
    | Some e' => non_nil_expression e'
    | None => true
    end in
  let optBlock := fun (o : option BlockStatement) =>
    match o with
    | Some b => non_nil_block b
    | None => true
    end in
  match s with
  | ExpressionStatement _ e => opt e
  | FunctionDeclaration _ _ _ body => non_nil_block body
  | ReturnStatement _ value => opt value
  | BlockStmt b => non_nil_block b
  | IfStatement _ condition consequence alternative =>
      opt condition && non_nil_block consequence && optBlock alternative
  | EchoStatement _ values => forallb opt values
  | ForStatement _ init condition update body =>
      opt init && opt condition && opt update && non_nil_block body
  | WhileStatement _ condition body => opt condition && non_nil_block body
  | ForeachStatement _ array _ _ body => opt array && non_nil_block body
  | BreakStatement _ level => opt level
  | ContinueStatement _ level => opt level
  | ClassDeclaration _ _ _ _ _ properties methods constants =>
      forallb non_nil_property properties && forallb non_nil_method methods
      && forallb non_nil_constant constants
  | InterfaceDeclaration _ _ _ => true
  | TraitDeclaration _ _ properties methods =>
      forallb non_nil_property properties && forallb non_nil_method methods
  | ConstantStmt c => non_nil_constant c
  | NamespaceDeclaration _ _ => true
  | UseStatement _ _ _ => true
  | TryStatement _ body catches finally =>
      non_nil_block body && forallb non_nil_catch catches
      && optBlock finally
  | ThrowStatement _ e => opt e
  | NilStatement _ => false
  end

with non_nil_block (b : BlockStatement) {struct b} : bool :=
  match b with
  | mkBlock _ stmts => forallb non_nil_statement stmts
  end

with non_nil_property (d : PropertyDeclaration) {struct d} : bool :=
  match d with
  | mkProperty _ _ _ _ value =>
      match value with
      | Some e => non_nil_expression e
      | None => true
      end
  end

with non_nil_method (m : MethodDeclaration) {struct m} : bool :=
  match m with
  | mkMethod _ _ _ _ _ body => non_nil_block body
  end

with non_nil_constant (c : ConstantDeclaration) {struct c} : bool :=
  match c with
  | mkConstant _ _ _ value =>
      match value with
      | Some e => non_nil_expression e
      | None => true
      end
  end

with non_nil_catch (c : CatchClause) {struct c} : bool :=
  match c with
  | mkCatch _ _ _ body => non_nil_block body
  end.

Definition non_nil_program (program : Program_) : bool :=
  forallb non_nil_statement (Statements program).

(** ** What a visit keeps of the analyser *)

(** [st'] has the scopes of [st], with their parents, and its references. *)
Definition grows (st st' : SymbolTable) : Prop :=
  List.length (scopes st) <= List.length (scopes st') /\
  (forall i s, scopes st !! i = Some s ->
     exists s', scopes st' !! i = Some s' /\ Parent s' = Parent s) /\
  exists refs, References st' = References st ++ refs.

Definition carries (sa sa' : SemanticAnalyzer) : Prop :=
  well_scoped (SymbolTable_ sa') /\
  grows (SymbolTable_ sa) (SymbolTable_ sa') /\
  Errors sa' = Errors sa /\ CurrentFile sa' = CurrentFile sa.

(** The visit returns, in the scope in which it began. *)
Definition stays (v : Visit) : Prop :=
  forall sa, well_scoped (SymbolTable_ sa) ->
    exists sa', v sa = Ok sa' /\ carries sa sa' /\
      CurrentScope (SymbolTable_ sa') = CurrentScope (SymbolTable_ sa).

(** The visit returns, in the parent of the scope in which it began. *)
Definition leaves (v : Visit) : Prop :=
  forall sa cur q, well_scoped (SymbolTable_ sa) ->
    current (SymbolTable_ sa) = Ok cur -> Parent cur = Some q ->
    exists sa', v sa = Ok sa' /\ carries sa sa' /\
      CurrentScope (SymbolTable_ sa') = q.

(** A function that makes a closure, and a class with a method. *)
Definition closure_in_function : string :=
  "<?php function pay($a) { $f = function($x) { return $x; }; return $f; } class Clerk { public function work($h) { return pay($h); } } ?>".

(** The message [ValidateReferences] records for an unresolved reference
    to [name] on line [ln]. *)
Definition undefined_symbol (name : string) (ln : nat) : string :=
  "Undefined symbol '" +:+ name +:+ "' at line " +:+ nat_to_string ln.

(** The statement [name(args);]. *)
Definition callOf (stmt call : Token) (identifier : Identifier)
  (args : list (option Expression)) : Statement :=
  ExpressionStatement stmt
    (Some (CallExpression call (Some (EIdentifier identifier)) args)).

(** A call of [total] before the declaration of [total]. *)
Definition call_before_declaration : string :=
  "<?php total(); function total() { return 1; } ?>".

(** The bytes after [<] that [NextToken] reads while it looks for [<?php]
    and does not find it. *)
Definition tried_after_less (l : Lexer) : nat :=
  if Ascii.eqb (lookahead l 2) "p"
  then if Ascii.eqb (lookahead l 3) "h" then 3 else 2
  else 1.

(** [rest] does not go on a digit run: it starts neither with a digit nor
    with a point and a digit. *)
Definition no_fraction (rest : string) : bool :=
  match rest with
  | EmptyString => true
  | String c tail =>
      negb (isDigit c)
      && negb (Ascii.eqb c "."
               && match tail with
                  | String d _ => isDigit d
                  | EmptyString => false
                  end)
  end.

(** ** Parser states over an input *)

(** The lexer after [n] calls of [NextToken]. *)
Fixpoint lexer_after (n : nat) (l : Lexer) : Res Lexer :=
  match n with
  | O => Ok l
  | S n' =>
      match NextToken l with
      | Ok (_, l') => lexer_after n' l'
      | Panic => Panic
      | Timeout => Timeout
      end
  end.

(** A VARIABLE token has the [$] before its name. *)
Definition token_ok (tok : Token) : Prop :=
  Type_ tok = VARIABLE -> exists name, Literal tok = String "$" name.

(** The states of a parser of the input [inp]: its lexer has read some
    tokens of [inp], and its two tokens are tokens. *)
Definition parser_of (inp : string) (p : Parser) : Prop :=
  (exists n, lexer_after n (New inp) = Ok (l p)) /\
  token_ok (curToken p) /\ token_ok (peekToken p).

(** Tokenising [inp] panics. *)
Definition lexer_panics (inp : string) : Prop :=
  exists n, tokens n (New inp) = Panic.

(** [guarded inp v m Q]: from a state of a parser of [inp] (whose current
    token is a VARIABLE, when [v] is set) the computation [m] panics only
    where the lexer does, and otherwise returns such a state again, and a
    value that satisfies [Q]. *)
Definition guarded (inp : string) (v : bool) {A} (m : M A) (Q : A -> Prop)
  : Prop :=
  forall p, parser_of inp p ->
    (v = true -> Type_ (curToken p) = VARIABLE) ->
    match m p with
    | Ok (a, p') => parser_of inp p' /\ Q a
    | Panic => lexer_panics inp
    | Timeout => True
    end.

(** A computation that only reads the state. *)
Definition reading {A} (m : M A) : Prop :=
  forall p, exists a, m p = Ok (a, p).

Definition any {A} : A -> Prop := fun _ => True.

(** The last byte of [s] is a backslash. *)
Definition ends_in_backslash (s : string) : bool :=
  match String.length s with
  | O => false
  | S n => Ascii.eqb (byte_at s n) BACKSLASH
  end.

(** ** What is left to parse *)

(** The bytes the lexer has not read, and one. *)
Definition rest_of (inp : string) (lx : Lexer) : nat :=
  S (String.length inp) - readPosition lx.

(** The tokens the parser holds that are not EOF yet. *)
Definition pending (p : Parser) : nat :=
  if tt_eqb (Type_ (peekToken p)) EOF
  then (if tt_eqb (Type_ (curToken p)) EOF then 0 else 1)
  else 2.

(** A measure of the input left: every [nextToken] lowers it, until the
    lexer is past the end and both tokens are EOF. *)
Definition weight (inp : string) (p : Parser) : nat :=
  3 * rest_of inp (l p) + pending p.

(** [settles inp N m]: from a state of weight [N] at most, of a parser of
    [inp], the computation [m] does not run out of fuel, and leaves no more
    weight than it found. *)
Definition settles (inp : string) (N : nat) {A} (m : M A) : Prop :=
  forall p, in_step inp (l p) -> weight inp p <= N ->
    m p <> Timeout /\
    forall a p', m p = Ok (a, p') ->
      in_step inp (l p') /\ weight inp p' <= weight inp p.

(** A computation that changes nothing, if it returns. *)
Definition steady {A} (m : M A) : Prop :=
  forall p, m p = Panic \/ exists a, m p = Ok (a, p).

(** ** Errors and nil statements *)

Definition opt_non_nil (o : option Expression) : bool :=
  match o with
  | Some e => non_nil_expression e
  | None => true
  end.

Definition pair_non_nil (pair : option Expression * option Expression)
  : bool :=
  opt_non_nil (fst pair) && opt_non_nil (snd pair).

Definition members_non_nil (m : Members) : bool :=
  forallb non_nil_property (mProperties m)
  && forallb non_nil_method (mMethods m)
  && forallb non_nil_constant (mConstants m).

(** What a value a parsing function returns is, when the function has
    recorded no error: a tree has no nil statement, and a pointer whose nil
    the caller turns into a nil statement, or returns at once, is not
    nil. *)
Class Sound (A : Type) : Type := sound : A -> Prop.

#[export] Instance sound_expression : Sound (option Expression) :=
  fun o => opt_non_nil o = true.
#[export] Instance sound_expressions : Sound (list (option Expression)) :=
  fun xs => forallb opt_non_nil xs = true.
#[export] Instance sound_pairs
  : Sound (list (option Expression * option Expression)) :=
  fun pairs => forallb pair_non_nil pairs = true.
#[export] Instance sound_pairs_pointer
  : Sound (option (list (option Expression * option Expression))) :=
  fun o => match o with
           | Some pairs => forallb pair_non_nil pairs = true
           | None => False
           end.
#[export] Instance sound_statement : Sound Statement :=
  fun s => non_nil_statement s = true.
#[export] Instance sound_statements : Sound (list Statement) :=
  fun stmts => forallb non_nil_statement stmts = true.
#[export] Instance sound_statement_pointer : Sound (option Statement) :=
  fun o => match o with
           | Some s => non_nil_statement s = true
           | None => False
           end.
#[export] Instance sound_block : Sound BlockStatement :=
  fun b => non_nil_block b = true.
#[export] Instance sound_block_pointer : Sound (option BlockStatement) :=
  fun o => match o with
           | Some b => non_nil_block b = true
           | None => True
           end.
#[export] Instance sound_constant : Sound (option ConstantDeclaration) :=
  fun o => match o with
           | Some c => non_nil_constant c = true
           | None => False
           end.
#[export] Instance sound_property : Sound (option PropertyDeclaration) :=
  fun o => match o with
           | Some d => non_nil_property d = true
           | None => True
           end.
#[export] Instance sound_method : Sound (option MethodDeclaration) :=
  fun o => match o with
           | Some m => non_nil_method m = true
           | None => True
           end.
#[export] Instance sound_catch : Sound (option CatchClause) :=
  fun o => match o with
           | Some c => non_nil_catch c = true
           | None => True
           end.
#[export] Instance sound_catches : Sound (list CatchClause) :=
  fun catches => forallb non_nil_catch catches = true.
#[export] Instance sound_interface_method : Sound (option InterfaceMethod) :=
  fun _ => True.
#[export] Instance sound_identifier : Sound (option Identifier) :=
  fun _ => True.
#[export] Instance sound_members : Sound Members :=
  fun m => members_non_nil m = true.
#[export] Instance sound_program : Sound Program_ :=
  fun program => non_nil_program program = true.
(** A pointer to anything else: not nil. *)
#[export] Instance sound_pointer (A : Type) : Sound (option A) | 50 :=
  fun o => o <> None.
(** A value without statements. *)
#[export] Instance sound_plain (A : Type) : Sound A | 100 := fun _ => True.

(** [keeps m]: the computation drops no error. *)
Definition keeps {A} (m : M A) : Prop :=
  forall p a p', m p = Ok (a, p') ->
    List.length (errors p) <= List.length (errors p').

(** [accounts m Q]: where the computation returns without a new error,
    its value satisfies [Q]. *)
Definition accounts {A} (m : M A) (Q : A -> Prop) : Prop :=
  forall p a p', m p = Ok (a, p') ->
    List.length (errors p') <= List.length (errors p) -> Q a.

(** ** How the table files its symbols *)

(** [SymbolTable.FindSymbolsInNamespace]: the symbols declared in a
    namespace, in the order of their declarations; a namespace without
    symbols has the nil slice. *)
Definition FindSymbolsInNamespace (namespace : string) (st : SymbolTable)
  : list Symbol :=
  match Namespaces st !! namespace with
  | Some symbols => symbols
  | None => []
  end.

(** The key under which [makeFullyQualified] files the name [name]
    declared in the namespace [namespace]. *)
Definition qualified (namespace name : string) : string :=
  if HasPrefixBackslash name then name
  else if String.eqb namespace "" then name
  else namespace +:+ String BACKSLASH EmptyString +:+ name.

(** [sym] is listed in its namespace. *)
Definition listed (st : SymbolTable) (sym : Symbol) : Prop :=
  In sym (FindSymbolsInNamespace (SymNamespace sym) st).

(** What the three indexes of the table have to do with each other. *)
Definition filed (st : SymbolTable) : Prop :=
  (forall namespace sym,
     In sym (FindSymbolsInNamespace namespace st) ->
     SymNamespace sym = namespace /\
     FullyQualified sym = qualified namespace (SymName sym) /\
     is_Some (AllSymbols st !! FullyQualified sym)) /\
  (forall fqn sym,
     AllSymbols st !! fqn = Some sym ->
     FullyQualified sym = fqn /\ listed st sym) /\
  (forall i s name sym,
     scopes st !! i = Some s -> Symbols s !! name = Some sym ->
     SymName sym = name /\ listed st sym) /\
  (forall ref sym,
     In ref (References st) -> ResolvedSymbol ref = Some sym ->
     listed st sym).

(** The visit leaves a table made by the operations, when it returns. *)
Definition builds (v : Visit) : Prop :=
  forall sa sa', built (SymbolTable_ sa) -> v sa = Ok sa' ->
    built (SymbolTable_ sa').

(** ** Places in the input *)

(** The column [readChar] has counted when it has read the first [n] bytes
    of [s]: the number of bytes read since the last newline. *)
Fixpoint column_after (s : string) (n : nat) : nat :=
  match n with
  | O => 0
  | S n' =>
      if Nat.ltb n' (String.length s) && Ascii.eqb (byte_at s n') LF
      then 0
      else S (column_after s n')
  end.

(** A lexer of the input [inp] between two calls of [readChar]: in step,
    with the column counted from the last newline read. *)
Definition placed (inp : string) (l : Lexer) : Prop :=
  in_step inp l /\ column l = column_after inp (readPosition l).

(** The lexer holds the byte at offset [n] of the input [inp]. *)
Definition stands_at (inp : string) (n : nat) (l : Lexer) : Prop :=
  placed inp l /\ position l = n.

(** ** The error list as a log *)

(** The parser [p] with the error list [es]. *)
Definition withErrors (p : Parser) (es : list string) : Parser :=
  {| l := l p; curToken := curToken p; peekToken := peekToken p;
     errors := es |}.

(** [writes m]: the computation only appends to the error list, and what
    it does and appends does not depend on the errors recorded before. *)
Definition writes {A} (m : M A) : Prop :=
  forall p a p', m p = Ok (a, p') ->
    exists new,
      errors p' = errors p ++ new /\
      forall es, m (withErrors p es) = Ok (a, withErrors p' (es ++ new)).
(** ** The loop bounds of the lexer are never reached *)

Section LexerBounds.

Lemma readChar_input (l : Lexer) : input (readChar l) = input l.
Proof. reflexivity. Qed.

Lemma readChar_readPosition (l : Lexer) :
  readPosition (readChar l) = S (readPosition l).
Proof. reflexivity. Qed.

Lemma readChar_at_end (l : Lexer) :
  String.length (input l) <= readPosition l -> ch (readChar l) = NUL.
Proof.
  intros H. unfold readChar; simpl.
  destruct (Nat.leb_spec (String.length (input l)) (readPosition l));
    [reflexivity | lia].
Qed.

Lemma readWhile_false cond fuel l :
  cond (ch l) = false -> readWhile cond fuel l = l.
Proof. intros H. destruct fuel; simpl; rewrite H; reflexivity. Qed.

Lemma readWhile_input cond fuel : forall l,
  input (readWhile cond fuel l) = input l.
Proof.
  induction fuel as [|f IH]; intros l; simpl;
    destruct (cond (ch l)); try reflexivity.
  rewrite IH. reflexivity.
Qed.

Lemma readWhile_readPosition cond fuel : forall l,
  readPosition l <= readPosition (readWhile cond fuel l).
Proof.
  induction fuel as [|f IH]; intros l; simpl;
    destruct (cond (ch l)); try lia.
  specialize (IH (readChar l)). rewrite readChar_readPosition in IH. lia.
Qed.

Lemma readWhile_progress cond f l :
  cond (ch l) = true ->
  S (readPosition l) <= readPosition (readWhile cond (S f) l).
Proof.
  intros H. simpl. rewrite H.
  pose proof (readWhile_readPosition cond f (readChar l)) as P.
  rewrite readChar_readPosition in P. exact P.
Qed.

(** A loop whose condition is false at byte 0 leaves through its condition
    whenever it is given more steps than there are bytes left. *)
Lemma readWhile_exit cond (Hnul : cond NUL = false) : forall fuel l,
  String.length (input l) - readPosition l < fuel ->
  cond (ch (readWhile cond fuel l)) = false.
Proof.
  induction fuel as [|f IH]; intros l Hlt; [lia|].
  simpl. destruct (cond (ch l)) eqn:E; [|exact E].
  destruct (Nat.le_gt_cases (String.length (input l)) (readPosition l))
    as [Hend|Hin].
  - rewrite readWhile_false; rewrite (readChar_at_end l Hend); exact Hnul.
  - apply IH. rewrite readChar_input, readChar_readPosition. lia.
Qed.

Lemma loop_bound_enough (l : Lexer) :
  String.length (input l) - readPosition l < loop_bound l.
Proof. unfold loop_bound. lia. Qed.

Lemma skipWhitespace_exit (l : Lexer) :
  isWhitespace (ch (skipWhitespace l)) = false.
Proof.
  apply readWhile_exit; [reflexivity | apply loop_bound_enough].
Qed.

Lemma readIdentifier_exit (l : Lexer) :
  let c := ch (snd (readIdentifier l)) in isLetter c || isDigit c = false.
Proof.
  apply (readWhile_exit (fun c => isLetter c || isDigit c));
    [reflexivity | apply loop_bound_enough].
Qed.

Lemma readString_loop_input d fuel : forall l,
  input (readString_loop d fuel l) = input l.
Proof.
  induction fuel as [|f IH]; intros l; simpl; [reflexivity|].
  destruct (_ || _); [reflexivity|].
  rewrite IH. destruct (Ascii.eqb _ BACKSLASH); reflexivity.
Qed.

(** [readString] leaves its loop through [break]. *)
Lemma readString_loop_exit d : forall fuel l,
  String.length (input l) - readPosition l < fuel ->
  let c := ch (readString_loop d fuel l) in
  Ascii.eqb c d || Ascii.eqb c NUL = true.
Proof.
  induction fuel as [|f IH]; intros l Hlt; [lia|].
  cbn [readString_loop].
  destruct (Ascii.eqb (ch (readChar l)) d || Ascii.eqb (ch (readChar l)) NUL)
    eqn:E; [exact E|].
  destruct (Nat.le_gt_cases (String.length (input l)) (readPosition l))
    as [Hend|Hin].
  - rewrite (readChar_at_end l Hend) in E.
    rewrite orb_true_r in E. discriminate.
  - apply IH. destruct (Ascii.eqb _ BACKSLASH);
      repeat rewrite ?readChar_input, ?readChar_readPosition; lia.
Qed.

Lemma skipWhitespace_input l : input (skipWhitespace l) = input l.
Proof. apply readWhile_input. Qed.

Lemma skipWhitespace_readPosition l :
  readPosition l <= readPosition (skipWhitespace l).
Proof. apply readWhile_readPosition. Qed.

Lemma peekChar_in_range (l : Lexer) :
  peekChar l <> NUL -> readPosition l < String.length (input l).
Proof.
  unfold peekChar. intros H.
  destruct (Nat.leb_spec (String.length (input l)) (readPosition l));
    [congruence | lia].
Qed.

Lemma NextToken_rec_eq fuel l0 :
  NextToken_rec (S fuel) l0 =
  ltac:(let t := eval cbv beta iota delta [NextToken_rec] in
                   (NextToken_rec (S fuel) l0) in
        let t := eval cbv beta iota zeta in t in exact t).
Proof. reflexivity. Qed.

Lemma slice_no_timeout s lo hi : slice s lo hi <> Timeout.
Proof. unfold slice. destruct (_ && _); discriminate. Qed.

Lemma skipComment_progress l :
  ch l = "/"%char -> peekChar l = "/"%char ->
  input (skipComment l) = input l /\
  S (readPosition l) <= readPosition (skipComment l).
Proof.
  intros Hc Hp. unfold skipComment. rewrite Hc, Hp, !Ascii.eqb_refl.
  cbn [andb]. split.
  - apply readWhile_input.
  - unfold loop_bound. apply readWhile_progress. rewrite Hc. reflexivity.
Qed.

Local Ltac break_if :=
  match goal with
  | |- context [if ?b then _ else _] => destruct b eqn:?
  end.

(** The recursion of [NextToken] after a line comment ends before its
    bound: the model never answers [Timeout]. *)
Lemma NextToken_rec_no_timeout : forall fuel l,
  String.length (input l) - readPosition l < fuel ->
  NextToken_rec fuel l <> Timeout.
Proof.
  induction fuel as [|f IH]; intros l Hlt; [lia|].
  rewrite NextToken_rec_eq.
  pose proof (skipWhitespace_input l) as Hi.
  pose proof (skipWhitespace_readPosition l) as Hr.
  set (l1 := skipWhitespace l) in *.
  destruct (Ascii.eqb (ch l1) "/") eqn:Hc.
  2:{ unfold advance, withLiteral, readString, readIdentifier, readNumber.
      repeat break_if; try discriminate;
      repeat match goal with
      | |- context [match slice ?a ?b ?c with _ => _ end] =>
          let E := fresh "E" in
          destruct (slice a b c) eqn:E;
          [ | | exfalso; exact (slice_no_timeout _ _ _ E)]
      end; discriminate. }
  destruct (Ascii.eqb (ch l1) "=") eqn:H1.
  { apply Ascii.eqb_eq in Hc, H1. congruence. }
  destruct (Ascii.eqb (ch l1) "+") eqn:H2.
  { apply Ascii.eqb_eq in Hc, H2. congruence. }
  destruct (Ascii.eqb (ch l1) "-") eqn:H3.
  { apply Ascii.eqb_eq in Hc, H3. congruence. }
  destruct (Ascii.eqb (ch l1) "*") eqn:H4.
  { apply Ascii.eqb_eq in Hc, H4. congruence. }
  destruct (Ascii.eqb (peekChar l1) "/") eqn:Hp;
    [|unfold advance; discriminate].
  apply Ascii.eqb_eq in Hc, Hp.
  destruct (skipComment_progress l1 Hc Hp) as [Hi2 Hr2].
  apply IH. rewrite Hi2, Hi.
  assert (readPosition l1 < String.length (input l1)).
  { apply peekChar_in_range. rewrite Hp. discriminate. }
  rewrite Hi in H. lia.
Qed.

Lemma NextToken_no_timeout (l : Lexer) : NextToken l <> Timeout.
Proof. apply NextToken_rec_no_timeout, loop_bound_enough. Qed.

(** *** What the lexer reads ahead *)

Lemma skipWhitespace_id l :
  isWhitespace (ch l) = false -> skipWhitespace l = l.
Proof. intros H. apply readWhile_false. exact H. Qed.

Lemma ch_readChar l : ch (readChar l) = lookahead l 1.
Proof.
  unfold lookahead, peekCharAt, readChar; cbn [ch].
  rewrite Nat.add_0_r. reflexivity.
Qed.

Lemma peekChar_lookahead l : peekChar l = lookahead l 1.
Proof.
  unfold lookahead, peekCharAt, peekChar. rewrite Nat.add_0_r. reflexivity.
Qed.

Lemma peekCharAt_lookahead l k : peekCharAt l k = lookahead l (S k).
Proof. reflexivity. Qed.

Lemma lookahead_readChar l k : lookahead (readChar l) k = lookahead l (S k).
Proof.
  destruct k as [|k].
  - apply ch_readChar.
  - unfold lookahead, peekCharAt, readChar; cbn [readPosition input].
    replace (S (readPosition l) + k) with (readPosition l + S k) by lia.
    reflexivity.
Qed.

End LexerBounds.

(** ** Longest match of the operators *)

Ltac split_start lx H :=
  unfold starts_with in H; cbn [starts_with_from] in H;
  repeat (apply andb_true_iff in H;
          let H1 := fresh "Hb" in destruct H as [H1 H]);
  repeat match goal with
  | Hb : Ascii.eqb _ _ = true |- _ => apply Ascii.eqb_eq in Hb
  end; clear H; change (lookahead lx 0) with (ch lx) in *.

(** The lexer at a place where the input reads one of its multi-byte
    operators, and none of the longer ones, returns the token of that
    operator, with the operator as its text, and consumes its bytes. *)
Lemma NextToken_longest_operator : forall (l : Lexer) op ty,
  In (op, ty) multi_char_operators ->
  starts_with l op = true ->
  (forall op' ty', In (op', ty') multi_char_operators ->
     starts_with l op' = true -> String.length op' <= String.length op) ->
  exists tok l', NextToken l = Ok (tok, l') /\
     Type_ tok = ty /\ Literal tok = op /\
     readPosition l' = readPosition l + String.length op.
Proof.
  intros l op ty Hin Hs Hmax.
  assert (Hno : forall op' ty', In (op', ty') multi_char_operators ->
            String.length op < String.length op' ->
            starts_with l op' = false).
  { intros op' ty' Hi Hlt. destruct (starts_with l op') eqn:E; [|reflexivity].
    specialize (Hmax _ _ Hi E). lia. }
  clear Hmax.
  pose proof (Hno "<=>" SPACESHIP ltac:(cbn; tauto)) as N1.
  pose proof (Hno "??=" QUESTION_QUESTION_ASSIGN ltac:(cbn; tauto)) as N2.
  clear Hno.
  unfold starts_with in N1, N2; cbn [starts_with_from] in N1, N2.
  cbn in Hin.
  repeat (destruct Hin as [Hin|Hin]; [inversion Hin; subst op ty; clear Hin|]);
    try contradiction; split_start l Hs.
  all: first [specialize (N1 ltac:(cbn; lia)) | clear N1];
       first [specialize (N2 ltac:(cbn; lia)) | clear N2].
  all: change (lookahead l 0) with (ch l) in *.
  all: repeat match goal with
       | H : ch _ = _, N : _ = false |- _ => rewrite H in N
       | H : lookahead _ _ = _, N : _ = false |- _ => rewrite H in N
       end.
  all: cbn [Ascii.eqb Bool.eqb andb] in *.
  all: unfold NextToken, loop_bound; rewrite NextToken_rec_eq;
    match goal with H : ch ?lx = _ |- _ =>
      rewrite skipWhitespace_id by (rewrite H; reflexivity) end.
  all: unfold lexLess, lexQuestion, twoCharToken, advance, single, tokenAt,
         newToken.
  all: rewrite ?peekChar_lookahead, ?peekCharAt_lookahead,
         ?lookahead_readChar, ?ch_readChar.
  all: repeat match goal with
       | H : ch _ = _ |- _ => rewrite !H
       | H : lookahead _ _ = _ |- _ => rewrite !H
       end.
  all: try rewrite andb_true_r in N1; try rewrite andb_true_r in N2;
       try rewrite N1; try rewrite N2.
  all: cbn [Ascii.eqb Bool.eqb andb orb fst snd].
  all: (eexists _, _; split; [reflexivity|]; cbn; repeat split;
        rewrite !readChar_readPosition; lia).
Qed.

(** ** End of input *)

Lemma NextToken_at_end (l : Lexer) :
  at_end l ->
  NextToken l = Ok (tokenAt EOF "" l, readChar l) /\ at_end (readChar l).
Proof.
  intros [Hch Hlen]. split.
  - unfold NextToken, loop_bound. rewrite NextToken_rec_eq.
    rewrite skipWhitespace_id by (rewrite Hch; reflexivity).
    rewrite Hch. reflexivity.
  - split.
    + apply readChar_at_end. exact Hlen.
    + rewrite readChar_input, readChar_readPosition. lia.
Qed.

Lemma readChar_at_end_position (l : Lexer) :
  String.length (input l) <= readPosition l ->
  line (readChar l) = line l /\ column (readChar l) = S (column l).
Proof.
  intros H. pose proof (readChar_at_end l H) as E.
  unfold readChar in *; cbn [ch line column] in *.
  rewrite E. split; reflexivity.
Qed.

(** C5 (as amended). Once the lexer has read past the end of its input,
    where [NextToken] returns EOF, each later call returns an EOF token
    again, on the same line and with the column one further at each call:
    the call after [n] others returns EOF at column [column + n]. *)
Theorem eof_repeats_with_advancing_column : forall n (l : Lexer),
  ch l = NUL ->
  String.length (input l) <= readPosition l ->
  exists l',
    nth_token n l
    = Ok ({| Type_ := EOF; Literal := ""; Line := line l;
             Column := column l + n; Position := 0 |}, l')
    /\ at_end l'.
Proof.
  induction n as [|n IH]; intros l Hch Hlen.
  - destruct (NextToken_at_end l (conj Hch Hlen)) as [E Hend].
    exists (readChar l). cbn [nth_token]. rewrite E.
    unfold tokenAt. rewrite Nat.add_0_r. split; [reflexivity|exact Hend].
  - destruct (NextToken_at_end l (conj Hch Hlen)) as [E [Hch' Hlen']].
    cbn [nth_token]. rewrite E.
    destruct (IH (readChar l) Hch' Hlen') as [l' [E' Hend]].
    destruct (readChar_at_end_position l Hlen) as [Hl Hc].
    exists l'. rewrite E', Hl, Hc. split; [|exact Hend].
    do 3 f_equal. lia.
Qed.

Lemma eof_repeats_with_advancing_column_witness :
  exists l',
    nth_token 2 (New "$x;")
    = Ok ({| Type_ := EOF; Literal := ""; Line := 1; Column := 4;
             Position := 0 |}, l')
    /\
    exists l'',
      nth_token 3 l'
      = Ok ({| Type_ := EOF; Literal := ""; Line := line l';
               Column := column l' + 3; Position := 0 |}, l'')
      /\ at_end l''.
Proof.
  eexists. split; [vm_compute; reflexivity|].
  apply (eof_repeats_with_advancing_column 3); [reflexivity|].
  vm_compute. lia.
Defined.

(** The claim as it is stated fails on the empty input, where the second
    EOF is one column after the first, and its first half fails on an
    input with a NUL byte, where an identifier follows the EOF token. *)
Lemma eof_position_not_stable :
  ~ eof_is_stable "" /\ ~ eof_repeats (String NUL "a").
Proof.
  split.
  - intros H.
    assert (E : exists tok1 l1 tok2 l2,
               nth_token 0 (New "") = Ok (tok1, l1) /\ Type_ tok1 = EOF /\
               nth_token 0 l1 = Ok (tok2, l2) /\
               Column tok1 = 1 /\ Column tok2 = 2).
    { do 4 eexists. split; [vm_compute; reflexivity|].
      split; [reflexivity|]. split; [vm_compute; reflexivity|].
      split; reflexivity. }
    destruct E as (tok1 & l1 & tok2 & l2 & E1 & T1 & E2 & C1 & C2).
    destruct (H 0 0 _ _ _ _ E1 T1 E2) as [_ [_ Hc]].
    rewrite C1, C2 in Hc. discriminate Hc.
  - intros H.
    assert (E : exists tok1 l1 tok2 l2,
               nth_token 0 (New (String NUL "a")) = Ok (tok1, l1) /\
               Type_ tok1 = EOF /\
               nth_token 0 l1 = Ok (tok2, l2) /\ Type_ tok2 = IDENT).
    { do 4 eexists. split; [vm_compute; reflexivity|].
      split; [reflexivity|]. split; [vm_compute; reflexivity|].
      reflexivity. }
    destruct E as (tok1 & l1 & tok2 & l2 & E1 & T1 & E2 & T2).
    specialize (H 0 0 _ _ _ _ E1 T1 E2).
    rewrite T2 in H. discriminate H.
Qed.

(** ** Positions of the tokens *)

(** C8. The column of a token is the lexer's column when the token is
    built.  An identifier and a one-byte token are built at their first
    byte; a two-byte operator, a string, a variable and a number are built
    after they have been read: [==] at column 1 carries column 2, the
    string ["ab"] the column 4 of its closing quote, [$x] and [12] the
    column 3 that follows them. *)
Theorem token_position_is_taken_after_reading :
  first_token_position "ab" = Ok (IDENT, 1, 1)
  /\ first_token_position ";" = Ok (SEMICOLON, 1, 1)
  /\ first_token_position "==" = Ok (EQ, 1, 2)
  /\ first_token_position (quoted "ab") = Ok (STRING, 1, 4)
  /\ first_token_position "$x" = Ok (VARIABLE, 1, 3)
  /\ first_token_position "12" = Ok (INT, 1, 3).
Proof. repeat split; vm_compute; reflexivity. Qed.

(** ** More fuel never changes a result

    Each function of the parser, given more fuel, refines itself: a
    result obtained with some fuel is the result for any larger fuel. *)


Lemma refines_refl {A} (m : M A) : refines m m.
Proof. intros p r H. exact H. Qed.

Lemma refines_timeout {A} (m : M A) : refines timeout m.
Proof. intros p r H. discriminate H. Qed.

Lemma refines_bind {A B} (m1 m2 : M A) (k1 k2 : A -> M B) :
  refines m1 m2 -> (forall a, refines (k1 a) (k2 a)) ->
  refines (bind m1 k1) (bind m2 k2).
Proof.
  intros Hm Hk p r. unfold bind.
  destruct (m1 p) as [[a p']| |] eqn:E; try discriminate.
  rewrite (Hm _ _ E). apply Hk.
Qed.

Create HintDb mono discriminated.
#[local] Hint Constants Opaque : mono.
#[local] Hint Variables Opaque : mono.
#[local] Hint Extern 2 (_ <= _) => lia : mono.

Ltac mono :=
  cbv beta zeta;
  repeat
    match goal with
    | |- refines ?a ?a => apply refines_refl
    | |- refines timeout _ => apply refines_timeout
    | H : refines ?a ?b |- refines ?a ?b => exact H
    | H : refinesE ?a ?b |- refines (?a _) (?b _) => apply H
    | H : forall x, refines (?a x) (?b x) |- refines (?a _) (?b _) =>
        apply H
    | |- refines (bind _ _) (bind _ _) => apply refines_bind; [ | intros ? ]
    | |- refines (match ?x with _ => _ end) (match ?x with _ => _ end) =>
        destruct x
    | |- refines _ _ => solve [eauto 4 with mono]
    end.

Lemma parameters_loop_mono : forall (n1 m1 : nat) x1,
  n1 <= m1 -> refines (parameters_loop n1 x1) (parameters_loop m1 x1).
Proof.
  intros n1 m1 x1 H1.
  revert m1 x1 H1.
  induction n1 as [|n IH]; intros m1 x1 H1;
    destruct m1 as [|m]; try (exfalso; lia); cbn [parameters_loop]; mono.
Qed.
#[local] Hint Resolve parameters_loop_mono : mono.

Lemma parseFunctionParameters_mono : forall (n1 m1 : nat),
  n1 <= m1 -> refines (parseFunctionParameters n1) (parseFunctionParameters m1).
Proof. intros. unfold parseFunctionParameters. mono. Qed.
#[local] Hint Resolve parseFunctionParameters_mono : mono.

Lemma block_loop_mono : forall ps1 ps2 (n1 m1 : nat) x1,
  refines ps1 ps2 -> n1 <= m1 -> refines (block_loop ps1 n1 x1) (block_loop ps2 m1 x1).
Proof.
  intros ps1 ps2 n1 m1 x1 HS H1.
  revert m1 x1 H1.
  induction n1 as [|n IH]; intros m1 x1 H1;
    destruct m1 as [|m]; try (exfalso; lia); cbn [block_loop]; mono.
Qed.
#[local] Hint Resolve block_loop_mono : mono.

Lemma parseBlockStatement_mono : forall (n1 m1 : nat) ps1 ps2,
  n1 <= m1 -> refines ps1 ps2 -> refines (parseBlockStatement n1 ps1) (parseBlockStatement m1 ps2).
Proof. intros. unfold parseBlockStatement. mono. Qed.
#[local] Hint Resolve parseBlockStatement_mono : mono.

Lemma parseFunctionDeclaration_mono : forall (n1 m1 : nat) ps1 ps2,
  n1 <= m1 -> refines ps1 ps2 -> refines (parseFunctionDeclaration n1 ps1) (parseFunctionDeclaration m1 ps2).
Proof. intros. unfold parseFunctionDeclaration. mono. Qed.
#[local] Hint Resolve parseFunctionDeclaration_mono : mono.

Lemma parseReturnStatement_mono : forall pe1 pe2,
  refinesE pe1 pe2 -> refines (parseReturnStatement pe1) (parseReturnStatement pe2).
Proof. intros. unfold parseReturnStatement. mono. Qed.
#[local] Hint Resolve parseReturnStatement_mono : mono.

Lemma parseIfStatement_mono : forall (n1 m1 : nat) pe1 pe2 ps1 ps2,
  n1 <= m1 -> refinesE pe1 pe2 -> refines ps1 ps2 -> refines (parseIfStatement n1 pe1 ps1) (parseIfStatement m1 pe2 ps2).
Proof. intros. unfold parseIfStatement. mono. Qed.
#[local] Hint Resolve parseIfStatement_mono : mono.

Lemma expressions_loop_mono : forall pe1 pe2 (n1 m1 : nat) x1,
  refinesE pe1 pe2 -> n1 <= m1 -> refines (expressions_loop pe1 n1 x1) (expressions_loop pe2 m1 x1).
Proof.
  intros pe1 pe2 n1 m1 x1 HE H1.
  revert m1 x1 H1.
  induction n1 as [|n IH]; intros m1 x1 H1;
    destruct m1 as [|m]; try (exfalso; lia); cbn [expressions_loop]; mono.
Qed.
#[local] Hint Resolve expressions_loop_mono : mono.

Lemma parseEchoStatement_mono : forall (n1 m1 : nat) pe1 pe2,
  n1 <= m1 -> refinesE pe1 pe2 -> refines (parseEchoStatement n1 pe1) (parseEchoStatement m1 pe2).
Proof. intros. unfold parseEchoStatement. mono. Qed.
#[local] Hint Resolve parseEchoStatement_mono : mono.

Lemma parseAssignmentExpressionFromVariable_mono : forall pe1 pe2,
  refinesE pe1 pe2 -> refines (parseAssignmentExpressionFromVariable pe1) (parseAssignmentExpressionFromVariable pe2).
Proof. intros. unfold parseAssignmentExpressionFromVariable. mono. Qed.
#[local] Hint Resolve parseAssignmentExpressionFromVariable_mono : mono.

Lemma parseExpressionStatement_mono : forall pe1 pe2,
  refinesE pe1 pe2 -> refines (parseExpressionStatement pe1) (parseExpressionStatement pe2).
Proof. intros. unfold parseExpressionStatement. mono. Qed.
#[local] Hint Resolve parseExpressionStatement_mono : mono.

Lemma parsePrefixExpression_mono : forall pe1 pe2,
  refinesE pe1 pe2 -> refines (parsePrefixExpression pe1) (parsePrefixExpression pe2).
Proof. intros. unfold parsePrefixExpression. mono. Qed.
#[local] Hint Resolve parsePrefixExpression_mono : mono.

Lemma parseInfixExpression_mono : forall pe1 pe2 x1,
  refinesE pe1 pe2 -> refines (parseInfixExpression pe1 x1) (parseInfixExpression pe2 x1).
Proof. intros. unfold parseInfixExpression. mono. Qed.
#[local] Hint Resolve parseInfixExpression_mono : mono.

Lemma parseAssignmentExpression_mono : forall pe1 pe2 x1,
  refinesE pe1 pe2 -> refines (parseAssignmentExpression pe1 x1) (parseAssignmentExpression pe2 x1).
Proof. intros. unfold parseAssignmentExpression. mono. Qed.
#[local] Hint Resolve parseAssignmentExpression_mono : mono.

Lemma parseGroupedExpression_mono : forall pe1 pe2,
  refinesE pe1 pe2 -> refines (parseGroupedExpression pe1) (parseGroupedExpression pe2).
Proof. intros. unfold parseGroupedExpression. mono. Qed.
#[local] Hint Resolve parseGroupedExpression_mono : mono.

Lemma parseExpressionList_mono : forall (n1 m1 : nat) pe1 pe2 x1,
  n1 <= m1 -> refinesE pe1 pe2 -> refines (parseExpressionList n1 pe1 x1) (parseExpressionList m1 pe2 x1).
Proof. intros. unfold parseExpressionList. mono. Qed.
#[local] Hint Resolve parseExpressionList_mono : mono.

Lemma parseCallExpression_mono : forall (n1 m1 : nat) pe1 pe2 x1,
  n1 <= m1 -> refinesE pe1 pe2 -> refines (parseCallExpression n1 pe1 x1) (parseCallExpression m1 pe2 x1).
Proof. intros. unfold parseCallExpression. mono. Qed.
#[local] Hint Resolve parseCallExpression_mono : mono.

Lemma pairs_loop_mono : forall pe1 pe2 (n1 m1 : nat) x1,
  refinesE pe1 pe2 -> n1 <= m1 -> refines (pairs_loop pe1 n1 x1) (pairs_loop pe2 m1 x1).
Proof.
  intros pe1 pe2 n1 m1 x1 HE H1.
  revert m1 x1 H1.
  induction n1 as [|n IH]; intros m1 x1 H1;
    destruct m1 as [|m]; try (exfalso; lia); cbn [pairs_loop]; mono.
Qed.
#[local] Hint Resolve pairs_loop_mono : mono.

Lemma parseArrayLiteral_mono : forall (n1 m1 : nat) pe1 pe2,
  n1 <= m1 -> refinesE pe1 pe2 -> refines (parseArrayLiteral n1 pe1) (parseArrayLiteral m1 pe2).
Proof. intros. unfold parseArrayLiteral. mono. Qed.
#[local] Hint Resolve parseArrayLiteral_mono : mono.

Lemma parseIndexExpression_mono : forall pe1 pe2 x1,
  refinesE pe1 pe2 -> refines (parseIndexExpression pe1 x1) (parseIndexExpression pe2 x1).
Proof. intros. unfold parseIndexExpression. mono. Qed.
#[local] Hint Resolve parseIndexExpression_mono : mono.

Lemma parseForStatement_mono : forall (n1 m1 : nat) pe1 pe2 ps1 ps2,
  n1 <= m1 -> refinesE pe1 pe2 -> refines ps1 ps2 -> refines (parseForStatement n1 pe1 ps1) (parseForStatement m1 pe2 ps2).
Proof. intros. unfold parseForStatement. mono. Qed.
#[local] Hint Resolve parseForStatement_mono : mono.

Lemma parseWhileStatement_mono : forall (n1 m1 : nat) pe1 pe2 ps1 ps2,
  n1 <= m1 -> refinesE pe1 pe2 -> refines ps1 ps2 -> refines (parseWhileStatement n1 pe1 ps1) (parseWhileStatement m1 pe2 ps2).
Proof. intros. unfold parseWhileStatement. mono. Qed.
#[local] Hint Resolve parseWhileStatement_mono : mono.

Lemma parseForeachStatement_mono : forall (n1 m1 : nat) pe1 pe2 ps1 ps2,
  n1 <= m1 -> refinesE pe1 pe2 -> refines ps1 ps2 -> refines (parseForeachStatement n1 pe1 ps1) (parseForeachStatement m1 pe2 ps2).
Proof. intros. unfold parseForeachStatement. mono. Qed.
#[local] Hint Resolve parseForeachStatement_mono : mono.

Lemma parseLevel_mono : forall pe1 pe2,
  refinesE pe1 pe2 -> refines (parseLevel pe1) (parseLevel pe2).
Proof. intros. unfold parseLevel. mono. Qed.
#[local] Hint Resolve parseLevel_mono : mono.

Lemma parseBreakStatement_mono : forall pe1 pe2,
  refinesE pe1 pe2 -> refines (parseBreakStatement pe1) (parseBreakStatement pe2).
Proof. intros. unfold parseBreakStatement. mono. Qed.
#[local] Hint Resolve parseBreakStatement_mono : mono.

Lemma parseContinueStatement_mono : forall pe1 pe2,
  refinesE pe1 pe2 -> refines (parseContinueStatement pe1) (parseContinueStatement pe2).
Proof. intros. unfold parseContinueStatement. mono. Qed.
#[local] Hint Resolve parseContinueStatement_mono : mono.

Lemma parsePropertyDeclaration_mono : forall pe1 pe2 x1 x2,
  refinesE pe1 pe2 -> refines (parsePropertyDeclaration pe1 x1 x2) (parsePropertyDeclaration pe2 x1 x2).
Proof. intros. unfold parsePropertyDeclaration. mono. Qed.
#[local] Hint Resolve parsePropertyDeclaration_mono : mono.

Lemma parseMethodDeclaration_mono : forall (n1 m1 : nat) ps1 ps2 x1 x2,
  n1 <= m1 -> refines ps1 ps2 -> refines (parseMethodDeclaration n1 ps1 x1 x2) (parseMethodDeclaration m1 ps2 x1 x2).
Proof. intros. unfold parseMethodDeclaration. mono. Qed.
#[local] Hint Resolve parseMethodDeclaration_mono : mono.

Lemma parseConstantDeclaration_mono : forall pe1 pe2,
  refinesE pe1 pe2 -> refines (parseConstantDeclaration pe1) (parseConstantDeclaration pe2).
Proof. intros. unfold parseConstantDeclaration. mono. Qed.
#[local] Hint Resolve parseConstantDeclaration_mono : mono.

Lemma names_loop_mono : forall (n1 m1 : nat) x1 x2 x3 x4,
  n1 <= m1 -> refines (names_loop n1 x1 x2 x3 x4) (names_loop m1 x1 x2 x3 x4).
Proof.
  intros n1 m1 x1 x2 x3 x4 H1.
  revert m1 x1 x2 x3 x4 H1.
  induction n1 as [|n IH]; intros m1 x1 x2 x3 x4 H1;
    destruct m1 as [|m]; try (exfalso; lia); cbn [names_loop]; mono.
Qed.
#[local] Hint Resolve names_loop_mono : mono.

Lemma parseTraitUse_mono : forall (n1 m1 : nat),
  n1 <= m1 -> refines (parseTraitUse n1) (parseTraitUse m1).
Proof. intros. unfold parseTraitUse. mono. Qed.
#[local] Hint Resolve parseTraitUse_mono : mono.

Lemma classMember_mono : forall (n1 m1 : nat) pe1 pe2 ps1 ps2 x1,
  n1 <= m1 -> refinesE pe1 pe2 -> refines ps1 ps2 -> refines (classMember n1 pe1 ps1 x1) (classMember m1 pe2 ps2 x1).
Proof. intros. unfold classMember. mono. Qed.
#[local] Hint Resolve classMember_mono : mono.

Lemma traitMember_mono : forall (n1 m1 : nat) pe1 pe2 ps1 ps2 x1,
  n1 <= m1 -> refinesE pe1 pe2 -> refines ps1 ps2 -> refines (traitMember n1 pe1 ps1 x1) (traitMember m1 pe2 ps2 x1).
Proof. intros. unfold traitMember. mono. Qed.
#[local] Hint Resolve traitMember_mono : mono.

Lemma members_loop_mono : forall (n1 m1 : nat) (mb1 mb2 : Members -> M Members) x1,
  n1 <= m1 -> (forall x, refines (mb1 x) (mb2 x)) -> refines (members_loop n1 mb1 x1) (members_loop m1 mb2 x1).
Proof.
  intros n1 m1 mb1 mb2 x1 H1 HM.
  revert m1 x1 H1.
  induction n1 as [|n IH]; intros m1 x1 H1;
    destruct m1 as [|m]; try (exfalso; lia); cbn [members_loop]; mono.
Qed.
#[local] Hint Resolve members_loop_mono : mono.

Lemma parseClassDeclaration_mono : forall (n1 m1 : nat) pe1 pe2 ps1 ps2,
  n1 <= m1 -> refinesE pe1 pe2 -> refines ps1 ps2 -> refines (parseClassDeclaration n1 pe1 ps1) (parseClassDeclaration m1 pe2 ps2).
Proof. intros. unfold parseClassDeclaration. mono. Qed.
#[local] Hint Resolve parseClassDeclaration_mono : mono.

Lemma parseTraitDeclaration_mono : forall (n1 m1 : nat) pe1 pe2 ps1 ps2,
  n1 <= m1 -> refinesE pe1 pe2 -> refines ps1 ps2 -> refines (parseTraitDeclaration n1 pe1 ps1) (parseTraitDeclaration m1 pe2 ps2).
Proof. intros. unfold parseTraitDeclaration. mono. Qed.
#[local] Hint Resolve parseTraitDeclaration_mono : mono.

Lemma parseInterfaceMethod_mono : forall (n1 m1 : nat),
  n1 <= m1 -> refines (parseInterfaceMethod n1) (parseInterfaceMethod m1).
Proof. intros. unfold parseInterfaceMethod. mono. Qed.
#[local] Hint Resolve parseInterfaceMethod_mono : mono.

Lemma interface_loop_mono : forall (n1 m1 : nat) (n2 m2 : nat) x1,
  n1 <= m1 -> n2 <= m2 -> refines (interface_loop n1 n2 x1) (interface_loop m1 m2 x1).
Proof.
  intros n1 m1 n2 m2 x1 H1 H2.
  revert m2 x1 H2.
  induction n2 as [|n IH]; intros m2 x1 H2;
    destruct m2 as [|m]; try (exfalso; lia); cbn [interface_loop]; mono.
Qed.
#[local] Hint Resolve interface_loop_mono : mono.

Lemma parseInterfaceDeclaration_mono : forall (n1 m1 : nat),
  n1 <= m1 -> refines (parseInterfaceDeclaration n1) (parseInterfaceDeclaration m1).
Proof. intros. unfold parseInterfaceDeclaration. mono. Qed.
#[local] Hint Resolve parseInterfaceDeclaration_mono : mono.

Lemma parseNewExpression_mono : forall (n1 m1 : nat) pe1 pe2,
  n1 <= m1 -> refinesE pe1 pe2 -> refines (parseNewExpression n1 pe1) (parseNewExpression m1 pe2).
Proof. intros. unfold parseNewExpression. mono. Qed.
#[local] Hint Resolve parseNewExpression_mono : mono.

Lemma parseObjectAccessExpression_mono : forall pe1 pe2 x1,
  refinesE pe1 pe2 -> refines (parseObjectAccessExpression pe1 x1) (parseObjectAccessExpression pe2 x1).
Proof. intros. unfold parseObjectAccessExpression. mono. Qed.
#[local] Hint Resolve parseObjectAccessExpression_mono : mono.

Lemma parseStaticAccessExpression_mono : forall pe1 pe2 x1,
  refinesE pe1 pe2 -> refines (parseStaticAccessExpression pe1 x1) (parseStaticAccessExpression pe2 x1).
Proof. intros. unfold parseStaticAccessExpression. mono. Qed.
#[local] Hint Resolve parseStaticAccessExpression_mono : mono.

Lemma parseCatchClause_mono : forall (n1 m1 : nat) ps1 ps2,
  n1 <= m1 -> refines ps1 ps2 -> refines (parseCatchClause n1 ps1) (parseCatchClause m1 ps2).
Proof. intros. unfold parseCatchClause. mono. Qed.
#[local] Hint Resolve parseCatchClause_mono : mono.

Lemma catches_loop_mono : forall (n1 m1 : nat) ps1 ps2 (n2 m2 : nat) x1,
  n1 <= m1 -> refines ps1 ps2 -> n2 <= m2 -> refines (catches_loop n1 ps1 n2 x1) (catches_loop m1 ps2 m2 x1).
Proof.
  intros n1 m1 ps1 ps2 n2 m2 x1 H1 HS H2.
  revert m2 x1 H2.
  induction n2 as [|n IH]; intros m2 x1 H2;
    destruct m2 as [|m]; try (exfalso; lia); cbn [catches_loop]; mono.
Qed.
#[local] Hint Resolve catches_loop_mono : mono.

Lemma parseTryStatement_mono : forall (n1 m1 : nat) ps1 ps2,
  n1 <= m1 -> refines ps1 ps2 -> refines (parseTryStatement n1 ps1) (parseTryStatement m1 ps2).
Proof. intros. unfold parseTryStatement. mono. Qed.
#[local] Hint Resolve parseTryStatement_mono : mono.

Lemma parseThrowStatement_mono : forall pe1 pe2,
  refinesE pe1 pe2 -> refines (parseThrowStatement pe1) (parseThrowStatement pe2).
Proof. intros. unfold parseThrowStatement. mono. Qed.
#[local] Hint Resolve parseThrowStatement_mono : mono.

Lemma parseAnonymousFunction_mono : forall (n1 m1 : nat) ps1 ps2,
  n1 <= m1 -> refines ps1 ps2 -> refines (parseAnonymousFunction n1 ps1) (parseAnonymousFunction m1 ps2).
Proof. intros. unfold parseAnonymousFunction. mono. Qed.
#[local] Hint Resolve parseAnonymousFunction_mono : mono.

Lemma parseYieldExpression_mono : forall pe1 pe2,
  refinesE pe1 pe2 -> refines (parseYieldExpression pe1) (parseYieldExpression pe2).
Proof. intros. unfold parseYieldExpression. mono. Qed.
#[local] Hint Resolve parseYieldExpression_mono : mono.

Lemma parseTernaryExpression_mono : forall pe1 pe2 x1,
  refinesE pe1 pe2 -> refines (parseTernaryExpression pe1 x1) (parseTernaryExpression pe2 x1).
Proof. intros. unfold parseTernaryExpression. mono. Qed.
#[local] Hint Resolve parseTernaryExpression_mono : mono.

Lemma callPrefix_mono : forall (n1 m1 : nat) pe1 pe2 ps1 ps2 x1,
  n1 <= m1 -> refinesE pe1 pe2 -> refines ps1 ps2 -> refines (callPrefix n1 pe1 ps1 x1) (callPrefix m1 pe2 ps2 x1).
Proof. intros. unfold callPrefix. mono. Qed.
#[local] Hint Resolve callPrefix_mono : mono.

Lemma callInfix_mono : forall (n1 m1 : nat) pe1 pe2 x1 x2,
  n1 <= m1 -> refinesE pe1 pe2 -> refines (callInfix n1 pe1 x1 x2) (callInfix m1 pe2 x1 x2).
Proof. intros. unfold callInfix. mono. Qed.
#[local] Hint Resolve callInfix_mono : mono.

Lemma climb_mono : forall (n1 m1 : nat) pe1 pe2 (n2 m2 : nat) x1 x2,
  n1 <= m1 -> refinesE pe1 pe2 -> n2 <= m2 -> refines (climb n1 pe1 n2 x1 x2) (climb m1 pe2 m2 x1 x2).
Proof.
  intros n1 m1 pe1 pe2 n2 m2 x1 x2 H1 HE H2.
  revert m2 x1 x2 H2.
  induction n2 as [|n IH]; intros m2 x1 x2 H2;
    destruct m2 as [|m]; try (exfalso; lia); cbn [climb]; mono.
Qed.
#[local] Hint Resolve climb_mono : mono.

Lemma parseExpression_body_mono : forall (n1 m1 : nat) pe1 pe2 ps1 ps2 x1,
  n1 <= m1 -> refinesE pe1 pe2 -> refines ps1 ps2 -> refines (parseExpression_body n1 pe1 ps1 x1) (parseExpression_body m1 pe2 ps2 x1).
Proof. intros. unfold parseExpression_body. mono. Qed.
#[local] Hint Resolve parseExpression_body_mono : mono.

Lemma parseStatement_body_mono : forall (n1 m1 : nat) pe1 pe2 ps1 ps2,
  n1 <= m1 -> refinesE pe1 pe2 -> refines ps1 ps2 -> refines (parseStatement_body n1 pe1 ps1) (parseStatement_body m1 pe2 ps2).
Proof. intros. unfold parseStatement_body, orNil. mono. Qed.
#[local] Hint Resolve parseStatement_body_mono : mono.


Lemma parse_mono : forall n m, n <= m ->
  refinesE (parseExpression n) (parseExpression m)
  /\ refines (parseStatement n) (parseStatement m).
Proof.
  induction n as [|n IH]; intros m Hle.
  - split; [intros precedence|]; apply refines_timeout.
  - destruct m as [|m]; [lia|].
    destruct (IH m ltac:(lia)) as [HE HS].
    split; [intros precedence|]; cbn [parseExpression parseStatement];
      eauto with mono.
Qed.

Lemma parseStatement_mono n m :
  n <= m -> refines (parseStatement n) (parseStatement m).
Proof. intros H. apply parse_mono. exact H. Qed.

Lemma parseExpression_mono n m precedence :
  n <= m ->
  refines (parseExpression n precedence) (parseExpression m precedence).
Proof. intros H. apply parse_mono. exact H. Qed.
#[local] Hint Resolve parseStatement_mono parseExpression_mono : mono.

Lemma program_loop_mono : forall n m stmts, n <= m ->
  refines (program_loop n stmts) (program_loop m stmts).
Proof.
  induction n as [|n IH]; intros m stmts Hle;
    destruct m as [|m]; try (exfalso; lia); cbn [program_loop]; mono.
Qed.
#[local] Hint Resolve program_loop_mono : mono.

Lemma ParseProgram_mono n m :
  n <= m -> refines (ParseProgram n) (ParseProgram m).
Proof. intros H. unfold ParseProgram. mono. Qed.

(** A result of [Parse] is its result for every larger fuel. *)
Lemma Parse_mono n m inp r :
  n <= m -> Parse n inp = Ok r -> Parse m inp = Ok r.
Proof.
  unfold Parse. intros Hle H.
  destruct (NewParser (New inp)) as [p| |]; try discriminate.
  destruct (ParseProgram n p) as [[program p']| |] eqn:E; try discriminate.
  rewrite (ParseProgram_mono n m Hle _ _ E). exact H.
Qed.

(** ** Steps of the expression parser *)

Lemma parseExpression_S fuel precedence :
  parseExpression (S fuel) precedence
  = parseExpression_body fuel (parseExpression fuel) (parseStatement fuel)
      precedence.
Proof. reflexivity. Qed.

Lemma parseStatement_S fuel :
  parseStatement (S fuel)
  = parseStatement_body fuel (parseExpression fuel) (parseStatement fuel).
Proof. reflexivity. Qed.


(** The loop of [parseExpression] stops at once before a semicolon, and
    before a token that does not bind tighter than [precedence]. *)
Lemma climb_stops fuel pe n precedence left (p : Parser) :
  tt_eqb (Type_ (peekToken p)) SEMICOLON = true
  \/ peekPrecedenceOf p <= precedence ->
  climb fuel pe n precedence left p = Ok (left, p).
Proof.
  intros H.
  assert (E : negb (tt_eqb (Type_ (peekToken p)) SEMICOLON)
              && Nat.ltb precedence (peekPrecedenceOf p) = false).
  { destruct H as [H|H].
    - rewrite H. reflexivity.
    - apply andb_false_iff. right. apply Nat.ltb_ge. exact H. }
  destruct n; cbn [climb]; unfold bind, peekTokenIs, peekPrecedence;
    fold (peekPrecedenceOf p); rewrite E; reflexivity.
Qed.

(** One turn of the loop: the parser steps onto the operator and calls its
    infix function with the expression parsed so far. *)
Lemma climb_step fuel pe n precedence left (p : Parser) fn :
  tt_eqb (Type_ (peekToken p)) SEMICOLON = false ->
  precedence < peekPrecedenceOf p ->
  infixParseFns (Type_ (peekToken p)) = Some fn ->
  climb fuel pe (S n) precedence left p
  = bind nextToken (fun _ =>
      bind (callInfix fuel pe fn left) (fun left' =>
        climb fuel pe n precedence left')) p.
Proof.
  intros Hs Hp Hf.
  cbn [climb]; unfold bind at 1 2, peekTokenIs, peekPrecedence;
    fold (peekPrecedenceOf p).
  rewrite Hs. apply Nat.ltb_lt in Hp. rewrite Hp. cbn [negb andb].
  unfold bind at 1, peek. rewrite Hf. reflexivity.
Qed.

Lemma nextToken_eq lx cur0 peek0 errs tok lx' :
  NextToken lx = Ok (tok, lx') ->
  nextToken {| l := lx; curToken := cur0; peekToken := peek0;
               errors := errs |}
  = Ok (tt, {| l := lx'; curToken := peek0; peekToken := tok;
               errors := errs |}).
Proof. intros H. unfold nextToken. cbn [l]. rewrite H. reflexivity. Qed.

(** The body of [parseExpression] at an operand. *)
Lemma parseExpression_operand fuel precedence (p : Parser) e :
  operand (curToken p) e ->
  parseExpression (S fuel) precedence p
  = climb fuel (parseExpression fuel) fuel precedence (Some e) p.
Proof.
  intros [fn [Hfn Hcall]].
  rewrite parseExpression_S. unfold parseExpression_body, bind at 1, cur.
  rewrite Hfn. unfold bind at 1. rewrite (Hcall _ _ _ p eq_refl).
  reflexivity.
Qed.

Lemma parseInfixExpression_eq pe left lx cur0 peek0 errs tok lx' :
  NextToken lx = Ok (tok, lx') ->
  parseInfixExpression pe left
    {| l := lx; curToken := cur0; peekToken := peek0; errors := errs |}
  = bind (pe (match precedences (Type_ cur0) with
              | Some n => n
              | None => LOWEST
              end))
      (fun right =>
         ret (Some (InfixExpression cur0 left (Literal cur0) right)))
      {| l := lx'; curToken := peek0; peekToken := tok; errors := errs |}.
Proof.
  intros H. unfold parseInfixExpression, bind at 1 2 3, cur, curPrecedence.
  rewrite (nextToken_eq _ _ _ _ _ _ H). reflexivity.
Qed.

(** ** Precedence *)

Lemma operand_int tok v :
  Type_ tok = INT -> strconv.ParseInt0 (Literal tok) = Some v ->
  operand tok (IntegerLiteral tok v).
Proof.
  intros Ht Hv. exists parseIntegerLiteral_fn. split.
  - rewrite Ht. reflexivity.
  - intros fuel pe ps p Hp. cbn [callPrefix].
    unfold parseIntegerLiteral, bind, cur. rewrite Hp, Hv. reflexivity.
Qed.

Lemma operand_variable tok name :
  Type_ tok = VARIABLE -> slice_from (Literal tok) 1 = Ok name ->
  operand tok (EVariable {| VarToken := tok; VarName := name |}).
Proof.
  intros Ht Hv. exists parseVariable_fn. split.
  - rewrite Ht. reflexivity.
  - intros fuel pe ps p Hp. cbn [callPrefix].
    unfold parseVariable, variableOfCur, bind, cur, lift.
    rewrite Hp, Hv. reflexivity.
Qed.

(** Closes the side conditions of a theorem at a concrete parser state. *)
Ltac solve_by_evaluation :=
  match goal with
  | |- NextToken _ = _ => vm_compute; reflexivity
  | |- operand _ _ =>
      first [ apply operand_int; [reflexivity | vm_compute; reflexivity]
            | apply operand_variable; vm_compute; reflexivity ]
  | |- _ <= _ => lia
  | |- _ => vm_compute; reflexivity
  end.

Lemma precedence_binds_product_tighter :
  forall (p : Parser) a b c ea eb ec plus times tEnd l1 l2 l3 l4 fuel,
  curToken p = a -> peekToken p = plus ->
  operand a ea -> operand b eb -> operand c ec ->
  Type_ plus = PLUS -> Type_ times = MULTIPLY ->
  NextToken (l p) = Ok (b, l1) -> NextToken l1 = Ok (times, l2) ->
  NextToken l2 = Ok (c, l3) -> NextToken l3 = Ok (tEnd, l4) ->
  precedences (Type_ tEnd) = None ->
  4 <= fuel ->
  parseExpression fuel LOWEST p
  = Ok (Some (InfixExpression plus (Some ea) (Literal plus)
               (Some (InfixExpression times (Some eb) (Literal times)
                        (Some ec)))),
        {| l := l4; curToken := c; peekToken := tEnd; errors := errors p |}).
Proof.
  intros p a b c ea eb ec plus times tEnd l1 l2 l3 l4 fuel
    Ha Hplus Oa Ob Oc Tplus Ttimes N1 N2 N3 N4 Pend Hfuel.
  apply (parseExpression_mono 4 fuel LOWEST Hfuel).
  destruct p as [lx cur0 peek0 errs]; cbn [curToken peekToken l errors] in *.
  subst cur0 peek0.
  rewrite (parseExpression_operand _ _ _ ea) by exact Oa.
  rewrite (climb_step _ _ _ _ _ _ parseInfixExpression_fn);
    [ | cbn; rewrite Tplus; reflexivity
      | unfold peekPrecedenceOf; cbn; rewrite Tplus; cbn; unfold LOWEST, SUM; lia
      | cbn; rewrite Tplus; reflexivity ].
  unfold bind at 1. rewrite (nextToken_eq _ _ _ _ _ _ N1).
  cbn [peekToken errors].
  unfold bind at 1. cbn [callInfix].
  rewrite (parseInfixExpression_eq _ _ _ _ _ _ _ _ N2).
  cbn [curToken peekToken errors]. rewrite Tplus. cbn [precedences].
  unfold bind at 1.
  rewrite (parseExpression_operand _ _ _ eb) by exact Ob.
  rewrite (climb_step _ _ _ _ _ _ parseInfixExpression_fn);
    [ | cbn; rewrite Ttimes; reflexivity
      | unfold peekPrecedenceOf; cbn; rewrite Ttimes; cbn; unfold PRODUCT, SUM; lia
      | cbn; rewrite Ttimes; reflexivity ].
  unfold bind at 1. rewrite (nextToken_eq _ _ _ _ _ _ N3).
  cbn [peekToken errors].
  unfold bind at 1. cbn [callInfix].
  rewrite (parseInfixExpression_eq _ _ _ _ _ _ _ _ N4).
  cbn [curToken peekToken errors]. rewrite Ttimes. cbn [precedences].
  unfold bind at 1.
  rewrite (parseExpression_operand _ _ _ ec) by exact Oc.
  rewrite climb_stops
    by (right; unfold peekPrecedenceOf; cbn; rewrite Pend; unfold LOWEST, PRODUCT; lia).
  unfold ret.
  rewrite climb_stops
    by (right; unfold peekPrecedenceOf; cbn; rewrite Pend; unfold LOWEST, SUM; lia).
  rewrite climb_stops
    by (right; unfold peekPrecedenceOf; cbn; rewrite Pend; unfold LOWEST; lia).
  reflexivity.
Qed.


(** ** The semicolon guard of the expression loop *)

Lemma tt_eqb_refl t : tt_eqb t t = true.
Proof. unfold tt_eqb. apply Nat.eqb_refl. Qed.

(** C9 (as amended). In the loop of [parseExpression] the parser never
    steps onto an infix operator when the token after the expression
    parsed so far is a semicolon: whatever the minimal precedence and
    whatever has been parsed, the expression is returned as it is and the
    parser stays where it is.  So [parseExpression], once its prefix
    function has left the parser before a semicolon, returns the result of
    that function unchanged. *)
Theorem expression_loop_stops_before_semicolon :
  (forall fuel pe n precedence left (p : Parser),
     Type_ (peekToken p) = SEMICOLON ->
     climb fuel pe n precedence left p = Ok (left, p))
  /\
  (forall fuel precedence (p : Parser) fn left p',
     prefixParseFns (Type_ (curToken p)) = Some fn ->
     callPrefix fuel (parseExpression fuel) (parseStatement fuel) fn p
     = Ok (left, p') ->
     Type_ (peekToken p') = SEMICOLON ->
     parseExpression (S fuel) precedence p = Ok (left, p')).
Proof.
  split.
  - intros fuel pe n precedence left p H.
    apply climb_stops. left. rewrite H. apply tt_eqb_refl.
  - intros fuel precedence p fn left p' Hfn Hcall Hsemi.
    rewrite parseExpression_S. unfold parseExpression_body, bind at 1, cur.
    rewrite Hfn. unfold bind at 1. rewrite Hcall.
    apply climb_stops. left. rewrite Hsemi. apply tt_eqb_refl.
Qed.

Lemma expression_loop_stops_before_semicolon_witness :
  exists p,
    parserOf "$a; + 1" = Ok p /\
    climb 5 (parseExpression 5) 5 0 None p = Ok (None, p) /\
    parseExpression 6 LOWEST p
    = Ok (Some (EVariable {| VarToken := tokenOn1 VARIABLE "$a" 3;
                             VarName := "a" |}), p).
Proof.
  eexists. split; [vm_compute; reflexivity|]. split.
  - apply (proj1 expression_loop_stops_before_semicolon). reflexivity.
  - eapply (proj2 expression_loop_stops_before_semicolon).
    + vm_compute; reflexivity.
    + cbv [callPrefix]. vm_compute; reflexivity.
    + vm_compute; reflexivity.
Defined.

(** The last clause of the claim does not hold of every expression: an
    anonymous function is an expression, and its body has semicolons. *)
Lemma anonymous_function_spans_semicolon : ~ no_expression_spans_semicolon.
Proof.
  intros H.
  assert (E : exists p e p' p'',
             parserOf "function() { return 1; };" = Ok p /\
             parseExpression 6 LOWEST p = Ok (Some e, p') /\
             advance 7 p = Ok p'' /\ l p'' = l p' /\
             Exists (fun t => Type_ t = SEMICOLON) (advanced 7 p)).
  { do 4 eexists. split; [vm_compute; reflexivity|].
    split; [vm_compute; reflexivity|].
    split; [vm_compute; reflexivity|].
    split; [vm_compute; reflexivity|].
    vm_compute. do 5 apply Exists_cons_tl. apply Exists_cons_hd.
    reflexivity. }
  destruct E as (p & e & p' & p'' & _ & E1 & E2 & E3 & E4).
  specialize (H _ _ _ _ _ _ _ E1 E2 E3).
  apply Exists_exists in E4. destruct E4 as [t [Hin Ht]].
  rewrite Forall_forall in H. exact (H t Hin Ht).
Qed.

(** ** Assignment as an infix operator *)

(** C4. [=] has an infix function, which checks that its left side is a
    variable, but no entry in [precedences]: before [=] the loop of
    [parseExpression] always stops, for every minimal precedence the
    parser uses, and the function is never called.  For [5 = $x] the
    parser keeps [5] as a statement, records that [=] has no prefix
    function, and goes on with [$x]; the error of the infix function is
    only met through [??=], which has a precedence. *)
Theorem assignment_infix_function_is_never_reached :
  (forall fuel pe n precedence left (p : Parser),
     Type_ (peekToken p) = ASSIGN ->
     LOWEST <= precedence ->
     climb fuel pe n precedence left p = Ok (left, p))
  /\
  (forall fuel, 8 <= fuel ->
     Parse fuel "<?php 5 = $x; ?>"
     = Ok ({| Statements :=
                [ExpressionStatement (tokenOn1 INT "5" 8)
                   (Some (IntegerLiteral (tokenOn1 INT "5" 8) 5));
                 ExpressionStatement (tokenOn1 ASSIGN "=" 9) None;
                 ExpressionStatement (tokenOn1 VARIABLE "$x" 13)
                   (Some (EVariable
                            {| VarToken := tokenOn1 VARIABLE "$x" 13;
                               VarName := "x" |}))] |},
           ["no prefix parse function for ASSIGN found"]))
  /\
  (forall fuel, 8 <= fuel ->
     Parse fuel "<?php 5 ??= $x; ?>"
     = Ok ({| Statements :=
                [ExpressionStatement (tokenOn1 INT "5" 8) None;
                 ExpressionStatement (tokenOn1 VARIABLE "$x" 15)
                   (Some (EVariable
                            {| VarToken := tokenOn1 VARIABLE "$x" 15;
                               VarName := "x" |}))] |},
           ["left side of assignment must be a variable"])).
Proof.
  split; [|split].
  - intros fuel pe n precedence left p Hp Hprec.
    apply climb_stops. right. unfold peekPrecedenceOf. rewrite Hp.
    exact Hprec.
  - intros fuel Hfuel. apply (Parse_mono 8 fuel _ _ Hfuel).
    vm_compute. reflexivity.
  - intros fuel Hfuel. apply (Parse_mono 8 fuel _ _ Hfuel).
    vm_compute. reflexivity.
Qed.

Lemma assignment_infix_function_is_never_reached_witness :
  exists p,
    parserOf "5 = $x;" = Ok p /\
    climb 5 (parseExpression 5) 5 LOWEST
      (Some (IntegerLiteral (tokenOn1 INT "5" 2) 5)) p
    = Ok (Some (IntegerLiteral (tokenOn1 INT "5" 2) 5), p).
Proof.
  eexists. split; [vm_compute; reflexivity|].
  apply (proj1 assignment_infix_function_is_never_reached).
  - reflexivity.
  - unfold LOWEST. lia.
Defined.

(** ** The level of break and continue *)







(** ** An unsupported token where a statement begins *)

Lemma parseStatement_ILLEGAL fuel (p : Parser) :
  Type_ (curToken p) = ILLEGAL ->
  parseStatement (S (S fuel)) p
  = bind (noPrefixParseFnError ILLEGAL) (fun _ =>
      bind (skipPeek SEMICOLON) (fun _ =>
        ret (ExpressionStatement (curToken p) None))) p.
Proof.
  destruct p as [lx [ty lit ln col pos] pk errs]. cbn [curToken Type_].
  intros ->. reflexivity.
Qed.

Lemma program_loop_statement n stmts (p : Parser) :
  tt_eqb (Type_ (curToken p)) EOF = false ->
  tt_eqb (Type_ (curToken p)) PHP_OPEN = false ->
  tt_eqb (Type_ (curToken p)) PHP_CLOSE = false ->
  program_loop (S n) stmts p
  = match parseStatement n p with
    | Ok (stmt, p1) =>
        bind nextToken (fun _ => program_loop n (stmts ++ [stmt])) p1
    | Panic => Panic
    | Timeout => Timeout
    end.
Proof.
  intros H1 H2 H3. cbn [program_loop]. unfold bind, curTokenIs.
  rewrite H1, H2, H3. reflexivity.
Qed.

(** The claim as stated fails when the unsupported token stands inside a
    construct: [foo(&$x);] has one unsupported token and three errors. *)
Lemma one_unsupported_token_three_errors : ~ one_unsupported_token_one_error.
Proof.
  intros H.
  assert (E : exists program errs,
             Parse 8 "<?php foo(&$x); ?>" = Ok (program, errs) /\
             List.length errs = 3).
  { do 2 eexists. split; [vm_compute; reflexivity|]. reflexivity. }
  destruct E as (program & errs & E1 & E2).
  assert (O : one_unsupported_token "<?php foo(&$x); ?>").
  { exists 8. do 3 eexists. split; [vm_compute; reflexivity|].
    split; [vm_compute; reflexivity|]. repeat split; reflexivity. }
  specialize (H _ _ _ _ O E1). rewrite E2 in H. discriminate H.
Qed.

(** ** Integer literals with a leading zero *)

Lemma bytes_digit_text (ds : list nat) :
  Forall (fun d => d < 10) ds ->
  strconv.bytes (digit_text ds) = map (fun d => 48 + d) ds.
Proof.
  unfold strconv.bytes, digit_text. intros H.
  rewrite list_ascii_of_string_of_list_ascii, map_map.
  induction H as [|d ds Hd _ IH]; [reflexivity|].
  cbn [map]. rewrite IH. f_equal.
  apply nat_ascii_embedding. lia.
Qed.

Lemma octal_from_ge n ds : (0 <= n)%Z -> (n <= octal_from n ds)%Z.
Proof.
  revert n. induction ds as [|d ds IH]; intros n Hn; cbn; [lia|].
  unfold octal_from in IH. specialize (IH (n * 8 + Z.of_nat d)%Z). lia.
Qed.

Lemma digits_loop_octal : forall ds n,
  Forall (fun d => d < 8) ds -> (0 <= n)%Z ->
  (octal_from n ds < 2 ^ 63)%Z ->
  strconv.digits_loop 8 (map (fun d => 48 + d) ds) n false
  = Some (octal_from n ds, false).
Proof.
  induction ds as [|d ds IH]; intros n Hall Hn Hlt; [reflexivity|].
  inversion Hall as [|? ? Hd Hds]; subst.
  assert (Hstep : (n * 8 + Z.of_nat d <= octal_from n (d :: ds))%Z).
  { apply (octal_from_ge (n * 8 + Z.of_nat d) ds). lia. }
  cbn [map strconv.digits_loop].
  replace (Nat.eqb (48 + d) 95) with false
    by (symmetry; apply Nat.eqb_neq; lia).
  replace (Nat.leb 48 (48 + d) && Nat.leb (48 + d) 57) with true
    by (symmetry; apply andb_true_iff; split; apply Nat.leb_le; lia).
  replace (48 + d - 48) with d by lia.
  replace (Z.leb 8 (Z.of_nat d)) with false
    by (symmetry; apply Z.leb_gt; lia).
  replace (Z.leb (strconv.maxUint64 / 8 + 1) n) with false
    by (symmetry; apply Z.leb_gt;
        change (strconv.maxUint64 / 8 + 1)%Z with (2 ^ 61)%Z; lia).
  replace (Z.ltb strconv.maxUint64 (n * 8 + Z.of_nat d)) with false
    by (symmetry; apply Z.ltb_ge; unfold strconv.maxUint64; lia).
  apply IH; [exact Hds | lia | exact Hlt].
Qed.

Lemma digits_loop_not_octal : forall ds n u,
  Forall (fun d => d < 10) ds -> Exists (fun d => 8 <= d) ds ->
  strconv.digits_loop 8 (map (fun d => 48 + d) ds) n u = None.
Proof.
  induction ds as [|d ds IH]; intros n u Hall Hex;
    [inversion Hex|].
  inversion Hall as [|? ? Hd Hds]; subst.
  cbn [map strconv.digits_loop].
  replace (Nat.eqb (48 + d) 95) with false
    by (symmetry; apply Nat.eqb_neq; lia).
  replace (Nat.leb 48 (48 + d) && Nat.leb (48 + d) 57) with true
    by (symmetry; apply andb_true_iff; split; apply Nat.leb_le; lia).
  replace (48 + d - 48) with d by lia.
  destruct (Z.leb_spec 8 (Z.of_nat d)) as [Hbig|Hsmall]; [reflexivity|].
  destruct (Z.leb _ n); [reflexivity|].
  destruct (Z.ltb _ _); [reflexivity|].
  apply IH; [exact Hds|].
  inversion Hex as [? ? Hhd|? ? Htl]; subst; [lia | exact Htl].
Qed.

(** After a leading zero, a digit is no base letter: the base is 8 and the
    digits that follow the zero are what is read. *)
Lemma ParseUint0_leading_zero (ds : list nat) :
  Forall (fun d => d < 10) ds ->
  strconv.ParseUint0 (48 :: map (fun d => 48 + d) ds)
  = match strconv.digits_loop 8 (map (fun d => 48 + d) ds) 0 false with
    | None => None
    | Some (n, underscores) =>
        if underscores
           && negb (strconv.underscoreOK (48 :: map (fun d => 48 + d) ds))
        then None else Some n
    end.
Proof.
  intros H. unfold strconv.ParseUint0.
  destruct ds as [|d1 [|d2 ds]]; [reflexivity | reflexivity |].
  inversion H as [|? ? Hd1 _]; subst.
  cbn [map Nat.eqb].
  assert (L : strconv.lower (48 + d1) = 48 + d1).
  { do 10 (destruct d1 as [|d1]; [reflexivity|]). lia. }
  rewrite L.
  replace (Nat.eqb (48 + d1) 98) with false
    by (symmetry; apply Nat.eqb_neq; lia).
  replace (Nat.eqb (48 + d1) 111) with false
    by (symmetry; apply Nat.eqb_neq; lia).
  replace (Nat.eqb (48 + d1) 120) with false
    by (symmetry; apply Nat.eqb_neq; lia).
  reflexivity.
Qed.

Lemma ParseInt0_leading_zero (ds : list nat) :
  Forall (fun d => d < 10) ds ->
  strconv.ParseInt0 (String "0" (digit_text ds))
  = match strconv.ParseUint0 (48 :: map (fun d => 48 + d) ds) with
    | None => None
    | Some un => if Z.leb (2 ^ 63) un then None else Some un
    end.
Proof.
  intros H. unfold strconv.ParseInt0.
  change (strconv.bytes (String "0" (digit_text ds)))
    with (48 :: strconv.bytes (digit_text ds)).
  rewrite (bytes_digit_text ds H). cbn [Nat.eqb].
  destruct (strconv.ParseUint0 _); reflexivity.
Qed.

Lemma parseIntegerLiteral_result (p : Parser) :
  parseIntegerLiteral p
  = match strconv.ParseInt0 (Literal (curToken p)) with
    | Some value => Ok (Some (IntegerLiteral (curToken p) value), p)
    | None =>
        Ok (None, withError p (integer_error (Literal (curToken p))))
    end.
Proof.
  unfold parseIntegerLiteral, bind, cur.
  destruct (strconv.ParseInt0 _); reflexivity.
Qed.

(** C10. The text of an INT token is converted with the base taken from
    its prefix.  A digit run with a leading zero is read in base 8: when
    its other digits are all below 8 (and the number fits 63 bits) the
    literal has their octal value, and when one of them is 8 or 9 the
    conversion fails, the error [could not parse "..." as integer] is
    recorded and no node is returned.  So [$x = 010;] assigns the
    IntegerLiteral 8, and [$x = 08;] records the error for ["08"] and has
    no value. *)
Theorem leading_zero_integer_is_octal :
  (forall ds (p : Parser),
     Forall (fun d => d < 8) ds ->
     (octal_value ds < 2 ^ 63)%Z ->
     Literal (curToken p) = String "0" (digit_text ds) ->
     parseIntegerLiteral p
     = Ok (Some (IntegerLiteral (curToken p) (octal_value ds)), p))
  /\
  (forall ds (p : Parser),
     Forall (fun d => d < 10) ds ->
     Exists (fun d => 8 <= d) ds ->
     Literal (curToken p) = String "0" (digit_text ds) ->
     parseIntegerLiteral p
     = Ok (None, withError p (integer_error (String "0" (digit_text ds)))))
  /\
  (forall fuel, 8 <= fuel ->
     exists t1 t2 t3 x,
       Parse fuel "<?php $x = 010; ?>"
       = Ok ({| Statements :=
                  [ExpressionStatement t1
                     (Some (AssignmentExpression t2 x
                              (Some (IntegerLiteral t3 8))))] |}, [])
       /\ VarName x = "x" /\ Literal t3 = "010")
  /\
  (forall fuel, 8 <= fuel ->
     exists t1 t2 x,
       Parse fuel "<?php $x = 08; ?>"
       = Ok ({| Statements :=
                  [ExpressionStatement t1
                     (Some (AssignmentExpression t2 x None))] |},
             [integer_error "08"])
       /\ VarName x = "x").
Proof.
  split; [|split; [|split]].
  - intros ds p Hoct Hfit Hlit.
    assert (H10 : Forall (fun d => d < 10) ds).
    { eapply Forall_impl; [exact Hoct|]. cbn. intros; lia. }
    rewrite parseIntegerLiteral_result, Hlit.
    rewrite (ParseInt0_leading_zero ds H10).
    rewrite (ParseUint0_leading_zero ds H10).
    rewrite (digits_loop_octal ds 0 Hoct ltac:(lia) Hfit).
    fold (octal_value ds). cbn [andb].
    destruct (Z.leb_spec (2 ^ 63) (octal_value ds)); [lia|reflexivity].
  - intros ds p H10 Hex Hlit.
    rewrite parseIntegerLiteral_result, Hlit.
    rewrite (ParseInt0_leading_zero ds H10).
    rewrite (ParseUint0_leading_zero ds H10).
    rewrite (digits_loop_not_octal ds 0 false H10 Hex).
    reflexivity.
  - intros fuel Hfuel. do 4 eexists. split.
    + apply (Parse_mono 8 fuel _ _ Hfuel). vm_compute. reflexivity.
    + split; reflexivity.
  - intros fuel Hfuel. do 3 eexists. split.
    + apply (Parse_mono 8 fuel _ _ Hfuel). vm_compute. reflexivity.
    + reflexivity.
Qed.

Lemma leading_zero_integer_is_octal_witness :
  (exists p,
     parserOf "0755;" = Ok p /\
     parseIntegerLiteral p
     = Ok (Some (IntegerLiteral (tokenOn1 INT "0755" 5) 493), p))
  /\
  (exists p,
     parserOf "0192;" = Ok p /\
     parseIntegerLiteral p = Ok (None, withError p (integer_error "0192"))).
Proof.
  split.
  - eexists. split; [vm_compute; reflexivity|].
    apply (proj1 leading_zero_integer_is_octal [7; 5; 5]).
    + repeat constructor.
    + vm_compute. reflexivity.
    + reflexivity.
  - eexists. split; [vm_compute; reflexivity|].
    apply (proj1 (proj2 leading_zero_integer_is_octal) [1; 9; 2]).
    + repeat constructor.
    + apply Exists_cons_tl, Exists_cons_hd. lia.
    + reflexivity.
Defined.

(** ** Imports in the resolution of a reference *)

(** The order of the chain: a name that is not absolute and whose import
    is a declared symbol of the wanted type resolves to that symbol,
    whatever the scopes and the namespace hold. *)
Lemma ResolveSymbol_import_first (st : SymbolTable) (cur : Scope)
  (name fqn : string) (symbolType : SymbolType) (symbol : Symbol) :
  HasPrefixBackslash name = false ->
  current st = Ok cur ->
  Imports cur !! name = Some fqn ->
  AllSymbols st !! fqn = Some symbol ->
  SymType symbol = symbolType ->
  ResolveSymbol name symbolType st = Ok (Some symbol).
Proof.
  intros Hrel Hcur Himp Hsym Hty. unfold ResolveSymbol.
  rewrite Hrel, Hcur, Himp. unfold lookupOfType. rewrite Hsym, Hty.
  destruct symbolType; reflexivity.
Qed.

Lemma ParseWithSemantics_mono (n m : nat) (inp file : string)
  (r : string + SemanticProgram) :
  n <= m ->
  ParseWithSemantics n inp file = Ok r ->
  ParseWithSemantics m inp file = Ok r.
Proof.
  intros Hnm. unfold ParseWithSemantics.
  destruct (Parse n inp) as [[program errs]| |] eqn:E; try discriminate.
  rewrite (Parse_mono n m inp _ Hnm E). exact (fun H => H).
Qed.

Lemma imported_class_parse (fuel : nat) :
  9 <= fuel ->
  Parse fuel imported_class_input
  = Ok (imported_class_tree,
        ["no prefix parse function for NAMESPACE_SEPARATOR found"]).
Proof.
  intros Hfuel. apply (Parse_mono 9 fuel _ _ Hfuel). vm_compute. reflexivity.
Qed.

(** C6. For the input of the scenario the analysis does not resolve
    [User] to [HR\User].  [parseUseStatement] reads the one identifier
    [HR]; the [\] after it has no prefix function, so the parser records
    an error and [ParseWithSemantics] returns it instead of an analysis.
    Analysing the tree the parser built all the same imports [HR] as [HR]
    and leaves every reference to [User] unresolved.  With the import
    entered in the table by hand, [User] is still not [HR\User], which no
    statement of the file declares: it is unresolved, or the class [User]
    of the namespace [Payroll] when there is one.  The import does come
    first once the imported symbol is declared. *)
Theorem import_of_undeclared_class_is_not_resolved :
  (forall fuel file, 9 <= fuel ->
     ParseWithSemantics fuel imported_class_input file
     = Ok (inl ("parsing errors: " +:+
                "no prefix parse function for NAMESPACE_SEPARATOR found")))
  /\ ~ import_is_resolved
  /\ imports_of imported_class_tree "payroll.php" = Ok [("HR", "HR")]
  /\ references_of imported_class_tree "payroll.php"
     = Ok [ {| RefName := "User"; ResolvedSymbol := None;
               RefLine := 1; RefColumn := 0 |};
            {| RefName := "User"; ResolvedSymbol := None;
               RefLine := 1; RefColumn := 0 |};
            {| RefName := "User"; ResolvedSymbol := None;
               RefLine := 1; RefColumn := 0 |} ]
  /\ resolve_in (payroll_table false) "User" CLASS_SYMBOL = Ok None
  /\ resolve_in (payroll_table true) "User" CLASS_SYMBOL
     = Ok (Some {| SymName := "User"; FullyQualified := "Payroll\User";
                   SymType := CLASS_SYMBOL; SymNamespace := "Payroll";
                   File := "payroll.php"; SymLine := 1 |})
  /\ (forall st cur symbol,
        current st = Ok cur ->
        Imports cur !! "User" = Some "HR\User" ->
        AllSymbols st !! "HR\User" = Some symbol ->
        SymType symbol = CLASS_SYMBOL ->
        ResolveSymbol "User" CLASS_SYMBOL st = Ok (Some symbol)).
Proof.
  assert (Hgate : forall fuel file, 9 <= fuel ->
            ParseWithSemantics fuel imported_class_input file
            = Ok (inl ("parsing errors: " +:+
                 "no prefix parse function for NAMESPACE_SEPARATOR found"))).
  { intros fuel file Hfuel. unfold ParseWithSemantics.
    rewrite (imported_class_parse fuel Hfuel). vm_compute. reflexivity. }
  split; [exact Hgate|]. split.
  - intros (fuel & file & sp & Hsp & _).
    apply (ParseWithSemantics_mono fuel (Nat.max fuel 9)) in Hsp;
      [|apply Nat.le_max_l].
    pose proof (Hgate (Nat.max fuel 9) file (Nat.le_max_r _ _)) as Hg.
    congruence.
  - split; [vm_compute; reflexivity|].
    split; [vm_compute; reflexivity|].
    split; [vm_compute; reflexivity|].
    split; [vm_compute; reflexivity|].
    intros st cur symbol Hcur Himp Hsym Hty.
    exact (ResolveSymbol_import_first st cur "User" "HR\User" CLASS_SYMBOL
             symbol eq_refl Hcur Himp Hsym Hty).
Qed.

Lemma import_of_undeclared_class_is_not_resolved_witness :
  ParseWithSemantics 9 imported_class_input "payroll.php"
  = Ok (inl ("parsing errors: " +:+
             "no prefix parse function for NAMESPACE_SEPARATOR found")).
Proof.
  apply (proj1 import_of_undeclared_class_is_not_resolved). lia.
Defined.

(** ** The symbol table *)

Section SymbolTableFacts.

Lemma current_lookup (st : SymbolTable) (cur : Scope) :
  current st = Ok cur <-> scopes st !! CurrentScope st = Some cur.
Proof.
  unfold current. destruct (scopes st !! CurrentScope st); split; congruence.
Qed.

Lemma well_scoped_current (st : SymbolTable) :
  well_scoped st -> exists cur, current st = Ok cur.
Proof.
  intros [Hcur _]. apply lookup_lt_is_Some_2 in Hcur as [cur Hcur].
  exists cur. apply current_lookup. exact Hcur.
Qed.

Lemma updateCurrent_well_scoped (f : Scope -> Scope) (st st' : SymbolTable) :
  (forall s, Parent (f s) = Parent s) ->
  well_scoped st -> updateCurrent f st = Ok st' -> well_scoped st'.
Proof.
  intros Hf [Hcur Hpar]. unfold updateCurrent.
  destruct (current st) as [cur| |] eqn:Ecur; try discriminate.
  intros [= <-]. split; cbn.
  - rewrite length_insert. exact Hcur.
  - intros i s p Hi Hp.
    destruct (decide (i = CurrentScope st)) as [->|Hne].
    + rewrite list_lookup_insert_eq in Hi by exact Hcur.
      injection Hi as <-. rewrite Hf in Hp.
      apply current_lookup in Ecur. eauto.
    + rewrite list_lookup_insert_ne in Hi by congruence. eauto.
Qed.

Lemma built_well_scoped (st : SymbolTable) : built st -> well_scoped st.
Proof.
  induction 1 as [ | ty n st st' _ IH H | st st' _ IH H | ns st st' _ IH H
                 | fq al st st' _ IH H | n t f l st sym st' _ IH H
                 | n t l c st ref st' _ IH H | cn e im st _ IH ].
  - split; [compute; lia|]. intros [|i] s p Hi Hp; [|discriminate].
    injection Hi as <-. discriminate.
  - destruct IH as [Hcur Hpar]. unfold EnterScope in H.
    destruct (current st) as [cur| |] eqn:Ecur; try discriminate.
    injection H as <-. split; cbn.
    + rewrite length_app, length_insert. cbn. lia.
    + intros i s p Hi Hp.
      destruct (decide (i < List.length (scopes st))) as [Hlt|Hge].
      * rewrite lookup_app_l in Hi by (rewrite length_insert; exact Hlt).
        destruct (decide (i = CurrentScope st)) as [->|Hne].
        -- rewrite list_lookup_insert_eq in Hi by exact Hcur.
           injection Hi as <-. cbn in Hp.
           apply current_lookup in Ecur. eauto.
        -- rewrite list_lookup_insert_ne in Hi by congruence. eauto.
      * rewrite lookup_app_r in Hi by (rewrite length_insert; lia).
        rewrite length_insert in Hi.
        destruct (i - List.length (scopes st)) eqn:Ei; [|discriminate].
        injection Hi as <-. cbn in Hp. injection Hp as <-. lia.
  - destruct IH as [Hcur Hpar]. unfold ExitScope in H.
    destruct (current st) as [cur| |] eqn:Ecur; try discriminate.
    destruct (Parent cur) as [parent|] eqn:Ep; injection H as <-.
    + split; cbn; [|exact Hpar].
      apply current_lookup in Ecur. specialize (Hpar _ _ _ Ecur Ep). lia.
    + split; assumption.
  - eapply updateCurrent_well_scoped; [|exact IH|exact H]. reflexivity.
  - eapply updateCurrent_well_scoped; [|exact IH|exact H]. reflexivity.
  - destruct IH as [Hcur Hpar]. unfold DeclareSymbol in H.
    destruct (makeFullyQualified n st) as [fqn| |];
      destruct (current st) as [cur| |] eqn:Ecur; try discriminate.
    injection H as _ <-. split; cbn.
    + rewrite length_insert. exact Hcur.
    + intros i s p Hi Hp.
      destruct (decide (i = CurrentScope st)) as [->|Hne].
      * rewrite list_lookup_insert_eq in Hi by exact Hcur.
        injection Hi as <-. cbn in Hp.
        apply current_lookup in Ecur. eauto.
      * rewrite list_lookup_insert_ne in Hi by congruence. eauto.
  - unfold AddReference in H.
    destruct (ResolveSymbol n t st); try discriminate.
    injection H as _ <-. exact IH.
  - exact IH.
Qed.

(** The walk up the parents ends: each step goes to an earlier scope. *)
Lemma resolveInScopes_ends (ss : list Scope) (name : string)
  (symbolType : SymbolType) :
  (forall i s p, ss !! i = Some s -> Parent s = Some p -> p < i) ->
  forall fuel i, i < List.length ss -> i < fuel ->
    exists r, resolveInScopes fuel ss (Some i) name symbolType = Ok r.
Proof.
  intros Hpar fuel. induction fuel as [|fuel IH]; intros i Hi Hf; [lia|].
  cbn. apply lookup_lt_is_Some_2 in Hi as [s Hs]. rewrite Hs.
  destruct (lookupOfType (Symbols s) name symbolType); [eauto|].
  destruct (Parent s) as [p|] eqn:Ep.
  - specialize (Hpar _ _ _ Hs Ep). apply IH; [|lia].
    apply lookup_lt_Some in Hs. lia.
  - destruct fuel; cbn; eauto.
Qed.

Lemma ResolveSymbol_well_scoped (st : SymbolTable) (name : string)
  (symbolType : SymbolType) :
  well_scoped st -> exists r, ResolveSymbol name symbolType st = Ok r.
Proof.
  intros Hwf. destruct (well_scoped_current st Hwf) as [cur Hcur].
  destruct Hwf as [Hlt Hpar]. unfold ResolveSymbol. rewrite Hcur.
  destruct (HasPrefixBackslash name); [eauto|].
  destruct (match Imports cur !! name with
            | Some fqn => lookupOfType (AllSymbols st) fqn symbolType
            | None => None
            end); [eauto|].
  destruct (resolveInScopes_ends (scopes st) name symbolType Hpar
              (S (List.length (scopes st))) (CurrentScope st) Hlt
              ltac:(lia)) as [[sym|] ->]; [eauto|].
  destruct (if String.eqb (Namespace_ cur) "" then None
            else lookupOfType (AllSymbols st) _ symbolType); eauto.
Qed.

End SymbolTableFacts.

Section SymbolTableRoundTrips.

Lemma SymbolType_eqb_refl (t : SymbolType) : SymbolType_eqb t t = true.
Proof. destruct t; reflexivity. Qed.

Lemma lookupOfType_insert (m : gmap string Symbol) (key : string)
  (symbol : Symbol) :
  lookupOfType (<[key := symbol]> m) key (SymType symbol) = Some symbol.
Proof.
  unfold lookupOfType. rewrite lookup_insert_eq, SymbolType_eqb_refl.
  reflexivity.
Qed.

Lemma lookupOfType_insert_ne (m : gmap string Symbol) (key key' : string)
  (symbol : Symbol) (symbolType : SymbolType) :
  key <> key' ->
  lookupOfType (<[key := symbol]> m) key' symbolType
  = lookupOfType m key' symbolType.
Proof.
  intros Hne. unfold lookupOfType. rewrite lookup_insert_ne by exact Hne.
  reflexivity.
Qed.

Lemma resolveInScopes_here (fuel : nat) (ss : list Scope) (i : nat)
  (s : Scope) (name : string) (symbolType : SymbolType) (symbol : Symbol) :
  ss !! i = Some s ->
  lookupOfType (Symbols s) name symbolType = Some symbol ->
  resolveInScopes (S fuel) ss (Some i) name symbolType = Ok (Some symbol).
Proof. intros Hs Hl. cbn. rewrite Hs, Hl. reflexivity. Qed.

(** The walk reads the symbols and the parents of the scopes it meets,
    nothing else. *)
Lemma resolveInScopes_agree (ss ss' : list Scope) (name : string)
  (symbolType : SymbolType) :
  (forall i s, ss !! i = Some s ->
     exists s', ss' !! i = Some s' /\
                Symbols s' = Symbols s /\ Parent s' = Parent s) ->
  forall fuel fuel' scope r,
    fuel <= fuel' ->
    resolveInScopes fuel ss scope name symbolType = Ok r ->
    resolveInScopes fuel' ss' scope name symbolType = Ok r.
Proof.
  intros Hagree fuel.
  induction fuel as [|fuel IH]; intros fuel' [i|] r Hle H;
    try (destruct fuel'; cbn in *; congruence).
  destruct fuel' as [|fuel']; [lia|]. cbn in *.
  destruct (ss !! i) as [s|] eqn:Hs; [|discriminate].
  destruct (Hagree _ _ Hs) as (s' & -> & -> & ->).
  destruct (lookupOfType (Symbols s) name symbolType); [exact H|].
  apply (IH fuel' _ _ ltac:(lia) H).
Qed.

Lemma makeFullyQualified_eq (st : SymbolTable) (cur : Scope) (name : string) :
  current st = Ok cur ->
  makeFullyQualified name st
  = Ok (if HasPrefixBackslash name then name
        else if String.eqb (Namespace_ cur) "" then name
        else Namespace_ cur +:+ String BACKSLASH EmptyString +:+ name).
Proof.
  intros Hcur. unfold makeFullyQualified. rewrite Hcur.
  destruct (HasPrefixBackslash name); [reflexivity|].
  destruct (String.eqb (Namespace_ cur) ""); reflexivity.
Qed.

Lemma DeclareSymbol_eq (st : SymbolTable) (cur : Scope) (name : string)
  (symbolType : SymbolType) (file : string) (ln : nat) :
  current st = Ok cur ->
  exists symbol st',
    DeclareSymbol name symbolType file ln st = Ok (symbol, st') /\
    makeFullyQualified name st = Ok (FullyQualified symbol) /\
    SymName symbol = name /\ SymType symbol = symbolType /\
    SymNamespace symbol = Namespace_ cur /\
    File symbol = file /\ SymLine symbol = ln /\
    CurrentScope st' = CurrentScope st /\
    AllSymbols st' = <[FullyQualified symbol := symbol]> (AllSymbols st) /\
    References st' = References st /\
    List.length (scopes st') = List.length (scopes st) /\
    (exists cur', scopes st' = <[CurrentScope st := cur']> (scopes st) /\
                  Symbols cur' = <[name := symbol]> (Symbols cur) /\
                  Parent cur' = Parent cur /\
                  Imports cur' = Imports cur /\
                  Namespace_ cur' = Namespace_ cur).
Proof.
  intros Hcur. unfold DeclareSymbol.
  rewrite (makeFullyQualified_eq st cur name Hcur), Hcur.
  do 2 eexists. split; [reflexivity|]. cbn.
  repeat split; try reflexivity.
  - rewrite length_insert. reflexivity.
  - eexists. split; [reflexivity|]. cbn. repeat split.
Qed.

Lemma declared_symbol_resolves_aux (st : SymbolTable) (cur : Scope)
  (name : string) (symbolType : SymbolType) (file : string) (ln : nat) :
  current st = Ok cur ->
  HasPrefixBackslash name = true \/ Imports cur !! name = None ->
  exists symbol st' cur',
    DeclareSymbol name symbolType file ln st = Ok (symbol, st') /\
    ResolveSymbol name symbolType st' = Ok (Some symbol) /\
    current st' = Ok cur' /\
    FullyQualified symbol
    = (if HasPrefixBackslash name then name
       else if String.eqb (Namespace_ cur) "" then name
       else Namespace_ cur +:+ String BACKSLASH EmptyString +:+ name) /\
    Parent cur' = Parent cur /\ Imports cur' = Imports cur /\
    Namespace_ cur' = Namespace_ cur /\
    SymType symbol = symbolType /\
    Symbols cur' = <[name := symbol]> (Symbols cur) /\
    AllSymbols st' = <[FullyQualified symbol := symbol]> (AllSymbols st).
Proof.
  intros Hcur Hname.
  destruct (DeclareSymbol_eq st cur name symbolType file ln Hcur)
    as (symbol & st' & Hd & Hfqn & Hn & Ht & _ & _ & Hl & Hc & Hall & _ & _
        & cur' & Hss & Hsym & Hp & Himp & Hns).
  pose proof Hcur as Hlt. apply current_lookup, lookup_lt_Some in Hlt.
  assert (Hcur' : current st' = Ok cur').
  { apply current_lookup. rewrite Hc, Hss.
    apply list_lookup_insert_eq. exact Hlt. }
  rewrite (makeFullyQualified_eq st cur name Hcur) in Hfqn.
  injection Hfqn as Hfqn.
  exists symbol, st', cur'. split; [exact Hd|].
  split; [|repeat (split; [solve [auto]|]); exact Hall].
  unfold ResolveSymbol. rewrite Hcur', Hall, Himp.
  destruct (HasPrefixBackslash name) eqn:Habs.
  - rewrite <- Hfqn, <- Ht, lookupOfType_insert. reflexivity.
  - destruct Hname as [Hname|Hname]; [discriminate|]. rewrite Hname.
    erewrite resolveInScopes_here; [reflexivity| |].
    + apply current_lookup. exact Hcur'.
    + rewrite Hsym, <- Ht. apply lookupOfType_insert.
Qed.

End SymbolTableRoundTrips.

(** On a table made by the operations, no operation dereferences a nil
    scope and the walk of [ResolveSymbol] up the parent scopes ends: every
    operation returns. *)
Theorem operations_return_on_built_tables (st : SymbolTable) :
  built st ->
  (forall name symbolType,
     exists r, ResolveSymbol name symbolType st = Ok r) /\
  (forall name symbolType ln col,
     exists ref st', AddReference name symbolType ln col st = Ok (ref, st')) /\
  (forall name symbolType file ln,
     exists symbol st',
       DeclareSymbol name symbolType file ln st = Ok (symbol, st')) /\
  (forall scopeType name, exists st', EnterScope scopeType name st = Ok st') /\
  (exists st', ExitScope st = Ok st') /\
  (forall namespace, exists st', SetNamespace namespace st = Ok st') /\
  (forall fullyQualified alias,
     exists st', AddImport fullyQualified alias st = Ok st').
Proof.
  intros Hb. apply built_well_scoped in Hb.
  destruct (well_scoped_current st Hb) as [cur Hcur].
  split; [|split; [|split; [|split; [|split; [|split]]]]].
  - intros name symbolType. apply ResolveSymbol_well_scoped. exact Hb.
  - intros name symbolType ln col. unfold AddReference.
    destruct (ResolveSymbol_well_scoped st name symbolType Hb) as [r ->].
    eauto.
  - intros name symbolType file ln.
    destruct (DeclareSymbol_eq st cur name symbolType file ln Hcur)
      as (symbol & st' & H & _). eauto.
  - intros scopeType name. unfold EnterScope. rewrite Hcur. eauto.
  - unfold ExitScope. rewrite Hcur. destruct (Parent cur); eauto.
  - intros namespace. unfold SetNamespace, updateCurrent. rewrite Hcur. eauto.
  - intros fullyQualified alias. unfold AddImport, updateCurrent.
    rewrite Hcur. eauto.
Qed.

Lemma operations_return_on_built_tables_witness :
  exists st1 symbol st2 st3 st4,
    EnterScope "class" "Payroll" NewSymbolTable = Ok st1 /\
    DeclareSymbol "run" FUNCTION_SYMBOL "pay.php" 4 st1 = Ok (symbol, st2) /\
    EnterScope "method" "run" st2 = Ok st3 /\
    SetNamespace "HR" st3 = Ok st4 /\
    CurrentScope st4 = 2 /\
    (forall name symbolType,
       exists r, ResolveSymbol name symbolType st4 = Ok r) /\
    (exists r, ResolveSymbol "Ledger" CLASS_SYMBOL st4 = Ok r) /\
    (exists st', ExitScope st4 = Ok st').
Proof.
  assert (E : exists st1 symbol st2 st3 st4,
            EnterScope "class" "Payroll" NewSymbolTable = Ok st1 /\
            DeclareSymbol "run" FUNCTION_SYMBOL "pay.php" 4 st1
            = Ok (symbol, st2) /\
            EnterScope "method" "run" st2 = Ok st3 /\
            SetNamespace "HR" st3 = Ok st4 /\ CurrentScope st4 = 2).
  { do 5 eexists. repeat (split; [vm_compute; reflexivity|]).
    vm_compute. reflexivity. }
  destruct E as (st1 & symbol & st2 & st3 & st4 & E1 & E2 & E3 & E4 & C).
  exists st1, symbol, st2, st3, st4.
  split; [exact E1|]. split; [exact E2|]. split; [exact E3|].
  split; [exact E4|]. split; [exact C|].
  pose proof (operations_return_on_built_tables st4
                (built_namespace _ _ _
                   (built_enter _ _ _ _
                      (built_declare _ _ _ _ _ _ _
                         (built_enter _ _ _ _ built_new E1) E2) E3) E4))
    as (R & _ & _ & _ & X & _).
  split; [exact R|]. split; [exact (R "Ledger" CLASS_SYMBOL) | exact X].
Defined.

(** A symbol that was just declared resolves, under its name and its
    type, to itself: by the absolute lookup when the name starts with a
    backslash, in the current scope otherwise, as long as the name is not
    an import alias. *)
Theorem declared_symbol_resolves (st : SymbolTable) (cur : Scope)
  (name : string) (symbolType : SymbolType) (file : string) (ln : nat) :
  current st = Ok cur ->
  HasPrefixBackslash name = true \/ Imports cur !! name = None ->
  exists symbol st',
    DeclareSymbol name symbolType file ln st = Ok (symbol, st') /\
    SymName symbol = name /\ SymType symbol = symbolType /\
    SymLine symbol = ln /\
    ResolveSymbol name symbolType st' = Ok (Some symbol).
Proof.
  intros Hcur Hname.
  destruct (declared_symbol_resolves_aux st cur name symbolType file ln Hcur
              Hname) as (symbol & st' & _ & Hd & Hr & _ & _ & _ & _ & _ & Ht
                         & _).
  destruct (DeclareSymbol_eq st cur name symbolType file ln Hcur)
    as (symbol' & st'' & Hd' & _ & Hn & _ & _ & _ & Hl & _).
  rewrite Hd in Hd'. injection Hd' as <- <-.
  exists symbol, st'. auto.
Qed.

Lemma declared_symbol_resolves_witness :
  exists symbol st',
    DeclareSymbol "User" CLASS_SYMBOL "hr.php" 3 NewSymbolTable
    = Ok (symbol, st') /\
    SymName symbol = "User" /\ SymType symbol = CLASS_SYMBOL /\
    SymLine symbol = 3 /\
    ResolveSymbol "User" CLASS_SYMBOL st' = Ok (Some symbol).
Proof.
  eapply (declared_symbol_resolves NewSymbolTable).
  - reflexivity.
  - right. reflexivity.
Defined.

Section ScopeFacts.

Lemma EnterScope_eq (st : SymbolTable) (cur : Scope)
  (scopeType name : string) :
  current st = Ok cur ->
  exists st' cur' new,
    EnterScope scopeType name st = Ok st' /\
    CurrentScope st' = List.length (scopes st) /\
    scopes st' = <[CurrentScope st := cur']> (scopes st) ++ [new] /\
    AllSymbols st' = AllSymbols st /\
    References st' = References st /\
    Symbols cur' = Symbols cur /\ Parent cur' = Parent cur /\
    Imports cur' = Imports cur /\ Namespace_ cur' = Namespace_ cur /\
    Children cur' = Children cur ++ [List.length (scopes st)] /\
    Symbols new = ∅ /\ Parent new = Some (CurrentScope st) /\
    Imports new = Imports cur /\ Namespace_ new = Namespace_ cur /\
    current st' = Ok new.
Proof.
  intros Hcur. unfold EnterScope. rewrite Hcur.
  do 3 eexists. split; [reflexivity|]. cbn.
  repeat (split; [reflexivity|]).
  unfold current. cbn.
  rewrite lookup_app_r by (rewrite length_insert; lia).
  rewrite length_insert, Nat.sub_diag. reflexivity.
Qed.

(** The alias under which [AddImport] files an import. *)
Lemma AddImport_eq (st : SymbolTable) (cur : Scope)
  (fullyQualified alias : string) :
  current st = Ok cur ->
  exists st' cur',
    AddImport fullyQualified alias st = Ok st' /\
    CurrentScope st' = CurrentScope st /\
    scopes st' = <[CurrentScope st := cur']> (scopes st) /\
    AllSymbols st' = AllSymbols st /\
    current st' = Ok cur' /\
    Parent cur' = Parent cur /\ Symbols cur' = Symbols cur /\
    Namespace_ cur' = Namespace_ cur /\
    Imports cur'
    = <[(if String.eqb alias ""
         then List.last (strings_.SplitByte fullyQualified BACKSLASH) ""
         else alias) := fullyQualified]> (Imports cur).
Proof.
  intros Hcur. unfold AddImport, updateCurrent. rewrite Hcur.
  do 2 eexists. split; [reflexivity|]. cbn.
  repeat (split; [reflexivity|]). split; [|repeat split].
  apply current_lookup. cbn. apply list_lookup_insert_eq.
  apply current_lookup, lookup_lt_Some in Hcur. exact Hcur.
Qed.

End ScopeFacts.

(** A child scope starts with the imports and the namespace of its
    parent; an import added in the child is not seen by the parent after
    the child is left, and leaving the child makes the parent current
    again. *)
Theorem imports_of_a_child_scope_stay_in_it (st : SymbolTable) (cur : Scope)
  (scopeType name fullyQualified alias : string) :
  current st = Ok cur ->
  exists st1 child st2 st3 cur3,
    EnterScope scopeType name st = Ok st1 /\
    current st1 = Ok child /\
    Imports child = Imports cur /\ Namespace_ child = Namespace_ cur /\
    AddImport fullyQualified alias st1 = Ok st2 /\
    ExitScope st2 = Ok st3 /\
    CurrentScope st3 = CurrentScope st /\
    current st3 = Ok cur3 /\
    Imports cur3 = Imports cur /\ Symbols cur3 = Symbols cur /\
    Namespace_ cur3 = Namespace_ cur /\
    Children cur3 = Children cur ++ [CurrentScope st1].
Proof.
  intros Hcur.
  destruct (EnterScope_eq st cur scopeType name Hcur)
    as (st1 & cur' & new & He & Hc1 & Hss1 & _ & _ & Hs' & _ & Hi' & Hn'
        & Hch' & _ & Hp & Hi & Hn & Hcur1).
  pose proof Hcur as Hlt. apply current_lookup, lookup_lt_Some in Hlt.
  destruct (AddImport_eq st1 new fullyQualified alias Hcur1)
    as (st2 & new' & Ha & Hc2 & Hss2 & _ & Hcur2 & Hp2 & _).
  assert (Hl : scopes st2 !! CurrentScope st = Some cur').
  { rewrite Hss2, list_lookup_insert_ne by (rewrite Hc1; lia).
    rewrite Hss1, lookup_app_l by (rewrite length_insert; exact Hlt).
    apply list_lookup_insert_eq. exact Hlt. }
  exists st1, new, st2. do 2 eexists.
  split; [exact He|]. split; [exact Hcur1|].
  split; [exact Hi|]. split; [exact Hn|]. split; [exact Ha|].
  unfold ExitScope. rewrite Hcur2, Hp2, Hp.
  split; [reflexivity|]. cbn [CurrentScope]. split; [reflexivity|].
  split.
  - apply current_lookup. cbn. exact Hl.
  - rewrite Hc1. auto.
Qed.

Lemma imports_of_a_child_scope_stay_in_it_witness :
  exists st1 child st2 st3 cur3,
    EnterScope "function" "pay" NewSymbolTable = Ok st1 /\
    current st1 = Ok child /\
    Imports child = ∅ /\ Namespace_ child = "" /\
    AddImport "HR\User" "" st1 = Ok st2 /\
    ExitScope st2 = Ok st3 /\
    CurrentScope st3 = 0 /\
    current st3 = Ok cur3 /\
    Imports cur3 = ∅ /\ Symbols cur3 = ∅ /\
    Namespace_ cur3 = "" /\
    Children cur3 = [] ++ [CurrentScope st1].
Proof.
  exact (imports_of_a_child_scope_stay_in_it NewSymbolTable
           {| ScopeType := "global"; ScopeName := "global"; Parent := None;
              Symbols := ∅; Children := []; Namespace_ := "";
              Imports := ∅ |}
           "function" "pay" "HR\User" "" eq_refl).
Defined.

(** A symbol declared in a child scope outlives the scope: if the name
    did not resolve before, then after the child is left it resolves from
    the parent to the symbol of the child, through the registry of all
    symbols. *)
Theorem inner_symbol_resolves_after_exit (st : SymbolTable)
  (scopeType scopeName name : string) (symbolType : SymbolType)
  (file : string) (ln : nat) :
  built st ->
  ResolveSymbol name symbolType st = Ok None ->
  exists st1 symbol st2 st3,
    EnterScope scopeType scopeName st = Ok st1 /\
    DeclareSymbol name symbolType file ln st1 = Ok (symbol, st2) /\
    ExitScope st2 = Ok st3 /\
    CurrentScope st3 = CurrentScope st /\
    ResolveSymbol name symbolType st3 = Ok (Some symbol).
Proof.
  intros Hb Hnone. apply built_well_scoped in Hb.
  destruct (well_scoped_current st Hb) as [cur Hcur].
  pose proof Hcur as Hlt. apply current_lookup, lookup_lt_Some in Hlt.
  destruct (EnterScope_eq st cur scopeType scopeName Hcur)
    as (st1 & cur' & new & He & Hc1 & Hss1 & Hall1 & _ & Hs' & Hp' & Hi'
        & Hn' & _ & _ & Hp & Hi & Hn & Hcur1).
  destruct (DeclareSymbol_eq st1 new name symbolType file ln Hcur1)
    as (symbol & st2 & Hd & Hfqn & _ & Ht & _ & _ & _ & Hc2 & Hall2 & _
        & Hlen2 & new' & Hss2 & _ & Hp2 & _ & _).
  exists st1, symbol, st2.
  assert (Hcur2 : current st2 = Ok new').
  { apply current_lookup. rewrite Hc2, Hss2. apply list_lookup_insert_eq.
    rewrite Hc1, Hss1, length_app, length_insert. cbn. lia. }
  eexists. split; [exact He|]. split; [exact Hd|].
  unfold ExitScope. rewrite Hcur2, Hp2, Hp. split; [reflexivity|].
  split; [reflexivity|].
  assert (Hcur3 : scopes st2 !! CurrentScope st = Some cur').
  { rewrite Hss2, list_lookup_insert_ne by (rewrite Hc1; lia).
    rewrite Hss1, lookup_app_l by (rewrite length_insert; exact Hlt).
    apply list_lookup_insert_eq. exact Hlt. }
  rewrite (makeFullyQualified_eq st1 new name Hcur1), Hn in Hfqn.
  revert Hnone. unfold ResolveSymbol, current.
  cbn [scopes CurrentScope AllSymbols].
  apply current_lookup in Hcur. rewrite Hcur, Hcur3, Hall2, Hall1, Hi', Hn'.
  destruct (HasPrefixBackslash name).
  { intros _. injection Hfqn as <-.
    rewrite <- Ht, lookupOfType_insert. reflexivity. }
  assert (Himp : forall fqn,
            lookupOfType (AllSymbols st) fqn symbolType = None ->
            lookupOfType (<[FullyQualified symbol := symbol]> (AllSymbols st))
              fqn symbolType = None \/
            lookupOfType (<[FullyQualified symbol := symbol]> (AllSymbols st))
              fqn symbolType = Some symbol).
  { intros fqn Hl. destruct (decide (FullyQualified symbol = fqn)) as [<-|Hne].
    - right. rewrite <- Ht. apply lookupOfType_insert.
    - left. rewrite lookupOfType_insert_ne by exact Hne. exact Hl. }
  intros Hnone.
  assert (Hstep2 :
    match Imports cur !! name with
    | Some fqn => lookupOfType (AllSymbols st) fqn symbolType
    | None => None
    end = None).
  { destruct (match Imports cur !! name with
              | Some fqn => lookupOfType (AllSymbols st) fqn symbolType
              | None => None
              end); [discriminate|reflexivity]. }
  rewrite Hstep2 in Hnone.
  assert (Hstep2' :
    match Imports cur !! name with
    | Some fqn =>
        lookupOfType (<[FullyQualified symbol := symbol]> (AllSymbols st))
          fqn symbolType
    | None => None
    end = None \/
    match Imports cur !! name with
    | Some fqn =>
        lookupOfType (<[FullyQualified symbol := symbol]> (AllSymbols st))
          fqn symbolType
    | None => None
    end = Some symbol).
  { destruct (Imports cur !! name); [apply Himp; exact Hstep2|left; reflexivity]. }
  destruct Hstep2' as [->| ->]; [|reflexivity].
  destruct (resolveInScopes (S (List.length (scopes st))) (scopes st)
              (Some (CurrentScope st)) name symbolType)
    as [[found|]| |] eqn:Hwalk; try discriminate.
  assert (Hagree : forall i s, scopes st !! i = Some s ->
            exists s', scopes st2 !! i = Some s' /\
                       Symbols s' = Symbols s /\ Parent s' = Parent s).
  { intros i s Hs. pose proof (lookup_lt_Some _ _ _ Hs) as Hi_lt.
    rewrite Hss2, list_lookup_insert_ne by (rewrite Hc1; lia).
    rewrite Hss1, lookup_app_l by (rewrite length_insert; exact Hi_lt).
    destruct (decide (i = CurrentScope st)) as [->|Hne].
    - rewrite list_lookup_insert_eq by exact Hlt.
      rewrite Hcur in Hs. injection Hs as <-. eauto.
    - rewrite list_lookup_insert_ne by congruence. eauto. }
  assert (Hle : S (List.length (scopes st)) <= S (List.length (scopes st2))).
  { rewrite Hlen2, Hss1, length_app, length_insert. lia. }
  rewrite (resolveInScopes_agree _ _ name symbolType Hagree _ _ _ _ Hle
             Hwalk).
  destruct (String.eqb (Namespace_ cur) "").
  - injection Hfqn as <-. rewrite <- Ht, lookupOfType_insert. reflexivity.
  - injection Hfqn as <-. rewrite <- Ht, lookupOfType_insert. reflexivity.
Qed.

Lemma inner_symbol_resolves_after_exit_witness :
  exists st1 symbol st2 st3,
    EnterScope "function" "pay" NewSymbolTable = Ok st1 /\
    DeclareSymbol "amount" VARIABLE_SYMBOL "pay.php" 2 st1
    = Ok (symbol, st2) /\
    ExitScope st2 = Ok st3 /\
    CurrentScope st3 = 0 /\
    ResolveSymbol "amount" VARIABLE_SYMBOL st3 = Ok (Some symbol).
Proof.
  eapply (inner_symbol_resolves_after_exit NewSymbolTable).
  - exact built_new.
  - reflexivity.
Defined.

Section ImportFacts.

Lemma SplitByte_whole (s : string) (sep : ascii) :
  strings_.ContainsByte s sep = false -> strings_.SplitByte s sep = [s].
Proof.
  induction s as [|c s IH]; [reflexivity|].
  cbn [strings_.ContainsByte strings_.SplitByte].
  destruct (Ascii.eqb c sep); [discriminate|]. cbn [orb]. intros H.
  rewrite (IH H). reflexivity.
Qed.

Lemma SplitByte_after (pre rest : string) (sep : ascii) :
  exists first others,
    strings_.SplitByte (pre +:+ String sep rest) sep
    = (first :: others) ++ strings_.SplitByte rest sep.
Proof.
  induction pre as [|c pre (first & others & IH)];
    simpl.
  - exists EmptyString, []. rewrite Ascii.eqb_refl. reflexivity.
  - destruct (Ascii.eqb c sep).
    + exists EmptyString, (first :: others). rewrite IH. reflexivity.
    + exists (String c first), others. rewrite IH. reflexivity.
Qed.

Lemma SplitByte_last (pre name : string) (sep : ascii) :
  strings_.ContainsByte name sep = false ->
  List.last (strings_.SplitByte (pre +:+ String sep name) sep) EmptyString
  = name.
Proof.
  intros Hname. destruct (SplitByte_after pre name sep) as (f & o & ->).
  rewrite (SplitByte_whole name sep Hname).
  apply List.last_last.
Qed.

Lemma relative_of_no_backslash (name : string) :
  strings_.ContainsByte name BACKSLASH = false ->
  HasPrefixBackslash name = false.
Proof.
  destruct name as [|c name]; [reflexivity|].
  cbn [strings_.ContainsByte HasPrefixBackslash].
  destruct (Ascii.eqb c BACKSLASH); [discriminate|reflexivity].
Qed.

End ImportFacts.

Section ImportNames.

Lemma SplitByte_segments (s : string) (sep : ascii) :
  List.Forall (fun seg => strings_.ContainsByte seg sep = false)
    (strings_.SplitByte s sep).
Proof.
  induction s as [|c s IH]; cbn [strings_.SplitByte].
  - repeat constructor.
  - destruct (Ascii.eqb c sep) eqn:E.
    + constructor; [reflexivity|exact IH].
    + destruct (strings_.SplitByte s sep) as [|first others].
      * constructor; [|constructor]. cbn. rewrite E. reflexivity.
      * inversion IH as [|? ? Hf Ho]; subst. constructor; [|exact Ho].
        cbn. rewrite E, Hf. reflexivity.
Qed.

Lemma last_Forall {A} (P : A -> Prop) (xs : list A) (d : A) :
  List.Forall P xs -> P d -> P (List.last xs d).
Proof.
  induction 1 as [|x xs Hx Hxs IH]; intros Hd; [exact Hd|].
  destruct xs as [|y ys]; [exact Hx|]. exact (IH Hd).
Qed.

(** Without an alias the name has no backslash at all. *)
Lemma import_name_unaliased (fullyQualified : string) :
  strings_.ContainsByte (import_name fullyQualified "") BACKSLASH = false.
Proof.
  unfold import_name. cbn [String.eqb].
  apply (last_Forall (fun seg => strings_.ContainsByte seg BACKSLASH = false));
    [apply SplitByte_segments|reflexivity].
Qed.

End ImportNames.

(** X5. Where an import is filed and when it is found.  [AddImport] files
    the fully qualified name in the imports of the current scope under
    one name and changes no other import: with an alias the name is the
    alias; without one it is the last backslash-separated segment of the
    fully qualified name, which is the whole name when it has no
    backslash, and which never has a backslash itself.  A name that does
    not start with a backslash then resolves to the imported symbol, with
    the type of that symbol, whenever the symbol is in AllSymbols under
    the fully qualified name.  An alias that starts with a backslash is
    filed but never found: [ResolveSymbol] takes such a name as an
    absolute reference and looks it up in AllSymbols only. *)
Theorem import_is_filed_under_last_segment (st : SymbolTable) (cur : Scope)
  (fullyQualified alias : string) :
  current st = Ok cur ->
  (exists st' cur',
     AddImport fullyQualified alias st = Ok st' /\
     current st' = Ok cur' /\
     AllSymbols st' = AllSymbols st /\
     Imports cur' !! import_name fullyQualified alias = Some fullyQualified /\
     (forall other,
        other <> import_name fullyQualified alias ->
        Imports cur' !! other = Imports cur !! other) /\
     (HasPrefixBackslash (import_name fullyQualified alias) = false ->
      forall symbol,
        AllSymbols st !! fullyQualified = Some symbol ->
        ResolveSymbol (import_name fullyQualified alias) (SymType symbol) st'
        = Ok (Some symbol)) /\
     (HasPrefixBackslash (import_name fullyQualified alias) = true ->
      forall symbolType,
        ResolveSymbol (import_name fullyQualified alias) symbolType st'
        = Ok (lookupOfType (AllSymbols st)
                (import_name fullyQualified alias) symbolType))) /\
  (alias <> "" -> import_name fullyQualified alias = alias) /\
  (forall qualifier name,
     strings_.ContainsByte name BACKSLASH = false ->
     import_name (qualifier +:+ String BACKSLASH name) "" = name /\
     import_name name "" = name) /\
  strings_.ContainsByte (import_name fullyQualified "") BACKSLASH = false /\
  HasPrefixBackslash (import_name fullyQualified "") = false.
Proof.
  intros Hcur. split; [|split; [|split; [|split]]].
  - destruct (AddImport_eq st cur fullyQualified alias Hcur)
      as (st' & cur' & Ha & _ & _ & Hall & Hcur' & _ & _ & _ & Himp).
    fold (import_name fullyQualified alias) in Himp.
    exists st', cur'. split; [exact Ha|]. split; [exact Hcur'|].
    split; [exact Hall|].
    assert (Hl : Imports cur' !! import_name fullyQualified alias
                 = Some fullyQualified).
    { rewrite Himp. apply lookup_insert_eq. }
    split; [exact Hl|]. split; [|split].
    + intros other Hne. rewrite Himp. apply lookup_insert_ne. congruence.
    + intros Hrel symbol Hsym.
      apply (ResolveSymbol_import_first st' cur' _ fullyQualified);
        [exact Hrel|exact Hcur'|exact Hl|rewrite Hall; exact Hsym
        |reflexivity].
    + intros Habs symbolType. unfold ResolveSymbol. rewrite Habs, Hall.
      reflexivity.
  - intros Halias. unfold import_name.
    apply String.eqb_neq in Halias. rewrite Halias. reflexivity.
  - intros qualifier name Hname. unfold import_name. cbn [String.eqb].
    split.
    + apply SplitByte_last. exact Hname.
    + rewrite (SplitByte_whole name BACKSLASH Hname). reflexivity.
  - apply import_name_unaliased.
  - apply relative_of_no_backslash, import_name_unaliased.
Qed.

Lemma import_is_filed_under_last_segment_witness :
  exists st1 st2 symbol st3 st4 st5,
    EnterScope "namespace" "HR" NewSymbolTable = Ok st1 /\
    SetNamespace "HR" st1 = Ok st2 /\
    DeclareSymbol "User" CLASS_SYMBOL "user.php" 3 st2 = Ok (symbol, st3) /\
    ExitScope st3 = Ok st4 /\
    ResolveSymbol "User" CLASS_SYMBOL st4 = Ok None /\
    AddImport "HR\User" "" st4 = Ok st5 /\
    ResolveSymbol "User" CLASS_SYMBOL st5 = Ok (Some symbol).
Proof.
  assert (E : exists st1 st2 symbol st3 st4 cur,
             EnterScope "namespace" "HR" NewSymbolTable = Ok st1 /\
             SetNamespace "HR" st1 = Ok st2 /\
             DeclareSymbol "User" CLASS_SYMBOL "user.php" 3 st2
             = Ok (symbol, st3) /\
             ExitScope st3 = Ok st4 /\
             ResolveSymbol "User" CLASS_SYMBOL st4 = Ok None /\
             current st4 = Ok cur /\
             AllSymbols st4 !! "HR\User" = Some symbol /\
             SymType symbol = CLASS_SYMBOL).
  { do 6 eexists. repeat (split; [vm_compute; reflexivity|]).
    vm_compute. reflexivity. }
  destruct E as (st1 & st2 & symbol & st3 & st4 & cur & E1 & E2 & E3 & E4
                 & E5 & Hc & Hs & Ht).
  destruct (proj1 (import_is_filed_under_last_segment st4 cur "HR\User" ""
                     Hc))
    as (st5 & cur' & Ha & _ & _ & _ & _ & Hres & _).
  exists st1, st2, symbol, st3, st4, st5.
  do 5 (split; [assumption|]). split; [exact Ha|].
  rewrite <- Ht. apply (Hres eq_refl symbol Hs).
Defined.

Section HidingFacts.

Lemma SymbolType_eqb_neq (a b : SymbolType) :
  a <> b -> SymbolType_eqb a b = false.
Proof. destruct a, b; intros H; try reflexivity; congruence. Qed.

Lemma lookupOfType_insert_other (m : gmap string Symbol) (key : string)
  (symbol : Symbol) (symbolType : SymbolType) :
  SymType symbol <> symbolType ->
  lookupOfType (<[key := symbol]> m) key symbolType = None.
Proof.
  intros H. unfold lookupOfType.
  rewrite lookup_insert_eq, (SymbolType_eqb_neq _ _ H). reflexivity.
Qed.

Lemma resolveInScopes_top (fuel : nat) (ss : list Scope) (i : nat)
  (s : Scope) (name : string) (symbolType : SymbolType) :
  ss !! i = Some s ->
  lookupOfType (Symbols s) name symbolType = None ->
  Parent s = None ->
  resolveInScopes (S fuel) ss (Some i) name symbolType = Ok None.
Proof.
  intros Hs Hl Hp. cbn. rewrite Hs, Hl, Hp. destruct fuel; reflexivity.
Qed.

Lemma ResolveSymbol_references (st : SymbolTable)
  (refs : list SymbolReference) (name : string) (symbolType : SymbolType) :
  ResolveSymbol name symbolType
    {| scopes := scopes st; CurrentScope := CurrentScope st;
       AllSymbols := AllSymbols st; References := refs;
       Namespaces := Namespaces st; ClassHierarchy := ClassHierarchy st |}
  = ResolveSymbol name symbolType st.
Proof. reflexivity. Qed.

End HidingFacts.

(** The symbols of a scope and the registry of all symbols are keyed by
    name alone.  In a scope without parent, a second declaration of a name
    with another type replaces the first: the name still resolves with the
    new type, and no longer with the old one. *)
Theorem declaration_of_other_type_hides_symbol (st : SymbolTable)
  (cur : Scope) (name : string) (t1 t2 : SymbolType)
  (file1 file2 : string) (ln1 ln2 : nat) :
  current st = Ok cur ->
  Parent cur = None ->
  Imports cur !! name = None ->
  lookupOfType (AllSymbols st) name t1 = None ->
  t1 <> t2 ->
  exists s1 st1 s2 st2,
    DeclareSymbol name t1 file1 ln1 st = Ok (s1, st1) /\
    ResolveSymbol name t1 st1 = Ok (Some s1) /\
    DeclareSymbol name t2 file2 ln2 st1 = Ok (s2, st2) /\
    ResolveSymbol name t2 st2 = Ok (Some s2) /\
    ResolveSymbol name t1 st2 = Ok None.
Proof.
  intros Hcur Hpar Himp Hglobal Hne.
  destruct (declared_symbol_resolves_aux st cur name t1 file1 ln1 Hcur
              (or_intror Himp))
    as (s1 & st1 & cur1 & Hd1 & Hr1 & Hcur1 & Hfq1 & Hp1 & Hi1 & Hn1 & _ & _
        & Hall1).
  assert (Himp1 : Imports cur1 !! name = None) by (rewrite Hi1; exact Himp).
  destruct (declared_symbol_resolves_aux st1 cur1 name t2 file2 ln2 Hcur1
              (or_intror Himp1))
    as (s2 & st2 & cur2 & Hd2 & Hr2 & Hcur2 & Hfq2 & Hp2 & Hi2 & Hn2 & Ht2
        & Hsym2 & Hall2).
  exists s1, st1, s2, st2. repeat (split; [assumption|]).
  assert (Hmis : SymType s2 <> t1) by (rewrite Ht2; congruence).
  assert (Hfq : FullyQualified s2 = FullyQualified s1).
  { rewrite Hfq2, Hfq1, Hn1. reflexivity. }
  unfold ResolveSymbol. rewrite Hcur2, Hall2.
  destruct (HasPrefixBackslash name) eqn:Habs.
  { rewrite <- Hfq2. rewrite lookupOfType_insert_other by exact Hmis.
    reflexivity. }
  rewrite Hi2, Hi1, Himp.
  rewrite (resolveInScopes_top _ _ _ cur2);
    [|apply current_lookup; exact Hcur2
     |rewrite Hsym2; apply lookupOfType_insert_other; exact Hmis
     |rewrite Hp2, Hp1; exact Hpar].
  rewrite Hn2.
  destruct (String.eqb (Namespace_ cur1) "") eqn:Ens.
  - rewrite <- Hfq2. rewrite lookupOfType_insert_other by exact Hmis.
    reflexivity.
  - rewrite <- Hfq2. rewrite lookupOfType_insert_other by exact Hmis.
    destruct (decide (FullyQualified s2 = name)) as [Heq|Hneq].
    + rewrite <- Heq. rewrite lookupOfType_insert_other by exact Hmis.
      reflexivity.
    + rewrite lookupOfType_insert_ne by exact Hneq.
      rewrite Hall1, <- Hfq, lookupOfType_insert_ne by exact Hneq.
      rewrite Hglobal. reflexivity.
Qed.

Lemma declaration_of_other_type_hides_symbol_witness :
  exists s1 st1 s2 st2,
    DeclareSymbol "total" FUNCTION_SYMBOL "a.php" 1 NewSymbolTable
    = Ok (s1, st1) /\
    ResolveSymbol "total" FUNCTION_SYMBOL st1 = Ok (Some s1) /\
    DeclareSymbol "total" VARIABLE_SYMBOL "a.php" 5 st1 = Ok (s2, st2) /\
    ResolveSymbol "total" VARIABLE_SYMBOL st2 = Ok (Some s2) /\
    ResolveSymbol "total" FUNCTION_SYMBOL st2 = Ok None.
Proof.
  eapply (declaration_of_other_type_hides_symbol NewSymbolTable).
  - reflexivity.
  - reflexivity.
  - reflexivity.
  - reflexivity.
  - discriminate.
Defined.

(** An identifier used as an expression is looked up as a function and,
    failing that, as a constant.  When it is neither, the analysis records
    two unresolved references for the one identifier, and
    [ValidateReferences] reports the undefined symbol twice; when it is a
    function, one resolved reference is recorded. *)
Theorem unresolved_identifier_is_referenced_twice (sa : SemanticAnalyzer)
  (identifier : Identifier) :
  (ResolveSymbol (IdentValue identifier) FUNCTION_SYMBOL (SymbolTable_ sa)
   = Ok None ->
   ResolveSymbol (IdentValue identifier) CONSTANT_SYMBOL (SymbolTable_ sa)
   = Ok None ->
   exists sa',
     visitExpression (EIdentifier identifier) sa = Ok sa' /\
     References (SymbolTable_ sa')
     = References (SymbolTable_ sa)
       ++ [ {| RefName := IdentValue identifier; ResolvedSymbol := None;
               RefLine := Line (IdentToken identifier); RefColumn := 0 |};
            {| RefName := IdentValue identifier; ResolvedSymbol := None;
               RefLine := Line (IdentToken identifier); RefColumn := 0 |} ] /\
     Errors (ValidateReferences sa')
     = Errors (ValidateReferences sa)
       ++ [ "Undefined symbol '" +:+ IdentValue identifier +:+ "' at line "
            +:+ nat_to_string (Line (IdentToken identifier));
            "Undefined symbol '" +:+ IdentValue identifier +:+ "' at line "
            +:+ nat_to_string (Line (IdentToken identifier)) ])
  /\
  (forall symbol,
     ResolveSymbol (IdentValue identifier) FUNCTION_SYMBOL (SymbolTable_ sa)
     = Ok (Some symbol) ->
     exists sa',
       visitExpression (EIdentifier identifier) sa = Ok sa' /\
       References (SymbolTable_ sa')
       = References (SymbolTable_ sa)
         ++ [ {| RefName := IdentValue identifier;
                 ResolvedSymbol := Some symbol;
                 RefLine := Line (IdentToken identifier);
                 RefColumn := 0 |} ] /\
       Errors (ValidateReferences sa') = Errors (ValidateReferences sa)).
Proof.
  split.
  - intros Hf Hc. cbn [visitExpression].
    unfold addIdentifierReference, AddReference. rewrite Hf.
    cbn [ResolvedSymbol]. unfold refer, AddReference. cbn [SymbolTable_ withTable].
    rewrite ResolveSymbol_references, Hc.
    eexists. split; [reflexivity|]. cbn.
    split; [rewrite <- app_assoc; reflexivity|].
    unfold GetUnresolvedReferences. cbn.
    rewrite <- (app_assoc (References (SymbolTable_ sa))).
    rewrite List.filter_app, map_app, app_assoc. reflexivity.
  - intros symbol Hf. cbn [visitExpression].
    unfold addIdentifierReference, AddReference. rewrite Hf.
    cbn [ResolvedSymbol]. eexists. split; [reflexivity|]. cbn.
    split; [reflexivity|].
    unfold GetUnresolvedReferences. cbn.
    rewrite List.filter_app, map_app. cbn. rewrite app_nil_r. reflexivity.
Qed.

Lemma unresolved_identifier_is_referenced_twice_witness :
  exists sa',
    visitExpression (EIdentifier (identOn1 "limit" 4)) NewSemanticAnalyzer
    = Ok sa' /\
    References (SymbolTable_ sa')
    = [ {| RefName := "limit"; ResolvedSymbol := None;
           RefLine := 1; RefColumn := 0 |};
        {| RefName := "limit"; ResolvedSymbol := None;
           RefLine := 1; RefColumn := 0 |} ] /\
    Errors (ValidateReferences sa')
    = [ "Undefined symbol 'limit' at line 1";
        "Undefined symbol 'limit' at line 1" ].
Proof.
  exact (proj1 (unresolved_identifier_is_referenced_twice
                  NewSemanticAnalyzer (identOn1 "limit" 4))
           eq_refl eq_refl).
Defined.

Section AbsoluteNames.

Lemma HasPrefixBackslash_append (a b : string) :
  a <> "" -> HasPrefixBackslash (a +:+ b) = HasPrefixBackslash a.
Proof. destruct a; [congruence|reflexivity]. Qed.

End AbsoluteNames.

(** A symbol declared under a relative name in a relative namespace is
    filed under a fully qualified name without a leading backslash, while
    an absolute reference is looked up with its backslash: the absolute
    form of the symbol's own fully qualified name does not resolve. *)
Theorem absolute_form_of_declared_name_is_unresolved (st : SymbolTable)
  (cur : Scope) (name : string) (symbolType : SymbolType) (file : string)
  (ln : nat) :
  current st = Ok cur ->
  HasPrefixBackslash name = false ->
  HasPrefixBackslash (Namespace_ cur) = false ->
  (forall key symbol,
     AllSymbols st !! key = Some symbol -> HasPrefixBackslash key = false) ->
  exists symbol st',
    DeclareSymbol name symbolType file ln st = Ok (symbol, st') /\
    HasPrefixBackslash (FullyQualified symbol) = false /\
    (forall key s,
       AllSymbols st' !! key = Some s -> HasPrefixBackslash key = false) /\
    ResolveSymbol (String BACKSLASH (FullyQualified symbol)) symbolType st'
    = Ok None.
Proof.
  intros Hcur Hrel Hns Hkeys.
  destruct (DeclareSymbol_eq st cur name symbolType file ln Hcur)
    as (symbol & st' & Hd & Hfqn & _ & _ & _ & _ & _ & _ & Hall & _).
  rewrite (makeFullyQualified_eq st cur name Hcur), Hrel in Hfqn.
  injection Hfqn as Hfqn.
  assert (Hfq : HasPrefixBackslash (FullyQualified symbol) = false).
  { rewrite <- Hfqn. destruct (String.eqb (Namespace_ cur) "") eqn:E;
      [exact Hrel|].
    rewrite HasPrefixBackslash_append; [exact Hns|].
    apply String.eqb_neq. exact E. }
  assert (Hkeys' : forall key s,
            AllSymbols st' !! key = Some s -> HasPrefixBackslash key = false).
  { intros key s. rewrite Hall.
    destruct (decide (FullyQualified symbol = key)) as [<-|Hne]; [auto|].
    rewrite lookup_insert_ne by exact Hne. apply Hkeys. }
  exists symbol, st'. split; [exact Hd|]. split; [exact Hfq|].
  split; [exact Hkeys'|].
  unfold ResolveSymbol. cbn [HasPrefixBackslash]. rewrite Ascii.eqb_refl.
  unfold lookupOfType.
  destruct (AllSymbols st' !! String BACKSLASH (FullyQualified symbol))
    as [s|] eqn:E; [|reflexivity].
  apply Hkeys' in E. cbn [HasPrefixBackslash] in E.
  rewrite Ascii.eqb_refl in E. discriminate.
Qed.

Lemma absolute_form_of_declared_name_is_unresolved_witness :
  exists symbol st',
    DeclareSymbol "User" CLASS_SYMBOL "hr.php" 3 NewSymbolTable
    = Ok (symbol, st') /\
    HasPrefixBackslash (FullyQualified symbol) = false /\
    (forall key s,
       AllSymbols st' !! key = Some s -> HasPrefixBackslash key = false) /\
    ResolveSymbol (String BACKSLASH (FullyQualified symbol)) CLASS_SYMBOL st'
    = Ok None.
Proof.
  eapply (absolute_form_of_declared_name_is_unresolved NewSymbolTable).
  - reflexivity.
  - reflexivity.
  - reflexivity.
  - intros key symbol H. unfold NewSymbolTable in H.
    cbn [AllSymbols] in H. rewrite lookup_empty in H. discriminate.
Defined.

(** ** The moves of the lexer *)

Section LexerMoves.

Lemma reads_trans l1 l2 l3 : reads l1 l2 -> reads l2 l3 -> reads l1 l3.
Proof. intros H12 H23. induction H23; [exact H12|]. constructor. auto. Qed.

Lemma reads_readChar l l' : reads l l' -> reads (readChar l) (readChar l').
Proof. induction 1; constructor. assumption. Qed.

Lemma reads_one l : reads l (readChar l).
Proof. constructor. constructor. Qed.

Lemma readWhile_reads cond fuel : forall l, reads l (readWhile cond fuel l).
Proof.
  induction fuel as [|f IH]; intros l; simpl;
    destruct (cond (ch l)); try constructor.
  eapply reads_trans; [apply reads_one|apply IH].
Qed.

Lemma readString_loop_reads d fuel : forall l,
  reads l (readString_loop d fuel l).
Proof.
  induction fuel as [|f IH]; intros l; cbn [readString_loop];
    [constructor|].
  destruct (_ || _); [apply reads_one|].
  eapply reads_trans; [|apply IH].
  destruct (Ascii.eqb _ BACKSLASH); repeat constructor.
Qed.

Lemma skipBlock_loop_reads fuel : forall l, reads l (skipBlock_loop fuel l).
Proof.
  induction fuel as [|f IH]; intros l; cbn [skipBlock_loop]; [constructor|].
  destruct (Ascii.eqb (ch l) NUL); [constructor|].
  destruct (_ && _); [repeat constructor|].
  eapply reads_trans; [apply reads_one|apply IH].
Qed.

Lemma skipComment_reads l : reads l (skipComment l).
Proof.
  unfold skipComment.
  repeat match goal with
         | |- context [if ?b then _ else _] => destruct b
         end;
    try apply readWhile_reads; try constructor.
  eapply reads_trans; [|apply skipBlock_loop_reads]. repeat constructor.
Qed.

Lemma reads_input l l' : reads l l' -> input l' = input l.
Proof. induction 1; [reflexivity|]. rewrite readChar_input. assumption. Qed.

Lemma reads_readPosition l l' :
  reads l l' -> readPosition l <= readPosition l'.
Proof.
  induction 1; [lia|]. rewrite readChar_readPosition. lia.
Qed.

Lemma newlines_S (s : string) (n : nat) :
  newlines s (S n)
  = newlines s n
    + (if Nat.leb (String.length s) n then 0
       else if Ascii.eqb (byte_at s n) LF then 1 else 0).
Proof.
  revert n. induction s as [|c s IH]; intros n; [destruct n; reflexivity|].
  destruct n as [|n].
  - cbn. destruct (Ascii.eqb c LF); reflexivity.
  - change (newlines (String c s) (S (S n)))
      with ((if Ascii.eqb c LF then 1 else 0) + newlines s (S n)).
    rewrite IH. cbn [newlines String.length Nat.leb].
    unfold byte_at. cbn [String.get]. lia.
Qed.

Lemma in_step_readChar inp l :
  input l = inp -> line l = S (newlines inp (readPosition l)) ->
  in_step inp (readChar l).
Proof.
  intros Hi Hl. unfold in_step, readChar.
  cbn [input position readPosition ch line]. rewrite Hi.
  repeat split. rewrite Hl, newlines_S.
  destruct (Nat.leb (String.length inp) (readPosition l)); cbn.
  - lia.
  - destruct (Ascii.eqb (byte_at inp (readPosition l)) LF); lia.
Qed.

Lemma in_step_reads inp l l' : reads l l' -> in_step inp l -> in_step inp l'.
Proof.
  induction 1; [auto|]. intros Hl. specialize (IHreads Hl).
  destruct IHreads as (Hi & _ & _ & Hline).
  apply in_step_readChar; assumption.
Qed.

Lemma in_step_New inp : in_step inp (New inp).
Proof. apply in_step_readChar; reflexivity. Qed.

Local Ltac break_if :=
  match goal with
  | |- context [if ?b then _ else _] => destruct b eqn:?
  end.

Local Ltac reads_tac :=
  repeat first
    [ apply reads_none
    | apply reads_readChar
    | apply readWhile_reads
    | apply readString_loop_reads
    | (eapply reads_trans; [apply reads_one|])
    | (eapply reads_trans; [apply readWhile_reads|]) ].

Lemma lexLess_reads l : reads l (snd (lexLess l)).
Proof.
  unfold lexLess, twoCharToken. repeat break_if; cbn [snd];
    repeat constructor.
Qed.

Lemma lexQuestion_reads l : reads l (snd (lexQuestion l)).
Proof.
  unfold lexQuestion, twoCharToken. repeat break_if; cbn [snd];
    repeat constructor.
Qed.

End LexerMoves.

Section LexerProgress.

Lemma NextToken_rec_eq0 l0 :
  NextToken_rec 0 l0 =
  ltac:(let t := eval cbv beta iota delta [NextToken_rec] in
                   (NextToken_rec 0 l0) in
        let t := eval cbv beta iota zeta in t in exact t).
Proof. reflexivity. Qed.

Lemma readWhile_reads_first cond l :
  cond (ch l) = true ->
  reads (readChar l) (readWhile cond (loop_bound l) l).
Proof.
  intros H. unfold loop_bound. simpl. rewrite H. apply readWhile_reads.
Qed.

Local Ltac break_if :=
  match goal with
  | |- context [if ?b then _ else _] => destruct b eqn:?
  end.

Local Ltac not_nul l1 :=
  let Hne := fresh "Hne" in
  let E := fresh "E" in
  intros Hne E; change (ch l1 = NUL) in E;
  first
    [ exfalso; apply Hne; reflexivity
    | match goal with
      | H : _ = _ |- _ =>
          rewrite E in H; vm_compute in H; discriminate H
      end ].

Local Ltac moved_leaf l l1 Hws :=
  unfold moved; cbn [Lexer.advance withLiteral fst snd single twoCharToken];
  first
  [ exact I
  | split;
    [ apply (reads_trans _ (readChar l1));
      [apply reads_readChar; exact Hws|];
      first
        [ apply reads_none
        | apply reads_readChar;
          first [ apply reads_none | apply reads_one | apply lexLess_reads
                | apply lexQuestion_reads | apply readString_loop_reads
                | repeat constructor ]
        | apply readWhile_reads
        | apply (readWhile_reads_first isDigit); assumption
        | apply readWhile_reads_first; cbv beta;
          match goal with
          | H : isLetter _ = true |- _ => rewrite H; reflexivity
          end
        | (eapply reads_trans;
           [apply (readWhile_reads_first isDigit); assumption|];
           eapply reads_trans; [apply reads_one|]; apply readWhile_reads) ]
    | not_nul l1 ] ].

Local Ltac moved_plain l l1 Hws :=
  unfold readString, readIdentifier, readNumber, withLiteral;
  repeat break_if;
  repeat match goal with
         | |- context [match slice ?a ?b ?c with _ => _ end] =>
             destruct (slice a b c)
         end;
  moved_leaf l l1 Hws.

Lemma NextToken_rec_moved : forall fuel l, moved l (NextToken_rec fuel l).
Proof.
  induction fuel as [|f IH]; intros l.
  - rewrite NextToken_rec_eq0.
    pose proof (readWhile_reads isWhitespace (loop_bound l) l) as Hws.
    fold (skipWhitespace l) in Hws.
    set (l1 := skipWhitespace l) in *.
    moved_plain l l1 Hws.
  - rewrite NextToken_rec_eq.
    pose proof (readWhile_reads isWhitespace (loop_bound l) l) as Hws.
    fold (skipWhitespace l) in Hws.
    set (l1 := skipWhitespace l) in *.
    destruct (Ascii.eqb (ch l1) "/") eqn:Hc.
    2:{ moved_plain l l1 Hws. }
    destruct (Ascii.eqb (ch l1) "=") eqn:H1.
    { apply Ascii.eqb_eq in Hc, H1. congruence. }
    destruct (Ascii.eqb (ch l1) "+") eqn:H2.
    { apply Ascii.eqb_eq in Hc, H2. congruence. }
    destruct (Ascii.eqb (ch l1) "-") eqn:H3.
    { apply Ascii.eqb_eq in Hc, H3. congruence. }
    destruct (Ascii.eqb (ch l1) "*") eqn:H4.
    { apply Ascii.eqb_eq in Hc, H4. congruence. }
    destruct (Ascii.eqb (peekChar l1) "/") eqn:Hp;
      [|moved_leaf l l1 Hws].
    specialize (IH (skipComment l1)).
    change (moved l (NextToken_rec f (skipComment l1))).
    unfold moved in IH |- *.
    destruct (NextToken_rec f (skipComment l1)) as [[tok l']| |];
      try exact I.
    cbv beta iota in IH |- *. destruct IH as [IH _]. split.
    + apply (reads_trans _ (readChar l1));
        [apply reads_readChar; exact Hws|].
      apply (reads_trans _ (readChar (skipComment l1)));
        [apply reads_readChar, skipComment_reads|exact IH].
    + intros _ E. fold l1 in E. rewrite E in Hc. discriminate Hc.
Qed.

End LexerProgress.

Section LexerReach.

Lemma EOF_dec (t : TokenType) : {t = EOF} + {t <> EOF}.
Proof. destruct t; first [left; reflexivity | right; discriminate]. Qed.

Lemma NextToken_moved l tok l' :
  NextToken l = Ok (tok, l') ->
  reads (readChar l) l' /\
  (Type_ tok <> EOF -> ch (skipWhitespace l) <> NUL).
Proof.
  intros H. pose proof (NextToken_rec_moved (loop_bound l) l) as Hm.
  unfold NextToken in H. rewrite H in Hm. exact Hm.
Qed.

Lemma in_step_NextToken inp l tok l' :
  in_step inp l -> NextToken l = Ok (tok, l') -> in_step inp l'.
Proof.
  intros Hl H. apply NextToken_moved in H as [Hr _].
  apply (in_step_reads inp (readChar l)); [exact Hr|].
  destruct Hl as (Hi & _ & _ & Hline). apply in_step_readChar; assumption.
Qed.

(** A token other than EOF starts inside the input, and the call that
    returns it moves the lexer on. *)
Lemma NextToken_progress inp l tok l' :
  in_step inp l -> NextToken l = Ok (tok, l') -> Type_ tok <> EOF ->
  readPosition l <= String.length inp /\ readPosition l < readPosition l'.
Proof.
  intros Hl H Hne. apply NextToken_moved in H as [Hr Hch].
  specialize (Hch Hne). split.
  - pose proof (readWhile_reads isWhitespace (loop_bound l) l) as Hws.
    fold (skipWhitespace l) in Hws.
    pose proof (reads_readPosition _ _ Hws) as Hle.
    destruct (in_step_reads inp _ _ Hws Hl) as (_ & Hp & Hc & _).
    rewrite Hc in Hch.
    destruct (Nat.leb_spec (String.length inp)
                (position (skipWhitespace l))); [congruence|lia].
  - apply reads_readPosition in Hr. rewrite readChar_readPosition in Hr. lia.
Qed.

Lemma nth_token_reaches_EOF inp : forall k l,
  in_step inp l ->
  S (String.length inp) - readPosition l <= k ->
  exists n, n <= k /\
    (nth_token n l = Panic \/
     exists tok l', nth_token n l = Ok (tok, l') /\ Type_ tok = EOF).
Proof.
  induction k as [|k IH]; intros l Hl Hk.
  - exists 0. split; [lia|]. cbn [nth_token].
    destruct (NextToken l) as [[tok l']| |] eqn:E.
    + right. exists tok, l'. split; [reflexivity|].
      destruct (EOF_dec (Type_ tok)) as [He|Hne]; [exact He|].
      destruct (NextToken_progress inp l tok l' Hl E Hne). lia.
    + left. reflexivity.
    + exfalso. exact (NextToken_no_timeout l E).
  - destruct (NextToken l) as [[tok l']| |] eqn:E.
    + destruct (EOF_dec (Type_ tok)) as [He|Hne].
      * exists 0. split; [lia|]. right. exists tok, l'. cbn [nth_token].
        split; [exact E|exact He].
      * destruct (NextToken_progress inp l tok l' Hl E Hne) as [H1 H2].
        destruct (IH l' (in_step_NextToken inp l tok l' Hl E) ltac:(lia))
          as (n & Hn & Hres).
        exists (S n). split; [lia|]. cbn [nth_token]. rewrite E. exact Hres.
    + exists 0. split; [lia|]. left. cbn [nth_token]. exact E.
    + exfalso. exact (NextToken_no_timeout l E).
Qed.

End LexerReach.

(** What the lexer keeps between calls: after any number of calls of
    [NextToken] on the lexer of [inp], the input is [inp], the byte held is
    the one at [position] (0 past the end), [readPosition] is one further,
    and the line is one more than the number of newlines among the bytes
    read. *)
Theorem lexer_line_counts_newlines_read (inp : string) (n : nat)
  (tok : Token) (l : Lexer) :
  nth_token n (New inp) = Ok (tok, l) ->
  input l = inp /\
  readPosition l = S (position l) /\
  ch l = (if Nat.leb (String.length inp) (position l) then NUL
          else byte_at inp (position l)) /\
  line l = S (newlines inp (readPosition l)).
Proof.
  assert (H : forall n l0, in_step inp l0 ->
                nth_token n l0 = Ok (tok, l) -> in_step inp l).
  { clear n. induction n as [|n IH]; intros l0 Hl0; cbn [nth_token].
    - apply in_step_NextToken. exact Hl0.
    - destruct (NextToken l0) as [[tok0 l1]| |] eqn:E; try discriminate.
      apply IH. exact (in_step_NextToken inp l0 tok0 l1 Hl0 E). }
  apply H, in_step_New.
Qed.

Lemma lexer_line_counts_newlines_read_witness :
  exists tok l,
    nth_token 2 (New (String "a" (String LF (String LF "b;")))) = Ok (tok, l) /\
    line l
    = S (newlines (String "a" (String LF (String LF "b;"))) (readPosition l)).
Proof.
  do 2 eexists. split; [vm_compute; reflexivity|].
  eapply (lexer_line_counts_newlines_read
            (String "a" (String LF (String LF "b;"))) 2).
  vm_compute. reflexivity.
Defined.

(** ** String literals *)

Section StringLiterals.

Lemma length_append (a b : string) :
  String.length (a +:+ b) = String.length a + String.length b.
Proof. induction a as [|c a IH]; simpl; [reflexivity|]. rewrite IH. reflexivity. Qed.

Lemma append_assoc (a b c : string) : (a +:+ b) +:+ c = a +:+ (b +:+ c).
Proof.
  induction a as [|x a IH]; [reflexivity|].
  change (String x ((a +:+ b) +:+ c) = String x (a +:+ (b +:+ c))).
  rewrite IH. reflexivity.
Qed.

Lemma append_empty (a : string) : a +:+ EmptyString = a.
Proof.
  induction a as [|x a IH]; [reflexivity|].
  change (String x (a +:+ EmptyString) = String x a). rewrite IH. reflexivity.
Qed.

Lemma byte_at_append (pre : string) (c : ascii) (rest : string) :
  byte_at (pre +:+ String c rest) (String.length pre) = c.
Proof. induction pre as [|x pre IH]; simpl; [reflexivity|exact IH]. Qed.

Lemma substring_append (a b : string) :
  String.substring 0 (String.length a) (a +:+ b) = a.
Proof.
  induction a as [|x a IH]; simpl.
  - destruct b; reflexivity.
  - rewrite IH. reflexivity.
Qed.

(** [readChar] at the byte [c] that follows the bytes [pre] read so far. *)
Lemma readChar_next (l : Lexer) (pre : string) (c : ascii) (rest : string) :
  input l = pre +:+ String c rest ->
  readPosition l = String.length pre ->
  ch (readChar l) = c.
Proof.
  intros Hi Hr. unfold readChar. cbn [ch]. rewrite Hi, Hr, length_append.
  cbn [String.length].
  destruct (Nat.leb_spec (String.length pre + S (String.length rest))
              (String.length pre)); [lia|].
  apply byte_at_append.
Qed.

Lemma readString_loop_body d : forall body pre tail fuel l,
  plain_text d body = true ->
  input l = pre +:+ body +:+ tail ->
  readPosition l = String.length pre ->
  exists l',
    readString_loop d (String.length body + fuel) l
    = readString_loop d fuel l' /\
    input l' = input l /\
    readPosition l' = String.length pre + String.length body.
Proof.
  induction body as [|c body IH]; intros pre tail fuel l Hp Hi Hr.
  - exists l. cbn [String.length]. split; [reflexivity|]. split; [reflexivity|].
    lia.
  - cbn [plain_text] in Hp.
    apply andb_true_iff in Hp as [Hp Hrest].
    apply andb_true_iff in Hp as [Hp Hb].
    apply andb_true_iff in Hp as [Hd Hn].
    apply negb_true_iff in Hd, Hn, Hb.
    assert (Hc : ch (readChar l) = c).
    { apply (readChar_next l pre c (body +:+ tail)); assumption. }
    destruct (IH (pre +:+ String c EmptyString) tail fuel (readChar l) Hrest)
      as (l' & Hl' & Hi' & Hr').
    + rewrite readChar_input, Hi, append_assoc. reflexivity.
    + rewrite readChar_readPosition, Hr, length_append. cbn. lia.
    + exists l'. cbn [String.length plus readString_loop].
      rewrite Hc, Hd, Hn, Hb. cbn [orb]. split; [exact Hl'|].
      split; [rewrite Hi'; apply readChar_input|].
      rewrite Hr', length_append. cbn. lia.
Qed.

Lemma NextToken_at_quote (l : Lexer) (d : ascii) :
  ch l = d -> d = DQUOTE \/ d = SQUOTE ->
  NextToken l
  = match slice (input (readString_loop d (loop_bound l) l))
            (position l + 1)
            (position (readString_loop d (loop_bound l) l)) with
    | Ok s =>
        Ok ({| Type_ := STRING; Literal := s;
               Line := line (readString_loop d (loop_bound l) l);
               Column := column (readString_loop d (loop_bound l) l);
               Position := 0 |},
            readChar (readString_loop d (loop_bound l) l))
    | Panic => Panic
    | Timeout => Timeout
    end.
Proof.
  intros Hc Hd. unfold NextToken, loop_bound. rewrite NextToken_rec_eq.
  rewrite skipWhitespace_id
    by (rewrite Hc; destruct Hd as [->| ->]; reflexivity).
  unfold readString, withLiteral, loop_bound. rewrite !Hc.
  destruct Hd as [->| ->]; cbn [Ascii.eqb Bool.eqb andb orb DQUOTE SQUOTE];
    destruct (slice _ _ _); reflexivity.
Qed.

End StringLiterals.

Section StringLiteralCases.

Variable d : ascii.
Hypothesis Hd : d = DQUOTE \/ d = SQUOTE.

Lemma delimiter_is_no_backslash :
  Ascii.eqb BACKSLASH d = false /\ Ascii.eqb NUL d = false.
Proof. destruct Hd as [->| ->]; split; reflexivity. Qed.

End StringLiteralCases.

(** ** Comments *)

Section SingleByteTokens.

Lemma NextToken_slash (l : Lexer) :
  ch l = "/"%char -> Ascii.eqb (peekChar l) "/" = false ->
  NextToken l = Ok (newToken DIVIDE "/" (line l) (column l), readChar l).
Proof.
  intros Hc Hp. unfold NextToken, loop_bound. rewrite NextToken_rec_eq.
  rewrite skipWhitespace_id by (rewrite Hc; reflexivity).
  unfold single. rewrite !Hc, Hp. reflexivity.
Qed.

Lemma NextToken_hash (l : Lexer) :
  ch l = "#"%char ->
  NextToken l = Ok (newToken ILLEGAL "#" (line l) (column l), readChar l).
Proof.
  intros Hc. unfold NextToken, loop_bound. rewrite NextToken_rec_eq.
  rewrite skipWhitespace_id by (rewrite Hc; reflexivity).
  unfold single. rewrite !Hc. reflexivity.
Qed.

End SingleByteTokens.

(** ** Words and numbers *)

Section Runs.

Lemma in_step_ch_next (pre : string) (c : ascii) (rest : string) (l : Lexer) :
  in_step (pre +:+ String c rest) l ->
  position l = String.length pre ->
  ch l = c.
Proof.
  intros (_ & _ & Hc & _) Hp. rewrite Hc, Hp, length_append.
  cbn [String.length].
  destruct (Nat.leb_spec (String.length pre + S (String.length rest))
              (String.length pre)); [lia|].
  apply byte_at_append.
Qed.

Lemma in_step_ch_end (pre : string) (l : Lexer) :
  in_step pre l -> position l = String.length pre -> ch l = NUL.
Proof.
  intros (_ & _ & Hc & _) Hp. rewrite Hc, Hp, Nat.leb_refl. reflexivity.
Qed.

Lemma in_step_next inp l : in_step inp l -> in_step inp (readChar l).
Proof. intros (Hi & _ & _ & Hl). apply in_step_readChar; assumption. Qed.

(** A loop of the lexer over a run of bytes that satisfy its condition. *)
Lemma readWhile_text cond (Hnul : cond NUL = false) :
  forall body pre tail fuel l,
    all_bytes cond body = true ->
    stops cond tail = true ->
    in_step (pre +:+ body +:+ tail) l ->
    position l = String.length pre ->
    String.length body < fuel ->
    in_step (pre +:+ body +:+ tail) (readWhile cond fuel l) /\
    position (readWhile cond fuel l)
    = String.length pre + String.length body.
Proof.
  induction body as [|c body IH]; intros pre tail fuel l Hb Ht Hl Hp Hf.
  - rewrite readWhile_false; [split; [exact Hl|cbn; lia]|].
    change (EmptyString +:+ tail) with tail in Hl.
    destruct tail as [|t tail].
    + rewrite append_empty in Hl.
      rewrite (in_step_ch_end pre l Hl Hp). exact Hnul.
    + rewrite (in_step_ch_next pre t tail l Hl Hp).
      cbn [stops] in Ht. apply negb_true_iff in Ht. exact Ht.
  - cbn [all_bytes] in Hb. apply andb_true_iff in Hb as [Hc Hb].
    change (String c body +:+ tail) with (String c (body +:+ tail)) in *.
    pose proof (in_step_ch_next pre c (body +:+ tail) l Hl Hp) as Hch.
    destruct fuel as [|fuel]; [lia|]. cbn [readWhile]. rewrite Hch, Hc.
    cbn [String.length] in *.
    destruct (IH (pre +:+ String c EmptyString) tail fuel (readChar l) Hb Ht)
      as [H1 H2].
    + rewrite append_assoc. apply in_step_next. exact Hl.
    + destruct Hl as (_ & Hr & _). change (position (readChar l))
        with (readPosition l). rewrite Hr, Hp, length_append. cbn. lia.
    + lia.
    + rewrite append_assoc in H1. split; [exact H1|].
      rewrite H2, length_append. cbn. lia.
Qed.

Lemma substring_middle (pre body tail : string) :
  String.substring (String.length pre) (String.length body)
    (pre +:+ body +:+ tail) = body.
Proof.
  induction pre as [|x pre IH].
  - change (String.substring 0 (String.length body) (body +:+ tail) = body).
    apply substring_append.
  - exact IH.
Qed.

Lemma slice_middle (pre body tail : string) :
  slice (pre +:+ body +:+ tail) (String.length pre)
    (String.length pre + String.length body) = Ok body.
Proof.
  unfold slice. rewrite !length_append.
  destruct (Nat.leb_spec (String.length pre + String.length body)
              (String.length pre
               + (String.length body + String.length tail))); [|lia].
  destruct (Nat.leb_spec (String.length pre)
              (String.length pre + String.length body)); [|lia].
  cbn [andb].
  replace (String.length pre + String.length body - String.length pre)
    with (String.length body) by lia.
  rewrite substring_middle. reflexivity.
Qed.

Local Ltac skip_tests l H :=
  repeat match goal with
         | |- context [Ascii.eqb (ch l) ?x] =>
             let E := fresh "E" in
             destruct (Ascii.eqb (ch l) x) eqn:E;
             [ apply Ascii.eqb_eq in E; rewrite E in H; vm_compute in H;
               discriminate H | ]
         end.

Lemma letter_skips_no_whitespace (l : Lexer) :
  isLetter (ch l) = true -> skipWhitespace l = l.
Proof.
  intros H. apply skipWhitespace_id. unfold isWhitespace. skip_tests l H.
  reflexivity.
Qed.

Lemma digit_skips_no_whitespace (l : Lexer) :
  isDigit (ch l) = true -> skipWhitespace l = l.
Proof.
  intros H. apply skipWhitespace_id. unfold isWhitespace. skip_tests l H.
  reflexivity.
Qed.

Lemma NextToken_at_letter (l : Lexer) :
  isLetter (ch l) = true ->
  NextToken l
  = match fst (readIdentifier l) with
    | Ok s => Ok ({| Type_ := LookupIdent s; Literal := s; Line := line l;
                     Column := column l; Position := 0 |},
                  snd (readIdentifier l))
    | Panic => Panic
    | Timeout => Timeout
    end.
Proof.
  intros H. unfold NextToken, loop_bound. rewrite NextToken_rec_eq.
  rewrite (letter_skips_no_whitespace l H).
  skip_tests l H. cbn [orb]. rewrite H.
  unfold readIdentifier, withLiteral. cbn [fst snd].
  destruct (slice _ _ _); reflexivity.
Qed.

Lemma NextToken_at_digit (l : Lexer) :
  isDigit (ch l) = true ->
  NextToken l
  = (let '(t, lit, l1) := readNumber l in
     withLiteral t lit (line l1) (column l1) l1).
Proof.
  intros H. unfold NextToken, loop_bound. rewrite NextToken_rec_eq.
  rewrite (digit_skips_no_whitespace l H).
  skip_tests l H. cbn [orb].
  assert (Hl : isLetter (ch l) = false).
  { unfold isDigit, isLetter, byte_between in *.
    apply andb_true_iff in H as [H1 H2].
    apply Nat.leb_le in H1, H2.
    change (nat_of_ascii "0") with 48 in H1.
    change (nat_of_ascii "9") with 57 in H2.
    change (nat_of_ascii "a") with 97. change (nat_of_ascii "A") with 65.
    change (nat_of_ascii "z") with 122. change (nat_of_ascii "Z") with 90.
    destruct (Ascii.eqb (ch l) "_") eqn:Eu.
    { apply Ascii.eqb_eq in Eu. rewrite Eu in H2. vm_compute in H2. lia. }
    repeat match goal with
           | |- context [Nat.leb ?a ?b] => destruct (Nat.leb_spec a b)
           | |- context [Nat.ltb ?a ?b] => destruct (Nat.ltb_spec a b)
           end; try reflexivity; lia. }
  rewrite Hl, H. reflexivity.
Qed.

Lemma NextToken_at_dollar (l : Lexer) :
  ch l = "$"%char ->
  NextToken l
  = match fst (readIdentifier (readChar l)) with
    | Ok s =>
        Ok ({| Type_ := VARIABLE; Literal := "$" +:+ s;
               Line := line (snd (readIdentifier (readChar l)));
               Column := column (snd (readIdentifier (readChar l)));
               Position := 0 |},
            snd (readIdentifier (readChar l)))
    | Panic => Panic
    | Timeout => Timeout
    end.
Proof.
  intros H. unfold NextToken, loop_bound. rewrite NextToken_rec_eq.
  rewrite skipWhitespace_id by (rewrite H; reflexivity).
  rewrite !H. cbn [Ascii.eqb Bool.eqb andb orb DQUOTE SQUOTE].
  unfold readIdentifier, withLiteral. cbn [fst snd].
  destruct (slice _ _ _); reflexivity.
Qed.

End Runs.

Section Words.

Lemma letter_is_no_newline (c : ascii) :
  isLetter c = true -> Ascii.eqb c LF = false.
Proof.
  intros H. destruct (Ascii.eqb c LF) eqn:E; [|reflexivity].
  apply Ascii.eqb_eq in E. rewrite E in H. vm_compute in H. discriminate H.
Qed.

End Words.


(** ** Operators without a precedence *)

(** The infix functions registered for [=], [++], [--], [&&], [||] and
    [[] are never called: these are exactly the token types with an infix
    function and no entry in [precedences], and before a token without
    entry the loop of [parseExpression] stops, whatever minimal precedence
    it was called with.  So [$a && $b] is three statements and an error
    for [&&], and [$a[0]] is the statement [$a] followed by the array
    literal [[0]], without any error. *)
Theorem infix_functions_without_precedence_are_never_called :
  (forall t,
     (infixParseFns t <> None /\ precedences t = None)
     <-> In t infix_without_precedence) /\
  (forall fuel pe n precedence left (p : Parser),
     precedences (Type_ (peekToken p)) = None ->
     LOWEST <= precedence ->
     climb fuel pe n precedence left p = Ok (left, p)) /\
  (forall fuel, 8 <= fuel ->
     Parse fuel "<?php $a && $b; ?>"
     = Ok ({| Statements :=
                [ExpressionStatement (tokenOn1 VARIABLE "$a" 9)
                   (Some (EVariable (variableOn1 "a" 9)));
                 ExpressionStatement (tokenOn1 AND "&&" 11) None;
                 ExpressionStatement (tokenOn1 VARIABLE "$b" 15)
                   (Some (EVariable (variableOn1 "b" 15)))] |},
           ["no prefix parse function for AND found"])) /\
  (forall fuel, 8 <= fuel ->
     Parse fuel "<?php $a[0]; ?>"
     = Ok ({| Statements :=
                [ExpressionStatement (tokenOn1 VARIABLE "$a" 9)
                   (Some (EVariable (variableOn1 "a" 9)));
                 ExpressionStatement (tokenOn1 LBRACKET "[" 9)
                   (Some (ArrayLiteral (tokenOn1 LBRACKET "[" 9)
                            [Some (IntegerLiteral (tokenOn1 INT "0" 11)
                                     0)]))] |},
           [])).
Proof.
  split; [|split; [|split]].
  - intros t. unfold infix_without_precedence. split.
    + intros [Hf Hp]. destruct t; cbn in Hf, Hp |- *;
        first [discriminate Hp | congruence | tauto].
    + intros Hin. cbn in Hin.
      repeat (destruct Hin as [<-|Hin]; [split; [discriminate|reflexivity]|]).
      contradiction.
  - intros fuel pe n precedence left p Hp Hprec.
    apply climb_stops. right. unfold peekPrecedenceOf. rewrite Hp.
    exact Hprec.
  - intros fuel Hfuel. apply (Parse_mono 8 fuel _ _ Hfuel).
    vm_compute. reflexivity.
  - intros fuel Hfuel. apply (Parse_mono 8 fuel _ _ Hfuel).
    vm_compute. reflexivity.
Qed.

Lemma infix_functions_without_precedence_are_never_called_witness :
  exists p,
    parserOf "$i++;" = Ok p /\
    climb 5 (parseExpression 5) 5 LOWEST
      (Some (EVariable (variableOn1 "i" 3))) p
    = Ok (Some (EVariable (variableOn1 "i" 3)), p).
Proof.
  eexists. split; [vm_compute; reflexivity|].
  apply (proj1 (proj2 infix_functions_without_precedence_are_never_called)).
  - reflexivity.
  - unfold LOWEST. lia.
Defined.

(** ** Binary operators *)

Section BinaryOperators.

Lemma precedence_above_lowest (t : TokenType) (n : nat) :
  precedences t = Some n -> LOWEST < n /\ tt_eqb t SEMICOLON = false.
Proof.
  destruct t; cbn; intros H; try discriminate H; injection H as <-;
    split; try reflexivity;
    unfold LOWEST, TERNARY, EQUALS, LESSGREATER, SUM, PRODUCT, CALL; lia.
Qed.

Lemma climb_infix fuel pe n precedence left lx cur0 op errs prec lx' tok :
  infixParseFns (Type_ op) = Some parseInfixExpression_fn ->
  precedences (Type_ op) = Some prec ->
  precedence < prec ->
  NextToken lx = Ok (tok, lx') ->
  climb fuel pe (S n) precedence left
    {| l := lx; curToken := cur0; peekToken := op; errors := errs |}
  = bind (parseInfixExpression pe left)
      (fun left' => climb fuel pe n precedence left')
      {| l := lx'; curToken := op; peekToken := tok; errors := errs |}.
Proof.
  intros Hfn Hprec Hlt Hnext.
  destruct (precedence_above_lowest _ _ Hprec) as [_ Hsemi].
  rewrite (climb_step _ _ _ _ _ _ parseInfixExpression_fn);
    [ | exact Hsemi
      | unfold peekPrecedenceOf; cbn [peekToken]; rewrite Hprec; exact Hlt
      | exact Hfn ].
  unfold bind at 1. rewrite (nextToken_eq _ _ _ _ _ _ Hnext).
  reflexivity.
Qed.

Lemma climb_below fuel pe n precedence left (p : Parser) prec :
  precedences (Type_ (peekToken p)) = Some prec ->
  prec <= precedence ->
  climb fuel pe n precedence left p = Ok (left, p).
Proof.
  intros Hp Hle. apply climb_stops. right. unfold peekPrecedenceOf.
  rewrite Hp. exact Hle.
Qed.

Lemma climb_end fuel pe n precedence left (p : Parser) :
  precedences (Type_ (peekToken p)) = None ->
  LOWEST <= precedence ->
  climb fuel pe n precedence left p = Ok (left, p).
Proof.
  intros Hp Hle. apply climb_stops. right. unfold peekPrecedenceOf.
  rewrite Hp. exact Hle.
Qed.

End BinaryOperators.

Section BinaryNesting.

(** The infix function at an operator that is followed by an operand. *)
Lemma parseInfixExpression_operand f left lx op b errs tok lx' eb prec :
  NextToken lx = Ok (tok, lx') ->
  operand b eb ->
  precedences (Type_ op) = Some prec ->
  parseInfixExpression (parseExpression (S f)) left
    {| l := lx; curToken := op; peekToken := b; errors := errs |}
  = match climb f (parseExpression f) f prec (Some eb)
            {| l := lx'; curToken := b; peekToken := tok; errors := errs |}
    with
    | Ok (rhs, p') =>
        Ok (Some (InfixExpression op left (Literal op) rhs), p')
    | Panic => Panic
    | Timeout => Timeout
    end.
Proof.
  intros Hnext Hb Hprec.
  rewrite (parseInfixExpression_eq _ _ _ _ _ _ _ _ Hnext), Hprec.
  unfold bind at 1.
  rewrite (parseExpression_operand f prec _ eb) by exact Hb.
  destruct (climb _ _ _ _ _ _) as [[rhs p']| |]; reflexivity.
Qed.

Lemma binary_operators_nest :
  forall (p : Parser) a b c ea eb ec op1 op2 prec1 prec2 tEnd l1 l2 l3 l4 fuel,
  curToken p = a -> peekToken p = op1 ->
  operand a ea -> operand b eb -> operand c ec ->
  infixParseFns (Type_ op1) = Some parseInfixExpression_fn ->
  precedences (Type_ op1) = Some prec1 ->
  infixParseFns (Type_ op2) = Some parseInfixExpression_fn ->
  precedences (Type_ op2) = Some prec2 ->
  NextToken (l p) = Ok (b, l1) -> NextToken l1 = Ok (op2, l2) ->
  NextToken l2 = Ok (c, l3) -> NextToken l3 = Ok (tEnd, l4) ->
  precedences (Type_ tEnd) = None ->
  4 <= fuel ->
  parseExpression fuel LOWEST p
  = Ok (Some (if Nat.ltb prec1 prec2
              then infixOf op1 ea (infixOf op2 eb ec)
              else infixOf op2 (infixOf op1 ea eb) ec),
        {| l := l4; curToken := c; peekToken := tEnd; errors := errors p |}).
Proof.
  intros p a b c ea eb ec op1 op2 prec1 prec2 tEnd l1 l2 l3 l4 fuel
    Ha Hop1 Oa Ob Oc F1 P1 F2 P2 N1 N2 N3 N4 Pend Hfuel.
  apply (parseExpression_mono 4 fuel LOWEST Hfuel).
  destruct (precedence_above_lowest _ _ P1) as [L1 _].
  destruct (precedence_above_lowest _ _ P2) as [L2 _].
  destruct p as [lx cur0 peek0 errs]; cbn [curToken peekToken l errors] in *.
  subst cur0 peek0.
  rewrite (parseExpression_operand _ _ _ ea) by exact Oa.
  rewrite (climb_infix _ _ _ _ _ _ _ op1 _ prec1 l1 b F1 P1 L1 N1).
  unfold bind at 1.
  rewrite (parseInfixExpression_operand _ _ _ _ _ _ _ _ eb prec1 N2 Ob P1).
  destruct (Nat.ltb_spec prec1 prec2) as [Hlt|Hge].
  - rewrite (climb_infix _ _ _ _ _ _ _ op2 _ prec2 l3 c F2 P2 Hlt N3).
    unfold bind at 1.
    rewrite (parseInfixExpression_operand _ _ _ _ _ _ _ _ ec prec2 N4 Oc P2).
    rewrite (climb_end _ _ _ prec2) by (cbn; auto; lia).
    rewrite (climb_end _ _ _ prec1) by (cbn; auto; lia).
    rewrite (climb_end _ _ _ LOWEST) by (cbn; auto).
    reflexivity.
  - rewrite (climb_below _ _ _ prec1 _ _ prec2) by (cbn; auto).
    rewrite (climb_infix _ _ _ _ _ _ _ op2 _ prec2 l3 c F2 P2 L2 N3).
    unfold bind at 1.
    rewrite (parseInfixExpression_operand _ _ _ _ _ _ _ _ ec prec2 N4 Oc P2).
    rewrite (climb_end _ _ _ prec2) by (cbn; auto; lia).
    rewrite (climb_end _ _ _ LOWEST) by (cbn; auto).
    reflexivity.
Qed.

End BinaryNesting.

(** Two binary operators in a row nest by their precedences.  Wherever
    operands [a], [b], [c] are read as [a op1 b op2 c], with two operators
    of the precedence table that are parsed by [parseInfixExpression], and
    the token after [c] has no precedence, [parseExpression] returns
    [a op1 (b op2 c)] when [op2] binds tighter than [op1], and
    [(a op1 b) op2 c] otherwise: equal precedences associate to the
    left. *)
Theorem binary_operators_nest_by_precedence :
  forall (p : Parser) a b c ea eb ec op1 op2 prec1 prec2 tEnd l1 l2 l3 l4 fuel,
  curToken p = a -> peekToken p = op1 ->
  operand a ea -> operand b eb -> operand c ec ->
  infixParseFns (Type_ op1) = Some parseInfixExpression_fn ->
  precedences (Type_ op1) = Some prec1 ->
  infixParseFns (Type_ op2) = Some parseInfixExpression_fn ->
  precedences (Type_ op2) = Some prec2 ->
  NextToken (l p) = Ok (b, l1) -> NextToken l1 = Ok (op2, l2) ->
  NextToken l2 = Ok (c, l3) -> NextToken l3 = Ok (tEnd, l4) ->
  precedences (Type_ tEnd) = None ->
  4 <= fuel ->
  parseExpression fuel LOWEST p
  = Ok (Some (if Nat.ltb prec1 prec2
              then infixOf op1 ea (infixOf op2 eb ec)
              else infixOf op2 (infixOf op1 ea eb) ec),
        {| l := l4; curToken := c; peekToken := tEnd; errors := errors p |}).
Proof. exact binary_operators_nest. Qed.

Lemma binary_operators_nest_by_precedence_witness :
  exists p p',
    parserOf "10 - 4 - 3;" = Ok p /\
    parseExpression 4 LOWEST p
    = Ok (Some (infixOf (tokenOn1 MINUS "-" 8)
                  (infixOf (tokenOn1 MINUS "-" 4)
                     (IntegerLiteral (tokenOn1 INT "10" 3) 10)
                     (IntegerLiteral (tokenOn1 INT "4" 7) 4))
                  (IntegerLiteral (tokenOn1 INT "3" 11) 3)),
          p').
Proof.
  do 2 eexists. split; [vm_compute; reflexivity|].
  match goal with
  | |- parseExpression _ _ ?p = _ =>
      pose proof (binary_operators_nest_by_precedence p
                    (tokenOn1 INT "10" 3) (tokenOn1 INT "4" 7)
                    (tokenOn1 INT "3" 11)
                    (IntegerLiteral (tokenOn1 INT "10" 3) 10)
                    (IntegerLiteral (tokenOn1 INT "4" 7) 4)
                    (IntegerLiteral (tokenOn1 INT "3" 11) 3)
                    (tokenOn1 MINUS "-" 4) (tokenOn1 MINUS "-" 8)
                    SUM SUM) as H
  end.
  cbv [Nat.ltb Nat.leb SUM] in H.
  eapply H.
  all: try solve_by_evaluation.
  all: solve_by_evaluation.
Defined.

(** ** Declarations that fail *)

Section NilStatements.

Lemma parseStatement_FUNCTION fuel (p : Parser) :
  Type_ (curToken p) = FUNCTION ->
  parseStatement (S fuel) p
  = orNil KFunctionDeclaration
      (parseFunctionDeclaration fuel (parseStatement fuel)) p.
Proof.
  destruct p as [lx [ty lit ln col pos] pk errs]. cbn [curToken Type_].
  intros ->. reflexivity.
Qed.

End NilStatements.

(** A function declaration that fails is kept as a nil pointer.  At
    [function] followed by anything but an identifier (an anonymous
    function where a statement begins), [parseStatement] records that it
    expected an identifier and returns the nil [*FunctionDeclaration],
    without reading on; as a [Statement] it is not nil, and [ParseProgram]
    appends it.  The analyser dereferences such a statement: visiting a
    nil statement of any type it has a case for panics. *)
Theorem failed_function_declaration_is_a_nil_statement :
  (forall fuel (p : Parser),
     Type_ (curToken p) = FUNCTION ->
     tt_eqb (Type_ (peekToken p)) IDENT = false ->
     parseStatement (S fuel) p
     = Ok (NilStatement KFunctionDeclaration,
           withError p
             ("expected next token to be IDENT, got "
              +:+ TokenType_String (Type_ (peekToken p)) +:+ " instead"))) /\
  (forall k sa,
     k <> KConstantDeclaration -> visitStatement (NilStatement k) sa = Panic) /\
  (forall fuel, 9 <= fuel ->
     exists rest errs,
       Parse fuel "<?php function () { return 1; } ?>"
       = Ok ({| Statements := NilStatement KFunctionDeclaration :: rest |},
             "expected next token to be IDENT, got LPAREN instead" :: errs) /\
       forall file,
         AnalyzeProgram
           {| Statements := NilStatement KFunctionDeclaration :: rest |}
           file NewSemanticAnalyzer = Panic).
Proof.
  split; [|split].
  - intros fuel p Hcur Hpeek. rewrite (parseStatement_FUNCTION fuel p Hcur).
    unfold orNil, parseFunctionDeclaration, bind at 1 2 3, cur, expectPeek.
    unfold bind at 1, peekTokenIs. rewrite Hpeek. reflexivity.
  - intros k sa Hk. destruct k; try reflexivity. congruence.
  - intros fuel Hfuel. do 2 eexists. split.
    + apply (Parse_mono 9 fuel _ _ Hfuel). vm_compute. reflexivity.
    + intros file. reflexivity.
Qed.

Lemma failed_function_declaration_is_a_nil_statement_witness :
  exists p,
    parserOf "function () { };" = Ok p /\
    parseStatement 3 p
    = Ok (NilStatement KFunctionDeclaration,
          withError p "expected next token to be IDENT, got LPAREN instead").
Proof.
  eexists. split; [vm_compute; reflexivity|].
  apply (proj1 failed_function_declaration_is_a_nil_statement 2);
    reflexivity.
Defined.

(** ** Decimal integer literals *)

Section DecimalLiterals.

Lemma decimal_from_ge n ds : (0 <= n)%Z -> (n <= decimal_from n ds)%Z.
Proof.
  revert n. induction ds as [|d ds IH]; intros n Hn; cbn; [lia|].
  unfold decimal_from in IH. specialize (IH (n * 10 + Z.of_nat d)%Z). lia.
Qed.

(** The digit loop of [ParseUint] in base 10: the value, or an error when
    it does not fit 64 bits. *)
Lemma digits_loop_decimal : forall ds n,
  Forall (fun d => d < 10) ds -> (0 <= n <= strconv.maxUint64)%Z ->
  strconv.digits_loop 10 (map (fun d => 48 + d) ds) n false
  = if Z.leb (decimal_from n ds) strconv.maxUint64
    then Some (decimal_from n ds, false) else None.
Proof.
  induction ds as [|d ds IH]; intros n Hall Hn.
  - cbn [map strconv.digits_loop decimal_from fold_left].
    destruct (Z.leb_spec n strconv.maxUint64) as [Hle|Hgt];
      [reflexivity|lia].
  - inversion Hall as [|? ? Hd Hds]; subst.
    assert (Hstep : (n * 10 + Z.of_nat d <= decimal_from n (d :: ds))%Z).
    { apply (decimal_from_ge (n * 10 + Z.of_nat d) ds). lia. }
    cbn [map strconv.digits_loop].
    replace (Nat.eqb (48 + d) 95) with false
      by (symmetry; apply Nat.eqb_neq; lia).
    replace (Nat.leb 48 (48 + d) && Nat.leb (48 + d) 57) with true
      by (symmetry; apply andb_true_iff; split; apply Nat.leb_le; lia).
    replace (48 + d - 48) with d by lia.
    replace (Z.leb 10 (Z.of_nat d)) with false
      by (symmetry; apply Z.leb_gt; lia).
    change (strconv.maxUint64 / 10 + 1)%Z with 1844674407370955162%Z.
    unfold strconv.maxUint64 in *.
    change (2 ^ 64 - 1)%Z with 18446744073709551615%Z in *.
    destruct (Z.leb_spec 1844674407370955162 n) as [Hbig|Hsmall].
    { destruct (Z.leb_spec (decimal_from n (d :: ds)) 18446744073709551615);
        [lia|reflexivity]. }
    destruct (Z.ltb_spec 18446744073709551615 (n * 10 + Z.of_nat d))
      as [Hover|Hfit].
    { destruct (Z.leb_spec (decimal_from n (d :: ds)) 18446744073709551615);
        [lia|reflexivity]. }
    rewrite (IH _ Hds) by lia. reflexivity.
Qed.

Lemma ParseInt0_decimal (d : nat) (ds : list nat) :
  1 <= d < 10 -> Forall (fun d => d < 10) ds ->
  strconv.ParseInt0 (digit_text (d :: ds))
  = if Z.ltb (decimal_value (d :: ds)) (2 ^ 63)
    then Some (decimal_value (d :: ds)) else None.
Proof.
  intros Hd Hds.
  assert (Hall : Forall (fun d => d < 10) (d :: ds)).
  { constructor; [lia|exact Hds]. }
  pose proof (decimal_from_ge 0 (d :: ds) ltac:(lia)) as Hpos.
  fold (decimal_value (d :: ds)) in Hpos.
  unfold strconv.ParseInt0. rewrite (bytes_digit_text _ Hall).
  cbn [map].
  replace (Nat.eqb (48 + d) 43) with false
    by (symmetry; apply Nat.eqb_neq; lia).
  replace (Nat.eqb (48 + d) 45) with false
    by (symmetry; apply Nat.eqb_neq; lia).
  unfold strconv.ParseUint0.
  replace (Nat.eqb (48 + d) 48) with false
    by (symmetry; apply Nat.eqb_neq; lia).
  change (48 + d :: map (fun d0 => 48 + d0) ds)
    with (map (fun d0 => 48 + d0) (d :: ds)).
  rewrite (digits_loop_decimal (d :: ds) 0 Hall)
    by (unfold strconv.maxUint64; lia).
  fold (decimal_value (d :: ds)).
  unfold strconv.maxUint64.
  change (2 ^ 64 - 1)%Z with 18446744073709551615%Z.
  change (2 ^ 63)%Z with 9223372036854775808%Z.
  destruct (Z.leb_spec (decimal_value (d :: ds)) 18446744073709551615);
    destruct (Z.ltb_spec (decimal_value (d :: ds)) 9223372036854775808);
    cbn [andb negb]; try lia; try reflexivity.
  destruct (Z.leb_spec 9223372036854775808 (decimal_value (d :: ds)));
    [lia|reflexivity].
  destruct (Z.leb_spec 9223372036854775808 (decimal_value (d :: ds)));
    [reflexivity|lia].
Qed.

End DecimalLiterals.

(** A decimal integer literal, a digit from 1 to 9 followed by digits, has
    the value its digits denote when that value is below 2^63; from 2^63
    on, [parseIntegerLiteral] returns nil and records
    [could not parse "..." as integer]: a literal never wraps around. *)
Theorem decimal_integer_literal_fits_or_fails (d : nat) (ds : list nat)
  (p : Parser) :
  1 <= d < 10 ->
  Forall (fun d => d < 10) ds ->
  Literal (curToken p) = digit_text (d :: ds) ->
  parseIntegerLiteral p
  = if Z.ltb (decimal_value (d :: ds)) (2 ^ 63)
    then Ok (Some (IntegerLiteral (curToken p) (decimal_value (d :: ds))), p)
    else Ok (None, withError p (integer_error (digit_text (d :: ds)))).
Proof.
  intros Hd Hds Hlit.
  rewrite parseIntegerLiteral_result, Hlit, (ParseInt0_decimal d ds Hd Hds).
  destruct (Z.ltb _ _); reflexivity.
Qed.

Lemma decimal_integer_literal_fits_or_fails_witness :
  (exists p,
     parserOf "9223372036854775807;" = Ok p /\
     parseIntegerLiteral p
     = Ok (Some (IntegerLiteral (curToken p) 9223372036854775807), p)) /\
  (exists p,
     parserOf "9223372036854775808;" = Ok p /\
     parseIntegerLiteral p
     = Ok (None, withError p (integer_error "9223372036854775808"))).
Proof.
  split.
  - eexists. split; [vm_compute; reflexivity|].
    apply (decimal_integer_literal_fits_or_fails 9
             [2;2;3;3;7;2;0;3;6;8;5;4;7;7;5;8;0;7]).
    + lia.
    + repeat constructor.
    + reflexivity.
  - eexists. split; [vm_compute; reflexivity|].
    apply (decimal_integer_literal_fits_or_fails 9
             [2;2;3;3;7;2;0;3;6;8;5;4;7;7;5;8;0;8]).
    + lia.
    + repeat constructor.
    + reflexivity.
Defined.

(** ** Prefix operators *)

Section PrefixOperators.

Lemma binary_precedence_below_prefix (t : TokenType) (n : nat) :
  infixParseFns t = Some parseInfixExpression_fn ->
  precedences t = Some n -> n < PREFIX.
Proof.
  destruct t; cbn; intros Hf H; try discriminate Hf; try discriminate H;
    injection H as <-;
    unfold PREFIX, EQUALS, LESSGREATER, SUM, PRODUCT; lia.
Qed.

(** [parseExpression] at a prefix operator that is followed by an
    operand. *)
Lemma parseExpression_prefix f precedence lx pre a errs tok lx' ea :
  prefixParseFns (Type_ pre) = Some parsePrefixExpression_fn ->
  NextToken lx = Ok (tok, lx') ->
  operand a ea ->
  parseExpression (S (S f)) precedence
    {| l := lx; curToken := pre; peekToken := a; errors := errs |}
  = match climb f (parseExpression f) f PREFIX (Some ea)
            {| l := lx'; curToken := a; peekToken := tok; errors := errs |}
    with
    | Ok (rhs, p') =>
        climb (S f) (parseExpression (S f)) (S f) precedence
          (Some (PrefixExpression pre (Literal pre) rhs)) p'
    | Panic => Panic
    | Timeout => Timeout
    end.
Proof.
  intros Hfn Hnext Ha.
  rewrite parseExpression_S. unfold parseExpression_body, bind at 1, cur.
  cbn [curToken]. rewrite Hfn. unfold bind at 1. cbn [callPrefix].
  unfold parsePrefixExpression, bind at 1 2 3, cur.
  rewrite (nextToken_eq _ _ _ _ _ _ Hnext).
  rewrite (parseExpression_operand f PREFIX _ ea) by exact Ha.
  destruct (climb _ _ _ _ _ _) as [[rhs p']| |]; reflexivity.
Qed.

End PrefixOperators.

(** A prefix operator takes its operand before any binary operator does.
    Wherever a prefix operator, an operand [a], a binary operator of the
    precedence table and an operand [b] are read in this order, and the
    token after [b] has no precedence, [parseExpression] returns
    [(pre a) op b]. *)
Theorem prefix_operator_binds_tighter_than_binary :
  forall (p : Parser) pre a b ea eb op prec tEnd l1 l2 l3 fuel,
  curToken p = pre -> peekToken p = a ->
  prefixParseFns (Type_ pre) = Some parsePrefixExpression_fn ->
  operand a ea -> operand b eb ->
  infixParseFns (Type_ op) = Some parseInfixExpression_fn ->
  precedences (Type_ op) = Some prec ->
  NextToken (l p) = Ok (op, l1) -> NextToken l1 = Ok (b, l2) ->
  NextToken l2 = Ok (tEnd, l3) ->
  precedences (Type_ tEnd) = None ->
  4 <= fuel ->
  parseExpression fuel LOWEST p
  = Ok (Some (infixOf op (prefixOf pre ea) eb),
        {| l := l3; curToken := b; peekToken := tEnd; errors := errors p |}).
Proof.
  intros p pre a b ea eb op prec tEnd l1 l2 l3 fuel
    Hpre Ha Fpre Oa Ob Fop Pop N1 N2 N3 Pend Hfuel.
  apply (parseExpression_mono 4 fuel LOWEST Hfuel).
  destruct (precedence_above_lowest _ _ Pop) as [Llow _].
  pose proof (binary_precedence_below_prefix _ _ Fop Pop) as Lpre.
  destruct p as [lx cur0 peek0 errs]; cbn [curToken peekToken l errors] in *.
  subst cur0 peek0.
  rewrite (parseExpression_prefix _ _ _ _ _ _ _ _ ea Fpre N1 Oa).
  rewrite (climb_below _ _ _ PREFIX _ _ prec) by (cbn; auto; lia).
  rewrite (climb_infix _ _ _ _ _ _ _ op _ prec l2 b Fop Pop Llow N2).
  unfold bind at 1.
  rewrite (parseInfixExpression_operand _ _ _ _ _ _ _ _ eb prec N3 Ob Pop).
  rewrite (climb_end _ _ _ prec) by (cbn; auto; lia).
  rewrite (climb_end _ _ _ LOWEST) by (cbn; auto).
  reflexivity.
Qed.

Lemma prefix_operator_binds_tighter_than_binary_witness :
  exists p p',
    parserOf "-$a * $b;" = Ok p /\
    parseExpression 4 LOWEST p
    = Ok (Some (infixOf (tokenOn1 MULTIPLY "*" 5)
                  (prefixOf (tokenOn1 MINUS "-" 1)
                     (EVariable (variableOn1 "a" 4)))
                  (EVariable (variableOn1 "b" 9))),
          p').
Proof.
  do 2 eexists. split; [vm_compute; reflexivity|].
  eapply (prefix_operator_binds_tighter_than_binary _
            (tokenOn1 MINUS "-" 1) (tokenOn1 VARIABLE "$a" 4)
            (tokenOn1 VARIABLE "$b" 9) _ _ (tokenOn1 MULTIPLY "*" 5) PRODUCT).
  all: try solve_by_evaluation.
  all: solve_by_evaluation.
Defined.

(** ** The walk of the analyser *)

Lemma grows_refl (st : SymbolTable) : grows st st.
Proof.
  split; [lia|]. split; [eauto|]. exists []. rewrite app_nil_r. reflexivity.
Qed.

Lemma grows_trans (a b c : SymbolTable) : grows a b -> grows b c -> grows a c.
Proof.
  intros (L1 & P1 & r1 & R1) (L2 & P2 & r2 & R2).
  split; [lia|]. split.
  - intros i s Hi. destruct (P1 i s Hi) as (s1 & H1 & E1).
    destruct (P2 i s1 H1) as (s2 & H2 & E2).
    exists s2. split; [exact H2 | congruence].
  - exists (r1 ++ r2). rewrite R2, R1, app_assoc. reflexivity.
Qed.

Lemma carries_trans (a b c : SemanticAnalyzer) :
  carries a b -> carries b c -> carries a c.
Proof.
  intros (_ & G1 & E1 & F1) (W2 & G2 & E2 & F2).
  split; [exact W2|]. split; [exact (grows_trans _ _ _ G1 G2)|].
  split; congruence.
Qed.

(** An update of the current scope that keeps its parent. *)
Lemma update_keeps (st st' : SymbolTable) (cur cur' : Scope)
  (refs : list SymbolReference) :
  well_scoped st ->
  current st = Ok cur ->
  Parent cur' = Parent cur ->
  scopes st' = <[CurrentScope st := cur']> (scopes st) ->
  CurrentScope st' = CurrentScope st ->
  References st' = References st ++ refs ->
  well_scoped st' /\ grows st st'.
Proof.
  intros [Hcur Hpar] Ecur Hp Hs Hc Hr. apply current_lookup in Ecur.
  split; [split|split; [|split]].
  - rewrite Hc, Hs, length_insert. exact Hcur.
  - intros i s p Hi Hq. rewrite Hs in Hi.
    destruct (decide (i = CurrentScope st)) as [->|Hne].
    + rewrite list_lookup_insert_eq in Hi by exact Hcur.
      injection Hi as <-. rewrite Hp in Hq. eauto.
    + rewrite list_lookup_insert_ne in Hi by congruence. eauto.
  - rewrite Hs, length_insert. lia.
  - intros i s Hi. rewrite Hs.
    destruct (decide (i = CurrentScope st)) as [->|Hne].
    + rewrite list_lookup_insert_eq by exact Hcur.
      exists cur'. split; [reflexivity|]. congruence.
    + rewrite list_lookup_insert_ne by congruence. eauto.
  - exists refs. exact Hr.
Qed.

(** A table that differs in nothing the scopes depend on. *)
Lemma same_scopes_keeps (st st' : SymbolTable) (refs : list SymbolReference) :
  well_scoped st ->
  scopes st' = scopes st ->
  CurrentScope st' = CurrentScope st ->
  References st' = References st ++ refs ->
  well_scoped st' /\ grows st st'.
Proof.
  intros [Hcur Hpar] Hs Hc Hr. split; [split|split; [|split]].
  - rewrite Hc, Hs. exact Hcur.
  - rewrite Hs. exact Hpar.
  - rewrite Hs. lia.
  - rewrite Hs. eauto.
  - exists refs. exact Hr.
Qed.

Lemma stays_done : stays done_.
Proof.
  intros sa W. exists sa. split; [reflexivity|].
  split; [|reflexivity]. split; [exact W|].
  split; [apply grows_refl|]. split; reflexivity.
Qed.

Lemma stays_andThen (v1 v2 : Visit) :
  stays v1 -> stays v2 -> stays (andThen v1 v2).
Proof.
  intros H1 H2 sa W. destruct (H1 sa W) as (sa1 & E1 & C1 & S1).
  destruct (H2 sa1 (proj1 C1)) as (sa2 & E2 & C2 & S2).
  exists sa2. unfold andThen. rewrite E1. split; [exact E2|].
  split; [exact (carries_trans _ _ _ C1 C2) | congruence].
Qed.

Lemma stays_visitAll {X} (visit : X -> Visit) (xs : list X) :
  Forall (fun x => stays (visit x)) xs -> stays (visitAll visit xs).
Proof.
  induction 1 as [|x xs Hx _ IH]; [exact stays_done|].
  cbn [visitAll]. apply stays_andThen; assumption.
Qed.

Lemma stays_declare (name : string) (t : SymbolType) (ln : nat) :
  stays (declare name t ln).
Proof.
  intros sa W. destruct (well_scoped_current _ W) as [cur Ecur].
  destruct (DeclareSymbol_eq _ cur name t (CurrentFile sa) ln Ecur)
    as (symbol & st' & E & _ & _ & _ & _ & _ & _ & Hc & _ & Hr & _
        & cur' & Hs & _ & Hp & _).
  exists (withTable sa st'). unfold declare. rewrite E.
  split; [reflexivity|].
  destruct (update_keeps _ st' cur cur' [] W Ecur Hp Hs Hc) as [W' G].
  { rewrite app_nil_r. exact Hr. }
  split; [|exact Hc]. split; [exact W'|]. split; [exact G|].
  split; reflexivity.
Qed.

Lemma AddReference_keeps (name : string) (t : SymbolType) (ln col : nat)
  (st : SymbolTable) :
  well_scoped st ->
  exists ref st', AddReference name t ln col st = Ok (ref, st') /\
    well_scoped st' /\ grows st st' /\
    CurrentScope st' = CurrentScope st.
Proof.
  intros W. destruct (ResolveSymbol_well_scoped st name t W) as [r E].
  unfold AddReference. rewrite E. do 2 eexists. split; [reflexivity|].
  destruct (same_scopes_keeps st
              {| scopes := scopes st; CurrentScope := CurrentScope st;
                 AllSymbols := AllSymbols st;
                 References := References st ++
                   [{| RefName := name; ResolvedSymbol := r;
                       RefLine := ln; RefColumn := col |}];
                 Namespaces := Namespaces st;
                 ClassHierarchy := ClassHierarchy st |} _ W
              eq_refl eq_refl eq_refl) as [W' G].
  split; [exact W'|]. split; [exact G|reflexivity].
Qed.

Lemma stays_refer (name : string) (t : SymbolType) (ln : nat) :
  stays (refer name t ln).
Proof.
  intros sa W.
  destruct (AddReference_keeps name t ln 0 _ W) as (ref & st' & E & W' & G & C).
  exists (withTable sa st'). unfold refer. rewrite E.
  split; [reflexivity|]. split; [|exact C].
  split; [exact W'|]. split; [exact G|]. split; reflexivity.
Qed.

Lemma stays_addIdentifierReference (identifier : Identifier) :
  stays (addIdentifierReference identifier).
Proof.
  intros sa W. unfold addIdentifierReference.
  destruct (AddReference_keeps (IdentValue identifier) FUNCTION_SYMBOL
              (Line (IdentToken identifier)) 0 _ W)
    as (ref & st' & E & W' & G & C).
  rewrite E.
  assert (C1 : carries sa (withTable sa st')).
  { split; [exact W'|]. split; [exact G|]. split; reflexivity. }
  destruct (ResolvedSymbol ref).
  - exists (withTable sa st'). split; [reflexivity|]. split; [exact C1|exact C].
  - destruct (stays_refer (IdentValue identifier) CONSTANT_SYMBOL
                (Line (IdentToken identifier)) (withTable sa st') W')
      as (sa2 & E2 & C2 & S2).
    exists sa2. split; [exact E2|].
    split; [exact (carries_trans _ _ _ C1 C2)|].
    rewrite S2. exact C.
Qed.

Lemma stays_updateCurrent (f : Scope -> Scope) :
  (forall s, Parent (f s) = Parent s) -> stays (onTable (updateCurrent f)).
Proof.
  intros Hf sa W. destruct (well_scoped_current _ W) as [cur Ecur].
  unfold onTable, updateCurrent. rewrite Ecur.
  eexists. split; [reflexivity|].
  destruct (update_keeps (SymbolTable_ sa)
              (setScopes (SymbolTable_ sa)
                 (<[CurrentScope (SymbolTable_ sa) := f cur]>
                    (scopes (SymbolTable_ sa))))
              cur (f cur) [] W Ecur (Hf cur) eq_refl eq_refl) as [W' G].
  { cbn. rewrite app_nil_r. reflexivity. }
  split; [|reflexivity]. split; [exact W'|]. split; [exact G|].
  split; reflexivity.
Qed.

Lemma stays_SetNamespace (namespace : string) :
  stays (onTable (SetNamespace namespace)).
Proof. apply stays_updateCurrent. reflexivity. Qed.

Lemma stays_AddImport (fullyQualified alias : string) :
  stays (onTable (AddImport fullyQualified alias)).
Proof. apply stays_updateCurrent. reflexivity. Qed.

Lemma stays_declareParameters (params : list Variable_) :
  stays (declareParameters params).
Proof.
  apply stays_visitAll. apply Forall_forall. intros x _. apply stays_declare.
Qed.

Lemma stays_visitClassHeader (tok : Token) (name : Identifier)
  (superClass : option Identifier) (interfaces : list Identifier) :
  stays (visitClassHeader tok name superClass interfaces).
Proof.
  intros sa W.
  destruct (stays_declare (IdentValue name) CLASS_SYMBOL (Line tok) sa W)
    as (sa1 & E1 & (W1 & G1 & Er1 & F1) & S1).
  unfold declare in E1. unfold visitClassHeader.
  destruct (DeclareSymbol _ _ _ _ _) as [[symbol st]| |]; try discriminate.
  injection E1 as <-. eexists. split; [reflexivity|].
  cbn [withTable SymbolTable_] in *.
  destruct (same_scopes_keeps st
              (AddClassHierarchy (FullyQualified symbol)
                 match superClass with
                 | Some s => IdentValue s
                 | None => ""
                 end (map IdentValue interfaces) st) [] W1
              eq_refl eq_refl) as [W' G].
  { cbn. rewrite app_nil_r. reflexivity. }
  split; [|exact S1]. split; [exact W'|].
  split; [exact (grows_trans _ _ _ G1 G)|]. split; reflexivity.
Qed.

Lemma leaves_ExitScope : leaves (onTable ExitScope).
Proof.
  intros sa cur q W Ecur Hq. unfold onTable, ExitScope. rewrite Ecur, Hq.
  eexists. split; [reflexivity|]. split; [|reflexivity].
  destruct W as [Hcur Hpar]. apply current_lookup in Ecur.
  split; [|split; [|split; reflexivity]].
  - split; cbn; [|exact Hpar].
    specialize (Hpar _ _ _ Ecur Hq). lia.
  - cbn. split; [reflexivity|]. split; [eauto|]. exists [].
    rewrite app_nil_r. reflexivity.
Qed.

Lemma leaves_andThen (v1 v2 : Visit) :
  stays v1 -> leaves v2 -> leaves (andThen v1 v2).
Proof.
  intros H1 H2 sa cur q W Ecur Hq.
  destruct (H1 sa W) as (sa1 & E1 & C1 & S1).
  destruct C1 as (W1 & G1 & Er1 & F1).
  destruct G1 as (L1 & P1 & R1).
  apply current_lookup in Ecur.
  destruct (P1 _ _ Ecur) as (cur1 & Hc1 & Hp1).
  rewrite <- S1 in Hc1. apply current_lookup in Hc1.
  destruct (H2 sa1 cur1 q W1 Hc1 ltac:(congruence)) as (sa2 & E2 & C2 & S2).
  exists sa2. unfold andThen. rewrite E1. split; [exact E2|].
  split; [|exact S2].
  exact (carries_trans _ _ _ (conj W1 (conj (conj L1 (conj P1 R1))
                                         (conj Er1 F1))) C2).
Qed.

Lemma stays_EnterScope (scopeType name : string) (v : Visit) :
  leaves v -> stays (andThen (onTable (EnterScope scopeType name)) v).
Proof.
  intros H sa W. destruct (well_scoped_current _ W) as [cur Ecur].
  unfold andThen, onTable, EnterScope. rewrite Ecur.
  set (st := SymbolTable_ sa) in *.
  set (cur' := {| ScopeType := ScopeType cur; ScopeName := ScopeName cur;
                  Parent := Parent cur; Symbols := Symbols cur;
                  Children := Children cur ++ [List.length (scopes st)];
                  Namespace_ := Namespace_ cur; Imports := Imports cur |}).
  set (new := {| ScopeType := scopeType; ScopeName := name;
                 Parent := Some (CurrentScope st); Symbols := ∅;
                 Children := []; Namespace_ := Namespace_ cur;
                 Imports := Imports cur |}).
  set (st1 := {| scopes := <[CurrentScope st := cur']> (scopes st) ++ [new];
                 CurrentScope := List.length (scopes st);
                 AllSymbols := AllSymbols st; References := References st;
                 Namespaces := Namespaces st;
                 ClassHierarchy := ClassHierarchy st |}).
  pose proof W as [Hcur Hpar]. fold st in Hcur, Hpar.
  pose proof (proj1 (current_lookup _ _) Ecur) as Lcur.
  assert (Hnew : scopes st1 !! CurrentScope st1 = Some new).
  { cbn. rewrite lookup_app_r by (rewrite length_insert; lia).
    rewrite length_insert, Nat.sub_diag. reflexivity. }
  assert (W1 : well_scoped st1).
  { split; cbn.
    - rewrite length_app, length_insert. cbn. lia.
    - intros i s p Hi Hp.
      destruct (decide (i < List.length (scopes st))) as [Hlt|Hge].
      + rewrite lookup_app_l in Hi by (rewrite length_insert; exact Hlt).
        destruct (decide (i = CurrentScope st)) as [->|Hne].
        * rewrite list_lookup_insert_eq in Hi by exact Hcur.
          injection Hi as <-. cbn in Hp. eauto.
        * rewrite list_lookup_insert_ne in Hi by congruence. eauto.
      + rewrite lookup_app_r in Hi by (rewrite length_insert; lia).
        rewrite length_insert in Hi.
        destruct (i - List.length (scopes st)) eqn:Ei; [|discriminate].
        injection Hi as <-. cbn in Hp. injection Hp as <-. lia. }
  assert (G1 : grows st st1).
  { split; [|split].
    - cbn. rewrite length_app, length_insert. lia.
    - intros i s Hi. cbn.
      pose proof (lookup_lt_Some _ _ _ Hi) as Hlt.
      rewrite lookup_app_l by (rewrite length_insert; exact Hlt).
      destruct (decide (i = CurrentScope st)) as [->|Hne].
      + rewrite list_lookup_insert_eq by exact Hcur.
        exists cur'. split; [reflexivity|]. cbn. congruence.
      + rewrite list_lookup_insert_ne by congruence. eauto.
    - exists []. cbn. rewrite app_nil_r. reflexivity. }
  destruct (H (withTable sa st1) new (CurrentScope st) W1
              (proj2 (current_lookup _ _) Hnew) eq_refl)
    as (sa2 & E2 & C2 & S2).
  exists sa2. split; [exact E2|]. split; [|exact S2].
  apply (carries_trans sa (withTable sa st1) sa2); [|exact C2].
  split; [exact W1|]. split; [exact G1|]. split; reflexivity.
Qed.

Lemma stays_callee (fn : option Expression) (name : Identifier -> Visit) :
  (forall identifier, stays (name identifier)) ->
  match fn with
  | Some e => stays (visitExpression e)
  | None => True
  end ->
  stays match fn with
        | Some (EIdentifier identifier) => name identifier
        | Some other => visitExpression other
        | None => done_
        end.
Proof.
  intros Hn H. destruct fn as [e|]; [|exact stays_done].
  destruct e; first [apply Hn | exact H].
Qed.

Ltac split_true :=
  repeat match goal with
  | H : (_ && _)%bool = true |- _ =>
      apply andb_true_iff in H; destruct H
  end.

(** The children of a node, each of which stays by [leaf]. *)
Ltac children leaf :=
  lazymatch goal with
  | H : forallb _ ?l = true |- Forall _ ?l =>
      let x := fresh "x" in
      let rest := fresh "rest" in
      let IHl := fresh "IHl" in
      let Hx := fresh "Hx" in
      let Hl := fresh "Hl" in
      revert H; induction l as [|x rest IHl]; intros H;
      [ apply List.Forall_nil
      | cbn [forallb] in H; apply andb_true_iff in H;
        destruct H as [Hx Hl];
        apply List.Forall_cons;
        [ cbn beta in Hx |- *;
          lazymatch type of x with
          | (_ * _)%type => destruct x; cbn [fst snd] in Hx |- *; split_true
          | _ => idtac
          end;
          leaf
        | apply IHl; exact Hl ] ]
  | |- Forall _ _ => apply Forall_forall; intros ? _; cbn beta; leaf
  end.

Ltac walk leaf :=
  lazymatch goal with
  | |- stays done_ => exact stays_done
  | |- stays (andThen (onTable (EnterScope _ _)) _) =>
      apply stays_EnterScope; walk leaf
  | |- stays (andThen _ _) => apply stays_andThen; walk leaf
  | |- leaves (onTable ExitScope) => exact leaves_ExitScope
  | |- leaves (andThen _ _) => apply leaves_andThen; walk leaf
  | |- stays (declare _ _ _) => apply stays_declare
  | |- stays (refer _ _ _) => apply stays_refer
  | |- stays (onTable (SetNamespace _)) => apply stays_SetNamespace
  | |- stays (onTable (AddImport _ _)) => apply stays_AddImport
  | |- stays (declareParameters _) => apply stays_declareParameters
  | |- stays (visitClassHeader _ _ _ _) => apply stays_visitClassHeader
  | |- stays (addIdentifierReference _) =>
      apply stays_addIdentifierReference
  | |- stays (visitInterfaceMethod _) => apply stays_declare
  | |- stays (visitAll _ _) =>
      apply stays_visitAll; children ltac:(idtac; walk leaf)
  | |- stays (match ?o with Some _ => _ | None => _ end) =>
      first [ destruct o; [| exact stays_done]; walk leaf
            | apply stays_callee; [intros; walk leaf|]; destruct o;
              [walk leaf | exact I] ]
  | |- _ => leaf
  end.

Lemma visitExpression_stays (e : Expression) :
  non_nil_expression e = true -> stays (visitExpression e)
with visitStatement_stays (s : Statement) :
  non_nil_statement s = true -> stays (visitStatement s)
with visitBlockStatement_stays (b : BlockStatement) :
  non_nil_block b = true -> stays (visitBlockStatement b)
with visitConstantDeclaration_stays (c : ConstantDeclaration) :
  non_nil_constant c = true -> stays (visitConstantDeclaration c)
with visitPropertyDeclaration_stays (d : PropertyDeclaration) :
  non_nil_property d = true -> stays (visitPropertyDeclaration d)
with visitMethodDeclaration_stays (m : MethodDeclaration) :
  non_nil_method m = true -> stays (visitMethodDeclaration m)
with visitCatchClause_stays (c : CatchClause) :
  non_nil_catch c = true -> stays (visitCatchClause c).
Proof.
  - destruct e; cbn [non_nil_expression visitExpression]; intros H;
      split_true;
      walk ltac:(first [ apply visitExpression_stays; assumption
                       | apply visitBlockStatement_stays; assumption ]).
  - destruct s; cbn [non_nil_statement visitStatement]; intros H;
      try discriminate H; split_true;
      walk ltac:(first [ apply visitExpression_stays; assumption
                       | apply visitBlockStatement_stays; assumption
                       | apply visitConstantDeclaration_stays; assumption
                       | apply visitPropertyDeclaration_stays; assumption
                       | apply visitMethodDeclaration_stays; assumption
                       | apply visitCatchClause_stays; assumption ]).
  - destruct b; cbn [non_nil_block visitBlockStatement]; intros H;
      walk ltac:(apply visitStatement_stays; assumption).
  - destruct c; cbn [non_nil_constant visitConstantDeclaration]; intros H;
      walk ltac:(apply visitExpression_stays; assumption).
  - destruct d; cbn [non_nil_property visitPropertyDeclaration]; intros H;
      walk ltac:(apply visitExpression_stays; assumption).
  - destruct m; cbn [non_nil_method visitMethodDeclaration]; intros H;
      walk ltac:(apply visitBlockStatement_stays; assumption).
  - destruct c; cbn [non_nil_catch visitCatchClause]; intros H;
      walk ltac:(apply visitBlockStatement_stays; assumption).
Qed.

(** X19. On a tree without nil statement pointers the analysis returns:
    every scope the walk enters for a function, a method, a class, an
    interface, a trait or a closure is left again, however they nest, so
    [AnalyzeProgram] ends in the scope in which it began, with a table
    whose scopes and references are those it had and new ones behind them.
    The walk itself records no error.  For an input the parser reads
    without error into such a tree, [ParseWithSemantics] therefore returns
    the analysed program, with the global scope as the current one. *)
Theorem analysis_ends_in_the_scope_it_began :
  (forall (program : Program_) (filename : string) (sa : SemanticAnalyzer),
     well_scoped (SymbolTable_ sa) ->
     non_nil_program program = true ->
     exists sa',
       AnalyzeProgram program filename sa = Ok sa' /\
       CurrentScope (SymbolTable_ sa') = CurrentScope (SymbolTable_ sa) /\
       well_scoped (SymbolTable_ sa') /\
       List.length (scopes (SymbolTable_ sa))
       <= List.length (scopes (SymbolTable_ sa')) /\
       (exists refs, References (SymbolTable_ sa')
                     = References (SymbolTable_ sa) ++ refs) /\
       Errors sa' = Errors sa /\ CurrentFile sa' = filename)
  /\
  (forall (fuel : nat) (inp filename : string) (program : Program_),
     Parse fuel inp = Ok (program, []) ->
     non_nil_program program = true ->
     exists sp,
       ParseWithSemantics fuel inp filename = Ok (inr sp) /\
       Program sp = program /\
       CurrentScope (SymbolTableOf sp) = GlobalScope).
Proof.
  assert (Hwalk : forall program, non_nil_program program = true ->
                    stays (visitProgram program)).
  { intros [stmts] H. unfold visitProgram, non_nil_program in *.
    cbn [Statements] in *. apply stays_visitAll.
    apply Forall_forall. intros s Hin. apply visitStatement_stays.
    rewrite forallb_forall in H. apply H, list_elem_of_In, Hin. }
  split.
  - intros program filename sa W H. unfold AnalyzeProgram.
    destruct (Hwalk program H
                {| SymbolTable_ := SymbolTable_ sa; CurrentFile := filename;
                   Errors := Errors sa |} W)
      as (sa' & E & (W' & (L & _ & R) & Er & F) & S).
    exists sa'. split; [exact E|]. split; [exact S|]. split; [exact W'|].
    split; [exact L|]. split; [exact R|]. split; [exact Er | exact F].
  - intros fuel inp filename program HP H. unfold ParseWithSemantics.
    rewrite HP. unfold AnalyzeProgram.
    destruct (Hwalk program H
                {| SymbolTable_ := SymbolTable_ NewSemanticAnalyzer;
                   CurrentFile := filename;
                   Errors := Errors NewSemanticAnalyzer |}
                (built_well_scoped _ built_new))
      as (sa' & E & _ & S).
    rewrite E. eexists. split; [reflexivity|]. split; [reflexivity|].
    exact S.
Qed.

Lemma analysis_ends_in_the_scope_it_began_witness :
  exists sp,
    ParseWithSemantics 14 closure_in_function "pay.php" = Ok (inr sp) /\
    List.length (Statements (Program sp)) = 2 /\
    CurrentScope (SymbolTableOf sp) = GlobalScope.
Proof.
  destruct (proj2 analysis_ends_in_the_scope_it_began 14 closure_in_function
              "pay.php"
              (match Parse 14 closure_in_function with
               | Ok (program, _) => program
               | _ => {| Statements := [] |}
               end))
    as (sp & E & P & S).
  - vm_compute. reflexivity.
  - vm_compute. reflexivity.
  - exists sp. split; [exact E|]. split; [|exact S].
    rewrite P. vm_compute. reflexivity.
Defined.

Lemma ValidateReferences_reports (sa : SemanticAnalyzer)
  (ref : SymbolReference) :
  In ref (References (SymbolTable_ sa)) ->
  ResolvedSymbol ref = None ->
  In (undefined_symbol (RefName ref) (RefLine ref))
     (Errors (ValidateReferences sa)).
Proof.
  intros Hin Hnone. unfold ValidateReferences. cbn [Errors].
  apply in_or_app. right.
  apply (in_map (fun r => undefined_symbol (RefName r) (RefLine r))).
  unfold GetUnresolvedReferences. apply filter_In. split; [exact Hin|].
  rewrite Hnone. reflexivity.
Qed.

(** X20. The analysis is one pass over the statements in their order, and
    a reference is resolved when it is met and never again.  So a call of
    a function that no scope declares yet is recorded unresolved, and it
    stays so whatever the statements after it declare: in the end
    [ValidateReferences] reports the name undefined.  The input
    [total(); function total() { return 1; }] is analysed so. *)
Theorem call_before_declaration_is_reported_undefined :
  (forall (sa : SemanticAnalyzer) (stmt call : Token)
          (identifier : Identifier) (args : list (option Expression))
          (rest : list Statement) (filename : string),
     well_scoped (SymbolTable_ sa) ->
     ResolveSymbol (IdentValue identifier) FUNCTION_SYMBOL (SymbolTable_ sa)
     = Ok None ->
     non_nil_program
       {| Statements := callOf stmt call identifier args :: rest |} = true ->
     exists sa',
       AnalyzeProgram
         {| Statements := callOf stmt call identifier args :: rest |}
         filename sa = Ok sa' /\
       In {| RefName := IdentValue identifier; ResolvedSymbol := None;
             RefLine := Line call; RefColumn := 0 |}
          (References (SymbolTable_ sa')) /\
       In (undefined_symbol (IdentValue identifier) (Line call))
          (Errors (ValidateReferences sa')))
  /\
  (forall fuel, 10 <= fuel ->
     exists sp,
       ParseWithSemantics fuel call_before_declaration "a.php"
       = Ok (inr sp) /\
       (exists symbol,
          AllSymbols (SymbolTableOf sp) !! "total" = Some symbol /\
          SymType symbol = FUNCTION_SYMBOL) /\
       UnresolvedRefs sp
       = [ {| RefName := "total"; ResolvedSymbol := None;
              RefLine := 1; RefColumn := 0 |} ]).
Proof.
  split.
  - intros sa stmt call identifier args rest filename W Hres Hnn.
    unfold non_nil_program in Hnn. cbn [Statements forallb] in Hnn.
    apply andb_true_iff in Hnn as [Hcall Hrest].
    assert (Hargs : stays (visitExpression (ArrayLiteral call args))).
    { apply visitExpression_stays. exact Hcall. }
    assert (Hafter : stays (visitAll visitStatement rest)).
    { apply stays_visitAll, Forall_forall. intros s Hin.
      apply visitStatement_stays. rewrite forallb_forall in Hrest.
      apply Hrest, list_elem_of_In, Hin. }
    set (ref := {| RefName := IdentValue identifier; ResolvedSymbol := None;
                   RefLine := Line call; RefColumn := 0 |}).
    set (st := SymbolTable_ sa) in *.
    set (st1 := {| scopes := scopes st; CurrentScope := CurrentScope st;
                   AllSymbols := AllSymbols st;
                   References := References st ++ [ref];
                   Namespaces := Namespaces st;
                   ClassHierarchy := ClassHierarchy st |}).
    set (sa1 := {| SymbolTable_ := st1; CurrentFile := filename;
                   Errors := Errors sa |}).
    assert (W1 : well_scoped (SymbolTable_ sa1)).
    { exact (proj1 (same_scopes_keeps st st1 [ref] W eq_refl eq_refl
                      eq_refl)). }
    destruct (stays_andThen _ _ Hargs Hafter sa1 W1)
      as (sa' & E & (_ & (_ & _ & refs & R) & _) & _).
    exists sa'. split; [|split].
    + unfold AnalyzeProgram, visitProgram, callOf.
      cbn [Statements visitAll visitStatement visitExpression].
      unfold andThen at 1 2. unfold refer at 1. unfold AddReference.
      cbn [SymbolTable_]. fold st. rewrite Hres. exact E.
    + rewrite R. apply in_or_app. left. apply in_or_app. right.
      left. reflexivity.
    + apply (ValidateReferences_reports sa' ref); [|reflexivity].
      rewrite R. apply in_or_app. left. apply in_or_app. right.
      left. reflexivity.
  - intros fuel Hfuel. eexists. split.
    + apply (ParseWithSemantics_mono 10 fuel _ _ _ Hfuel).
      vm_compute. reflexivity.
    + split; [|reflexivity]. eexists. split; vm_compute; reflexivity.
Qed.

Lemma call_before_declaration_is_reported_undefined_witness :
  exists sa',
    AnalyzeProgram
      {| Statements :=
           [callOf (tokenOn1 IDENT "total" 7) (tokenOn1 LPAREN "(" 12)
              (identOn1 "total" 7) [];
            FunctionDeclaration (tokenOn1 FUNCTION "function" 16)
              (identOn1 "total" 25) []
              (mkBlock (tokenOn1 LBRACE "{" 33) [])] |}
      "a.php" NewSemanticAnalyzer = Ok sa' /\
    In {| RefName := "total"; ResolvedSymbol := None;
          RefLine := 1; RefColumn := 0 |}
       (References (SymbolTable_ sa')) /\
    In (undefined_symbol "total" 1) (Errors (ValidateReferences sa')).
Proof.
  apply (proj1 call_before_declaration_is_reported_undefined
           NewSemanticAnalyzer (tokenOn1 IDENT "total" 7)
           (tokenOn1 LPAREN "(" 12) (identOn1 "total" 7) []
           [FunctionDeclaration (tokenOn1 FUNCTION "function" 16)
              (identOn1 "total" 25) []
              (mkBlock (tokenOn1 LBRACE "{" 33) [])] "a.php").
  - exact (built_well_scoped _ built_new).
  - vm_compute. reflexivity.
  - vm_compute. reflexivity.
Defined.

(** ** A [<?] that does not open PHP *)

(** X21. Where the input reads [<?] and not [<?php], [NextToken] returns
    the token LT of the byte [<] alone, and the bytes it read while it
    looked for [php] are in no token: the next token begins after the [?],
    after [?p] or after [?ph].  So the short tag [<?= 1] is lexed as
    [< = 1], and [$a <?ph 2] as [$a < 2]. *)
Theorem less_than_drops_the_bytes_it_tried :
  (forall l : Lexer,
     ch l = "<"%char ->
     lookahead l 1 = "?"%char ->
     starts_with l "<?php" = false ->
     exists tok l',
       NextToken l = Ok (tok, l') /\
       Type_ tok = LT /\ Literal tok = "<" /\
       readPosition l' = readPosition l + 1 + tried_after_less l)
  /\ token_texts 4 (New "<?= 1")
     = Ok [(LT, "<"); (ASSIGN, "="); (INT, "1"); (EOF, "")]
  /\ token_texts 4 (New "$a <?ph 2")
     = Ok [(VARIABLE, "$a"); (LT, "<"); (INT, "2"); (EOF, "")]
  /\ token_texts 5 (New "$a < ?ph 2")
     = Ok [(VARIABLE, "$a"); (LT, "<"); (QUESTION, "?"); (IDENT, "ph");
           (INT, "2")].
Proof.
  split; [|split; [|split]; vm_compute; reflexivity].
  intros l Hc Hq Hno.
  unfold starts_with in Hno. cbn [starts_with_from] in Hno.
  change (lookahead l 0) with (ch l) in Hno.
  rewrite Hc, Hq in Hno. cbn [Ascii.eqb Bool.eqb andb] in Hno.
  rewrite andb_true_r in Hno.
  unfold NextToken, loop_bound. rewrite NextToken_rec_eq.
  rewrite skipWhitespace_id by (rewrite Hc; reflexivity).
  unfold lexLess, Lexer.advance, tokenAt, newToken, tried_after_less.
  rewrite ?peekChar_lookahead, ?peekCharAt_lookahead,
    ?lookahead_readChar, ?ch_readChar.
  rewrite !Hc, !Hq. cbn [Ascii.eqb Bool.eqb andb orb fst snd].
  destruct (Ascii.eqb (lookahead l 2) "p") eqn:E2.
  - destruct (Ascii.eqb (lookahead l 3) "h") eqn:E3.
    + cbn [andb] in Hno. rewrite Hno.
      eexists _, _. split; [reflexivity|]. cbn.
      repeat split. rewrite !readChar_readPosition. lia.
    + eexists _, _. split; [reflexivity|]. cbn.
      repeat split. rewrite !readChar_readPosition. lia.
  - eexists _, _. split; [reflexivity|]. cbn.
    repeat split. rewrite !readChar_readPosition. lia.
Qed.

Lemma less_than_drops_the_bytes_it_tried_witness :
  exists tok l',
    NextToken (New "<?ph 2") = Ok (tok, l') /\
    Type_ tok = LT /\ Literal tok = "<" /\
    readPosition l' = readPosition (New "<?ph 2") + 1 + 3.
Proof.
  apply (proj1 less_than_drops_the_bytes_it_tried (New "<?ph 2"));
    vm_compute; reflexivity.
Defined.

(** ** Numbers *)

Lemma in_step_peek (pre : string) (c : ascii) (tail : string) (l : Lexer) :
  in_step (pre +:+ String c tail) l ->
  position l = String.length pre ->
  peekChar l = match tail with
               | String d _ => d
               | EmptyString => NUL
               end.
Proof.
  intros (Hi & Hr & _) Hp. unfold peekChar. rewrite Hi, Hr, Hp.
  rewrite length_append. cbn [String.length].
  destruct tail as [|d tail]; cbn [String.length].
  - destruct (Nat.leb_spec (String.length pre + 1) (S (String.length pre)));
      [reflexivity|lia].
  - destruct (Nat.leb_spec (String.length pre + S (S (String.length tail)))
                (S (String.length pre))); [lia|].
    replace (pre +:+ String c (String d tail))
      with ((pre +:+ String c EmptyString) +:+ String d tail)
      by (rewrite append_assoc; reflexivity).
    replace (S (String.length pre))
      with (String.length (pre +:+ String c EmptyString))
      by (rewrite length_append; cbn; lia).
    apply byte_at_append.
Qed.

Lemma no_fraction_stops (rest : string) :
  no_fraction rest = true -> stops isDigit rest = true.
Proof.
  destruct rest as [|c tail]; [reflexivity|]. cbn [no_fraction stops].
  intros H. apply andb_true_iff in H as [H _]. exact H.
Qed.


(** ** The parser panics only where the lexer does *)

Section VariableTokens.

Local Ltac break_if :=
  match goal with
  | |- context [if ?b then _ else _] => destruct b eqn:?
  end.

Lemma LookupIdent_no_variable (s : string) : LookupIdent s <> VARIABLE.
Proof.
  unfold LookupIdent, keywords. repeat break_if; discriminate.
Qed.

Local Ltac token_leaf :=
  let H := fresh "H" in
  let Ht := fresh "Ht" in
  unfold readNumber;
  try match goal with
      | |- context [readString ?c ?x] => destruct (readString c x) as [? ?]
      | |- context [readIdentifier ?x] =>
          destruct (readIdentifier x) as [? ?]
      end;
  intros H Ht;
  unfold Lexer.advance, single, twoCharToken, lexLess, lexQuestion, tokenAt,
    newToken, withLiteral in H;
  repeat match type of H with
         | context [if ?b then _ else _] =>
             destruct b; cbv beta iota zeta in H
         | context [slice ?a ?b ?c] => destruct (slice a b c)
         | context [match ?x with _ => _ end] => is_var x; destruct x
         end;
  cbv beta iota zeta in H;
  try discriminate H;
  injection H as <- <-; cbn [Type_ Literal fst snd] in Ht |- *;
  first [ discriminate Ht
        | exfalso; exact (LookupIdent_no_variable _ Ht)
        | eexists; reflexivity ].

Lemma NextToken_rec_variable : forall fuel l tok l',
  NextToken_rec fuel l = Ok (tok, l') -> token_ok tok.
Proof.
  unfold token_ok.
  induction fuel as [|f IH]; intros l tok l'.
  - rewrite NextToken_rec_eq0. repeat break_if; token_leaf.
  - rewrite NextToken_rec_eq.
    destruct (Ascii.eqb (ch (skipWhitespace l)) "/"
              && Ascii.eqb (peekChar (skipWhitespace l)) "/") eqn:E.
    + apply andb_true_iff in E as [E1 E2].
      repeat break_if; try token_leaf;
        try (apply Ascii.eqb_eq in E1;
             repeat match goal with
             | H : Ascii.eqb _ _ = true |- _ => apply Ascii.eqb_eq in H
             end; congruence).
      all: try discriminate.
      all: apply IH.
    + repeat break_if; try token_leaf.
      all: cbn [andb] in E; discriminate E.
Qed.

Lemma NextToken_variable l tok l' :
  NextToken l = Ok (tok, l') -> token_ok tok.
Proof. apply NextToken_rec_variable. Qed.

End VariableTokens.

Section ParserSafety.

Variable inp : string.

Lemma lexer_after_more : forall n lx l1 tok l2,
  lexer_after n lx = Ok l1 -> NextToken l1 = Ok (tok, l2) ->
  lexer_after (S n) lx = Ok l2.
Proof.
  induction n as [|n IH]; intros lx l1 tok l2 H1 H2.
  - injection H1 as ->. cbn [lexer_after]. rewrite H2. reflexivity.
  - cbn [lexer_after] in H1.
    destruct (NextToken lx) as [[t lx']| |] eqn:E; try discriminate.
    change (lexer_after (S (S n)) lx)
      with (match NextToken lx with
            | Ok (_, l') => lexer_after (S n) l'
            | Panic => Panic
            | Timeout => Timeout
            end).
    rewrite E. exact (IH _ _ _ _ H1 H2).
Qed.

Lemma lexer_after_panic : forall n lx l1,
  lexer_after n lx = Ok l1 -> NextToken l1 = Panic ->
  tokens (S n) lx = Panic.
Proof.
  induction n as [|n IH]; intros lx l1 H1 H2.
  - injection H1 as ->. cbn [tokens]. rewrite H2. reflexivity.
  - cbn [lexer_after] in H1.
    destruct (NextToken lx) as [[t lx']| |] eqn:E; try discriminate.
    change (tokens (S (S n)) lx)
      with (match NextToken lx with
            | Ok (tok, l') =>
                match tokens (S n) l' with
                | Ok toks => Ok (tok :: toks)
                | Panic => Panic
                | Timeout => Timeout
                end
            | Panic => Panic
            | Timeout => Timeout
            end).
    rewrite E, (IH _ _ H1 H2). reflexivity.
Qed.

Lemma tt_eqb_VARIABLE (t : TokenType) : tt_eqb t VARIABLE = true -> t = VARIABLE.
Proof. destruct t; first [reflexivity | discriminate]. Qed.

Lemma SplitByte_not_empty (s : string) (sep : ascii) :
  strings_.SplitByte s sep <> [].
Proof.
  destruct s as [|c s]; cbn [strings_.SplitByte]; [discriminate|].
  destruct (Ascii.eqb c sep); [discriminate|].
  destruct (strings_.SplitByte s sep); discriminate.
Qed.

Lemma guarded_ret {A} v (a : A) (Q : A -> Prop) :
  Q a -> guarded inp v (ret a) Q.
Proof. intros HQ p Hp _. cbn. split; assumption. Qed.

Lemma guarded_timeout {A} v (Q : A -> Prop) : guarded inp v timeout Q.
Proof. intros p _ _. exact I. Qed.

Lemma guarded_weaken {A} v (m : M A) (Q : A -> Prop) :
  guarded inp false m Q -> guarded inp v m Q.
Proof. intros H p Hp _. apply H; [exact Hp|discriminate]. Qed.

Lemma guarded_any {A} v (m : M A) (Q : A -> Prop) :
  guarded inp v m Q -> guarded inp v m any.
Proof.
  intros H p Hp Hv. specialize (H p Hp Hv).
  destruct (m p) as [[a p']| |]; [|exact H|exact I].
  split; [exact (proj1 H)|exact I].
Qed.

Lemma guarded_bind {A B} v (m : M A) (k : A -> M B) (Q1 : A -> Prop)
  (Q : B -> Prop) :
  guarded inp v m Q1 ->
  (forall a, Q1 a -> guarded inp false (k a) Q) ->
  guarded inp v (bind m k) Q.
Proof.
  intros Hm Hk p Hp Hv. unfold bind. specialize (Hm p Hp Hv).
  destruct (m p) as [[a p']| |]; [|exact Hm|exact I].
  destruct Hm as [Hp' Ha]. apply (Hk a Ha p' Hp'). discriminate.
Qed.

Lemma guarded_read {A B} v (m : M A) (k : A -> M B) (Q : B -> Prop) :
  reading m ->
  (forall a, guarded inp v (k a) Q) ->
  guarded inp v (bind m k) Q.
Proof.
  intros Hm Hk p Hp Hv. unfold bind. destruct (Hm p) as [a ->].
  exact (Hk a p Hp Hv).
Qed.

Lemma guarded_cur_is_variable {B} v (k : bool -> M B) (Q : B -> Prop) :
  guarded inp true (k true) Q ->
  guarded inp v (k false) Q ->
  guarded inp v (bind (curTokenIs VARIABLE) k) Q.
Proof.
  intros H1 H2 p Hp Hv. unfold bind, curTokenIs.
  destruct (tt_eqb (Type_ (curToken p)) VARIABLE) eqn:E.
  - apply (H1 p Hp). intros _. apply tt_eqb_VARIABLE. exact E.
  - exact (H2 p Hp Hv).
Qed.

Lemma slice_from_dollar (name : string) :
  slice_from (String "$" name) 1 = Ok name.
Proof.
  unfold slice_from, slice. cbn [String.length].
  rewrite Nat.leb_refl. cbn [andb Nat.leb Nat.sub].
  rewrite Nat.sub_0_r. cbn [String.substring].
  f_equal. clear. induction name as [|c s IH]; [reflexivity|].
  cbn [String.length String.substring]. rewrite IH. reflexivity.
Qed.

Lemma guarded_variableOfCur {B} (k : Variable_ -> M B) (Q : B -> Prop) :
  (forall x, guarded inp true (k x) Q) ->
  guarded inp true (bind variableOfCur k) Q.
Proof.
  intros Hk p Hp Hv. pose proof Hp as (_ & Hc & _).
  destruct (Hc (Hv eq_refl)) as [name Hn].
  unfold bind at 1, variableOfCur, bind, cur, lift. rewrite Hn.
  rewrite slice_from_dollar. cbn [ret].
  exact (Hk _ p Hp Hv).
Qed.

Lemma guarded_nextToken v : guarded inp v nextToken any.
Proof.
  intros p (Hl & Hc & Hpk) _. unfold nextToken.
  destruct (NextToken (l p)) as [[tok l']| |] eqn:E; [|..|exact I].
  - split; [|exact I]. split; [|split]; cbn.
    + destruct Hl as [n Hn]. exists (S n).
      exact (lexer_after_more _ _ _ _ _ Hn E).
    + exact Hpk.
    + exact (NextToken_variable _ _ _ E).
  - destruct Hl as [n Hn]. exists (S n).
    exact (lexer_after_panic _ _ _ Hn E).
Qed.

Lemma guarded_addError v msg : guarded inp v (addError msg) any.
Proof.
  intros p (Hl & Hc & Hpk) _. cbn. split; [|exact I].
  split; [exact Hl|]. split; assumption.
Qed.

Lemma guarded_peekError v t : guarded inp v (peekError t) any.
Proof.
  intros p Hp Hv. unfold peekError.
  exact (guarded_addError v _ p Hp Hv).
Qed.

Lemma guarded_noPrefixParseFnError v t :
  guarded inp v (noPrefixParseFnError t) any.
Proof. apply guarded_addError. Qed.

Lemma reading_cur : reading cur.
Proof. intros p. eexists. reflexivity. Qed.
Lemma reading_peek : reading peek.
Proof. intros p. eexists. reflexivity. Qed.
Lemma reading_curTokenIs t : reading (curTokenIs t).
Proof. intros p. eexists. reflexivity. Qed.
Lemma reading_peekTokenIs t : reading (peekTokenIs t).
Proof. intros p. eexists. reflexivity. Qed.
Lemma reading_curPrecedence : reading curPrecedence.
Proof. intros p. eexists. reflexivity. Qed.
Lemma reading_peekPrecedence : reading peekPrecedence.
Proof. intros p. eexists. reflexivity. Qed.
Lemma reading_identifierOfCur : reading identifierOfCur.
Proof. intros p. eexists. reflexivity. Qed.
Lemma reading_isVisibility : reading isVisibility.
Proof. intros p. eexists. reflexivity. Qed.

Lemma guarded_cur {B} v (k : Token -> M B) (Q : B -> Prop) :
  (forall tok, token_ok tok -> guarded inp v (k tok) Q) ->
  guarded inp v (bind cur k) Q.
Proof.
  intros Hk p Hp Hv. unfold bind, cur.
  exact (Hk (curToken p) (proj1 (proj2 Hp)) p Hp Hv).
Qed.

Create HintDb safety discriminated.
#[local] Hint Constants Opaque : safety.
#[local] Hint Variables Opaque : safety.

Ltac safety :=
  cbv beta zeta;
  repeat
    match goal with
    | |- guarded _ _ (ret _) _ => apply guarded_ret; exact I
    | |- guarded _ _ timeout _ => apply guarded_timeout
    | H : guarded ?i ?v ?m ?Q |- guarded ?i ?v ?m ?Q => exact H
    | H : forall x, guarded _ ?v (?a x) _ |- guarded _ ?v (?a _) _ =>
        apply H
    | |- guarded _ _ (bind (curTokenIs VARIABLE) _) _ =>
        apply guarded_cur_is_variable; cbn [andb negb orb]
    | |- guarded _ _ (bind cur _) _ =>
        apply guarded_read; [exact reading_cur | intros ?]
    | |- guarded _ _ (bind peek _) _ =>
        apply guarded_read; [exact reading_peek | intros ?]
    | |- guarded _ _ (bind (curTokenIs _) _) _ =>
        apply guarded_read; [apply reading_curTokenIs | intros ?]
    | |- guarded _ _ (bind (peekTokenIs _) _) _ =>
        apply guarded_read; [apply reading_peekTokenIs | intros ?]
    | |- guarded _ _ (bind curPrecedence _) _ =>
        apply guarded_read; [exact reading_curPrecedence | intros ?]
    | |- guarded _ _ (bind peekPrecedence _) _ =>
        apply guarded_read; [exact reading_peekPrecedence | intros ?]
    | |- guarded _ _ (bind identifierOfCur _) _ =>
        apply guarded_read; [exact reading_identifierOfCur | intros ?]
    | |- guarded _ _ (bind (isVisibility) _) _ =>
        apply guarded_read; [exact reading_isVisibility | intros ?]
    | |- guarded _ true (bind variableOfCur _) _ =>
        apply guarded_variableOfCur; intros ?
    | |- guarded _ _ (bind _ _) _ =>
        apply (guarded_bind _ _ _ any); [ | intros ? _ ]
    | |- guarded _ _ (if ?b then _ else _) _ => destruct b
    | |- guarded _ _ (match ?x with _ => _ end) _ => destruct x
    | |- guarded _ true _ _ =>
        first [ solve [eauto 4 with safety] | apply guarded_weaken ]
    | |- guarded _ false _ _ => solve [eauto 4 with safety]
    | |- guarded _ _ _ _ => solve [eauto 4 with safety]
    end.

#[local] Hint Resolve guarded_nextToken guarded_addError guarded_peekError
  guarded_noPrefixParseFnError : safety.

Lemma expectPeek_guarded v t : guarded inp v (expectPeek t) any.
Proof. unfold expectPeek. safety. Qed.
#[local] Hint Resolve expectPeek_guarded : safety.

Lemma skipPeek_guarded v t : guarded inp v (skipPeek t) any.
Proof. unfold skipPeek. safety. Qed.
#[local] Hint Resolve skipPeek_guarded : safety.

Lemma parseIdentifier_guarded : guarded inp false parseIdentifier any.
Proof. unfold parseIdentifier. safety. Qed.
#[local] Hint Resolve parseIdentifier_guarded : safety.

Lemma parseVariable_guarded : guarded inp true parseVariable any.
Proof. unfold parseVariable. safety. Qed.
#[local] Hint Resolve parseVariable_guarded : safety.

Lemma parseIntegerLiteral_guarded : guarded inp false parseIntegerLiteral any.
Proof. unfold parseIntegerLiteral. safety. Qed.
#[local] Hint Resolve parseIntegerLiteral_guarded : safety.

Lemma parseFloatLiteral_guarded : guarded inp false parseFloatLiteral any.
Proof. unfold parseFloatLiteral. safety. Qed.
#[local] Hint Resolve parseFloatLiteral_guarded : safety.

Lemma parseInterpolatedString_guarded :
  guarded inp false parseInterpolatedString any.
Proof.
  unfold parseInterpolatedString.
  apply guarded_read; [exact reading_cur | intros tok].
  destruct (strings_.SplitByte (Literal tok) "$") as [|first others] eqn:E.
  - exfalso. exact (SplitByte_not_empty _ _ E).
  - safety.
Qed.
#[local] Hint Resolve parseInterpolatedString_guarded : safety.

Lemma parseStringLiteral_guarded : guarded inp false parseStringLiteral any.
Proof. unfold parseStringLiteral. safety. Qed.
#[local] Hint Resolve parseStringLiteral_guarded : safety.

Lemma parseBooleanLiteral_guarded : guarded inp false parseBooleanLiteral any.
Proof. unfold parseBooleanLiteral. safety. Qed.
#[local] Hint Resolve parseBooleanLiteral_guarded : safety.

Lemma parsePostfixExpression_guarded : forall x1,
  guarded inp false (parsePostfixExpression x1) any.
Proof. intros. unfold parsePostfixExpression. safety. Qed.
#[local] Hint Resolve parsePostfixExpression_guarded : safety.

Lemma parseNamespaceDeclaration_guarded :
  guarded inp false parseNamespaceDeclaration any.
Proof. unfold parseNamespaceDeclaration. safety. Qed.
#[local] Hint Resolve parseNamespaceDeclaration_guarded : safety.

Lemma parseUseStatement_guarded : guarded inp false parseUseStatement any.
Proof. unfold parseUseStatement. safety. Qed.
#[local] Hint Resolve parseUseStatement_guarded : safety.

Lemma parameters_loop_guarded : forall (n : nat) x1,
    guarded inp false (parameters_loop n x1) any.
Proof.
  induction n as [|n IH]; intros; cbn [parameters_loop]; safety.
Qed.
#[local] Hint Resolve parameters_loop_guarded : safety.

Lemma parseFunctionParameters_guarded : forall (fuel : nat),
  guarded inp false (parseFunctionParameters fuel) any.
Proof. intros. unfold parseFunctionParameters. safety. Qed.
#[local] Hint Resolve parseFunctionParameters_guarded : safety.

Lemma block_loop_guarded : forall ps,
  guarded inp false ps any ->
  forall (n : nat) x1,
    guarded inp false (block_loop ps n x1) any.
Proof.
  intros ? ?.
  induction n as [|n IH]; intros; cbn [block_loop]; safety.
Qed.
#[local] Hint Resolve block_loop_guarded : safety.

Lemma parseBlockStatement_guarded : forall (fuel : nat) ps,
  guarded inp false ps any ->
  guarded inp false (parseBlockStatement fuel ps) any.
Proof. intros. unfold parseBlockStatement. safety. Qed.
#[local] Hint Resolve parseBlockStatement_guarded : safety.

Lemma parseFunctionDeclaration_guarded : forall (fuel : nat) ps,
  guarded inp false ps any ->
  guarded inp false (parseFunctionDeclaration fuel ps) any.
Proof. intros. unfold parseFunctionDeclaration. safety. Qed.
#[local] Hint Resolve parseFunctionDeclaration_guarded : safety.

Lemma parseReturnStatement_guarded : forall pe,
  (forall precedence, guarded inp false (pe precedence) any) ->
  guarded inp false (parseReturnStatement pe) any.
Proof. intros. unfold parseReturnStatement. safety. Qed.
#[local] Hint Resolve parseReturnStatement_guarded : safety.

Lemma parseIfStatement_guarded : forall (fuel : nat) pe ps,
  (forall precedence, guarded inp false (pe precedence) any) ->
  guarded inp false ps any ->
  guarded inp false (parseIfStatement fuel pe ps) any.
Proof. intros. unfold parseIfStatement. safety. Qed.
#[local] Hint Resolve parseIfStatement_guarded : safety.

Lemma expressions_loop_guarded : forall pe,
  (forall precedence, guarded inp false (pe precedence) any) ->
  forall (n : nat) x1,
    guarded inp false (expressions_loop pe n x1) any.
Proof.
  intros ? ?.
  induction n as [|n IH]; intros; cbn [expressions_loop]; safety.
Qed.
#[local] Hint Resolve expressions_loop_guarded : safety.

Lemma parseEchoStatement_guarded : forall (fuel : nat) pe,
  (forall precedence, guarded inp false (pe precedence) any) ->
  guarded inp false (parseEchoStatement fuel pe) any.
Proof. intros. unfold parseEchoStatement. safety. Qed.
#[local] Hint Resolve parseEchoStatement_guarded : safety.

Lemma parseAssignmentExpressionFromVariable_guarded : forall pe,
  (forall precedence, guarded inp false (pe precedence) any) ->
  guarded inp true (parseAssignmentExpressionFromVariable pe) any.
Proof. intros. unfold parseAssignmentExpressionFromVariable. safety. Qed.
#[local] Hint Resolve parseAssignmentExpressionFromVariable_guarded : safety.

Lemma parseExpressionStatement_guarded : forall pe,
  (forall precedence, guarded inp false (pe precedence) any) ->
  guarded inp false (parseExpressionStatement pe) any.
Proof. intros. unfold parseExpressionStatement. safety. Qed.
#[local] Hint Resolve parseExpressionStatement_guarded : safety.

Lemma parsePrefixExpression_guarded : forall pe,
  (forall precedence, guarded inp false (pe precedence) any) ->
  guarded inp false (parsePrefixExpression pe) any.
Proof. intros. unfold parsePrefixExpression. safety. Qed.
#[local] Hint Resolve parsePrefixExpression_guarded : safety.

Lemma parseInfixExpression_guarded : forall pe x1,
  (forall precedence, guarded inp false (pe precedence) any) ->
  guarded inp false (parseInfixExpression pe x1) any.
Proof. intros. unfold parseInfixExpression. safety. Qed.
#[local] Hint Resolve parseInfixExpression_guarded : safety.

Lemma parseAssignmentExpression_guarded : forall pe x1,
  (forall precedence, guarded inp false (pe precedence) any) ->
  guarded inp false (parseAssignmentExpression pe x1) any.
Proof. intros. unfold parseAssignmentExpression. safety. Qed.
#[local] Hint Resolve parseAssignmentExpression_guarded : safety.

Lemma parseGroupedExpression_guarded : forall pe,
  (forall precedence, guarded inp false (pe precedence) any) ->
  guarded inp false (parseGroupedExpression pe) any.
Proof. intros. unfold parseGroupedExpression. safety. Qed.
#[local] Hint Resolve parseGroupedExpression_guarded : safety.

Lemma parseExpressionList_guarded : forall (fuel : nat) pe x1,
  (forall precedence, guarded inp false (pe precedence) any) ->
  guarded inp false (parseExpressionList fuel pe x1) any.
Proof. intros. unfold parseExpressionList. safety. Qed.
#[local] Hint Resolve parseExpressionList_guarded : safety.

Lemma parseCallExpression_guarded : forall (fuel : nat) pe x1,
  (forall precedence, guarded inp false (pe precedence) any) ->
  guarded inp false (parseCallExpression fuel pe x1) any.
Proof. intros. unfold parseCallExpression. safety. Qed.
#[local] Hint Resolve parseCallExpression_guarded : safety.

Lemma pairs_loop_guarded : forall pe,
  (forall precedence, guarded inp false (pe precedence) any) ->
  forall (n : nat) x1,
    guarded inp false (pairs_loop pe n x1) any.
Proof.
  intros ? ?.
  induction n as [|n IH]; intros; cbn [pairs_loop]; safety.
Qed.
#[local] Hint Resolve pairs_loop_guarded : safety.

Lemma parseArrayLiteral_guarded : forall (fuel : nat) pe,
  (forall precedence, guarded inp false (pe precedence) any) ->
  guarded inp false (parseArrayLiteral fuel pe) any.
Proof. intros. unfold parseArrayLiteral. safety. Qed.
#[local] Hint Resolve parseArrayLiteral_guarded : safety.

Lemma parseIndexExpression_guarded : forall pe x1,
  (forall precedence, guarded inp false (pe precedence) any) ->
  guarded inp false (parseIndexExpression pe x1) any.
Proof. intros. unfold parseIndexExpression. safety. Qed.
#[local] Hint Resolve parseIndexExpression_guarded : safety.

Lemma parseForStatement_guarded : forall (fuel : nat) pe ps,
  (forall precedence, guarded inp false (pe precedence) any) ->
  guarded inp false ps any ->
  guarded inp false (parseForStatement fuel pe ps) any.
Proof. intros. unfold parseForStatement. safety. Qed.
#[local] Hint Resolve parseForStatement_guarded : safety.

Lemma parseWhileStatement_guarded : forall (fuel : nat) pe ps,
  (forall precedence, guarded inp false (pe precedence) any) ->
  guarded inp false ps any ->
  guarded inp false (parseWhileStatement fuel pe ps) any.
Proof. intros. unfold parseWhileStatement. safety. Qed.
#[local] Hint Resolve parseWhileStatement_guarded : safety.

Lemma parseForeachStatement_guarded : forall (fuel : nat) pe ps,
  (forall precedence, guarded inp false (pe precedence) any) ->
  guarded inp false ps any ->
  guarded inp false (parseForeachStatement fuel pe ps) any.
Proof. intros. unfold parseForeachStatement. safety. Qed.
#[local] Hint Resolve parseForeachStatement_guarded : safety.

Lemma parseLevel_guarded : forall pe,
  (forall precedence, guarded inp false (pe precedence) any) ->
  guarded inp false (parseLevel pe) any.
Proof. intros. unfold parseLevel. safety. Qed.
#[local] Hint Resolve parseLevel_guarded : safety.

Lemma parseBreakStatement_guarded : forall pe,
  (forall precedence, guarded inp false (pe precedence) any) ->
  guarded inp false (parseBreakStatement pe) any.
Proof. intros. unfold parseBreakStatement. safety. Qed.
#[local] Hint Resolve parseBreakStatement_guarded : safety.

Lemma parseContinueStatement_guarded : forall pe,
  (forall precedence, guarded inp false (pe precedence) any) ->
  guarded inp false (parseContinueStatement pe) any.
Proof. intros. unfold parseContinueStatement. safety. Qed.
#[local] Hint Resolve parseContinueStatement_guarded : safety.

Lemma parsePropertyDeclaration_guarded : forall pe x1 x2,
  (forall precedence, guarded inp false (pe precedence) any) ->
  guarded inp false (parsePropertyDeclaration pe x1 x2) any.
Proof. intros. unfold parsePropertyDeclaration. safety. Qed.
#[local] Hint Resolve parsePropertyDeclaration_guarded : safety.

Lemma parseMethodDeclaration_guarded : forall (fuel : nat) ps x1 x2,
  guarded inp false ps any ->
  guarded inp false (parseMethodDeclaration fuel ps x1 x2) any.
Proof. intros. unfold parseMethodDeclaration. safety. Qed.
#[local] Hint Resolve parseMethodDeclaration_guarded : safety.

Lemma parseConstantDeclaration_guarded : forall pe,
  (forall precedence, guarded inp false (pe precedence) any) ->
  guarded inp false (parseConstantDeclaration pe) any.
Proof. intros. unfold parseConstantDeclaration. safety. Qed.
#[local] Hint Resolve parseConstantDeclaration_guarded : safety.

Lemma names_loop_guarded : forall (n : nat) want closing stopAtBrace acc,
  Forall (fun tok => want = VARIABLE -> token_ok tok /\ Type_ tok = VARIABLE)
    acc ->
  guarded inp false (names_loop n want closing stopAtBrace acc)
    (Forall (fun tok => want = VARIABLE ->
                        token_ok tok /\ Type_ tok = VARIABLE)).
Proof.
  induction n as [|n IH]; intros want closing stopAtBrace acc Hacc;
    cbn [names_loop].
  - apply guarded_read; [apply reading_curTokenIs | intros atClose].
    apply guarded_read; [apply reading_curTokenIs | intros atEOF].
    destruct (negb atClose && negb atEOF);
      [apply guarded_timeout | apply guarded_ret; exact Hacc].
  - apply guarded_read; [apply reading_curTokenIs | intros atClose].
    apply guarded_read; [apply reading_curTokenIs | intros atEOF].
    destruct (negb atClose && negb atEOF);
      [|apply guarded_ret; exact Hacc].
    apply guarded_cur. intros tok Htok. cbv zeta.
    assert (Hacc' : Forall (fun tok => want = VARIABLE ->
                               token_ok tok /\ Type_ tok = VARIABLE)
                      (if tt_eqb (Type_ tok) want then acc ++ [tok]
                       else acc)).
    { destruct (tt_eqb (Type_ tok) want) eqn:E; [|exact Hacc].
      apply Forall_app. split; [exact Hacc|].
      constructor; [|constructor]. intros ->.
      split; [exact Htok | exact (tt_eqb_VARIABLE _ E)]. }
    apply (guarded_bind _ _ _ any); [apply skipPeek_guarded | intros _ _].
    apply guarded_read; [apply reading_peekTokenIs | intros brace].
    destruct (stopAtBrace && brace); [apply guarded_ret; exact Hacc'|].
    apply (guarded_bind _ _ _ any); [apply guarded_nextToken | intros _ _].
    apply IH. exact Hacc'.
Qed.

Lemma names_loop_any (n : nat) want closing stopAtBrace :
  guarded inp false (names_loop n want closing stopAtBrace []) any.
Proof.
  eapply guarded_any. apply names_loop_guarded. constructor.
Qed.
#[local] Hint Resolve names_loop_any : safety.

Lemma variablesOfTokens_guarded : forall toks,
  Forall (fun tok => token_ok tok /\ Type_ tok = VARIABLE) toks ->
  guarded inp false (variablesOfTokens toks) any.
Proof.
  induction 1 as [|tok toks [Hok Hty] _ IH]; cbn [variablesOfTokens].
  - apply guarded_ret. exact I.
  - destruct (Hok Hty) as [name Hname].
    unfold variableOfToken. rewrite Hname, slice_from_dollar.
    intros p Hp Hv. unfold bind at 1 2, lift, ret.
    refine (guarded_bind _ _ _ any any IH _ p Hp Hv).
    intros vs _. apply guarded_ret. exact I.
Qed.

Lemma parseTraitUse_guarded : forall (fuel : nat),
  guarded inp false (parseTraitUse fuel) any.
Proof. intros. unfold parseTraitUse. safety. Qed.
#[local] Hint Resolve parseTraitUse_guarded : safety.

Lemma classMember_guarded : forall (fuel : nat) pe ps x1,
  (forall precedence, guarded inp false (pe precedence) any) ->
  guarded inp false ps any ->
  guarded inp false (classMember fuel pe ps x1) any.
Proof. intros. unfold classMember. safety. Qed.
#[local] Hint Resolve classMember_guarded : safety.

Lemma traitMember_guarded : forall (fuel : nat) pe ps x1,
  (forall precedence, guarded inp false (pe precedence) any) ->
  guarded inp false ps any ->
  guarded inp false (traitMember fuel pe ps x1) any.
Proof. intros. unfold traitMember. safety. Qed.
#[local] Hint Resolve traitMember_guarded : safety.

Lemma members_loop_guarded : forall (member : Members -> M Members),
  (forall m, guarded inp false (member m) any) ->
  forall (n : nat) x1,
    guarded inp false (members_loop n member x1) any.
Proof.
  intros ? ?.
  induction n as [|n IH]; intros; cbn [members_loop]; safety.
Qed.
#[local] Hint Resolve members_loop_guarded : safety.

Lemma parseClassDeclaration_guarded : forall (fuel : nat) pe ps,
  (forall precedence, guarded inp false (pe precedence) any) ->
  guarded inp false ps any ->
  guarded inp false (parseClassDeclaration fuel pe ps) any.
Proof. intros. unfold parseClassDeclaration. safety. Qed.
#[local] Hint Resolve parseClassDeclaration_guarded : safety.

Lemma parseTraitDeclaration_guarded : forall (fuel : nat) pe ps,
  (forall precedence, guarded inp false (pe precedence) any) ->
  guarded inp false ps any ->
  guarded inp false (parseTraitDeclaration fuel pe ps) any.
Proof. intros. unfold parseTraitDeclaration. safety. Qed.
#[local] Hint Resolve parseTraitDeclaration_guarded : safety.

Lemma parseInterfaceMethod_guarded : forall (fuel : nat),
  guarded inp false (parseInterfaceMethod fuel) any.
Proof. intros. unfold parseInterfaceMethod. safety. Qed.
#[local] Hint Resolve parseInterfaceMethod_guarded : safety.

Lemma interface_loop_guarded : forall (fuel1 : nat),
  forall (n : nat) x1,
    guarded inp false (interface_loop fuel1 n x1) any.
Proof.
  intros ?.
  induction n as [|n IH]; intros; cbn [interface_loop]; safety.
Qed.
#[local] Hint Resolve interface_loop_guarded : safety.

Lemma parseInterfaceDeclaration_guarded : forall (fuel : nat),
  guarded inp false (parseInterfaceDeclaration fuel) any.
Proof. intros. unfold parseInterfaceDeclaration. safety. Qed.
#[local] Hint Resolve parseInterfaceDeclaration_guarded : safety.

Lemma parseNewExpression_guarded : forall (fuel : nat) pe,
  (forall precedence, guarded inp false (pe precedence) any) ->
  guarded inp false (parseNewExpression fuel pe) any.
Proof. intros. unfold parseNewExpression. safety. Qed.
#[local] Hint Resolve parseNewExpression_guarded : safety.

Lemma parseObjectAccessExpression_guarded : forall pe x1,
  (forall precedence, guarded inp false (pe precedence) any) ->
  guarded inp false (parseObjectAccessExpression pe x1) any.
Proof. intros. unfold parseObjectAccessExpression. safety. Qed.
#[local] Hint Resolve parseObjectAccessExpression_guarded : safety.

Lemma parseStaticAccessExpression_guarded : forall pe x1,
  (forall precedence, guarded inp false (pe precedence) any) ->
  guarded inp false (parseStaticAccessExpression pe x1) any.
Proof. intros. unfold parseStaticAccessExpression. safety. Qed.
#[local] Hint Resolve parseStaticAccessExpression_guarded : safety.

Lemma parseCatchClause_guarded : forall (fuel : nat) ps,
  guarded inp false ps any ->
  guarded inp false (parseCatchClause fuel ps) any.
Proof. intros. unfold parseCatchClause. safety. Qed.
#[local] Hint Resolve parseCatchClause_guarded : safety.

Lemma catches_loop_guarded : forall (fuel1 : nat) ps,
  guarded inp false ps any ->
  forall (n : nat) x1,
    guarded inp false (catches_loop fuel1 ps n x1) any.
Proof.
  intros ? ? ?.
  induction n as [|n IH]; intros; cbn [catches_loop]; safety.
Qed.
#[local] Hint Resolve catches_loop_guarded : safety.

Lemma parseTryStatement_guarded : forall (fuel : nat) ps,
  guarded inp false ps any ->
  guarded inp false (parseTryStatement fuel ps) any.
Proof. intros. unfold parseTryStatement. safety. Qed.
#[local] Hint Resolve parseTryStatement_guarded : safety.

Lemma parseThrowStatement_guarded : forall pe,
  (forall precedence, guarded inp false (pe precedence) any) ->
  guarded inp false (parseThrowStatement pe) any.
Proof. intros. unfold parseThrowStatement. safety. Qed.
#[local] Hint Resolve parseThrowStatement_guarded : safety.

Lemma parseAnonymousFunction_guarded : forall (fuel : nat) ps,
  guarded inp false ps any ->
  guarded inp false (parseAnonymousFunction fuel ps) any.
Proof.
  intros fuel ps Hps. unfold parseAnonymousFunction.
  apply guarded_read; [exact reading_cur | intros tok].
  apply (guarded_bind _ _ _ any); [apply expectPeek_guarded | intros ok _].
  destruct ok; [|safety].
  apply (guarded_bind _ _ _ any);
    [apply parseFunctionParameters_guarded | intros params _].
  apply guarded_read; [apply reading_peekTokenIs | intros hasUse].
  apply (guarded_bind _ _ _ any); [|intros uses _; safety].
  destruct hasUse; [|safety].
  apply (guarded_bind _ _ _ any); [apply guarded_nextToken | intros _ _].
  apply (guarded_bind _ _ _ any); [apply expectPeek_guarded | intros ok _].
  destruct ok; [|safety].
  apply (guarded_bind _ _ _ any); [apply guarded_nextToken | intros _ _].
  eapply guarded_bind; [apply names_loop_guarded; constructor|].
  intros toks Htoks.
  apply (guarded_bind _ _ _ any); [|intros vars _; safety].
  apply variablesOfTokens_guarded.
  eapply Forall_impl; [exact Htoks|]. cbv beta. intros t Ht. exact (Ht eq_refl).
Qed.
#[local] Hint Resolve parseAnonymousFunction_guarded : safety.

Lemma parseYieldExpression_guarded : forall pe,
  (forall precedence, guarded inp false (pe precedence) any) ->
  guarded inp false (parseYieldExpression pe) any.
Proof. intros. unfold parseYieldExpression. safety. Qed.
#[local] Hint Resolve parseYieldExpression_guarded : safety.

Lemma parseTernaryExpression_guarded : forall pe x1,
  (forall precedence, guarded inp false (pe precedence) any) ->
  guarded inp false (parseTernaryExpression pe x1) any.
Proof. intros. unfold parseTernaryExpression. safety. Qed.
#[local] Hint Resolve parseTernaryExpression_guarded : safety.

Lemma prefix_of_variable (t : TokenType) :
  prefixParseFns t = Some parseVariable_fn -> t = VARIABLE.
Proof. destruct t; first [reflexivity | discriminate]. Qed.

Lemma callPrefix_guarded : forall (fuel : nat) pe ps fn v,
  (forall precedence, guarded inp false (pe precedence) any) ->
  guarded inp false ps any ->
  (fn = parseVariable_fn -> v = true) ->
  guarded inp v (callPrefix fuel pe ps fn) any.
Proof.
  intros fuel pe ps fn v Hpe Hps Hv.
  destruct fn; unfold callPrefix;
    try (apply guarded_weaken; solve [eauto 4 with safety]).
  rewrite (Hv eq_refl). exact parseVariable_guarded.
Qed.

Lemma callInfix_guarded : forall (fuel : nat) pe x1 x2,
  (forall precedence, guarded inp false (pe precedence) any) ->
  guarded inp false (callInfix fuel pe x1 x2) any.
Proof. intros. unfold callInfix. safety. Qed.
#[local] Hint Resolve callInfix_guarded : safety.

Lemma climb_guarded : forall (fuel1 : nat) pe,
  (forall precedence, guarded inp false (pe precedence) any) ->
  forall (n : nat) x1 x2,
    guarded inp false (climb fuel1 pe n x1 x2) any.
Proof.
  intros ? ? ?.
  induction n as [|n IH]; intros; cbn [climb]; safety.
Qed.
#[local] Hint Resolve climb_guarded : safety.

Lemma parseExpression_body_guarded : forall (fuel : nat) pe ps precedence,
  (forall precedence, guarded inp false (pe precedence) any) ->
  guarded inp false ps any ->
  guarded inp false (parseExpression_body fuel pe ps precedence) any.
Proof.
  intros fuel pe ps precedence Hpe Hps p Hp _.
  unfold parseExpression_body. unfold bind at 1, cur.
  destruct (prefixParseFns (Type_ (curToken p))) as [prefix|] eqn:E.
  - refine (guarded_bind
              (match prefix with parseVariable_fn => true | _ => false end)
              _ _ any any _ _ p Hp _).
    + apply callPrefix_guarded; [exact Hpe | exact Hps |].
      intros ->. reflexivity.
    + intros leftExp _. apply climb_guarded; assumption.
    + destruct prefix; try discriminate. intros _.
      exact (prefix_of_variable _ E).
  - assert (G : guarded inp false
                 (bind (noPrefixParseFnError (Type_ (curToken p)))
                    (fun _ => ret (@None Expression))) any) by safety.
    exact (G p Hp ltac:(discriminate)).
Qed.
#[local] Hint Resolve parseExpression_body_guarded : safety.

Lemma parseStatement_body_guarded : forall (fuel : nat) pe ps,
  (forall precedence, guarded inp false (pe precedence) any) ->
  guarded inp false ps any ->
  guarded inp false (parseStatement_body fuel pe ps) any.
Proof. intros. unfold parseStatement_body, orNil. safety. Qed.
#[local] Hint Resolve parseStatement_body_guarded : safety.

Lemma parse_guarded : forall n,
  (forall precedence, guarded inp false (parseExpression n precedence) any)
  /\ guarded inp false (parseStatement n) any.
Proof.
  induction n as [|n [HE HS]].
  - split; [intros precedence|]; apply guarded_timeout.
  - split; [intros precedence|]; cbn [parseExpression parseStatement].
    + apply parseExpression_body_guarded; assumption.
    + apply parseStatement_body_guarded; assumption.
Qed.

Lemma parseStatement_guarded n : guarded inp false (parseStatement n) any.
Proof. apply parse_guarded. Qed.
#[local] Hint Resolve parseStatement_guarded : safety.

Lemma program_loop_guarded : forall n stmts,
  guarded inp false (program_loop n stmts) any.
Proof.
  induction n as [|n IH]; intros stmts; cbn [program_loop]; safety.
Qed.

Lemma ParseProgram_guarded n : guarded inp false (ParseProgram n) any.
Proof.
  unfold ParseProgram.
  apply (guarded_bind _ _ _ any); [apply program_loop_guarded|].
  intros stmts _. apply guarded_ret. exact I.
Qed.

Lemma parser_of_start :
  parser_of inp {| l := New inp; curToken := zeroToken;
                   peekToken := zeroToken; errors := [] |}.
Proof.
  split; [exists 0; reflexivity|]. split; intros H; discriminate H.
Qed.

Lemma Parse_panic (fuel : nat) : Parse fuel inp = Panic -> lexer_panics inp.
Proof.
  unfold Parse, NewParser. intros H.
  assert (G : guarded inp false (bind nextToken (fun _ => nextToken)) any).
  { apply (guarded_bind _ _ _ any); [apply guarded_nextToken|].
    intros _ _. apply guarded_nextToken. }
  specialize (G _ parser_of_start ltac:(discriminate)).
  destruct (bind nextToken (fun _ => nextToken) _) as [[[] p]| |];
    [|exact G|discriminate H].
  destruct G as [Hp _].
  pose proof (ParseProgram_guarded fuel p Hp ltac:(discriminate)) as G.
  destruct (ParseProgram fuel p) as [[program p']| |];
    [discriminate H|exact G|discriminate H].
Qed.

End ParserSafety.

(** ** Where the lexer panics *)

Section LexerSafety.

Variable inp : string.
Hypothesis Hend : ends_in_backslash inp = false.

Local Ltac break_if :=
  match goal with
  | |- context [if ?b then _ else _] => destruct b eqn:?
  end.

Lemma in_step_inside (lx : Lexer) :
  in_step inp lx -> ch lx <> NUL -> position lx < String.length inp.
Proof.
  intros (_ & _ & Hc & _) Hn. rewrite Hc in Hn.
  destruct (Nat.leb_spec (String.length inp) (position lx));
    [congruence|assumption].
Qed.

Lemma in_step_position_next (lx : Lexer) :
  in_step inp lx -> position (readChar lx) = S (position lx).
Proof. intros (_ & Hr & _). exact Hr. Qed.

Lemma reads_position (lx lx' : Lexer) :
  in_step inp lx -> reads lx lx' -> position lx <= position lx'.
Proof.
  intros Hl Hr. pose proof (in_step_reads _ _ _ Hr Hl) as Hl'.
  pose proof (reads_readPosition _ _ Hr).
  destruct Hl as (_ & H1 & _), Hl' as (_ & H2 & _). lia.
Qed.

Lemma readWhile_bound cond (Hnul : cond NUL = false) : forall fuel lx,
  in_step inp lx -> position lx <= String.length inp ->
  position (readWhile cond fuel lx) <= String.length inp.
Proof.
  induction fuel as [|f IH]; intros lx Hl Hp; simpl;
    destruct (cond (ch lx)) eqn:E; try exact Hp.
  apply IH; [apply in_step_next; exact Hl|].
  rewrite (in_step_position_next lx Hl).
  apply in_step_inside; [exact Hl|]. intros Hc. rewrite Hc in E. congruence.
Qed.

Lemma slice_in_range (s : string) (lo hi : nat) :
  lo <= hi -> hi <= String.length s -> exists r, slice s lo hi = Ok r.
Proof.
  intros H1 H2. unfold slice.
  destruct (Nat.leb_spec hi (String.length s)); [|lia].
  destruct (Nat.leb_spec lo hi); [|lia]. eexists. reflexivity.
Qed.

Lemma readIdentifier_returns (lx : Lexer) :
  in_step inp lx -> position lx <= String.length inp ->
  exists s, fst (readIdentifier lx) = Ok s.
Proof.
  intros Hl Hp. unfold readIdentifier. cbn [fst].
  rewrite readWhile_input. destruct Hl as (Hi & Hl'). rewrite Hi.
  apply slice_in_range.
  - apply reads_position; [exact (conj Hi Hl')|apply readWhile_reads].
  - apply readWhile_bound; [reflexivity|exact (conj Hi Hl')|exact Hp].
Qed.

Lemma readNumber_returns (lx : Lexer) :
  in_step inp lx -> position lx <= String.length inp ->
  exists s, snd (fst (readNumber lx)) = Ok s.
Proof.
  intros Hl Hp. unfold readNumber.
  set (l1 := readWhile isDigit (loop_bound lx) lx).
  assert (H1 : in_step inp l1)
    by (apply (in_step_reads inp lx); [apply readWhile_reads|exact Hl]).
  assert (P1 : position l1 <= String.length inp)
    by (apply readWhile_bound; [reflexivity|exact Hl|exact Hp]).
  assert (M1 : position lx <= position l1)
    by (apply reads_position; [exact Hl|apply readWhile_reads]).
  destruct (Ascii.eqb (ch l1) "." && isDigit (peekChar l1)) eqn:E;
    cbn [fst snd].
  - apply andb_true_iff in E as [E _]. apply Ascii.eqb_eq in E.
    set (l2 := readChar l1).
    assert (H2 : in_step inp l2) by (apply in_step_next; exact H1).
    assert (P2 : position l2 <= String.length inp).
    { unfold l2. rewrite (in_step_position_next l1 H1).
      apply in_step_inside; [exact H1|]. rewrite E. discriminate. }
    rewrite readWhile_input. destruct H2 as (Hi & H2').
    rewrite Hi. apply slice_in_range.
    + pose proof (reads_position l2 _ (conj Hi H2')
                    (readWhile_reads isDigit (loop_bound l2) l2)).
      pose proof (in_step_position_next l1 H1). fold l2 in H0. lia.
    + apply readWhile_bound; [reflexivity|exact (conj Hi H2')|exact P2].
  - destruct H1 as (Hi & H1'). rewrite Hi.
    apply slice_in_range; assumption.
Qed.

Lemma byte_at_last_backslash (n : nat) :
  S n = String.length inp -> byte_at inp n <> BACKSLASH.
Proof.
  intros Hn Hb. unfold ends_in_backslash in Hend. rewrite <- Hn in Hend.
  rewrite Hb in Hend. discriminate Hend.
Qed.

Lemma readString_loop_bound d : forall fuel lx,
  in_step inp lx -> position lx < String.length inp ->
  position (readString_loop d fuel lx) <= String.length inp.
Proof.
  induction fuel as [|f IH]; intros lx Hl Hp; cbn [readString_loop];
    [lia|].
  pose proof (in_step_next inp lx Hl) as H1.
  pose proof (in_step_position_next lx Hl) as P1.
  destruct (Ascii.eqb (ch (readChar lx)) d
            || Ascii.eqb (ch (readChar lx)) NUL) eqn:E; [lia|].
  apply orb_false_iff in E as [_ E]. apply Ascii.eqb_neq in E.
  pose proof (in_step_inside _ H1 E) as I1.
  destruct (Ascii.eqb (ch (readChar lx)) BACKSLASH) eqn:B.
  - apply IH; [apply in_step_next; exact H1|].
    rewrite (in_step_position_next _ H1).
    apply Ascii.eqb_eq in B.
    destruct H1 as (_ & _ & Hc & _). rewrite Hc in B.
    destruct (Nat.leb_spec (String.length inp) (position (readChar lx)));
      [lia|].
    destruct (Nat.eq_dec (S (position (readChar lx))) (String.length inp))
      as [Heq|Hne]; [|lia].
    exfalso. exact (byte_at_last_backslash _ Heq B).
  - apply IH; assumption.
Qed.

Lemma readString_loop_first d fuel lx :
  reads (readChar lx) (readString_loop d (S fuel) lx).
Proof.
  cbn [readString_loop].
  destruct (_ || _); [constructor|].
  eapply reads_trans; [|apply readString_loop_reads].
  destruct (Ascii.eqb _ _); [apply reads_one|constructor].
Qed.

Lemma readString_returns d (lx : Lexer) :
  in_step inp lx -> ch lx <> NUL ->
  exists s, fst (readString d lx) = Ok s.
Proof.
  intros Hl Hc. unfold readString. cbn [fst].
  rewrite readString_loop_input. pose proof Hl as (Hi & _). rewrite Hi.
  apply slice_in_range.
  - unfold loop_bound.
    pose proof (reads_position _ _ (in_step_next inp lx Hl)
                  (readString_loop_first d (String.length (input lx)) lx)).
    rewrite (in_step_position_next lx Hl) in H. lia.
  - apply readString_loop_bound; [exact Hl|].
    apply in_step_inside; assumption.
Qed.

Lemma in_step_skipWhitespace lx :
  in_step inp lx -> in_step inp (skipWhitespace lx).
Proof.
  intros H. apply (in_step_reads inp lx); [apply readWhile_reads|exact H].
Qed.

Lemma NextToken_rec_returns : forall fuel lx,
  in_step inp lx -> NextToken_rec fuel lx <> Panic.
Proof.
  induction fuel as [|f IH]; intros lx Hl;
    [rewrite NextToken_rec_eq0|rewrite NextToken_rec_eq];
    pose proof (in_step_skipWhitespace lx Hl) as H1;
    set (l1 := skipWhitespace lx) in *.
  all: repeat break_if; unfold Lexer.advance; try discriminate.
  all: try (apply IH; apply (in_step_reads inp l1);
            [apply skipComment_reads|exact H1]).
  all: try match goal with
       | |- context [readString ?c ?x] =>
           destruct (readString_returns c x H1) as [s Hs];
           [ intros Hc;
             repeat match goal with
             | H : Ascii.eqb (ch x) _ || _ = true |- _ =>
                 rewrite Hc in H; discriminate H
             end
           | destruct (readString c x) as [lit l2]; cbn [fst] in Hs;
             rewrite Hs; cbn; discriminate ]
       end.
  all: try match goal with
       | Hd : Ascii.eqb (ch ?x) "$" = true |- _ =>
           destruct (readIdentifier_returns (readChar x)) as [s Hs];
           [ apply in_step_next; exact H1
           | rewrite (in_step_position_next x H1);
             apply in_step_inside; [exact H1|];
             apply Ascii.eqb_eq in Hd; rewrite Hd; discriminate
           | destruct (readIdentifier (readChar x)) as [lit l2];
             cbn [fst] in Hs; rewrite Hs; cbn; discriminate ]
       end.
  all: try match goal with
       | Hd : isLetter (ch ?x) = true |- _ =>
           destruct (readIdentifier_returns x) as [s Hs];
           [ exact H1
           | apply Nat.lt_le_incl, in_step_inside; [exact H1|];
             intros Hc; rewrite Hc in Hd; discriminate Hd
           | destruct (readIdentifier x) as [lit l2];
             cbn [fst] in Hs; rewrite Hs; cbn; discriminate ]
       end.
  all: try match goal with
       | Hd : isDigit (ch ?x) = true |- _ =>
           destruct (readNumber_returns x) as [s Hs];
           [ exact H1
           | apply Nat.lt_le_incl, in_step_inside; [exact H1|];
             intros Hc; rewrite Hc in Hd; discriminate Hd
           | destruct (readNumber x) as [[t lit] l2];
             cbn [fst snd] in Hs; rewrite Hs; cbn; discriminate ]
       end.
Qed.

Lemma tokens_return : forall n lx, in_step inp lx -> tokens n lx <> Panic.
Proof.
  induction n as [|n IH]; intros lx Hl; cbn [tokens]; [discriminate|].
  pose proof (NextToken_rec_returns (loop_bound lx) lx Hl) as Hn.
  fold (NextToken lx) in Hn.
  destruct (NextToken lx) as [[tok l']| |] eqn:E;
    [|congruence|discriminate].
  specialize (IH l' (in_step_NextToken inp lx tok l' Hl E)).
  destruct (tokens n l'); [discriminate|congruence|discriminate].
Qed.

End LexerSafety.

(** X23. The parser has no panic of its own.  Whatever it parses, it
    slices the name of a variable out of a token only where the current
    token is a VARIABLE, and the lexer gives every VARIABLE token its [$]:
    so [Parse] panics only where tokenising the input panics.  Tokenising
    panics only in an unterminated string literal whose last byte, the
    last byte of the input, is a backslash: on an input that does not end
    in a backslash neither the lexer nor the parser panics, whatever the
    fuel.  The input [<?php $a = 'x\] shows the panic. *)
Theorem parser_panics_only_where_lexer_does :
  (forall fuel inp,
     Parse fuel inp = Panic -> exists n, tokens n (New inp) = Panic)
  /\
  (forall inp,
     ends_in_backslash inp = false ->
     (forall n, tokens n (New inp) <> Panic) /\
     (forall fuel, Parse fuel inp <> Panic))
  /\
  Parse 5 (String "<" (String "?" (String "p" (String "h" (String "p"
    (String " " (String "$" (String "a" (String " " (String "="
    (String " " (String SQUOTE (String "x" (String BACKSLASH
    EmptyString)))))))))))))) = Panic.
Proof.
  split; [|split].
  - intros fuel inp. apply Parse_panic.
  - intros inp Hend.
    assert (Hl : forall n, tokens n (New inp) <> Panic).
    { intros n. apply (tokens_return inp Hend). apply in_step_New. }
    split; [exact Hl|].
    intros fuel H. destruct (Parse_panic inp fuel H) as [n Hn].
    exact (Hl n Hn).
  - vm_compute. reflexivity.
Qed.

Lemma parser_panics_only_where_lexer_does_witness :
  (forall n, tokens n (New "<?php echo 'a\b' . $c; ?>") <> Panic) /\
  (forall fuel, Parse fuel "<?php echo 'a\b' . $c; ?>" <> Panic).
Proof.
  apply (proj1 (proj2 parser_panics_only_where_lexer_does)).
  vm_compute. reflexivity.
Defined.

(** ** The parser returns *)

Section ParserTermination.

Variable inp : string.

Lemma tt_eqb_EOF (t : TokenType) : tt_eqb t EOF = true -> t = EOF.
Proof. destruct t; first [reflexivity | discriminate]. Qed.

Lemma NextToken_past_end (lx : Lexer) tok lx' :
  in_step inp lx -> rest_of inp lx = 0 ->
  NextToken lx = Ok (tok, lx') -> Type_ tok = EOF.
Proof.
  intros Hl Hr H. destruct (EOF_dec (Type_ tok)) as [E|E]; [exact E|].
  exfalso. apply NextToken_moved in H as [_ Hch]. apply (Hch E).
  pose proof (readWhile_reads isWhitespace (loop_bound lx) lx) as Hws.
  fold (skipWhitespace lx) in Hws.
  pose proof (in_step_reads inp _ _ Hws Hl) as (_ & Hp & Hc & _).
  pose proof (reads_readPosition _ _ Hws).
  rewrite Hc. unfold rest_of in Hr.
  destruct (Nat.leb_spec (String.length inp) (position (skipWhitespace lx)));
    [reflexivity|lia].
Qed.

Lemma weight_next (p : Parser) tok lx' :
  in_step inp (l p) -> NextToken (l p) = Ok (tok, lx') ->
  weight inp {| l := lx'; curToken := peekToken p; peekToken := tok;
                errors := errors p |}
  <= weight inp p - 1.
Proof.
  intros Hl H. unfold weight, pending. cbn [l curToken peekToken].
  pose proof (NextToken_moved _ _ _ H) as [Hr _].
  apply reads_readPosition in Hr. rewrite readChar_readPosition in Hr.
  destruct (rest_of inp (l p)) as [|r] eqn:Er.
  - pose proof (NextToken_past_end _ _ _ Hl Er H) as Ht. rewrite Ht.
    assert (E' : rest_of inp lx' = 0) by (unfold rest_of in *; lia).
    rewrite E'. cbn [tt_eqb code Nat.eqb].
    destruct (tt_eqb (Type_ (peekToken p)) EOF);
      [|cbn; lia].
    destruct (tt_eqb (Type_ (curToken p)) EOF); cbn; lia.
  - assert (E' : rest_of inp lx' <= r) by (unfold rest_of in *; lia).
    destruct (tt_eqb (Type_ tok) EOF), (tt_eqb (Type_ (peekToken p)) EOF),
      (tt_eqb (Type_ (curToken p)) EOF); lia.
Qed.

Lemma weight_zero (p : Parser) :
  weight inp p <= 0 ->
  Type_ (curToken p) = EOF /\ Type_ (peekToken p) = EOF.
Proof.
  unfold weight, pending. intros H.
  destruct (tt_eqb (Type_ (peekToken p)) EOF) eqn:E1; [|lia].
  destruct (tt_eqb (Type_ (curToken p)) EOF) eqn:E2; [|lia].
  split; apply tt_eqb_EOF; assumption.
Qed.

Lemma settles_le {A} (N N' : nat) (m : M A) :
  settles inp N m -> N' <= N -> settles inp N' m.
Proof. intros H Hle p Hl Hw. apply H; [exact Hl|lia]. Qed.

Lemma settles_ret {A} N (a : A) : settles inp N (ret a).
Proof.
  intros p Hl Hw. split; [discriminate|].
  intros a' p' [= <- <-]. split; [exact Hl|lia].
Qed.

Lemma settles_bind {A B} N (m : M A) (k : A -> M B) :
  settles inp N m -> (forall a, settles inp N (k a)) ->
  settles inp N (bind m k).
Proof.
  intros Hm Hk p Hl Hw. unfold bind. destruct (Hm p Hl Hw) as [Hn Hr].
  destruct (m p) as [[a p1]| |]; [|split; [discriminate|discriminate]
                                  |congruence].
  destruct (Hr a p1 eq_refl) as [Hl1 Hw1].
  destruct (Hk a p1 Hl1 ltac:(lia)) as [Hn2 Hr2].
  split; [exact Hn2|]. intros b p2 E.
  destruct (Hr2 b p2 E) as [Hl2 Hw2]. split; [exact Hl2|lia].
Qed.

Lemma settles_steady {A B} N (m : M A) (k : A -> M B) :
  steady m -> (forall a, settles inp N (k a)) -> settles inp N (bind m k).
Proof.
  intros Hm Hk p Hl Hw. unfold bind.
  destruct (Hm p) as [->|[a ->]]; [split; discriminate|].
  exact (Hk a p Hl Hw).
Qed.

Lemma settles_next {B} N (k : unit -> M B) :
  settles inp (N - 1) (k tt) -> settles inp N (bind nextToken k).
Proof.
  intros Hk p Hl Hw. unfold bind, nextToken.
  destruct (NextToken (l p)) as [[tok lx']| |] eqn:E;
    [|split; discriminate|exfalso; exact (NextToken_no_timeout _ E)].
  pose proof (weight_next p tok lx' Hl E) as Hw'.
  pose proof (in_step_NextToken inp _ _ _ Hl E) as Hl'.
  destruct (Hk {| l := lx'; curToken := peekToken p; peekToken := tok;
                  errors := errors p |} Hl' ltac:(lia)) as [Hn Hr].
  split; [exact Hn|]. intros b p2 E2.
  destruct (Hr b p2 E2) as [Hl2 Hw2]. split; [exact Hl2|lia].
Qed.

Lemma nextToken_settles N : settles inp N nextToken.
Proof.
  intros p Hl Hw. unfold nextToken.
  destruct (NextToken (l p)) as [[tok lx']| |] eqn:E;
    [|split; discriminate|exfalso; exact (NextToken_no_timeout _ E)].
  split; [discriminate|]. intros [] p' [= <-].
  pose proof (weight_next p tok lx' Hl E).
  split; [exact (in_step_NextToken inp _ _ _ Hl E)|lia].
Qed.

Lemma addError_settles N msg : settles inp N (addError msg).
Proof.
  intros p Hl Hw. split; [discriminate|].
  intros [] p' [= <-]. split; [exact Hl|]. unfold weight, pending. cbn. lia.
Qed.

Lemma peekError_settles N t : settles inp N (peekError t).
Proof. intros p. unfold peekError. apply addError_settles. Qed.

Lemma noPrefixParseFnError_settles N t :
  settles inp N (noPrefixParseFnError t).
Proof. apply addError_settles. Qed.

Lemma steady_cur : steady cur.
Proof. intros p. right. eexists. reflexivity. Qed.
Lemma steady_peek : steady peek.
Proof. intros p. right. eexists. reflexivity. Qed.
Lemma steady_curTokenIs t : steady (curTokenIs t).
Proof. intros p. right. eexists. reflexivity. Qed.
Lemma steady_peekTokenIs t : steady (peekTokenIs t).
Proof. intros p. right. eexists. reflexivity. Qed.
Lemma steady_curPrecedence : steady curPrecedence.
Proof. intros p. right. eexists. reflexivity. Qed.
Lemma steady_peekPrecedence : steady peekPrecedence.
Proof. intros p. right. eexists. reflexivity. Qed.
Lemma steady_identifierOfCur : steady identifierOfCur.
Proof. intros p. right. eexists. reflexivity. Qed.
Lemma steady_isVisibility : steady isVisibility.
Proof. intros p. right. eexists. reflexivity. Qed.
Lemma steady_variableOfCur : steady variableOfCur.
Proof.
  intros p. unfold variableOfCur, bind, cur, lift, ret.
  destruct (slice_from _ _) eqn:E;
    [right; eexists; reflexivity | left; reflexivity|].
  exfalso. unfold slice_from in E. exact (slice_no_timeout _ _ _ E).
Qed.
Lemma steady_variableOfToken tok : steady (variableOfToken tok).
Proof.
  intros p. unfold variableOfToken, bind, lift, ret.
  destruct (slice_from _ _) eqn:E;
    [right; eexists; reflexivity | left; reflexivity|].
  exfalso. unfold slice_from in E. exact (slice_no_timeout _ _ _ E).
Qed.
Lemma steady_variablesOfTokens toks : steady (variablesOfTokens toks).
Proof.
  induction toks as [|tok toks IH]; intros p; cbn [variablesOfTokens].
  - right. eexists. reflexivity.
  - unfold bind.
    destruct (steady_variableOfToken tok p) as [E|[v E]]; rewrite E;
      [left; reflexivity|].
    destruct (IH p) as [E2|[vs E2]]; rewrite E2; [left; reflexivity|].
    right. eexists. reflexivity.
Qed.
Lemma steady_parseInterpolatedString : steady parseInterpolatedString.
Proof.
  intros p. unfold parseInterpolatedString, bind, cur.
  destruct (strings_.SplitByte _ _);
    [left; reflexivity | right; eexists; reflexivity].
Qed.

Lemma steady_settles {A} N (m : M A) : steady m -> settles inp N m.
Proof.
  intros Hm p Hl Hw. destruct (Hm p) as [E|[a E]]; rewrite E.
  - split; discriminate.
  - split; [discriminate|]. intros a' p' [= <- <-]. split; [exact Hl|lia].
Qed.

Lemma settles_timeout_never {A} (m : M A) N :
  (forall p, weight inp p <= N -> False) -> settles inp N m.
Proof. intros H p _ Hw. destruct (H p Hw). Qed.

Create HintDb settle discriminated.
#[local] Hint Constants Opaque : settle.
#[local] Hint Variables Opaque : settle.
#[local] Hint Extern 2 (_ <= _) => lia : settle.

Ltac settle :=
  cbv beta zeta;
  repeat
    match goal with
    | |- settles _ _ (ret _) => apply settles_ret
    | |- settles _ _ (bind nextToken _) => apply settles_next
    | |- settles _ _ (bind cur _) =>
        apply settles_steady; [exact steady_cur | intros ?]
    | |- settles _ _ (bind peek _) =>
        apply settles_steady; [exact steady_peek | intros ?]
    | |- settles _ _ (bind (curTokenIs _) _) =>
        apply settles_steady; [apply steady_curTokenIs | intros ?]
    | |- settles _ _ (bind (peekTokenIs _) _) =>
        apply settles_steady; [apply steady_peekTokenIs | intros ?]
    | |- settles _ _ (bind curPrecedence _) =>
        apply settles_steady; [exact steady_curPrecedence | intros ?]
    | |- settles _ _ (bind peekPrecedence _) =>
        apply settles_steady; [exact steady_peekPrecedence | intros ?]
    | |- settles _ _ (bind identifierOfCur _) =>
        apply settles_steady; [exact steady_identifierOfCur | intros ?]
    | |- settles _ _ (bind isVisibility _) =>
        apply settles_steady; [exact steady_isVisibility | intros ?]
    | |- settles _ _ (bind variableOfCur _) =>
        apply settles_steady; [exact steady_variableOfCur | intros ?]
    | |- settles _ _ (bind (variablesOfTokens _) _) =>
        apply settles_steady; [apply steady_variablesOfTokens | intros ?]
    | |- settles _ _ (bind _ _) => apply settles_bind; [ | intros ? ]
    | |- settles _ _ (if ?b then _ else _) => destruct b
    | |- settles _ _ (match ?x with _ => _ end) => destruct x
    | H : forall x, settles _ ?K (?a x) |- settles _ _ (?a _) =>
        apply (settles_le K); [apply H | lia]
    | H : settles _ ?K ?m |- settles _ _ ?m =>
        apply (settles_le K); [exact H | lia]
    | |- settles _ _ _ => solve [eauto 5 with settle]
    end.

(** A loop at weight 0, where both tokens are EOF: it is left at once. *)
Ltac at_zero f :=
  let p := fresh "p" in
  let Hl := fresh "Hl" in
  let Hw := fresh "Hw" in
  let Hc := fresh "Hc" in
  let Hp := fresh "Hp" in
  intros p Hl Hw; destruct (weight_zero p Hw) as [Hc Hp];
  cbn [f]; unfold bind, curTokenIs, peekTokenIs, peekPrecedence, peek, ret;
  repeat first
    [ progress (cbv beta)
    | rewrite Hc
    | rewrite Hp
    | match goal with
      | |- context [tt_eqb ?a ?b] => is_var b; destruct (tt_eqb a b)
      end
    | progress (cbn [tt_eqb code Nat.eqb negb andb orb precedences
                     infixParseFns])
    | rewrite andb_false_r
    | match goal with
      | |- context [if ?b then _ else _] => destruct b
      end ];
  (split; [discriminate | intros ? ? [= <- <-]; split; [exact Hl | lia]]).

#[local] Hint Resolve nextToken_settles addError_settles peekError_settles
  noPrefixParseFnError_settles : settle.

Lemma expectPeek_settles N t : settles inp N (expectPeek t).
Proof. unfold expectPeek. settle. Qed.
#[local] Hint Resolve expectPeek_settles : settle.

Lemma skipPeek_settles N t : settles inp N (skipPeek t).
Proof. unfold skipPeek. settle. Qed.
#[local] Hint Resolve skipPeek_settles : settle.

Lemma parseIdentifier_settles N : settles inp N parseIdentifier.
Proof. unfold parseIdentifier. settle. Qed.
#[local] Hint Resolve parseIdentifier_settles : settle.

Lemma parseVariable_settles N : settles inp N parseVariable.
Proof. unfold parseVariable. settle. Qed.
#[local] Hint Resolve parseVariable_settles : settle.

Lemma parseIntegerLiteral_settles N : settles inp N parseIntegerLiteral.
Proof. unfold parseIntegerLiteral. settle. Qed.
#[local] Hint Resolve parseIntegerLiteral_settles : settle.

Lemma parseFloatLiteral_settles N : settles inp N parseFloatLiteral.
Proof. unfold parseFloatLiteral. settle. Qed.
#[local] Hint Resolve parseFloatLiteral_settles : settle.

Lemma parseInterpolatedString_settles N :
  settles inp N parseInterpolatedString.
Proof. apply steady_settles, steady_parseInterpolatedString. Qed.
#[local] Hint Resolve parseInterpolatedString_settles : settle.

Lemma parseStringLiteral_settles N : settles inp N parseStringLiteral.
Proof. unfold parseStringLiteral. settle. Qed.
#[local] Hint Resolve parseStringLiteral_settles : settle.

Lemma parseBooleanLiteral_settles N : settles inp N parseBooleanLiteral.
Proof. unfold parseBooleanLiteral. settle. Qed.
#[local] Hint Resolve parseBooleanLiteral_settles : settle.

Lemma parsePostfixExpression_settles N x1 :
  settles inp N (parsePostfixExpression x1).
Proof. unfold parsePostfixExpression. settle. Qed.
#[local] Hint Resolve parsePostfixExpression_settles : settle.

Lemma parseNamespaceDeclaration_settles N :
  settles inp N parseNamespaceDeclaration.
Proof. unfold parseNamespaceDeclaration. settle. Qed.
#[local] Hint Resolve parseNamespaceDeclaration_settles : settle.

Lemma parseUseStatement_settles N : settles inp N parseUseStatement.
Proof. unfold parseUseStatement. settle. Qed.
#[local] Hint Resolve parseUseStatement_settles : settle.

Lemma parameters_loop_settles : forall (n N : nat) x1,
    N <= n ->
    settles inp N (parameters_loop n x1).
Proof.
  induction n as [|n IH]; intros N; intros;
    (destruct N as [|N]; [at_zero parameters_loop|]);
    [exfalso; lia|]; cbn [parameters_loop]; settle.
Qed.
#[local] Hint Resolve parameters_loop_settles : settle.

Lemma parseFunctionParameters_settles : forall (fuel : nat) N,
  N <= fuel -> 
  settles inp N (parseFunctionParameters fuel).
Proof. intros. unfold parseFunctionParameters. settle. Qed.
#[local] Hint Resolve parseFunctionParameters_settles : settle.

Lemma block_loop_settles : forall Ks ps,
  settles inp Ks ps ->
  forall (n N : nat) x1,
    N <= Ks -> N <= n ->
    settles inp N (block_loop ps n x1).
Proof.
  intros ? ? ?.
  induction n as [|n IH]; intros N; intros;
    (destruct N as [|N]; [at_zero block_loop|]);
    [exfalso; lia|]; cbn [block_loop]; settle.
Qed.
#[local] Hint Resolve block_loop_settles : settle.

Lemma parseBlockStatement_settles : forall Ks (fuel : nat) ps N,
  settles inp Ks ps ->
  N <= fuel -> N - 1 <= Ks -> 
  settles inp N (parseBlockStatement fuel ps).
Proof. intros. unfold parseBlockStatement. settle. Qed.
#[local] Hint Resolve parseBlockStatement_settles : settle.

Lemma parseFunctionDeclaration_settles : forall Ks (fuel : nat) ps N,
  settles inp Ks ps ->
  N <= fuel -> N - 1 <= Ks -> 
  settles inp N (parseFunctionDeclaration fuel ps).
Proof. intros. unfold parseFunctionDeclaration. settle. Qed.
#[local] Hint Resolve parseFunctionDeclaration_settles : settle.

Lemma parseReturnStatement_settles : forall Ke pe N,
  (forall precedence, settles inp Ke (pe precedence)) ->
  N - 1 <= Ke -> 
  settles inp N (parseReturnStatement pe).
Proof. intros. unfold parseReturnStatement. settle. Qed.
#[local] Hint Resolve parseReturnStatement_settles : settle.

Lemma parseIfStatement_settles : forall Ke Ks (fuel : nat) pe ps N,
  (forall precedence, settles inp Ke (pe precedence)) ->
  settles inp Ks ps ->
  N <= fuel -> N - 1 <= Ke -> N - 1 <= Ks -> 
  settles inp N (parseIfStatement fuel pe ps).
Proof. intros. unfold parseIfStatement. settle. Qed.
#[local] Hint Resolve parseIfStatement_settles : settle.

Lemma expressions_loop_settles : forall Ke pe,
  (forall precedence, settles inp Ke (pe precedence)) ->
  forall (n N : nat) x1,
    N - 1 <= Ke -> N <= n ->
    settles inp N (expressions_loop pe n x1).
Proof.
  intros ? ? ?.
  induction n as [|n IH]; intros N; intros;
    (destruct N as [|N]; [at_zero expressions_loop|]);
    [exfalso; lia|]; cbn [expressions_loop]; settle.
Qed.
#[local] Hint Resolve expressions_loop_settles : settle.

Lemma parseEchoStatement_settles : forall Ke (fuel : nat) pe N,
  (forall precedence, settles inp Ke (pe precedence)) ->
  N <= fuel -> N - 1 <= Ke -> 
  settles inp N (parseEchoStatement fuel pe).
Proof. intros. unfold parseEchoStatement. settle. Qed.
#[local] Hint Resolve parseEchoStatement_settles : settle.

Lemma parseAssignmentExpressionFromVariable_settles : forall Ke pe N,
  (forall precedence, settles inp Ke (pe precedence)) ->
  N - 1 <= Ke -> 
  settles inp N (parseAssignmentExpressionFromVariable pe).
Proof. intros. unfold parseAssignmentExpressionFromVariable. settle. Qed.
#[local] Hint Resolve parseAssignmentExpressionFromVariable_settles : settle.

Lemma parseExpressionStatement_settles : forall Ke pe N,
  (forall precedence, settles inp Ke (pe precedence)) ->
  N <= Ke -> 
  settles inp N (parseExpressionStatement pe).
Proof. intros. unfold parseExpressionStatement. settle. Qed.
#[local] Hint Resolve parseExpressionStatement_settles : settle.

Lemma parsePrefixExpression_settles : forall Ke pe N,
  (forall precedence, settles inp Ke (pe precedence)) ->
  N - 1 <= Ke -> 
  settles inp N (parsePrefixExpression pe).
Proof. intros. unfold parsePrefixExpression. settle. Qed.
#[local] Hint Resolve parsePrefixExpression_settles : settle.

Lemma parseInfixExpression_settles : forall Ke pe x1 N,
  (forall precedence, settles inp Ke (pe precedence)) ->
  N - 1 <= Ke -> 
  settles inp N (parseInfixExpression pe x1).
Proof. intros. unfold parseInfixExpression. settle. Qed.
#[local] Hint Resolve parseInfixExpression_settles : settle.

Lemma parseAssignmentExpression_settles : forall Ke pe x1 N,
  (forall precedence, settles inp Ke (pe precedence)) ->
  N - 1 <= Ke -> 
  settles inp N (parseAssignmentExpression pe x1).
Proof. intros. unfold parseAssignmentExpression. settle. Qed.
#[local] Hint Resolve parseAssignmentExpression_settles : settle.

Lemma parseGroupedExpression_settles : forall Ke pe N,
  (forall precedence, settles inp Ke (pe precedence)) ->
  N - 1 <= Ke -> 
  settles inp N (parseGroupedExpression pe).
Proof. intros. unfold parseGroupedExpression. settle. Qed.
#[local] Hint Resolve parseGroupedExpression_settles : settle.

Lemma parseExpressionList_settles : forall Ke (fuel : nat) pe x1 N,
  (forall precedence, settles inp Ke (pe precedence)) ->
  N <= fuel -> N - 1 <= Ke -> 
  settles inp N (parseExpressionList fuel pe x1).
Proof. intros. unfold parseExpressionList. settle. Qed.
#[local] Hint Resolve parseExpressionList_settles : settle.

Lemma parseCallExpression_settles : forall Ke (fuel : nat) pe x1 N,
  (forall precedence, settles inp Ke (pe precedence)) ->
  N <= fuel -> N - 1 <= Ke -> 
  settles inp N (parseCallExpression fuel pe x1).
Proof. intros. unfold parseCallExpression. settle. Qed.
#[local] Hint Resolve parseCallExpression_settles : settle.

Lemma pairs_loop_settles : forall Ke pe,
  (forall precedence, settles inp Ke (pe precedence)) ->
  forall (n N : nat) x1,
    N - 1 <= Ke -> N <= n ->
    settles inp N (pairs_loop pe n x1).
Proof.
  intros ? ? ?.
  induction n as [|n IH]; intros N; intros;
    (destruct N as [|N]; [at_zero pairs_loop|]);
    [exfalso; lia|]; cbn [pairs_loop]; settle.
Qed.
#[local] Hint Resolve pairs_loop_settles : settle.

Lemma parseArrayLiteral_settles : forall Ke (fuel : nat) pe N,
  (forall precedence, settles inp Ke (pe precedence)) ->
  N <= fuel -> N - 1 <= Ke -> 
  settles inp N (parseArrayLiteral fuel pe).
Proof. intros. unfold parseArrayLiteral. settle. Qed.
#[local] Hint Resolve parseArrayLiteral_settles : settle.

Lemma parseIndexExpression_settles : forall Ke pe x1 N,
  (forall precedence, settles inp Ke (pe precedence)) ->
  N - 1 <= Ke -> 
  settles inp N (parseIndexExpression pe x1).
Proof. intros. unfold parseIndexExpression. settle. Qed.
#[local] Hint Resolve parseIndexExpression_settles : settle.

Lemma parseForStatement_settles : forall Ke Ks (fuel : nat) pe ps N,
  (forall precedence, settles inp Ke (pe precedence)) ->
  settles inp Ks ps ->
  N <= fuel -> N - 1 <= Ke -> N - 1 <= Ks -> 
  settles inp N (parseForStatement fuel pe ps).
Proof. intros. unfold parseForStatement. settle. Qed.
#[local] Hint Resolve parseForStatement_settles : settle.

Lemma parseWhileStatement_settles : forall Ke Ks (fuel : nat) pe ps N,
  (forall precedence, settles inp Ke (pe precedence)) ->
  settles inp Ks ps ->
  N <= fuel -> N - 1 <= Ke -> N - 1 <= Ks -> 
  settles inp N (parseWhileStatement fuel pe ps).
Proof. intros. unfold parseWhileStatement. settle. Qed.
#[local] Hint Resolve parseWhileStatement_settles : settle.

Lemma parseForeachStatement_settles : forall Ke Ks (fuel : nat) pe ps N,
  (forall precedence, settles inp Ke (pe precedence)) ->
  settles inp Ks ps ->
  N <= fuel -> N - 1 <= Ke -> N - 1 <= Ks -> 
  settles inp N (parseForeachStatement fuel pe ps).
Proof. intros. unfold parseForeachStatement. settle. Qed.
#[local] Hint Resolve parseForeachStatement_settles : settle.

Lemma parseLevel_settles : forall Ke pe N,
  (forall precedence, settles inp Ke (pe precedence)) ->
  N - 1 <= Ke -> 
  settles inp N (parseLevel pe).
Proof. intros. unfold parseLevel. settle. Qed.
#[local] Hint Resolve parseLevel_settles : settle.

Lemma parseBreakStatement_settles : forall Ke pe N,
  (forall precedence, settles inp Ke (pe precedence)) ->
  N - 1 <= Ke -> 
  settles inp N (parseBreakStatement pe).
Proof. intros. unfold parseBreakStatement. settle. Qed.
#[local] Hint Resolve parseBreakStatement_settles : settle.

Lemma parseContinueStatement_settles : forall Ke pe N,
  (forall precedence, settles inp Ke (pe precedence)) ->
  N - 1 <= Ke -> 
  settles inp N (parseContinueStatement pe).
Proof. intros. unfold parseContinueStatement. settle. Qed.
#[local] Hint Resolve parseContinueStatement_settles : settle.

Lemma parsePropertyDeclaration_settles : forall Ke pe x1 x2 N,
  (forall precedence, settles inp Ke (pe precedence)) ->
  N - 1 <= Ke -> 
  settles inp N (parsePropertyDeclaration pe x1 x2).
Proof. intros. unfold parsePropertyDeclaration. settle. Qed.
#[local] Hint Resolve parsePropertyDeclaration_settles : settle.

Lemma parseMethodDeclaration_settles : forall Ks (fuel : nat) ps x1 x2 N,
  settles inp Ks ps ->
  N <= fuel -> N - 1 <= Ks -> 
  settles inp N (parseMethodDeclaration fuel ps x1 x2).
Proof. intros. unfold parseMethodDeclaration. settle. Qed.
#[local] Hint Resolve parseMethodDeclaration_settles : settle.

Lemma parseConstantDeclaration_settles : forall Ke pe N,
  (forall precedence, settles inp Ke (pe precedence)) ->
  N - 1 <= Ke -> 
  settles inp N (parseConstantDeclaration pe).
Proof. intros. unfold parseConstantDeclaration. settle. Qed.
#[local] Hint Resolve parseConstantDeclaration_settles : settle.

Lemma names_loop_settles : forall (n N : nat) x1 x2 x3 x4,
    N <= n ->
    settles inp N (names_loop n x1 x2 x3 x4).
Proof.
  induction n as [|n IH]; intros N; intros;
    (destruct N as [|N]; [at_zero names_loop|]);
    [exfalso; lia|]; cbn [names_loop]; settle.
Qed.
#[local] Hint Resolve names_loop_settles : settle.

Lemma parseTraitUse_settles : forall (fuel : nat) N,
  N <= fuel -> 
  settles inp N (parseTraitUse fuel).
Proof. intros. unfold parseTraitUse. settle. Qed.
#[local] Hint Resolve parseTraitUse_settles : settle.

Lemma classMember_settles : forall Ke Ks (fuel : nat) pe ps x1 N,
  (forall precedence, settles inp Ke (pe precedence)) ->
  settles inp Ks ps ->
  N <= fuel -> N - 1 <= Ke -> N - 1 <= Ks -> 
  settles inp N (classMember fuel pe ps x1).
Proof. intros. unfold classMember. settle. Qed.
#[local] Hint Resolve classMember_settles : settle.

Lemma traitMember_settles : forall Ke Ks (fuel : nat) pe ps x1 N,
  (forall precedence, settles inp Ke (pe precedence)) ->
  settles inp Ks ps ->
  N <= fuel -> N - 1 <= Ke -> N - 1 <= Ks -> 
  settles inp N (traitMember fuel pe ps x1).
Proof. intros. unfold traitMember. settle. Qed.
#[local] Hint Resolve traitMember_settles : settle.

Lemma members_loop_settles : forall (member : Members -> M Members) (n N : nat) x1,
  (forall m, settles inp N (member m)) -> N <= n ->
  settles inp N (members_loop n member x1).
Proof.
  intros member n. induction n as [|n IH]; intros N x1 Hm Hn;
    (destruct N as [|N]; [at_zero members_loop|]);
    [exfalso; lia|]; cbn [members_loop]; settle.
  apply IH; [|lia]. intros m. apply (settles_le (S N)); [apply Hm|lia].
Qed.
#[local] Hint Resolve members_loop_settles : settle.

Lemma parseClassDeclaration_settles : forall Ke Ks (fuel : nat) pe ps N,
  (forall precedence, settles inp Ke (pe precedence)) ->
  settles inp Ks ps ->
  N <= fuel -> N - 1 <= Ke -> N - 1 <= Ks -> 
  settles inp N (parseClassDeclaration fuel pe ps).
Proof. intros. unfold parseClassDeclaration. settle. Qed.
#[local] Hint Resolve parseClassDeclaration_settles : settle.

Lemma parseTraitDeclaration_settles : forall Ke Ks (fuel : nat) pe ps N,
  (forall precedence, settles inp Ke (pe precedence)) ->
  settles inp Ks ps ->
  N <= fuel -> N - 1 <= Ke -> N - 1 <= Ks -> 
  settles inp N (parseTraitDeclaration fuel pe ps).
Proof. intros. unfold parseTraitDeclaration. settle. Qed.
#[local] Hint Resolve parseTraitDeclaration_settles : settle.

Lemma parseInterfaceMethod_settles : forall (fuel : nat) N,
  N <= fuel -> 
  settles inp N (parseInterfaceMethod fuel).
Proof. intros. unfold parseInterfaceMethod. settle. Qed.
#[local] Hint Resolve parseInterfaceMethod_settles : settle.

Lemma interface_loop_settles : forall (fuel : nat),
  forall (n N : nat) x1,
    N <= fuel -> N <= n ->
    settles inp N (interface_loop fuel n x1).
Proof.
  intros ?.
  induction n as [|n IH]; intros N; intros;
    (destruct N as [|N]; [at_zero interface_loop|]);
    [exfalso; lia|]; cbn [interface_loop]; settle.
Qed.
#[local] Hint Resolve interface_loop_settles : settle.

Lemma parseInterfaceDeclaration_settles : forall (fuel : nat) N,
  N <= fuel -> 
  settles inp N (parseInterfaceDeclaration fuel).
Proof. intros. unfold parseInterfaceDeclaration. settle. Qed.
#[local] Hint Resolve parseInterfaceDeclaration_settles : settle.

Lemma parseNewExpression_settles : forall Ke (fuel : nat) pe N,
  (forall precedence, settles inp Ke (pe precedence)) ->
  N <= fuel -> N - 1 <= Ke -> 
  settles inp N (parseNewExpression fuel pe).
Proof. intros. unfold parseNewExpression. settle. Qed.
#[local] Hint Resolve parseNewExpression_settles : settle.

Lemma parseObjectAccessExpression_settles : forall Ke pe x1 N,
  (forall precedence, settles inp Ke (pe precedence)) ->
  N - 1 <= Ke -> 
  settles inp N (parseObjectAccessExpression pe x1).
Proof. intros. unfold parseObjectAccessExpression. settle. Qed.
#[local] Hint Resolve parseObjectAccessExpression_settles : settle.

Lemma parseStaticAccessExpression_settles : forall Ke pe x1 N,
  (forall precedence, settles inp Ke (pe precedence)) ->
  N - 1 <= Ke -> 
  settles inp N (parseStaticAccessExpression pe x1).
Proof. intros. unfold parseStaticAccessExpression. settle. Qed.
#[local] Hint Resolve parseStaticAccessExpression_settles : settle.

Lemma parseCatchClause_settles : forall Ks (fuel : nat) ps N,
  settles inp Ks ps ->
  N <= fuel -> N - 1 <= Ks -> 
  settles inp N (parseCatchClause fuel ps).
Proof. intros. unfold parseCatchClause. settle. Qed.
#[local] Hint Resolve parseCatchClause_settles : settle.

Lemma catches_loop_settles : forall Ks (fuel : nat) ps,
  settles inp Ks ps ->
  forall (n N : nat) x1,
    N <= fuel -> N - 1 <= Ks -> N <= n ->
    settles inp N (catches_loop fuel ps n x1).
Proof.
  intros ? ? ? ?.
  induction n as [|n IH]; intros N; intros;
    (destruct N as [|N]; [at_zero catches_loop|]);
    [exfalso; lia|]; cbn [catches_loop]; settle.
Qed.
#[local] Hint Resolve catches_loop_settles : settle.

Lemma parseTryStatement_settles : forall Ks (fuel : nat) ps N,
  settles inp Ks ps ->
  N <= fuel -> N - 1 <= Ks -> 
  settles inp N (parseTryStatement fuel ps).
Proof. intros. unfold parseTryStatement. settle. Qed.
#[local] Hint Resolve parseTryStatement_settles : settle.

Lemma parseThrowStatement_settles : forall Ke pe N,
  (forall precedence, settles inp Ke (pe precedence)) ->
  N - 1 <= Ke -> 
  settles inp N (parseThrowStatement pe).
Proof. intros. unfold parseThrowStatement. settle. Qed.
#[local] Hint Resolve parseThrowStatement_settles : settle.

Lemma parseAnonymousFunction_settles : forall Ks (fuel : nat) ps N,
  settles inp Ks ps ->
  N <= fuel -> N - 1 <= Ks -> 
  settles inp N (parseAnonymousFunction fuel ps).
Proof. intros. unfold parseAnonymousFunction. settle. Qed.
#[local] Hint Resolve parseAnonymousFunction_settles : settle.

Lemma parseYieldExpression_settles : forall Ke pe N,
  (forall precedence, settles inp Ke (pe precedence)) ->
  N - 1 <= Ke -> 
  settles inp N (parseYieldExpression pe).
Proof. intros. unfold parseYieldExpression. settle. Qed.
#[local] Hint Resolve parseYieldExpression_settles : settle.

Lemma parseTernaryExpression_settles : forall Ke pe x1 N,
  (forall precedence, settles inp Ke (pe precedence)) ->
  N - 1 <= Ke -> 
  settles inp N (parseTernaryExpression pe x1).
Proof. intros. unfold parseTernaryExpression. settle. Qed.
#[local] Hint Resolve parseTernaryExpression_settles : settle.

Lemma callPrefix_settles : forall Ke Ks (fuel : nat) pe ps x1 N,
  (forall precedence, settles inp Ke (pe precedence)) ->
  settles inp Ks ps ->
  N <= fuel -> N - 1 <= Ke -> N - 1 <= Ks -> 
  settles inp N (callPrefix fuel pe ps x1).
Proof. intros. unfold callPrefix. settle. Qed.
#[local] Hint Resolve callPrefix_settles : settle.

Lemma callInfix_settles : forall Ke (fuel : nat) pe x1 x2 N,
  (forall precedence, settles inp Ke (pe precedence)) ->
  N <= fuel -> N - 1 <= Ke -> 
  settles inp N (callInfix fuel pe x1 x2).
Proof. intros. unfold callInfix. settle. Qed.
#[local] Hint Resolve callInfix_settles : settle.

Lemma climb_settles : forall Ke (fuel : nat) pe,
  (forall precedence, settles inp Ke (pe precedence)) ->
  forall (n N : nat) x1 x2,
    N <= fuel -> N - 1 <= Ke -> N <= n ->
    settles inp N (climb fuel pe n x1 x2).
Proof.
  intros ? ? ? ?.
  induction n as [|n IH]; intros N; intros;
    (destruct N as [|N]; [at_zero climb|]);
    [exfalso; lia|]; cbn [climb]; settle.
Qed.
#[local] Hint Resolve climb_settles : settle.

Lemma parseExpression_body_settles : forall Ke Ks (fuel : nat) pe ps x1 N,
  (forall precedence, settles inp Ke (pe precedence)) ->
  settles inp Ks ps ->
  N <= fuel -> N - 1 <= Ke -> N - 1 <= Ks -> 
  settles inp N (parseExpression_body fuel pe ps x1).
Proof. intros. unfold parseExpression_body. settle. Qed.
#[local] Hint Resolve parseExpression_body_settles : settle.

Lemma parseStatement_body_settles : forall Ke Ks (fuel : nat) pe ps N,
  (forall precedence, settles inp Ke (pe precedence)) ->
  settles inp Ks ps ->
  N <= fuel -> N <= Ke -> N - 1 <= Ks -> 
  settles inp N (parseStatement_body fuel pe ps).
Proof. intros. unfold parseStatement_body, orNil. settle. Qed.
#[local] Hint Resolve parseStatement_body_settles : settle.

(** *** The two functions that call each other *)

Lemma parseExpression_at_end f precedence :
  settles inp 0 (parseExpression (S f) precedence).
Proof.
  intros p Hl Hw. destruct (weight_zero p Hw) as [Hc _].
  cbn [parseExpression]. unfold parseExpression_body, bind, cur.
  rewrite Hc. cbn [prefixParseFns].
  unfold noPrefixParseFnError, addError, ret.
  split; [discriminate|]. intros a p' [= <- <-]. split; [exact Hl|].
  unfold weight, pending. cbn. lia.
Qed.

Lemma parseStatement_at_end f : settles inp 0 (parseStatement (S (S f))).
Proof.
  intros p Hl Hw. destruct (weight_zero p Hw) as [Hc _].
  assert (E : parseStatement (S (S f)) p
              = parseExpressionStatement (parseExpression (S f)) p).
  { clear Hl Hw. destruct p as [lx [ty lit ln col pos] pk errs].
    cbn [curToken Type_] in Hc. subst ty. reflexivity. }
  rewrite E.
  apply (parseExpressionStatement_settles 0 _ 0);
    [intros precedence; apply parseExpression_at_end | lia | exact Hl
    | exact Hw].
Qed.

Lemma parse_settles : forall N,
  (forall f precedence, 2 * N + 1 <= f ->
     settles inp N (parseExpression f precedence)) /\
  (forall f, 2 * N + 2 <= f -> settles inp N (parseStatement f)).
Proof.
  induction N as [|N [IHe IHs]].
  - split.
    + intros [|f] precedence Hf; [lia|]. apply parseExpression_at_end.
    + intros [|[|f]] Hf; [lia|lia|]. apply parseStatement_at_end.
  - assert (He : forall f precedence, 2 * S N + 1 <= f ->
              settles inp (S N) (parseExpression f precedence)).
    { intros [|f] precedence Hf; [lia|].
      change (parseExpression (S f) precedence)
        with (parseExpression_body f (parseExpression f) (parseStatement f)
                precedence).
      apply (parseExpression_body_settles N N);
        [intros prec; apply IHe; lia | apply IHs; lia | lia | lia | lia]. }
    split; [exact He|].
    intros [|f] Hf; [lia|].
    change (parseStatement (S f))
      with (parseStatement_body f (parseExpression f) (parseStatement f)).
    apply (parseStatement_body_settles (S N) N);
      [intros prec; apply He; lia | apply IHs; lia | lia | lia | lia].
Qed.

Lemma program_loop_settles : forall (n N : nat) stmts,
  2 * N + 3 <= n -> settles inp N (program_loop n stmts).
Proof.
  induction n as [|n IH]; intros N stmts Hn; [exfalso; lia|].
  destruct N as [|N]; [at_zero program_loop|].
  cbn [program_loop].
  pose proof (proj2 (parse_settles (S N)) n ltac:(lia)) as Hs.
  assert (Hloop : forall stmts', settles inp N (program_loop n stmts')).
  { intros stmts'. apply IH. lia. }
  settle.
Qed.

Lemma ParseProgram_settles (fuel N : nat) :
  2 * N + 3 <= fuel -> settles inp N (ParseProgram fuel).
Proof.
  intros Hf. unfold ParseProgram.
  apply settles_bind; [apply program_loop_settles; exact Hf|].
  intros stmts. apply settles_ret.
Qed.

Lemma pending_bound (p : Parser) : pending p <= 2.
Proof. unfold pending. repeat destruct (tt_eqb _ _); lia. Qed.

Lemma start_weight :
  weight inp {| l := New inp; curToken := zeroToken; peekToken := zeroToken;
                errors := [] |} <= 3 * String.length inp + 2.
Proof.
  unfold weight, rest_of. cbn [l].
  change (readPosition (New inp)) with 1.
  pose proof (pending_bound {| l := New inp; curToken := zeroToken;
                               peekToken := zeroToken; errors := [] |}).
  lia.
Qed.

Lemma NewParser_settles :
  match NewParser (New inp) with
  | Ok p => in_step inp (l p) /\ weight inp p <= 3 * String.length inp + 2
  | Panic => True
  | Timeout => False
  end.
Proof.
  unfold NewParser.
  assert (S2 : settles inp (3 * String.length inp + 2)
                 (bind nextToken (fun _ => nextToken))).
  { apply settles_next. apply nextToken_settles. }
  destruct (S2 {| l := New inp; curToken := zeroToken;
                  peekToken := zeroToken; errors := [] |}
              (in_step_New inp) start_weight) as [Hn Hr].
  destruct (bind nextToken (fun _ => nextToken) _) as [[[] p1]| |];
    [|exact I|congruence].
  destruct (Hr tt p1 eq_refl) as [Hl Hw].
  pose proof start_weight. split; [exact Hl|lia].
Qed.

Lemma Parse_no_timeout (fuel : nat) :
  6 * String.length inp + 7 <= fuel -> Parse fuel inp <> Timeout.
Proof.
  intros Hf. unfold Parse. pose proof NewParser_settles as H.
  destruct (NewParser (New inp)) as [p| |]; [|discriminate|contradiction].
  destruct H as [Hl Hw].
  destruct (ParseProgram_settles fuel (3 * String.length inp + 2)
              ltac:(lia) p Hl Hw) as [Hn _].
  destruct (ParseProgram fuel p) as [[program p']| |];
    [discriminate|discriminate|congruence].
Qed.

End ParserTermination.

Lemma Parse_returns (inp : string) (fuel : nat) :
  ends_in_backslash inp = false ->
  6 * String.length inp + 7 <= fuel ->
  exists program errs, Parse fuel inp = Ok (program, errs).
Proof.
  intros Hend Hf.
  pose proof (Parse_no_timeout inp fuel Hf) as Ht.
  destruct (Parse fuel inp) as [[program errs]| |] eqn:E;
    [exists program, errs; reflexivity | | congruence].
  exfalso. destruct (Parse_panic inp fuel E) as [n Hn].
  exact (tokens_return inp Hend n (New inp) (in_step_New inp) Hn).
Qed.

(** X24. Parsing ends, on every input.  Every [nextToken] brings the
    parser nearer to the end of the input, each loop of the parser and each
    call of [parseExpression] or [parseStatement] inside another is paid
    for by a token, and at the end of the input every loop is left at
    once: with [6 * len(input) + 7] for the depth of the calls and the
    rounds of each loop, [Parse] never runs out.  On an input that does not
    end in a backslash it therefore returns a program and a list of
    errors, and more fuel returns the same. *)
Theorem parsing_ends_within_linear_depth :
  (forall inp fuel,
     6 * String.length inp + 7 <= fuel -> Parse fuel inp <> Timeout)
  /\
  (forall inp,
     ends_in_backslash inp = false ->
     exists program errs,
       forall fuel, 6 * String.length inp + 7 <= fuel ->
         Parse fuel inp = Ok (program, errs)).
Proof.
  split; [exact Parse_no_timeout|].
  intros inp Hend.
  destruct (Parse_returns inp (6 * String.length inp + 7) Hend (le_n _))
    as (program & errs & E).
  exists program, errs. intros fuel Hf.
  exact (Parse_mono _ fuel inp _ Hf E).
Qed.

Lemma parsing_ends_within_linear_depth_witness :
  Parse 200 "<?php while ($a < (1 + " <> Timeout /\
  exists program errs,
    forall fuel, 6 * 23 + 7 <= fuel ->
      Parse fuel "<?php while ($a < (1 + " = Ok (program, errs).
Proof.
  split.
  - apply (proj1 parsing_ends_within_linear_depth). cbn. lia.
  - apply (proj2 parsing_ends_within_linear_depth "<?php while ($a < (1 + ").
    reflexivity.
Defined.

(** ** No error, no nil statement *)



Lemma keeps_ret {A} (a : A) : keeps (ret a).
Proof. intros p a' p' [= <- <-]. lia. Qed.

Lemma keeps_timeout {A} : keeps (@timeout A).
Proof. intros p a p' H. discriminate H. Qed.

Lemma keeps_bind {A B} (m : M A) (k : A -> M B) :
  keeps m -> (forall a, keeps (k a)) -> keeps (bind m k).
Proof.
  intros Hm Hk p b p' H. unfold bind in H.
  destruct (m p) as [[a p1]| |] eqn:E; try discriminate H.
  pose proof (Hm _ _ _ E). pose proof (Hk _ _ _ _ H). lia.
Qed.

Lemma keeps_steady {A} (m : M A) : steady m -> keeps m.
Proof.
  intros Hm p a p' H. destruct (Hm p) as [E|[a' E]]; rewrite E in H.
  - discriminate H.
  - injection H as <- <-. lia.
Qed.

Lemma nextToken_errors (p : Parser) u p' :
  nextToken p = Ok (u, p') -> errors p' = errors p.
Proof.
  unfold nextToken. destruct (NextToken (l p)) as [[tok lx]| |];
    intros H; try discriminate H.
  injection H as <- <-. reflexivity.
Qed.

Lemma keeps_nextToken : keeps nextToken.
Proof. intros p u p' H. rewrite (nextToken_errors _ _ _ H). lia. Qed.

Lemma addError_errors msg (p : Parser) u p' :
  addError msg p = Ok (u, p') ->
  List.length (errors p') = S (List.length (errors p)).
Proof.
  unfold addError. intros [= <- <-]. cbn. rewrite length_app. cbn. lia.
Qed.

Lemma keeps_addError msg : keeps (addError msg).
Proof. intros p u p' H. rewrite (addError_errors _ _ _ _ H). lia. Qed.



(** *** The parser drops no error *)

Create HintDb keep discriminated.
#[local] Hint Constants Opaque : keep.
#[local] Hint Variables Opaque : keep.

Ltac keep :=
  cbv beta zeta;
  repeat
    match goal with
    | |- keeps (ret _) => apply keeps_ret
    | |- keeps timeout => apply keeps_timeout
    | H : keeps ?m |- keeps ?m => exact H
    | H : forall x, keeps (?a x) |- keeps (?a _) => apply H
    | |- keeps (bind _ _) => apply keeps_bind; [ | intros ? ]
    | |- keeps (if ?b then _ else _) => destruct b
    | |- keeps (match ?x with _ => _ end) => destruct x
    | |- keeps _ => solve [eauto 4 with keep]
    end.

Lemma keeps_cur : keeps cur.
Proof. apply keeps_steady, steady_cur. Qed.
Lemma keeps_peek : keeps peek.
Proof. apply keeps_steady, steady_peek. Qed.
Lemma keeps_curTokenIs t : keeps (curTokenIs t).
Proof. apply keeps_steady, steady_curTokenIs. Qed.
Lemma keeps_peekTokenIs t : keeps (peekTokenIs t).
Proof. apply keeps_steady, steady_peekTokenIs. Qed.
Lemma keeps_curPrecedence : keeps curPrecedence.
Proof. apply keeps_steady, steady_curPrecedence. Qed.
Lemma keeps_peekPrecedence : keeps peekPrecedence.
Proof. apply keeps_steady, steady_peekPrecedence. Qed.
Lemma keeps_identifierOfCur : keeps identifierOfCur.
Proof. apply keeps_steady, steady_identifierOfCur. Qed.
Lemma keeps_isVisibility : keeps isVisibility.
Proof. apply keeps_steady, steady_isVisibility. Qed.
Lemma keeps_variableOfCur : keeps variableOfCur.
Proof. apply keeps_steady, steady_variableOfCur. Qed.
Lemma keeps_variablesOfTokens toks : keeps (variablesOfTokens toks).
Proof. apply keeps_steady, steady_variablesOfTokens. Qed.
Lemma keeps_parseInterpolatedString : keeps parseInterpolatedString.
Proof. apply keeps_steady, steady_parseInterpolatedString. Qed.

Lemma keeps_peekError t : keeps (peekError t).
Proof. intros p u p' H. exact (keeps_addError _ p u p' H). Qed.

Lemma keeps_noPrefixParseFnError t : keeps (noPrefixParseFnError t).
Proof. intros p u p' H. exact (keeps_addError _ p u p' H). Qed.

#[local] Hint Resolve keeps_nextToken keeps_addError keeps_peekError
  keeps_noPrefixParseFnError keeps_cur keeps_peek keeps_curTokenIs
  keeps_peekTokenIs keeps_curPrecedence keeps_peekPrecedence
  keeps_identifierOfCur keeps_isVisibility keeps_variableOfCur
  keeps_variablesOfTokens keeps_parseInterpolatedString : keep.

Lemma expectPeek_keeps t : keeps (expectPeek t).
Proof. unfold expectPeek. keep. Qed.
#[local] Hint Resolve expectPeek_keeps : keep.

Lemma skipPeek_keeps t : keeps (skipPeek t).
Proof. unfold skipPeek. keep. Qed.
#[local] Hint Resolve skipPeek_keeps : keep.

Lemma parseIdentifier_keeps : keeps parseIdentifier.
Proof. unfold parseIdentifier. keep. Qed.
#[local] Hint Resolve parseIdentifier_keeps : keep.

Lemma parseVariable_keeps : keeps parseVariable.
Proof. unfold parseVariable. keep. Qed.
#[local] Hint Resolve parseVariable_keeps : keep.

Lemma parseIntegerLiteral_keeps : keeps parseIntegerLiteral.
Proof. unfold parseIntegerLiteral. keep. Qed.
#[local] Hint Resolve parseIntegerLiteral_keeps : keep.

Lemma parseFloatLiteral_keeps : keeps parseFloatLiteral.
Proof. unfold parseFloatLiteral. keep. Qed.
#[local] Hint Resolve parseFloatLiteral_keeps : keep.

Lemma parseStringLiteral_keeps : keeps parseStringLiteral.
Proof. unfold parseStringLiteral. keep. Qed.
#[local] Hint Resolve parseStringLiteral_keeps : keep.

Lemma parseBooleanLiteral_keeps : keeps parseBooleanLiteral.
Proof. unfold parseBooleanLiteral. keep. Qed.
#[local] Hint Resolve parseBooleanLiteral_keeps : keep.

Lemma parsePostfixExpression_keeps x1 : keeps (parsePostfixExpression x1).
Proof. unfold parsePostfixExpression. keep. Qed.
#[local] Hint Resolve parsePostfixExpression_keeps : keep.

Lemma parseNamespaceDeclaration_keeps : keeps parseNamespaceDeclaration.
Proof. unfold parseNamespaceDeclaration. keep. Qed.
#[local] Hint Resolve parseNamespaceDeclaration_keeps : keep.

Lemma parseUseStatement_keeps : keeps parseUseStatement.
Proof. unfold parseUseStatement. keep. Qed.
#[local] Hint Resolve parseUseStatement_keeps : keep.

Lemma parameters_loop_keeps : forall (n : nat) x1,
    keeps (parameters_loop n x1).
Proof.
  induction n as [|n IH]; intros; cbn [parameters_loop]; keep.
Qed.
#[local] Hint Resolve parameters_loop_keeps : keep.

Lemma parseFunctionParameters_keeps : forall (fuel : nat),
  keeps (parseFunctionParameters fuel).
Proof. intros. unfold parseFunctionParameters. keep. Qed.
#[local] Hint Resolve parseFunctionParameters_keeps : keep.

Lemma block_loop_keeps : forall ps,
  keeps ps ->
  forall (n : nat) x1,
    keeps (block_loop ps n x1).
Proof.
  intros ? ?.
  induction n as [|n IH]; intros; cbn [block_loop]; keep.
Qed.
#[local] Hint Resolve block_loop_keeps : keep.

Lemma parseBlockStatement_keeps : forall (fuel : nat) ps,
  keeps ps ->
  keeps (parseBlockStatement fuel ps).
Proof. intros. unfold parseBlockStatement. keep. Qed.
#[local] Hint Resolve parseBlockStatement_keeps : keep.

Lemma parseFunctionDeclaration_keeps : forall (fuel : nat) ps,
  keeps ps ->
  keeps (parseFunctionDeclaration fuel ps).
Proof. intros. unfold parseFunctionDeclaration. keep. Qed.
#[local] Hint Resolve parseFunctionDeclaration_keeps : keep.

Lemma parseReturnStatement_keeps : forall pe,
  (forall precedence, keeps (pe precedence)) ->
  keeps (parseReturnStatement pe).
Proof. intros. unfold parseReturnStatement. keep. Qed.
#[local] Hint Resolve parseReturnStatement_keeps : keep.

Lemma parseIfStatement_keeps : forall (fuel : nat) pe ps,
  (forall precedence, keeps (pe precedence)) ->
  keeps ps ->
  keeps (parseIfStatement fuel pe ps).
Proof. intros. unfold parseIfStatement. keep. Qed.
#[local] Hint Resolve parseIfStatement_keeps : keep.

Lemma expressions_loop_keeps : forall pe,
  (forall precedence, keeps (pe precedence)) ->
  forall (n : nat) x1,
    keeps (expressions_loop pe n x1).
Proof.
  intros ? ?.
  induction n as [|n IH]; intros; cbn [expressions_loop]; keep.
Qed.
#[local] Hint Resolve expressions_loop_keeps : keep.

Lemma parseEchoStatement_keeps : forall (fuel : nat) pe,
  (forall precedence, keeps (pe precedence)) ->
  keeps (parseEchoStatement fuel pe).
Proof. intros. unfold parseEchoStatement. keep. Qed.
#[local] Hint Resolve parseEchoStatement_keeps : keep.

Lemma parseAssignmentExpressionFromVariable_keeps : forall pe,
  (forall precedence, keeps (pe precedence)) ->
  keeps (parseAssignmentExpressionFromVariable pe).
Proof. intros. unfold parseAssignmentExpressionFromVariable. keep. Qed.
#[local] Hint Resolve parseAssignmentExpressionFromVariable_keeps : keep.

Lemma parseExpressionStatement_keeps : forall pe,
  (forall precedence, keeps (pe precedence)) ->
  keeps (parseExpressionStatement pe).
Proof. intros. unfold parseExpressionStatement. keep. Qed.
#[local] Hint Resolve parseExpressionStatement_keeps : keep.

Lemma parsePrefixExpression_keeps : forall pe,
  (forall precedence, keeps (pe precedence)) ->
  keeps (parsePrefixExpression pe).
Proof. intros. unfold parsePrefixExpression. keep. Qed.
#[local] Hint Resolve parsePrefixExpression_keeps : keep.

Lemma parseInfixExpression_keeps : forall pe x1,
  (forall precedence, keeps (pe precedence)) ->
  keeps (parseInfixExpression pe x1).
Proof. intros. unfold parseInfixExpression. keep. Qed.
#[local] Hint Resolve parseInfixExpression_keeps : keep.

Lemma parseAssignmentExpression_keeps : forall pe x1,
  (forall precedence, keeps (pe precedence)) ->
  keeps (parseAssignmentExpression pe x1).
Proof. intros. unfold parseAssignmentExpression. keep. Qed.
#[local] Hint Resolve parseAssignmentExpression_keeps : keep.

Lemma parseGroupedExpression_keeps : forall pe,
  (forall precedence, keeps (pe precedence)) ->
  keeps (parseGroupedExpression pe).
Proof. intros. unfold parseGroupedExpression. keep. Qed.
#[local] Hint Resolve parseGroupedExpression_keeps : keep.

Lemma parseExpressionList_keeps : forall (fuel : nat) pe x1,
  (forall precedence, keeps (pe precedence)) ->
  keeps (parseExpressionList fuel pe x1).
Proof. intros. unfold parseExpressionList. keep. Qed.
#[local] Hint Resolve parseExpressionList_keeps : keep.

Lemma parseCallExpression_keeps : forall (fuel : nat) pe x1,
  (forall precedence, keeps (pe precedence)) ->
  keeps (parseCallExpression fuel pe x1).
Proof. intros. unfold parseCallExpression. keep. Qed.
#[local] Hint Resolve parseCallExpression_keeps : keep.

Lemma pairs_loop_keeps : forall pe,
  (forall precedence, keeps (pe precedence)) ->
  forall (n : nat) x1,
    keeps (pairs_loop pe n x1).
Proof.
  intros ? ?.
  induction n as [|n IH]; intros; cbn [pairs_loop]; keep.
Qed.
#[local] Hint Resolve pairs_loop_keeps : keep.

Lemma parseArrayLiteral_keeps : forall (fuel : nat) pe,
  (forall precedence, keeps (pe precedence)) ->
  keeps (parseArrayLiteral fuel pe).
Proof. intros. unfold parseArrayLiteral. keep. Qed.
#[local] Hint Resolve parseArrayLiteral_keeps : keep.

Lemma parseIndexExpression_keeps : forall pe x1,
  (forall precedence, keeps (pe precedence)) ->
  keeps (parseIndexExpression pe x1).
Proof. intros. unfold parseIndexExpression. keep. Qed.
#[local] Hint Resolve parseIndexExpression_keeps : keep.

Lemma parseForStatement_keeps : forall (fuel : nat) pe ps,
  (forall precedence, keeps (pe precedence)) ->
  keeps ps ->
  keeps (parseForStatement fuel pe ps).
Proof. intros. unfold parseForStatement. keep. Qed.
#[local] Hint Resolve parseForStatement_keeps : keep.

Lemma parseWhileStatement_keeps : forall (fuel : nat) pe ps,
  (forall precedence, keeps (pe precedence)) ->
  keeps ps ->
  keeps (parseWhileStatement fuel pe ps).
Proof. intros. unfold parseWhileStatement. keep. Qed.
#[local] Hint Resolve parseWhileStatement_keeps : keep.

Lemma parseForeachStatement_keeps : forall (fuel : nat) pe ps,
  (forall precedence, keeps (pe precedence)) ->
  keeps ps ->
  keeps (parseForeachStatement fuel pe ps).
Proof. intros. unfold parseForeachStatement. keep. Qed.
#[local] Hint Resolve parseForeachStatement_keeps : keep.

Lemma parseLevel_keeps : forall pe,
  (forall precedence, keeps (pe precedence)) ->
  keeps (parseLevel pe).
Proof. intros. unfold parseLevel. keep. Qed.
#[local] Hint Resolve parseLevel_keeps : keep.

Lemma parseBreakStatement_keeps : forall pe,
  (forall precedence, keeps (pe precedence)) ->
  keeps (parseBreakStatement pe).
Proof. intros. unfold parseBreakStatement. keep. Qed.
#[local] Hint Resolve parseBreakStatement_keeps : keep.

Lemma parseContinueStatement_keeps : forall pe,
  (forall precedence, keeps (pe precedence)) ->
  keeps (parseContinueStatement pe).
Proof. intros. unfold parseContinueStatement. keep. Qed.
#[local] Hint Resolve parseContinueStatement_keeps : keep.

Lemma parsePropertyDeclaration_keeps : forall pe x1 x2,
  (forall precedence, keeps (pe precedence)) ->
  keeps (parsePropertyDeclaration pe x1 x2).
Proof. intros. unfold parsePropertyDeclaration. keep. Qed.
#[local] Hint Resolve parsePropertyDeclaration_keeps : keep.

Lemma parseMethodDeclaration_keeps : forall (fuel : nat) ps x1 x2,
  keeps ps ->
  keeps (parseMethodDeclaration fuel ps x1 x2).
Proof. intros. unfold parseMethodDeclaration. keep. Qed.
#[local] Hint Resolve parseMethodDeclaration_keeps : keep.

Lemma parseConstantDeclaration_keeps : forall pe,
  (forall precedence, keeps (pe precedence)) ->
  keeps (parseConstantDeclaration pe).
Proof. intros. unfold parseConstantDeclaration. keep. Qed.
#[local] Hint Resolve parseConstantDeclaration_keeps : keep.

Lemma names_loop_keeps : forall (n : nat) x1 x2 x3 x4,
    keeps (names_loop n x1 x2 x3 x4).
Proof.
  induction n as [|n IH]; intros; cbn [names_loop]; keep.
Qed.
#[local] Hint Resolve names_loop_keeps : keep.

Lemma parseTraitUse_keeps : forall (fuel : nat),
  keeps (parseTraitUse fuel).
Proof. intros. unfold parseTraitUse. keep. Qed.
#[local] Hint Resolve parseTraitUse_keeps : keep.

Lemma classMember_keeps : forall (fuel : nat) pe ps x1,
  (forall precedence, keeps (pe precedence)) ->
  keeps ps ->
  keeps (classMember fuel pe ps x1).
Proof. intros. unfold classMember. keep. Qed.
#[local] Hint Resolve classMember_keeps : keep.

Lemma traitMember_keeps : forall (fuel : nat) pe ps x1,
  (forall precedence, keeps (pe precedence)) ->
  keeps ps ->
  keeps (traitMember fuel pe ps x1).
Proof. intros. unfold traitMember. keep. Qed.
#[local] Hint Resolve traitMember_keeps : keep.

Lemma members_loop_keeps : forall (member : Members -> M Members),
  (forall m, keeps (member m)) ->
  forall (n : nat) x1,
    keeps (members_loop n member x1).
Proof.
  intros ? ?.
  induction n as [|n IH]; intros; cbn [members_loop]; keep.
Qed.
#[local] Hint Resolve members_loop_keeps : keep.

Lemma parseClassDeclaration_keeps : forall (fuel : nat) pe ps,
  (forall precedence, keeps (pe precedence)) ->
  keeps ps ->
  keeps (parseClassDeclaration fuel pe ps).
Proof. intros. unfold parseClassDeclaration. keep. Qed.
#[local] Hint Resolve parseClassDeclaration_keeps : keep.

Lemma parseTraitDeclaration_keeps : forall (fuel : nat) pe ps,
  (forall precedence, keeps (pe precedence)) ->
  keeps ps ->
  keeps (parseTraitDeclaration fuel pe ps).
Proof. intros. unfold parseTraitDeclaration. keep. Qed.
#[local] Hint Resolve parseTraitDeclaration_keeps : keep.

Lemma parseInterfaceMethod_keeps : forall (fuel : nat),
  keeps (parseInterfaceMethod fuel).
Proof. intros. unfold parseInterfaceMethod. keep. Qed.
#[local] Hint Resolve parseInterfaceMethod_keeps : keep.

Lemma interface_loop_keeps : forall (fuel : nat),
  forall (n : nat) x1,
    keeps (interface_loop fuel n x1).
Proof.
  intros ?.
  induction n as [|n IH]; intros; cbn [interface_loop]; keep.
Qed.
#[local] Hint Resolve interface_loop_keeps : keep.

Lemma parseInterfaceDeclaration_keeps : forall (fuel : nat),
  keeps (parseInterfaceDeclaration fuel).
Proof. intros. unfold parseInterfaceDeclaration. keep. Qed.
#[local] Hint Resolve parseInterfaceDeclaration_keeps : keep.

Lemma parseNewExpression_keeps : forall (fuel : nat) pe,
  (forall precedence, keeps (pe precedence)) ->
  keeps (parseNewExpression fuel pe).
Proof. intros. unfold parseNewExpression. keep. Qed.
#[local] Hint Resolve parseNewExpression_keeps : keep.

Lemma parseObjectAccessExpression_keeps : forall pe x1,
  (forall precedence, keeps (pe precedence)) ->
  keeps (parseObjectAccessExpression pe x1).
Proof. intros. unfold parseObjectAccessExpression. keep. Qed.
#[local] Hint Resolve parseObjectAccessExpression_keeps : keep.

Lemma parseStaticAccessExpression_keeps : forall pe x1,
  (forall precedence, keeps (pe precedence)) ->
  keeps (parseStaticAccessExpression pe x1).
Proof. intros. unfold parseStaticAccessExpression. keep. Qed.
#[local] Hint Resolve parseStaticAccessExpression_keeps : keep.

Lemma parseCatchClause_keeps : forall (fuel : nat) ps,
  keeps ps ->
  keeps (parseCatchClause fuel ps).
Proof. intros. unfold parseCatchClause. keep. Qed.
#[local] Hint Resolve parseCatchClause_keeps : keep.

Lemma catches_loop_keeps : forall (fuel : nat) ps,
  keeps ps ->
  forall (n : nat) x1,
    keeps (catches_loop fuel ps n x1).
Proof.
  intros ? ? ?.
  induction n as [|n IH]; intros; cbn [catches_loop]; keep.
Qed.
#[local] Hint Resolve catches_loop_keeps : keep.

Lemma parseTryStatement_keeps : forall (fuel : nat) ps,
  keeps ps ->
  keeps (parseTryStatement fuel ps).
Proof. intros. unfold parseTryStatement. keep. Qed.
#[local] Hint Resolve parseTryStatement_keeps : keep.

Lemma parseThrowStatement_keeps : forall pe,
  (forall precedence, keeps (pe precedence)) ->
  keeps (parseThrowStatement pe).
Proof. intros. unfold parseThrowStatement. keep. Qed.
#[local] Hint Resolve parseThrowStatement_keeps : keep.

Lemma parseAnonymousFunction_keeps : forall (fuel : nat) ps,
  keeps ps ->
  keeps (parseAnonymousFunction fuel ps).
Proof. intros. unfold parseAnonymousFunction. keep. Qed.
#[local] Hint Resolve parseAnonymousFunction_keeps : keep.

Lemma parseYieldExpression_keeps : forall pe,
  (forall precedence, keeps (pe precedence)) ->
  keeps (parseYieldExpression pe).
Proof. intros. unfold parseYieldExpression. keep. Qed.
#[local] Hint Resolve parseYieldExpression_keeps : keep.

Lemma parseTernaryExpression_keeps : forall pe x1,
  (forall precedence, keeps (pe precedence)) ->
  keeps (parseTernaryExpression pe x1).
Proof. intros. unfold parseTernaryExpression. keep. Qed.
#[local] Hint Resolve parseTernaryExpression_keeps : keep.

Lemma callPrefix_keeps : forall (fuel : nat) pe ps x1,
  (forall precedence, keeps (pe precedence)) ->
  keeps ps ->
  keeps (callPrefix fuel pe ps x1).
Proof. intros. unfold callPrefix. keep. Qed.
#[local] Hint Resolve callPrefix_keeps : keep.

Lemma callInfix_keeps : forall (fuel : nat) pe x1 x2,
  (forall precedence, keeps (pe precedence)) ->
  keeps (callInfix fuel pe x1 x2).
Proof. intros. unfold callInfix. keep. Qed.
#[local] Hint Resolve callInfix_keeps : keep.

Lemma climb_keeps : forall (fuel : nat) pe,
  (forall precedence, keeps (pe precedence)) ->
  forall (n : nat) x1 x2,
    keeps (climb fuel pe n x1 x2).
Proof.
  intros ? ? ?.
  induction n as [|n IH]; intros; cbn [climb]; keep.
Qed.
#[local] Hint Resolve climb_keeps : keep.

Lemma parseExpression_body_keeps : forall (fuel : nat) pe ps x1,
  (forall precedence, keeps (pe precedence)) ->
  keeps ps ->
  keeps (parseExpression_body fuel pe ps x1).
Proof. intros. unfold parseExpression_body. keep. Qed.
#[local] Hint Resolve parseExpression_body_keeps : keep.

Lemma parseStatement_body_keeps : forall (fuel : nat) pe ps,
  (forall precedence, keeps (pe precedence)) ->
  keeps ps ->
  keeps (parseStatement_body fuel pe ps).
Proof. intros. unfold parseStatement_body, orNil. keep. Qed.
#[local] Hint Resolve parseStatement_body_keeps : keep.

(** *** Without a new error the tree has no nil statement *)

Lemma accounts_ret {A} (a : A) (Q : A -> Prop) : Q a -> accounts (ret a) Q.
Proof. intros H p a' p' [= <- <-] _. exact H. Qed.

Lemma accounts_timeout {A} (Q : A -> Prop) : accounts (@timeout A) Q.
Proof. intros p a p' H. discriminate H. Qed.

Lemma accounts_bind {A B} (m : M A) (k : A -> M B) (Q1 : A -> Prop)
  (Q : B -> Prop) :
  keeps m -> accounts m Q1 ->
  (forall a, keeps (k a)) -> (forall a, Q1 a -> accounts (k a) Q) ->
  accounts (bind m k) Q.
Proof.
  intros Km Am Kk Ak p b p' H Hle. unfold bind in H.
  destruct (m p) as [[a p1]| |] eqn:E; try discriminate H.
  pose proof (Km _ _ _ E). pose proof (Kk _ _ _ _ H).
  apply (Ak a (Am _ _ _ E ltac:(lia)) _ _ _ H). lia.
Qed.

Lemma accounts_read {A B} (m : M A) (k : A -> M B) (Q : B -> Prop) :
  steady m -> (forall a, accounts (k a) Q) -> accounts (bind m k) Q.
Proof.
  intros Hm Hk p b p' H. unfold bind in H.
  destruct (Hm p) as [E|[a E]]; rewrite E in H; [discriminate H|].
  exact (Hk a _ _ _ H).
Qed.

Lemma accounts_next {B} (k : unit -> M B) (Q : B -> Prop) :
  accounts (k tt) Q -> accounts (bind nextToken k) Q.
Proof.
  intros Hk p b p' H. unfold bind in H.
  destruct (nextToken p) as [[[] p1]| |] eqn:E; try discriminate H.
  rewrite <- (nextToken_errors _ _ _ E). exact (Hk _ _ _ H).
Qed.

Lemma accounts_failed {B} msg (k : unit -> M B) (Q : B -> Prop) :
  keeps (k tt) -> accounts (bind (addError msg) k) Q.
Proof.
  intros Hk p b p' H Hle. unfold bind in H.
  destruct (addError msg p) as [[[] p1]| |] eqn:E; try discriminate H.
  pose proof (addError_errors _ _ _ _ E). pose proof (Hk _ _ _ H). lia.
Qed.

Lemma accounts_no_prefix {B} t (k : unit -> M B) (Q : B -> Prop) :
  keeps (k tt) -> accounts (bind (noPrefixParseFnError t) k) Q.
Proof. apply accounts_failed. Qed.

Lemma accounts_expect {B} t (k : bool -> M B) (Q : B -> Prop) :
  accounts (k true) Q -> keeps (k false) ->
  accounts (bind (expectPeek t) k) Q.
Proof.
  intros Ht Hf p b p' H Hle. unfold bind at 1 in H. unfold expectPeek in H.
  unfold bind at 1, peekTokenIs in H.
  destruct (tt_eqb (Type_ (peekToken p)) t).
  - unfold bind at 1 in H.
    destruct (nextToken p) as [[[] p1]| |] eqn:E; try discriminate H.
    cbn [ret] in H. apply (Ht _ _ _ H).
    rewrite (nextToken_errors _ _ _ E). exact Hle.
  - unfold bind at 1, peekError in H.
    destruct (addError _ p) as [[[] p1]| |] eqn:E; try discriminate H.
    cbn [ret] in H.
    pose proof (addError_errors _ _ _ _ E). pose proof (Hf _ _ _ H). lia.
Qed.

Lemma accounts_skip {B} t (k : unit -> M B) (Q : B -> Prop) :
  accounts (k tt) Q -> accounts (bind (skipPeek t) k) Q.
Proof.
  intros Hk p b p' H. unfold bind at 1 in H. unfold skipPeek in H.
  unfold bind at 1, peekTokenIs in H.
  destruct (tt_eqb (Type_ (peekToken p)) t).
  - destruct (nextToken p) as [[[] p1]| |] eqn:E; try discriminate H.
    rewrite <- (nextToken_errors _ _ _ E). exact (Hk _ _ _ H).
  - cbn [ret] in H. exact (Hk _ _ _ H).
Qed.

Lemma non_nil_withVisibility visibility c :
  non_nil_constant (withVisibility visibility c) = non_nil_constant c.
Proof. destruct c. reflexivity. Qed.

Lemma accounts_plain {A} (m : M A) : accounts m (fun _ => True).
Proof. intros p a p' _ _. exact I. Qed.

Ltac unsound :=
  unfold sound, sound_expression, sound_expressions, sound_pairs,
    sound_pairs_pointer, sound_statement, sound_statements,
    sound_statement_pointer, sound_block, sound_block_pointer,
    sound_constant, sound_property, sound_method, sound_catch,
    sound_catches, sound_interface_method, sound_identifier, sound_members, sound_program,
    sound_pointer, sound_plain in *.

Ltac good :=
  intros; unsound; cbv beta iota in *;
  repeat
    match goal with
    | H : False |- _ => destruct H
    | H : ?x <> ?x |- _ => destruct (H eq_refl)
    | H : match ?o with _ => _ end |- _ => is_var o; destruct o
    | |- context [match ?o with _ => _ end] => is_var o; destruct o
    | H : members_non_nil _ = true |- _ => unfold members_non_nil in H
    | H : pair_non_nil _ = true |- _ => unfold pair_non_nil in H
    | H : _ && _ = true |- _ => apply andb_true_iff in H; destruct H
    end;
  unfold members_non_nil, pair_non_nil, non_nil_program;
  cbn [non_nil_expression non_nil_statement non_nil_block non_nil_property
       non_nil_method non_nil_constant non_nil_catch opt_non_nil forallb
       fst snd mProperties mMethods mConstants mTraitUses Statements] in *;
  rewrite ?forallb_app; cbn [forallb];
  rewrite ?andb_true_r, ?non_nil_withVisibility;
  repeat (apply andb_true_intro; split);
  first [ exact I | reflexivity | assumption | discriminate
        | match goal with H : _ = true |- _ = true => exact H end ].

Create HintDb tally discriminated.
#[local] Hint Constants Opaque : tally.
#[local] Hint Variables Opaque : tally.
#[local] Hint Extern 1 (sound _) => solve [good] : tally.

Ltac tally :=
  cbv beta zeta;
  repeat
    match goal with
    | |- accounts (ret _) _ => apply accounts_ret; solve [good]
    | |- accounts timeout _ => apply accounts_timeout
    | |- accounts _ (@sound _ (sound_plain _)) => apply accounts_plain
    | |- accounts (bind nextToken _) _ => apply accounts_next
    | |- accounts (bind (skipPeek _) _) _ => apply accounts_skip
    | |- accounts (bind (expectPeek _) _) _ =>
        apply accounts_expect; cbv beta iota; [ | solve [keep] ]
    | |- accounts (bind (addError _) _) _ =>
        apply accounts_failed; solve [keep]
    | |- accounts (bind (noPrefixParseFnError _) _) _ =>
        apply accounts_no_prefix; solve [keep]
    | |- accounts (bind cur _) _ =>
        apply accounts_read; [exact steady_cur | intros ?]
    | |- accounts (bind peek _) _ =>
        apply accounts_read; [exact steady_peek | intros ?]
    | |- accounts (bind (curTokenIs _) _) _ =>
        apply accounts_read; [apply steady_curTokenIs | intros ?]
    | |- accounts (bind (peekTokenIs _) _) _ =>
        apply accounts_read; [apply steady_peekTokenIs | intros ?]
    | |- accounts (bind curPrecedence _) _ =>
        apply accounts_read; [exact steady_curPrecedence | intros ?]
    | |- accounts (bind peekPrecedence _) _ =>
        apply accounts_read; [exact steady_peekPrecedence | intros ?]
    | |- accounts (bind identifierOfCur _) _ =>
        apply accounts_read; [exact steady_identifierOfCur | intros ?]
    | |- accounts (bind isVisibility _) _ =>
        apply accounts_read; [exact steady_isVisibility | intros ?]
    | |- accounts (bind variableOfCur _) _ =>
        apply accounts_read; [exact steady_variableOfCur | intros ?]
    | |- accounts (bind (variablesOfTokens _) _) _ =>
        apply accounts_read; [apply steady_variablesOfTokens | intros ?]
    | |- accounts (@bind ?A ?B ?m ?k) ?Q =>
        apply (accounts_bind m k (@sound A _) Q);
        [ solve [keep] | | intros ?; solve [keep] | intros ? ? ]
    | |- accounts (if ?b then _ else _) _ => destruct b
    | |- accounts (match ?x with _ => _ end) _ => destruct x
    | |- accounts _ _ => solve [eauto 6 with tally]
    end.

Lemma parseIdentifier_accounts : accounts parseIdentifier sound.
Proof. unfold parseIdentifier. tally. Qed.
#[local] Hint Resolve parseIdentifier_accounts : tally.

Lemma parseVariable_accounts : accounts parseVariable sound.
Proof. unfold parseVariable. tally. Qed.
#[local] Hint Resolve parseVariable_accounts : tally.

Lemma parseIntegerLiteral_accounts : accounts parseIntegerLiteral sound.
Proof. unfold parseIntegerLiteral. tally. Qed.
#[local] Hint Resolve parseIntegerLiteral_accounts : tally.

Lemma parseFloatLiteral_accounts : accounts parseFloatLiteral sound.
Proof. unfold parseFloatLiteral. tally. Qed.
#[local] Hint Resolve parseFloatLiteral_accounts : tally.

Lemma interpolatedPart_non_nil tok part :
  forallb non_nil_expression (interpolatedPart tok part) = true.
Proof.
  unfold interpolatedPart. cbv zeta.
  repeat match goal with
         | |- context [if ?b then _ else _] => destruct b
         end; reflexivity.
Qed.

Lemma interpolatedParts_non_nil tok parts :
  forallb non_nil_expression (concat (map (interpolatedPart tok) parts))
  = true.
Proof.
  induction parts as [|part parts IH]; [reflexivity|].
  cbn [map concat]. rewrite forallb_app, interpolatedPart_non_nil, IH.
  reflexivity.
Qed.

Lemma parseInterpolatedString_accounts :
  accounts parseInterpolatedString sound.
Proof.
  unfold parseInterpolatedString.
  apply accounts_read; [exact steady_cur | intros tok].
  destruct (strings_.SplitByte _ _) as [|first others];
    [intros p a p' H; discriminate H|].
  apply accounts_ret. unsound. cbn [opt_non_nil non_nil_expression].
  rewrite forallb_app, interpolatedParts_non_nil.
  destruct (String.eqb first _); reflexivity.
Qed.
#[local] Hint Resolve parseInterpolatedString_accounts : tally.

Lemma parseStringLiteral_accounts : accounts parseStringLiteral sound.
Proof. unfold parseStringLiteral. tally. Qed.
#[local] Hint Resolve parseStringLiteral_accounts : tally.

Lemma parseBooleanLiteral_accounts : accounts parseBooleanLiteral sound.
Proof. unfold parseBooleanLiteral. tally. Qed.
#[local] Hint Resolve parseBooleanLiteral_accounts : tally.

Lemma parsePostfixExpression_accounts (x1 : option Expression) :
  sound x1 -> accounts (parsePostfixExpression x1) sound.
Proof. intros. unfold parsePostfixExpression. tally. Qed.
#[local] Hint Resolve parsePostfixExpression_accounts : tally.

Lemma parseNamespaceDeclaration_accounts :
  accounts parseNamespaceDeclaration sound.
Proof. unfold parseNamespaceDeclaration. tally. Qed.
#[local] Hint Resolve parseNamespaceDeclaration_accounts : tally.

Lemma parseUseStatement_accounts : accounts parseUseStatement sound.
Proof. unfold parseUseStatement. tally. Qed.
#[local] Hint Resolve parseUseStatement_accounts : tally.

Lemma parameters_loop_accounts : forall (n : nat) x1,
    accounts (parameters_loop n x1) sound.
Proof.
  induction n as [|n IH]; intros; cbn [parameters_loop]; tally.
Qed.
#[local] Hint Resolve parameters_loop_accounts : tally.

Lemma parseFunctionParameters_accounts : forall (fuel : nat),
  accounts (parseFunctionParameters fuel) sound.
Proof. intros. unfold parseFunctionParameters. tally. Qed.
#[local] Hint Resolve parseFunctionParameters_accounts : tally.

Lemma block_loop_accounts : forall ps,
  keeps ps ->
  accounts ps sound ->
  forall (n : nat) (x1 : list Statement),
    sound x1 -> accounts (block_loop ps n x1) sound.
Proof.
  intros ? ? ?.
  induction n as [|n IH]; intros; cbn [block_loop]; tally.
Qed.
#[local] Hint Resolve block_loop_accounts : tally.

Lemma parseBlockStatement_accounts : forall (fuel : nat) ps,
  keeps ps ->
  accounts ps sound ->
  accounts (parseBlockStatement fuel ps) sound.
Proof. intros. unfold parseBlockStatement. tally. Qed.
#[local] Hint Resolve parseBlockStatement_accounts : tally.

Lemma parseFunctionDeclaration_accounts : forall (fuel : nat) ps,
  keeps ps ->
  accounts ps sound ->
  accounts (parseFunctionDeclaration fuel ps) sound.
Proof. intros. unfold parseFunctionDeclaration. tally. Qed.
#[local] Hint Resolve parseFunctionDeclaration_accounts : tally.

Lemma parseReturnStatement_accounts : forall pe,
  (forall precedence, keeps (pe precedence)) ->
  (forall precedence, accounts (pe precedence) sound) ->
  accounts (parseReturnStatement pe) sound.
Proof. intros. unfold parseReturnStatement. tally. Qed.
#[local] Hint Resolve parseReturnStatement_accounts : tally.

Lemma parseIfStatement_accounts : forall (fuel : nat) pe ps,
  (forall precedence, keeps (pe precedence)) ->
  (forall precedence, accounts (pe precedence) sound) ->
  keeps ps ->
  accounts ps sound ->
  accounts (parseIfStatement fuel pe ps) sound.
Proof. intros. unfold parseIfStatement. tally. Qed.
#[local] Hint Resolve parseIfStatement_accounts : tally.

Lemma expressions_loop_accounts : forall pe,
  (forall precedence, keeps (pe precedence)) ->
  (forall precedence, accounts (pe precedence) sound) ->
  forall (n : nat) (x1 : list (option Expression)),
    sound x1 -> accounts (expressions_loop pe n x1) sound.
Proof.
  intros ? ? ?.
  induction n as [|n IH]; intros; cbn [expressions_loop]; tally.
Qed.
#[local] Hint Resolve expressions_loop_accounts : tally.

Lemma parseEchoStatement_accounts : forall (fuel : nat) pe,
  (forall precedence, keeps (pe precedence)) ->
  (forall precedence, accounts (pe precedence) sound) ->
  accounts (parseEchoStatement fuel pe) sound.
Proof. intros. unfold parseEchoStatement. tally. Qed.
#[local] Hint Resolve parseEchoStatement_accounts : tally.

Lemma parseAssignmentExpressionFromVariable_accounts : forall pe,
  (forall precedence, keeps (pe precedence)) ->
  (forall precedence, accounts (pe precedence) sound) ->
  accounts (parseAssignmentExpressionFromVariable pe) sound.
Proof. intros. unfold parseAssignmentExpressionFromVariable. tally. Qed.
#[local] Hint Resolve parseAssignmentExpressionFromVariable_accounts : tally.

Lemma parseExpressionStatement_accounts : forall pe,
  (forall precedence, keeps (pe precedence)) ->
  (forall precedence, accounts (pe precedence) sound) ->
  accounts (parseExpressionStatement pe) sound.
Proof. intros. unfold parseExpressionStatement. tally. Qed.
#[local] Hint Resolve parseExpressionStatement_accounts : tally.

Lemma parsePrefixExpression_accounts : forall pe,
  (forall precedence, keeps (pe precedence)) ->
  (forall precedence, accounts (pe precedence) sound) ->
  accounts (parsePrefixExpression pe) sound.
Proof. intros. unfold parsePrefixExpression. tally. Qed.
#[local] Hint Resolve parsePrefixExpression_accounts : tally.

Lemma parseInfixExpression_accounts : forall pe (x1 : option Expression),
  (forall precedence, keeps (pe precedence)) ->
  (forall precedence, accounts (pe precedence) sound) ->
  sound x1 -> accounts (parseInfixExpression pe x1) sound.
Proof. intros. unfold parseInfixExpression. tally. Qed.
#[local] Hint Resolve parseInfixExpression_accounts : tally.

Lemma parseAssignmentExpression_accounts : forall pe x1,
  (forall precedence, keeps (pe precedence)) ->
  (forall precedence, accounts (pe precedence) sound) ->
  accounts (parseAssignmentExpression pe x1) sound.
Proof. intros. unfold parseAssignmentExpression. tally. Qed.
#[local] Hint Resolve parseAssignmentExpression_accounts : tally.

Lemma parseGroupedExpression_accounts : forall pe,
  (forall precedence, keeps (pe precedence)) ->
  (forall precedence, accounts (pe precedence) sound) ->
  accounts (parseGroupedExpression pe) sound.
Proof. intros. unfold parseGroupedExpression. tally. Qed.
#[local] Hint Resolve parseGroupedExpression_accounts : tally.

Lemma parseExpressionList_accounts : forall (fuel : nat) pe x1,
  (forall precedence, keeps (pe precedence)) ->
  (forall precedence, accounts (pe precedence) sound) ->
  accounts (parseExpressionList fuel pe x1) sound.
Proof. intros. unfold parseExpressionList. tally. Qed.
#[local] Hint Resolve parseExpressionList_accounts : tally.

Lemma parseCallExpression_accounts : forall (fuel : nat) pe (x1 : option Expression),
  (forall precedence, keeps (pe precedence)) ->
  (forall precedence, accounts (pe precedence) sound) ->
  sound x1 -> accounts (parseCallExpression fuel pe x1) sound.
Proof. intros. unfold parseCallExpression. tally. Qed.
#[local] Hint Resolve parseCallExpression_accounts : tally.

Lemma pairs_loop_accounts : forall pe,
  (forall precedence, keeps (pe precedence)) ->
  (forall precedence, accounts (pe precedence) sound) ->
  forall (n : nat) (x1 : list (option Expression * option Expression)),
    sound x1 -> accounts (pairs_loop pe n x1) sound.
Proof.
  intros ? ? ?.
  induction n as [|n IH]; intros; cbn [pairs_loop]; tally.
Qed.
#[local] Hint Resolve pairs_loop_accounts : tally.

Lemma parseArrayLiteral_accounts : forall (fuel : nat) pe,
  (forall precedence, keeps (pe precedence)) ->
  (forall precedence, accounts (pe precedence) sound) ->
  accounts (parseArrayLiteral fuel pe) sound.
Proof. intros. unfold parseArrayLiteral. tally. Qed.
#[local] Hint Resolve parseArrayLiteral_accounts : tally.

Lemma parseIndexExpression_accounts : forall pe (x1 : option Expression),
  (forall precedence, keeps (pe precedence)) ->
  (forall precedence, accounts (pe precedence) sound) ->
  sound x1 -> accounts (parseIndexExpression pe x1) sound.
Proof. intros. unfold parseIndexExpression. tally. Qed.
#[local] Hint Resolve parseIndexExpression_accounts : tally.

Lemma parseForStatement_accounts : forall (fuel : nat) pe ps,
  (forall precedence, keeps (pe precedence)) ->
  (forall precedence, accounts (pe precedence) sound) ->
  keeps ps ->
  accounts ps sound ->
  accounts (parseForStatement fuel pe ps) sound.
Proof. intros. unfold parseForStatement. tally. Qed.
#[local] Hint Resolve parseForStatement_accounts : tally.

Lemma parseWhileStatement_accounts : forall (fuel : nat) pe ps,
  (forall precedence, keeps (pe precedence)) ->
  (forall precedence, accounts (pe precedence) sound) ->
  keeps ps ->
  accounts ps sound ->
  accounts (parseWhileStatement fuel pe ps) sound.
Proof. intros. unfold parseWhileStatement. tally. Qed.
#[local] Hint Resolve parseWhileStatement_accounts : tally.

Lemma parseForeachStatement_accounts : forall (fuel : nat) pe ps,
  (forall precedence, keeps (pe precedence)) ->
  (forall precedence, accounts (pe precedence) sound) ->
  keeps ps ->
  accounts ps sound ->
  accounts (parseForeachStatement fuel pe ps) sound.
Proof. intros. unfold parseForeachStatement. tally. Qed.
#[local] Hint Resolve parseForeachStatement_accounts : tally.

Lemma parseLevel_accounts : forall pe,
  (forall precedence, keeps (pe precedence)) ->
  (forall precedence, accounts (pe precedence) sound) ->
  accounts (parseLevel pe) sound.
Proof. intros. unfold parseLevel. tally. Qed.
#[local] Hint Resolve parseLevel_accounts : tally.

Lemma parseBreakStatement_accounts : forall pe,
  (forall precedence, keeps (pe precedence)) ->
  (forall precedence, accounts (pe precedence) sound) ->
  accounts (parseBreakStatement pe) sound.
Proof. intros. unfold parseBreakStatement. tally. Qed.
#[local] Hint Resolve parseBreakStatement_accounts : tally.

Lemma parseContinueStatement_accounts : forall pe,
  (forall precedence, keeps (pe precedence)) ->
  (forall precedence, accounts (pe precedence) sound) ->
  accounts (parseContinueStatement pe) sound.
Proof. intros. unfold parseContinueStatement. tally. Qed.
#[local] Hint Resolve parseContinueStatement_accounts : tally.

Lemma parsePropertyDeclaration_accounts : forall pe x1 x2,
  (forall precedence, keeps (pe precedence)) ->
  (forall precedence, accounts (pe precedence) sound) ->
  accounts (parsePropertyDeclaration pe x1 x2) sound.
Proof. intros. unfold parsePropertyDeclaration. tally. Qed.
#[local] Hint Resolve parsePropertyDeclaration_accounts : tally.

Lemma parseMethodDeclaration_accounts : forall (fuel : nat) ps x1 x2,
  keeps ps ->
  accounts ps sound ->
  accounts (parseMethodDeclaration fuel ps x1 x2) sound.
Proof. intros. unfold parseMethodDeclaration. tally. Qed.
#[local] Hint Resolve parseMethodDeclaration_accounts : tally.

Lemma parseConstantDeclaration_accounts : forall pe,
  (forall precedence, keeps (pe precedence)) ->
  (forall precedence, accounts (pe precedence) sound) ->
  accounts (parseConstantDeclaration pe) sound.
Proof. intros. unfold parseConstantDeclaration. tally. Qed.
#[local] Hint Resolve parseConstantDeclaration_accounts : tally.

Lemma names_loop_accounts : forall (n : nat) x1 x2 x3 x4,
    accounts (names_loop n x1 x2 x3 x4) sound.
Proof.
  induction n as [|n IH]; intros; cbn [names_loop]; tally.
Qed.
#[local] Hint Resolve names_loop_accounts : tally.

Lemma parseTraitUse_accounts : forall (fuel : nat),
  accounts (parseTraitUse fuel) sound.
Proof. intros. unfold parseTraitUse. tally. Qed.
#[local] Hint Resolve parseTraitUse_accounts : tally.

Lemma classMember_accounts : forall (fuel : nat) pe ps (x1 : Members),
  (forall precedence, keeps (pe precedence)) ->
  (forall precedence, accounts (pe precedence) sound) ->
  keeps ps ->
  accounts ps sound ->
  sound x1 -> accounts (classMember fuel pe ps x1) sound.
Proof. intros. unfold classMember. tally. Qed.
#[local] Hint Resolve classMember_accounts : tally.

Lemma traitMember_accounts : forall (fuel : nat) pe ps (x1 : Members),
  (forall precedence, keeps (pe precedence)) ->
  (forall precedence, accounts (pe precedence) sound) ->
  keeps ps ->
  accounts ps sound ->
  sound x1 -> accounts (traitMember fuel pe ps x1) sound.
Proof. intros. unfold traitMember. tally. Qed.
#[local] Hint Resolve traitMember_accounts : tally.

Lemma members_loop_accounts : forall (member : Members -> M Members),
  (forall m, keeps (member m)) ->
  (forall m, sound m -> accounts (member m) sound) ->
  forall (n : nat) (x1 : Members),
    sound x1 -> accounts (members_loop n member x1) sound.
Proof.
  intros ? ? ?.
  induction n as [|n IH]; intros; cbn [members_loop]; tally.
Qed.
#[local] Hint Resolve members_loop_accounts : tally.

Lemma parseClassDeclaration_accounts : forall (fuel : nat) pe ps,
  (forall precedence, keeps (pe precedence)) ->
  (forall precedence, accounts (pe precedence) sound) ->
  keeps ps ->
  accounts ps sound ->
  accounts (parseClassDeclaration fuel pe ps) sound.
Proof.
  intros. unfold parseClassDeclaration. tally.
  apply members_loop_accounts;
    [intros ?; keep | intros ? ?; tally | good].
Qed.
#[local] Hint Resolve parseClassDeclaration_accounts : tally.

Lemma parseTraitDeclaration_accounts : forall (fuel : nat) pe ps,
  (forall precedence, keeps (pe precedence)) ->
  (forall precedence, accounts (pe precedence) sound) ->
  keeps ps ->
  accounts ps sound ->
  accounts (parseTraitDeclaration fuel pe ps) sound.
Proof.
  intros. unfold parseTraitDeclaration. tally.
  apply members_loop_accounts;
    [intros ?; keep | intros ? ?; tally | good].
Qed.
#[local] Hint Resolve parseTraitDeclaration_accounts : tally.

Lemma parseInterfaceMethod_accounts : forall (fuel : nat),
  accounts (parseInterfaceMethod fuel) sound.
Proof. intros. unfold parseInterfaceMethod. tally. Qed.
#[local] Hint Resolve parseInterfaceMethod_accounts : tally.

Lemma interface_loop_accounts : forall (fuel : nat),
  forall (n : nat) x1,
    accounts (interface_loop fuel n x1) sound.
Proof.
  intros ?.
  induction n as [|n IH]; intros; cbn [interface_loop]; tally.
Qed.
#[local] Hint Resolve interface_loop_accounts : tally.

Lemma parseInterfaceDeclaration_accounts : forall (fuel : nat),
  accounts (parseInterfaceDeclaration fuel) sound.
Proof. intros. unfold parseInterfaceDeclaration. tally. Qed.
#[local] Hint Resolve parseInterfaceDeclaration_accounts : tally.

Lemma parseNewExpression_accounts : forall (fuel : nat) pe,
  (forall precedence, keeps (pe precedence)) ->
  (forall precedence, accounts (pe precedence) sound) ->
  accounts (parseNewExpression fuel pe) sound.
Proof. intros. unfold parseNewExpression. tally. Qed.
#[local] Hint Resolve parseNewExpression_accounts : tally.

Lemma parseObjectAccessExpression_accounts : forall pe (x1 : option Expression),
  (forall precedence, keeps (pe precedence)) ->
  (forall precedence, accounts (pe precedence) sound) ->
  sound x1 -> accounts (parseObjectAccessExpression pe x1) sound.
Proof. intros. unfold parseObjectAccessExpression. tally. Qed.
#[local] Hint Resolve parseObjectAccessExpression_accounts : tally.

Lemma parseStaticAccessExpression_accounts : forall pe (x1 : option Expression),
  (forall precedence, keeps (pe precedence)) ->
  (forall precedence, accounts (pe precedence) sound) ->
  sound x1 -> accounts (parseStaticAccessExpression pe x1) sound.
Proof. intros. unfold parseStaticAccessExpression. tally. Qed.
#[local] Hint Resolve parseStaticAccessExpression_accounts : tally.

Lemma parseCatchClause_accounts : forall (fuel : nat) ps,
  keeps ps ->
  accounts ps sound ->
  accounts (parseCatchClause fuel ps) sound.
Proof. intros. unfold parseCatchClause. tally. Qed.
#[local] Hint Resolve parseCatchClause_accounts : tally.

Lemma catches_loop_accounts : forall (fuel : nat) ps,
  keeps ps ->
  accounts ps sound ->
  forall (n : nat) (x1 : list CatchClause),
    sound x1 -> accounts (catches_loop fuel ps n x1) sound.
Proof.
  intros ? ? ? ?.
  induction n as [|n IH]; intros; cbn [catches_loop]; tally.
Qed.
#[local] Hint Resolve catches_loop_accounts : tally.

Lemma parseTryStatement_accounts : forall (fuel : nat) ps,
  keeps ps ->
  accounts ps sound ->
  accounts (parseTryStatement fuel ps) sound.
Proof. intros. unfold parseTryStatement. tally. Qed.
#[local] Hint Resolve parseTryStatement_accounts : tally.

Lemma parseThrowStatement_accounts : forall pe,
  (forall precedence, keeps (pe precedence)) ->
  (forall precedence, accounts (pe precedence) sound) ->
  accounts (parseThrowStatement pe) sound.
Proof. intros. unfold parseThrowStatement. tally. Qed.
#[local] Hint Resolve parseThrowStatement_accounts : tally.

Lemma parseAnonymousFunction_accounts : forall (fuel : nat) ps,
  keeps ps ->
  accounts ps sound ->
  accounts (parseAnonymousFunction fuel ps) sound.
Proof. intros. unfold parseAnonymousFunction. tally. Qed.
#[local] Hint Resolve parseAnonymousFunction_accounts : tally.

Lemma parseYieldExpression_accounts : forall pe,
  (forall precedence, keeps (pe precedence)) ->
  (forall precedence, accounts (pe precedence) sound) ->
  accounts (parseYieldExpression pe) sound.
Proof. intros. unfold parseYieldExpression. tally. Qed.
#[local] Hint Resolve parseYieldExpression_accounts : tally.

Lemma parseTernaryExpression_accounts : forall pe (x1 : option Expression),
  (forall precedence, keeps (pe precedence)) ->
  (forall precedence, accounts (pe precedence) sound) ->
  sound x1 -> accounts (parseTernaryExpression pe x1) sound.
Proof. intros. unfold parseTernaryExpression. tally. Qed.
#[local] Hint Resolve parseTernaryExpression_accounts : tally.

Lemma callPrefix_accounts : forall (fuel : nat) pe ps x1,
  (forall precedence, keeps (pe precedence)) ->
  (forall precedence, accounts (pe precedence) sound) ->
  keeps ps ->
  accounts ps sound ->
  accounts (callPrefix fuel pe ps x1) sound.
Proof. intros. unfold callPrefix. tally. Qed.
#[local] Hint Resolve callPrefix_accounts : tally.

Lemma callInfix_accounts : forall (fuel : nat) pe x1 (x2 : option Expression),
  (forall precedence, keeps (pe precedence)) ->
  (forall precedence, accounts (pe precedence) sound) ->
  sound x2 -> accounts (callInfix fuel pe x1 x2) sound.
Proof. intros. unfold callInfix. tally. Qed.
#[local] Hint Resolve callInfix_accounts : tally.

Lemma climb_accounts : forall (fuel : nat) pe,
  (forall precedence, keeps (pe precedence)) ->
  (forall precedence, accounts (pe precedence) sound) ->
  forall (n : nat) x1 (x2 : option Expression),
    sound x2 -> accounts (climb fuel pe n x1 x2) sound.
Proof.
  intros ? ? ? ?.
  induction n as [|n IH]; intros; cbn [climb]; tally.
Qed.
#[local] Hint Resolve climb_accounts : tally.

Lemma parseExpression_body_accounts : forall (fuel : nat) pe ps x1,
  (forall precedence, keeps (pe precedence)) ->
  (forall precedence, accounts (pe precedence) sound) ->
  keeps ps ->
  accounts ps sound ->
  accounts (parseExpression_body fuel pe ps x1) sound.
Proof. intros. unfold parseExpression_body. tally. Qed.
#[local] Hint Resolve parseExpression_body_accounts : tally.

Lemma parseStatement_body_accounts : forall (fuel : nat) pe ps,
  (forall precedence, keeps (pe precedence)) ->
  (forall precedence, accounts (pe precedence) sound) ->
  keeps ps ->
  accounts ps sound ->
  accounts (parseStatement_body fuel pe ps) sound.
Proof. intros. unfold parseStatement_body, orNil. tally. Qed.
#[local] Hint Resolve parseStatement_body_accounts : tally.

(** *** The two functions that call each other, and the program *)

Lemma parse_keeps : forall fuel,
  (forall precedence, keeps (parseExpression fuel precedence)) /\
  keeps (parseStatement fuel).
Proof.
  induction fuel as [|f [IHe IHs]].
  - split; [intros precedence|]; apply keeps_timeout.
  - split.
    + intros precedence.
      change (parseExpression (S f) precedence)
        with (parseExpression_body f (parseExpression f) (parseStatement f)
                precedence).
      apply parseExpression_body_keeps; assumption.
    + change (parseStatement (S f))
        with (parseStatement_body f (parseExpression f) (parseStatement f)).
      apply parseStatement_body_keeps; assumption.
Qed.

Lemma parse_accounts : forall fuel,
  (forall precedence, accounts (parseExpression fuel precedence) sound) /\
  accounts (parseStatement fuel) sound.
Proof.
  induction fuel as [|f [IHe IHs]].
  - split; [intros precedence|]; apply accounts_timeout.
  - destruct (parse_keeps f) as [Ke Ks]. split.
    + intros precedence.
      change (parseExpression (S f) precedence)
        with (parseExpression_body f (parseExpression f) (parseStatement f)
                precedence).
      apply parseExpression_body_accounts; assumption.
    + change (parseStatement (S f))
        with (parseStatement_body f (parseExpression f) (parseStatement f)).
      apply parseStatement_body_accounts; assumption.
Qed.

Lemma program_loop_keeps : forall (n : nat) stmts,
  keeps (program_loop n stmts).
Proof.
  induction n as [|n IH]; intros; cbn [program_loop]; [keep|].
  pose proof (proj2 (parse_keeps n)). keep.
Qed.

Lemma program_loop_accounts : forall (n : nat) (stmts : list Statement),
  sound stmts -> accounts (program_loop n stmts) sound.
Proof.
  pose proof program_loop_keeps.
  induction n as [|n IH]; intros; cbn [program_loop]; [tally|].
  pose proof (proj2 (parse_keeps n)). pose proof (proj2 (parse_accounts n)).
  tally.
Qed.

Lemma ParseProgram_accounts fuel : accounts (ParseProgram fuel) sound.
Proof.
  unfold ParseProgram.
  apply (accounts_bind _ _ sound);
    [apply program_loop_keeps | apply program_loop_accounts; reflexivity
    | intros stmts; apply keeps_ret | ].
  intros stmts H. apply accounts_ret. exact H.
Qed.

Lemma NewParser_errors lx p : NewParser lx = Ok p -> errors p = [].
Proof.
  unfold NewParser, bind. intros H.
  destruct (nextToken _) as [[[] p1]| |] eqn:E1; try discriminate H.
  destruct (nextToken p1) as [[[] p2]| |] eqn:E2; try discriminate H.
  injection H as <-.
  rewrite (nextToken_errors _ _ _ E2), (nextToken_errors _ _ _ E1).
  reflexivity.
Qed.

Lemma Parse_non_nil fuel inp program :
  Parse fuel inp = Ok (program, []) -> non_nil_program program = true.
Proof.
  unfold Parse. intros H.
  destruct (NewParser (New inp)) as [p| |] eqn:E; try discriminate H.
  destruct (ParseProgram fuel p) as [[program' p']| |] eqn:EP;
    try discriminate H.
  injection H as -> Herr.
  apply (ParseProgram_accounts fuel p program p' EP).
  rewrite Herr. cbn. lia.
Qed.

Lemma visitProgram_stays program :
  non_nil_program program = true -> stays (visitProgram program).
Proof.
  destruct program as [stmts]. intros H.
  unfold visitProgram, non_nil_program in *. cbn [Statements] in *.
  apply stays_visitAll. apply Forall_forall. intros s Hin.
  apply visitStatement_stays. rewrite forallb_forall in H.
  apply H, list_elem_of_In, Hin.
Qed.

Lemma ParseWithSemantics_analysed fuel inp filename program :
  Parse fuel inp = Ok (program, []) ->
  exists sp,
    ParseWithSemantics fuel inp filename = Ok (inr sp) /\
    Program sp = program /\
    CurrentScope (SymbolTableOf sp) = GlobalScope /\
    well_scoped (SymbolTableOf sp).
Proof.
  intros HP. pose proof (Parse_non_nil _ _ _ HP) as H.
  unfold ParseWithSemantics. rewrite HP. unfold AnalyzeProgram.
  destruct (visitProgram_stays program H
              {| SymbolTable_ := SymbolTable_ NewSemanticAnalyzer;
                 CurrentFile := filename;
                 Errors := Errors NewSemanticAnalyzer |}
              (built_well_scoped _ built_new))
    as (sa' & E & (W & _) & S).
  rewrite E. eexists. split; [reflexivity|]. split; [reflexivity|].
  split; [exact S | exact W].
Qed.

(** X25. A nil statement is always paid for by an error.  The parser
    never drops an error it has recorded, and every [return nil] of a
    function whose result becomes a statement comes after a failed
    [expectPeek] or an error the function records itself: so the program
    of a parse that ends without errors has no nil statement pointer, at
    any depth. *)
Theorem error_free_parse_has_no_nil_statement :
  forall (fuel : nat) (inp : string) (program : Program_),
    Parse fuel inp = Ok (program, []) -> non_nil_program program = true.
Proof. exact Parse_non_nil. Qed.

Lemma error_free_parse_has_no_nil_statement_witness :
  exists program,
    Parse 14 closure_in_function = Ok (program, []) /\
    non_nil_program program = true.
Proof.
  eexists. split; [vm_compute; reflexivity|].
  apply (error_free_parse_has_no_nil_statement 14 closure_in_function).
  vm_compute. reflexivity.
Defined.

(** X26. [ParseWithSemantics] returns on every input that does not end in
    a backslash: parsing ends, and either the parser has recorded errors,
    which are returned joined in one message, and the analysis is not run,
    or it has recorded none, the tree then has no nil statement, and the
    analysis walks it without panic and ends in the global scope.  The
    nil statements the parser leaves in a tree are never visited through
    this function. *)
Theorem ParseWithSemantics_returns :
  forall (inp filename : string) (fuel : nat),
    ends_in_backslash inp = false ->
    6 * String.length inp + 7 <= fuel ->
    (exists program errs,
       Parse fuel inp = Ok (program, errs) /\ errs <> [] /\
       ParseWithSemantics fuel inp filename
       = Ok (inl ("parsing errors: " +:+ strings_.Join errs "; ")))
    \/
    (exists sp,
       ParseWithSemantics fuel inp filename = Ok (inr sp) /\
       Parse fuel inp = Ok (Program sp, []) /\
       non_nil_program (Program sp) = true /\
       CurrentScope (SymbolTableOf sp) = GlobalScope /\
       well_scoped (SymbolTableOf sp)).
Proof.
  intros inp filename fuel Hend Hf.
  destruct (Parse_returns inp fuel Hend Hf) as (program & errs & HP).
  destruct errs as [|e errs].
  - right.
    destruct (ParseWithSemantics_analysed fuel inp filename program HP)
      as (sp & E & Pr & S & W).
    exists sp. rewrite Pr. split; [exact E|]. split; [exact HP|].
    split; [exact (Parse_non_nil _ _ _ HP)|]. split; [exact S | exact W].
  - left. exists program, (e :: errs). split; [exact HP|].
    split; [discriminate|]. unfold ParseWithSemantics. rewrite HP.
    reflexivity.
Qed.

Lemma ParseWithSemantics_returns_witness :
  (exists program errs,
     Parse 200 "<?php if ($a) { b(); " = Ok (program, errs) /\ errs <> [] /\
     ParseWithSemantics 200 "<?php if ($a) { b(); " "b.php"
     = Ok (inl ("parsing errors: " +:+ strings_.Join errs "; ")))
  \/
  (exists sp,
     ParseWithSemantics 200 "<?php if ($a) { b(); " "b.php" = Ok (inr sp) /\
     Parse 200 "<?php if ($a) { b(); " = Ok (Program sp, []) /\
     non_nil_program (Program sp) = true /\
     CurrentScope (SymbolTableOf sp) = GlobalScope /\
     well_scoped (SymbolTableOf sp)).
Proof.
  apply (ParseWithSemantics_returns "<?php if ($a) { b(); " "b.php" 200).
  - reflexivity.
  - cbn. lia.
Defined.

(** ** The indexes of the symbol table agree *)

Lemma lookupOfType_Some (m : gmap string Symbol) key symbolType sym :
  lookupOfType m key symbolType = Some sym -> m !! key = Some sym.
Proof.
  unfold lookupOfType. destruct (m !! key) as [s|]; [|discriminate].
  destruct (SymbolType_eqb _ _); congruence.
Qed.

Lemma resolveInScopes_Some ss name symbolType sym :
  forall fuel scope,
    resolveInScopes fuel ss scope name symbolType = Ok (Some sym) ->
    exists i s, ss !! i = Some s /\ Symbols s !! name = Some sym.
Proof.
  induction fuel as [|fuel IH]; intros [i|] H; cbn in H; try discriminate.
  destruct (ss !! i) as [s|] eqn:Hs; [|discriminate].
  destruct (lookupOfType (Symbols s) name symbolType) as [sym'|] eqn:E.
  - injection H as ->. exists i, s. split; [exact Hs|].
    exact (lookupOfType_Some _ _ _ _ E).
  - exact (IH _ H).
Qed.

(** A symbol [ResolveSymbol] returns is one of [AllSymbols] or one of a
    scope. *)
Lemma ResolveSymbol_Some name symbolType st sym :
  ResolveSymbol name symbolType st = Ok (Some sym) ->
  (exists key, AllSymbols st !! key = Some sym) \/
  (exists i s key, scopes st !! i = Some s /\ Symbols s !! key = Some sym).
Proof.
  unfold ResolveSymbol.
  destruct (HasPrefixBackslash name).
  { intros [= H]. left. eexists. exact (lookupOfType_Some _ _ _ _ H). }
  destruct (current st) as [cur| |]; try discriminate.
  destruct (Imports cur !! name) as [fqn|].
  - destruct (lookupOfType (AllSymbols st) fqn symbolType) as [s|] eqn:E.
    { intros [= ->]. left. eexists. exact (lookupOfType_Some _ _ _ _ E). }
    destruct (resolveInScopes _ _ _ _ _) as [[s|]| |] eqn:R;
      try discriminate.
    { intros [= ->]. right.
      destruct (resolveInScopes_Some _ _ _ _ _ _ R) as (i & sc & H1 & H2).
      eauto. }
    destruct (if String.eqb (Namespace_ cur) "" then None else _)
      as [s|] eqn:N.
    { intros [= ->]. left.
      destruct (String.eqb (Namespace_ cur) ""); [discriminate|].
      eexists. exact (lookupOfType_Some _ _ _ _ N). }
    intros [= H]. left. eexists. exact (lookupOfType_Some _ _ _ _ H).
  - destruct (resolveInScopes _ _ _ _ _) as [[s|]| |] eqn:R;
      try discriminate.
    { intros [= ->]. right.
      destruct (resolveInScopes_Some _ _ _ _ _ _ R) as (i & sc & H1 & H2).
      eauto. }
    destruct (if String.eqb (Namespace_ cur) "" then None else _)
      as [s|] eqn:N.
    { intros [= ->]. left.
      destruct (String.eqb (Namespace_ cur) ""); [discriminate|].
      eexists. exact (lookupOfType_Some _ _ _ _ N). }
    intros [= H]. left. eexists. exact (lookupOfType_Some _ _ _ _ H).
Qed.

(** An update of the current scope that keeps its symbols. *)
Lemma updateCurrent_filed (f : Scope -> Scope) st st' :
  (forall s, Symbols (f s) = Symbols s) ->
  filed st -> updateCurrent f st = Ok st' -> filed st'.
Proof.
  intros Hf (F1 & F2 & F3 & F4). unfold updateCurrent.
  destruct (current st) as [cur| |] eqn:Ecur; try discriminate.
  intros [= <-]. apply current_lookup in Ecur.
  split; [exact F1|]. split; [exact F2|]. split; [|exact F4].
  intros i s name sym Hi Hs. cbn [scopes setScopes] in Hi.
  destruct (decide (i = CurrentScope st)) as [->|Hne].
  - rewrite list_lookup_insert_eq in Hi
      by (apply lookup_lt_Some in Ecur; exact Ecur).
    injection Hi as <-. rewrite Hf in Hs. exact (F3 _ _ _ _ Ecur Hs).
  - rewrite list_lookup_insert_ne in Hi by congruence.
    exact (F3 _ _ _ _ Hi Hs).
Qed.

Lemma FindSymbolsInNamespace_declare namespace ns symbol st st' :
  Namespaces st' = <[ns := FindSymbolsInNamespace ns st ++ [symbol]]>
                     (Namespaces st) ->
  FindSymbolsInNamespace namespace st'
  = if decide (namespace = ns)
    then FindSymbolsInNamespace namespace st ++ [symbol]
    else FindSymbolsInNamespace namespace st.
Proof.
  intros H. unfold FindSymbolsInNamespace at 1. rewrite H.
  destruct (decide (namespace = ns)) as [->|Hne].
  - rewrite lookup_insert_eq. reflexivity.
  - rewrite lookup_insert_ne by congruence. reflexivity.
Qed.

Lemma DeclareSymbol_filed name symbolType file ln st symbol st' :
  filed st -> DeclareSymbol name symbolType file ln st = Ok (symbol, st') ->
  filed st'.
Proof.
  intros (F1 & F2 & F3 & F4) H. unfold DeclareSymbol in H.
  destruct (makeFullyQualified name st) as [fqn| |] eqn:Eq;
    destruct (current st) as [cur| |] eqn:Ecur; try discriminate.
  rewrite (makeFullyQualified_eq st cur name Ecur) in Eq.
  injection Eq as Eq. fold (qualified (Namespace_ cur) name) in Eq.
  injection H as Hsym Hst. apply current_lookup in Ecur.
  assert (HN : Namespaces st'
               = <[Namespace_ cur
                     := FindSymbolsInNamespace (Namespace_ cur) st ++ [symbol]]>
                   (Namespaces st)).
  { rewrite <- Hst, <- Hsym. reflexivity. }
  assert (HA : AllSymbols st' = <[fqn := symbol]> (AllSymbols st)).
  { rewrite <- Hst, <- Hsym. reflexivity. }
  assert (HR : References st' = References st).
  { rewrite <- Hst. reflexivity. }
  assert (Hs1 : SymNamespace symbol = Namespace_ cur)
    by (rewrite <- Hsym; reflexivity).
  assert (Hs2 : FullyQualified symbol = fqn)
    by (rewrite <- Hsym; reflexivity).
  assert (Hs3 : SymName symbol = name) by (rewrite <- Hsym; reflexivity).
  assert (Hmono : forall sym, listed st sym -> listed st' sym).
  { intros sym Hin. unfold listed in *.
    rewrite (FindSymbolsInNamespace_declare _ _ _ _ _ HN).
    destruct (decide _); [apply in_or_app; left|]; exact Hin. }
  assert (Hnew : listed st' symbol).
  { unfold listed.
    rewrite (FindSymbolsInNamespace_declare _ _ _ _ _ HN), Hs1.
    destruct (decide _) as [_|Hne]; [|congruence].
    apply in_or_app. right. left. reflexivity. }
  split; [|split; [|split]].
  - intros namespace sym Hin.
    rewrite (FindSymbolsInNamespace_declare _ _ _ _ _ HN) in Hin.
    assert (Hold : In sym (FindSymbolsInNamespace namespace st) ->
              SymNamespace sym = namespace /\
              FullyQualified sym = qualified namespace (SymName sym) /\
              is_Some (AllSymbols st' !! FullyQualified sym)).
    { intros Hi. destruct (F1 _ _ Hi) as (A & B & C).
      split; [exact A|]. split; [exact B|]. rewrite HA.
      destruct (decide (fqn = FullyQualified sym)) as [->|Hne].
      - rewrite lookup_insert_eq. eauto.
      - rewrite lookup_insert_ne by exact Hne. exact C. }
    destruct (decide (namespace = Namespace_ cur)) as [->|Hne];
      [|exact (Hold Hin)].
    apply in_app_or in Hin as [Hin|[<-|[]]]; [exact (Hold Hin)|].
    split; [exact Hs1|]. split; [rewrite Hs2, Hs3; exact (eq_sym Eq)|].
    rewrite HA, Hs2, lookup_insert_eq. eauto.
  - intros key sym Hl. rewrite HA in Hl.
    destruct (decide (fqn = key)) as [<-|Hne].
    + rewrite lookup_insert_eq in Hl. injection Hl as <-.
      split; [exact Hs2 | exact Hnew].
    + rewrite lookup_insert_ne in Hl by exact Hne.
      destruct (F2 _ _ Hl) as [A B]. split; [exact A | exact (Hmono _ B)].
  - intros i s key sym Hi Hs. rewrite <- Hst in Hi. cbn [scopes] in Hi.
    destruct (decide (i = CurrentScope st)) as [->|Hne].
    + rewrite list_lookup_insert_eq in Hi
        by (apply lookup_lt_Some in Ecur; exact Ecur).
      injection Hi as <-. cbn [Symbols] in Hs.
      destruct (decide (name = key)) as [<-|Hk].
      * rewrite lookup_insert_eq in Hs. injection Hs as <-.
        rewrite Hsym. split; [exact Hs3 | exact Hnew].
      * rewrite lookup_insert_ne in Hs by exact Hk.
        destruct (F3 _ _ _ _ Ecur Hs) as [A B].
        split; [exact A | exact (Hmono _ B)].
    + rewrite list_lookup_insert_ne in Hi by congruence.
      destruct (F3 _ _ _ _ Hi Hs) as [A B].
      split; [exact A | exact (Hmono _ B)].
  - intros ref sym Hin Hr. rewrite HR in Hin.
    exact (Hmono _ (F4 _ _ Hin Hr)).
Qed.

Lemma built_filed (st : SymbolTable) : built st -> filed st.
Proof.
  induction 1 as [ | ty n st st' Hb IH H | st st' _ IH H | ns st st' _ IH H
                 | fq al st st' _ IH H | n t f l st sym st' _ IH H
                 | n t l c st ref st' _ IH H | cn e im st _ IH ].
  - split; [|split; [|split]].
    + intros namespace sym [].
    + intros fqn sym Hl. unfold NewSymbolTable in Hl.
      cbn [AllSymbols] in Hl. rewrite lookup_empty in Hl. discriminate Hl.
    + intros [|i] s name sym Hi Hs; [|discriminate Hi].
      injection Hi as <-. cbn [Symbols] in Hs. rewrite lookup_empty in Hs.
      discriminate Hs.
    + intros ref sym [].
  - destruct IH as (F1 & F2 & F3 & F4). unfold EnterScope in H.
    destruct (current st) as [cur| |] eqn:Ecur; try discriminate.
    injection H as <-. apply current_lookup in Ecur.
    split; [exact F1|]. split; [exact F2|]. split; [|exact F4].
    intros i s name sym Hi Hs. cbn [scopes] in Hi.
    pose proof (lookup_lt_Some _ _ _ Ecur) as Hlt.
    destruct (decide (i < List.length (scopes st))) as [Hi'|Hi'].
    + rewrite lookup_app_l in Hi by (rewrite length_insert; exact Hi').
      destruct (decide (i = CurrentScope st)) as [->|Hne].
      * rewrite list_lookup_insert_eq in Hi by exact Hlt.
        injection Hi as <-. cbn [Symbols] in Hs.
        exact (F3 _ _ _ _ Ecur Hs).
      * rewrite list_lookup_insert_ne in Hi by congruence.
        exact (F3 _ _ _ _ Hi Hs).
    + rewrite lookup_app_r in Hi by (rewrite length_insert; lia).
      rewrite length_insert in Hi.
      destruct (i - List.length (scopes st)); [|discriminate Hi].
      injection Hi as <-. cbn [Symbols] in Hs. rewrite lookup_empty in Hs.
      discriminate Hs.
  - unfold ExitScope in H.
    destruct (current st) as [cur| |]; try discriminate.
    destruct (Parent cur); injection H as <-; exact IH.
  - eapply updateCurrent_filed; [|exact IH|exact H]. reflexivity.
  - eapply updateCurrent_filed; [|exact IH|exact H]. reflexivity.
  - exact (DeclareSymbol_filed _ _ _ _ _ _ _ IH H).
  - destruct IH as (F1 & F2 & F3 & F4). unfold AddReference in H.
    destruct (ResolveSymbol n t st) as [resolved| |] eqn:E;
      try discriminate.
    injection H as _ <-.
    split; [exact F1|]. split; [exact F2|]. split; [exact F3|].
    intros r sym Hin Hr. cbn [References] in Hin.
    apply in_app_or in Hin as [Hin|[<-|[]]]; [exact (F4 _ _ Hin Hr)|].
    cbn [ResolvedSymbol] in Hr. subst resolved.
    destruct (ResolveSymbol_Some _ _ _ _ E) as [[key Hk]|(i & s & key & Hi & Hk)].
    + exact (proj2 (F2 _ _ Hk)).
    + exact (proj2 (F3 _ _ _ _ Hi Hk)).
  - exact IH.
Qed.

(** *** The analyser changes the table through its operations only *)

Lemma builds_done : builds done_.
Proof. intros sa sa' Hb [= <-]. exact Hb. Qed.

Lemma builds_panic : builds (fun _ => Panic).
Proof. intros sa sa' _ H. discriminate H. Qed.

Lemma builds_andThen (v1 v2 : Visit) :
  builds v1 -> builds v2 -> builds (andThen v1 v2).
Proof.
  intros H1 H2 sa sa' Hb H. unfold andThen in H.
  destruct (v1 sa) as [sa1| |] eqn:E; try discriminate H.
  exact (H2 _ _ (H1 _ _ Hb E) H).
Qed.

Lemma builds_visitAll {X} (visit : X -> Visit) (xs : list X) :
  Forall (fun x => builds (visit x)) xs -> builds (visitAll visit xs).
Proof.
  induction 1 as [|x rest Hx _ IH]; [exact builds_done|].
  cbn [visitAll]. apply builds_andThen; assumption.
Qed.

Lemma builds_onTable (f : SymbolTable -> Res SymbolTable) :
  (forall st st', built st -> f st = Ok st' -> built st') ->
  builds (onTable f).
Proof.
  intros Hf sa sa' Hb H. unfold onTable in H.
  destruct (f (SymbolTable_ sa)) as [st| |] eqn:E; try discriminate H.
  injection H as <-. exact (Hf _ _ Hb E).
Qed.

Lemma builds_EnterScope scopeType name :
  builds (onTable (EnterScope scopeType name)).
Proof. apply builds_onTable. intros st st' Hb H. exact (built_enter _ _ _ _ Hb H). Qed.

Lemma builds_ExitScope : builds (onTable ExitScope).
Proof. apply builds_onTable. intros st st' Hb H. exact (built_exit _ _ Hb H). Qed.

Lemma builds_SetNamespace namespace :
  builds (onTable (SetNamespace namespace)).
Proof.
  apply builds_onTable. intros st st' Hb H.
  exact (built_namespace _ _ _ Hb H).
Qed.

Lemma builds_AddImport fullyQualified alias :
  builds (onTable (AddImport fullyQualified alias)).
Proof.
  apply builds_onTable. intros st st' Hb H.
  exact (built_import _ _ _ _ Hb H).
Qed.

Lemma builds_declare name t ln : builds (declare name t ln).
Proof.
  intros sa sa' Hb H. unfold declare in H.
  destruct (DeclareSymbol _ _ _ _ _) as [[symbol st]| |] eqn:E;
    try discriminate H.
  injection H as <-. exact (built_declare _ _ _ _ _ _ _ Hb E).
Qed.

Lemma builds_refer name t ln : builds (refer name t ln).
Proof.
  intros sa sa' Hb H. unfold refer in H.
  destruct (AddReference _ _ _ _ _) as [[ref st]| |] eqn:E;
    try discriminate H.
  injection H as <-. exact (built_reference _ _ _ _ _ _ _ Hb E).
Qed.

Lemma builds_addIdentifierReference identifier :
  builds (addIdentifierReference identifier).
Proof.
  intros sa sa' Hb H. unfold addIdentifierReference in H.
  destruct (AddReference _ _ _ _ _) as [[ref st]| |] eqn:E;
    try discriminate H.
  pose proof (built_reference _ _ _ _ _ _ _ Hb E) as Hb1.
  destruct (ResolvedSymbol ref).
  - injection H as <-. exact Hb1.
  - exact (builds_refer _ _ _ (withTable sa st) sa' Hb1 H).
Qed.

Lemma builds_declareParameters params : builds (declareParameters params).
Proof.
  unfold declareParameters. apply builds_visitAll, Forall_forall.
  intros param _. apply builds_declare.
Qed.

Lemma builds_visitClassHeader tok name superClass interfaces :
  builds (visitClassHeader tok name superClass interfaces).
Proof.
  intros sa sa' Hb H. unfold visitClassHeader in H.
  destruct (DeclareSymbol _ _ _ _ _) as [[symbol st]| |] eqn:E;
    try discriminate H.
  injection H as <-. cbn [SymbolTable_ withTable].
  apply built_hierarchy. exact (built_declare _ _ _ _ _ _ _ Hb E).
Qed.

Lemma builds_callee (fn : option Expression) (name : Identifier -> Visit) :
  (forall identifier, builds (name identifier)) ->
  match fn with
  | Some e => builds (visitExpression e)
  | None => True
  end ->
  builds match fn with
         | Some (EIdentifier identifier) => name identifier
         | Some other => visitExpression other
         | None => done_
         end.
Proof.
  intros Hn H. destruct fn as [e|]; [|exact builds_done].
  destruct e; first [apply Hn | exact H].
Qed.

Ltac kids leaf :=
  lazymatch goal with
  | |- Forall _ ?l =>
      let x := fresh "x" in
      let rest := fresh "rest" in
      let IHl := fresh "IHl" in
      induction l as [|x rest IHl];
      [ apply List.Forall_nil
      | apply List.Forall_cons;
        [ cbn beta;
          lazymatch type of x with
          | (_ * _)%type => destruct x; cbn [fst snd]
          | _ => idtac
          end;
          leaf
        | exact IHl ] ]
  end.

Ltac erect leaf :=
  lazymatch goal with
  | |- builds done_ => exact builds_done
  | |- builds (fun _ => Panic) => exact builds_panic
  | |- builds (andThen _ _) => apply builds_andThen; erect leaf
  | |- builds (onTable (EnterScope _ _)) => apply builds_EnterScope
  | |- builds (onTable ExitScope) => exact builds_ExitScope
  | |- builds (onTable (SetNamespace _)) => apply builds_SetNamespace
  | |- builds (onTable (AddImport _ _)) => apply builds_AddImport
  | |- builds (declare _ _ _) => apply builds_declare
  | |- builds (refer _ _ _) => apply builds_refer
  | |- builds (declareParameters _) => apply builds_declareParameters
  | |- builds (visitClassHeader _ _ _ _) => apply builds_visitClassHeader
  | |- builds (addIdentifierReference _) =>
      apply builds_addIdentifierReference
  | |- builds (visitInterfaceMethod _) => apply builds_declare
  | |- builds (visitAll _ _) =>
      apply builds_visitAll; kids ltac:(idtac; erect leaf)
  | |- builds (match ?o with Some _ => _ | None => _ end) =>
      first [ destruct o; [| exact builds_done]; erect leaf
            | apply builds_callee; [intros; erect leaf|]; destruct o;
              [erect leaf | exact I] ]
  | |- builds (match ?k with KConstantDeclaration => _ | _ => _ end) =>
      destruct k; erect leaf
  | |- _ => leaf
  end.

Lemma visitExpression_builds (e : Expression) : builds (visitExpression e)
with visitStatement_builds (s : Statement) : builds (visitStatement s)
with visitBlockStatement_builds (b : BlockStatement) :
  builds (visitBlockStatement b)
with visitConstantDeclaration_builds (c : ConstantDeclaration) :
  builds (visitConstantDeclaration c)
with visitPropertyDeclaration_builds (d : PropertyDeclaration) :
  builds (visitPropertyDeclaration d)
with visitMethodDeclaration_builds (m : MethodDeclaration) :
  builds (visitMethodDeclaration m)
with visitCatchClause_builds (c : CatchClause) :
  builds (visitCatchClause c).
Proof.
  - destruct e; cbn [visitExpression];
      erect ltac:(first [ apply visitExpression_builds
                        | apply visitBlockStatement_builds ]).
  - destruct s; cbn [visitStatement];
      erect ltac:(first [ apply visitExpression_builds
                        | apply visitBlockStatement_builds
                        | apply visitConstantDeclaration_builds
                        | apply visitPropertyDeclaration_builds
                        | apply visitMethodDeclaration_builds
                        | apply visitCatchClause_builds ]).
  - destruct b; cbn [visitBlockStatement];
      erect ltac:(apply visitStatement_builds).
  - destruct c; cbn [visitConstantDeclaration];
      erect ltac:(apply visitExpression_builds).
  - destruct d; cbn [visitPropertyDeclaration];
      erect ltac:(apply visitExpression_builds).
  - destruct m; cbn [visitMethodDeclaration];
      erect ltac:(apply visitBlockStatement_builds).
  - destruct c; cbn [visitCatchClause];
      erect ltac:(apply visitBlockStatement_builds).
Qed.

Lemma AnalyzeProgram_builds program filename sa sa' :
  built (SymbolTable_ sa) -> AnalyzeProgram program filename sa = Ok sa' ->
  built (SymbolTable_ sa').
Proof.
  intros Hb H. unfold AnalyzeProgram, visitProgram in H.
  assert (B : builds (visitAll visitStatement (Statements program))).
  { apply builds_visitAll, Forall_forall. intros s _.
    apply visitStatement_builds. }
  exact (B {| SymbolTable_ := SymbolTable_ sa; CurrentFile := filename;
              Errors := Errors sa |} sa' Hb H).
Qed.

Lemma ParseWithSemantics_builds fuel inp filename sp :
  ParseWithSemantics fuel inp filename = Ok (inr sp) ->
  built (SymbolTableOf sp) /\
  AllReferences sp = References (SymbolTableOf sp) /\
  UnresolvedRefs sp = GetUnresolvedReferences (SymbolTableOf sp).
Proof.
  unfold ParseWithSemantics. intros H.
  destruct (Parse fuel inp) as [[program errs]| |]; try discriminate H.
  destruct errs; [|discriminate H].
  destruct (AnalyzeProgram program filename NewSemanticAnalyzer)
    as [sa| |] eqn:E; try discriminate H.
  injection H as <-. cbn.
  split; [|split; reflexivity].
  exact (AnalyzeProgram_builds program filename NewSemanticAnalyzer sa
           built_new E).
Qed.

(** X27. The three indexes of the symbol table agree, on every table made
    by the operations, and so on the table [ParseWithSemantics] returns:
    the analyser changes the table through the operations only.  A symbol
    [FindSymbolsInNamespace] lists for a namespace has that namespace, its
    fully qualified name is the key [makeFullyQualified] forms of the
    namespace and its name, and that key is in [AllSymbols]; a symbol of
    [AllSymbols] is filed under its fully qualified name, a symbol of a
    scope under its name, and both are listed in their namespace; so is
    the symbol of every resolved reference.  The list of a namespace keeps
    every declaration, also of a name declared again, while [AllSymbols]
    keeps the last one. *)
Theorem symbol_indexes_agree :
  (forall st, built st -> filed st)
  /\
  (forall fuel inp filename sp,
     ParseWithSemantics fuel inp filename = Ok (inr sp) ->
     built (SymbolTableOf sp) /\ filed (SymbolTableOf sp) /\
     forall ref sym,
       In ref (AllReferences sp) -> ResolvedSymbol ref = Some sym ->
       listed (SymbolTableOf sp) sym /\
       is_Some (AllSymbols (SymbolTableOf sp) !! FullyQualified sym))
  /\
  (forall st name symbolType file ln symbol st',
     DeclareSymbol name symbolType file ln st = Ok (symbol, st') ->
     FindSymbolsInNamespace (SymNamespace symbol) st'
     = FindSymbolsInNamespace (SymNamespace symbol) st ++ [symbol] /\
     AllSymbols st' !! FullyQualified symbol = Some symbol /\
     forall key, key <> FullyQualified symbol ->
       AllSymbols st' !! key = AllSymbols st !! key).
Proof.
  split; [exact built_filed|]. split.
  - intros fuel inp filename sp H.
    destruct (ParseWithSemantics_builds _ _ _ _ H) as (Hb & HR & _).
    pose proof (built_filed _ Hb) as F.
    split; [exact Hb|]. split; [exact F|].
    intros ref sym Hin Hr. rewrite HR in Hin.
    destruct F as (F1 & _ & _ & F4).
    pose proof (F4 _ _ Hin Hr) as L. split; [exact L|].
    exact (proj2 (proj2 (F1 _ _ L))).
  - intros st name symbolType file ln symbol st' H.
    unfold DeclareSymbol in H.
    destruct (makeFullyQualified name st) as [fqn| |];
      destruct (current st) as [cur| |]; try discriminate.
    injection H as <- <-. cbn [SymNamespace FullyQualified AllSymbols].
    split; [|split].
    + unfold FindSymbolsInNamespace at 1. cbn [Namespaces].
      rewrite lookup_insert_eq. reflexivity.
    + apply lookup_insert_eq.
    + intros key Hne. apply lookup_insert_ne. congruence.
Qed.

Lemma symbol_indexes_agree_witness :
  exists sp,
    ParseWithSemantics 14 closure_in_function "pay.php" = Ok (inr sp) /\
    filed (SymbolTableOf sp).
Proof.
  assert (E : exists sp,
            ParseWithSemantics 14 closure_in_function "pay.php"
            = Ok (inr sp)).
  { eexists. vm_compute. reflexivity. }
  destruct E as [sp E]. exists sp. split; [exact E|].
  exact (proj1 (proj2 (proj1 (proj2 symbol_indexes_agree) 14
                         closure_in_function "pay.php" sp E))).
Defined.

(** ** Precedence, both ways *)

Lemma precedence_keeps_product_together :
  forall (p : Parser) a b c ea eb ec times plus tEnd l1 l2 l3 l4 fuel,
  curToken p = a -> peekToken p = times ->
  operand a ea -> operand b eb -> operand c ec ->
  Type_ times = MULTIPLY -> Type_ plus = PLUS ->
  NextToken (l p) = Ok (b, l1) -> NextToken l1 = Ok (plus, l2) ->
  NextToken l2 = Ok (c, l3) -> NextToken l3 = Ok (tEnd, l4) ->
  precedences (Type_ tEnd) = None ->
  4 <= fuel ->
  parseExpression fuel LOWEST p
  = Ok (Some (InfixExpression plus
                (Some (InfixExpression times (Some ea) (Literal times)
                         (Some eb)))
                (Literal plus) (Some ec)),
        {| l := l4; curToken := c; peekToken := tEnd; errors := errors p |}).
Proof.
  intros p a b c ea eb ec times plus tEnd l1 l2 l3 l4 fuel
    Ha Hop Oa Ob Oc Ttimes Tplus N1 N2 N3 N4 Pend Hfuel.
  assert (Ftimes : infixParseFns (Type_ times) = Some parseInfixExpression_fn)
    by (rewrite Ttimes; reflexivity).
  assert (Fplus : infixParseFns (Type_ plus) = Some parseInfixExpression_fn)
    by (rewrite Tplus; reflexivity).
  assert (Ptimes : precedences (Type_ times) = Some PRODUCT)
    by (rewrite Ttimes; reflexivity).
  assert (Pplus : precedences (Type_ plus) = Some SUM)
    by (rewrite Tplus; reflexivity).
  pose proof (binary_operators_nest p a b c ea eb ec times plus PRODUCT SUM
                tEnd l1 l2 l3 l4 fuel) as H.
  cbv [Nat.ltb Nat.leb PRODUCT SUM infixOf] in H.
  apply H; assumption.
Qed.

(** C1. Multiplication binds tighter than addition, whichever comes
    first.  The input [<?php $x = 5 + 3 * 2; ?>] is parsed, without
    errors, into exactly one ExpressionStatement of an AssignmentExpression
    to [x] whose value is [5 + (3 * 2)], and [<?php $x = 5 * 3 + 2; ?>]
    into the assignment of [(5 * 3) + 2].  In general, wherever operands
    [a], [b], [c] are read as [a + b * c] and the token after [c] is no
    infix operator of the precedence table, [parseExpression] returns the
    tree of [a + (b * c)]; and where they are read as [a * b + c] it
    returns the tree of [(a * b) + c]: the product is an operand of the
    sum in both orders. *)
Theorem multiplication_binds_tighter_than_addition :
  (forall fuel, 8 <= fuel ->
     exists t1 t2 t3 t4 t5 t6 t7 v,
       Parse fuel "<?php $x = 5 + 3 * 2; ?>"
       = Ok ({| Statements :=
                  [ExpressionStatement t1
                     (Some (AssignmentExpression t2 v
                        (Some (InfixExpression t3
                           (Some (IntegerLiteral t4 5)) "+"
                           (Some (InfixExpression t5
                              (Some (IntegerLiteral t6 3)) "*"
                              (Some (IntegerLiteral t7 2))))))))] |},
             [])
       /\ VarName v = "x")
  /\
  (forall fuel, 8 <= fuel ->
     exists t1 t2 t3 t4 t5 t6 t7 v,
       Parse fuel "<?php $x = 5 * 3 + 2; ?>"
       = Ok ({| Statements :=
                  [ExpressionStatement t1
                     (Some (AssignmentExpression t2 v
                        (Some (InfixExpression t3
                           (Some (InfixExpression t5
                              (Some (IntegerLiteral t4 5)) "*"
                              (Some (IntegerLiteral t6 3))))
                           "+"
                           (Some (IntegerLiteral t7 2))))))] |},
             [])
       /\ VarName v = "x")
  /\
  (forall (p : Parser) a b c ea eb ec plus times tEnd l1 l2 l3 l4 fuel,
     curToken p = a -> peekToken p = plus ->
     operand a ea -> operand b eb -> operand c ec ->
     Type_ plus = PLUS -> Type_ times = MULTIPLY ->
     NextToken (l p) = Ok (b, l1) -> NextToken l1 = Ok (times, l2) ->
     NextToken l2 = Ok (c, l3) -> NextToken l3 = Ok (tEnd, l4) ->
     precedences (Type_ tEnd) = None ->
     4 <= fuel ->
     parseExpression fuel LOWEST p
     = Ok (Some (InfixExpression plus (Some ea) (Literal plus)
                  (Some (InfixExpression times (Some eb) (Literal times)
                           (Some ec)))),
           {| l := l4; curToken := c; peekToken := tEnd;
              errors := errors p |}))
  /\
  (forall (p : Parser) a b c ea eb ec times plus tEnd l1 l2 l3 l4 fuel,
     curToken p = a -> peekToken p = times ->
     operand a ea -> operand b eb -> operand c ec ->
     Type_ times = MULTIPLY -> Type_ plus = PLUS ->
     NextToken (l p) = Ok (b, l1) -> NextToken l1 = Ok (plus, l2) ->
     NextToken l2 = Ok (c, l3) -> NextToken l3 = Ok (tEnd, l4) ->
     precedences (Type_ tEnd) = None ->
     4 <= fuel ->
     parseExpression fuel LOWEST p
     = Ok (Some (InfixExpression plus
                   (Some (InfixExpression times (Some ea) (Literal times)
                            (Some eb)))
                   (Literal plus) (Some ec)),
           {| l := l4; curToken := c; peekToken := tEnd;
              errors := errors p |})).
Proof.
  split; [|split; [|split]].
  - intros fuel Hfuel. do 8 eexists. split.
    + apply (Parse_mono 8 fuel _ _ Hfuel). vm_compute. reflexivity.
    + reflexivity.
  - intros fuel Hfuel. do 8 eexists. split.
    + apply (Parse_mono 8 fuel _ _ Hfuel). vm_compute. reflexivity.
    + reflexivity.
  - exact precedence_binds_product_tighter.
  - exact precedence_keeps_product_together.
Qed.

Lemma multiplication_binds_tighter_than_addition_witness :
  (exists p p',
     parserOf "5 + 3 * 2;" = Ok p /\
     parseExpression 4 LOWEST p
     = Ok (Some (InfixExpression (tokenOn1 PLUS "+" 3)
                   (Some (IntegerLiteral (tokenOn1 INT "5" 2) 5)) "+"
                   (Some (InfixExpression (tokenOn1 MULTIPLY "*" 7)
                            (Some (IntegerLiteral (tokenOn1 INT "3" 6) 3))
                            "*"
                            (Some (IntegerLiteral (tokenOn1 INT "2" 10)
                                     2))))),
           p'))
  /\
  (exists p p',
     parserOf "5 * 3 + 2;" = Ok p /\
     parseExpression 4 LOWEST p
     = Ok (Some (InfixExpression (tokenOn1 PLUS "+" 7)
                   (Some (InfixExpression (tokenOn1 MULTIPLY "*" 3)
                            (Some (IntegerLiteral (tokenOn1 INT "5" 2) 5))
                            "*"
                            (Some (IntegerLiteral (tokenOn1 INT "3" 6) 3))))
                   "+"
                   (Some (IntegerLiteral (tokenOn1 INT "2" 10) 2))),
           p')).
Proof.
  split.
  - do 2 eexists. split; [vm_compute; reflexivity|].
    eapply (proj1 (proj2 (proj2 multiplication_binds_tighter_than_addition))).
    all: try solve_by_evaluation.
    all: solve_by_evaluation.
  - do 2 eexists. split; [vm_compute; reflexivity|].
    eapply (proj2 (proj2 (proj2 multiplication_binds_tighter_than_addition))).
    all: try solve_by_evaluation.
    all: solve_by_evaluation.
Defined.

(** ** Tokens at any place of the input *)

Section Places.

Lemma placed_readChar inp l : placed inp l -> placed inp (readChar l).
Proof.
  intros [Hs Hc]. split; [apply in_step_next; exact Hs|].
  destruct Hs as (Hi & _). unfold readChar. cbn [column readPosition].
  rewrite Hi, Hc. cbn [column_after].
  destruct (Nat.leb_spec (String.length inp) (readPosition l));
    destruct (Nat.ltb_spec (readPosition l) (String.length inp));
    try lia; reflexivity.
Qed.

Lemma placed_reads inp l l' : reads l l' -> placed inp l -> placed inp l'.
Proof. induction 1; [auto|]. intros H0. apply placed_readChar. auto. Qed.

Lemma placed_New inp : placed inp (New inp).
Proof.
  split; [apply in_step_New|].
  destruct inp as [|c inp]; [reflexivity|].
  unfold New, readChar. cbn. destruct (Ascii.eqb c LF); reflexivity.
Qed.

Lemma placed_skipWhitespace inp l : placed inp l -> placed inp (skipWhitespace l).
Proof. apply placed_reads, readWhile_reads. Qed.

Lemma placed_NextToken inp l tok l' :
  placed inp l -> NextToken l = Ok (tok, l') -> placed inp l'.
Proof.
  intros Hl H. apply NextToken_moved in H as [Hr _].
  apply (placed_reads inp (readChar l)); [exact Hr|].
  apply placed_readChar. exact Hl.
Qed.

(** Every state the lexer is in between two calls of [NextToken]. *)
Lemma placed_lexer_after inp : forall n l0 l,
  placed inp l0 -> lexer_after n l0 = Ok l -> placed inp (skipWhitespace l).
Proof.
  induction n as [|n IH]; intros l0 l H0; cbn [lexer_after].
  - intros [= <-]. apply placed_skipWhitespace. exact H0.
  - destruct (NextToken l0) as [[tok l1]| |] eqn:E; try discriminate.
    apply IH. exact (placed_NextToken inp l0 tok l1 H0 E).
Qed.

Lemma in_step_lexer_after inp : forall n l0 l,
  in_step inp l0 -> lexer_after n l0 = Ok l -> in_step inp l.
Proof.
  induction n as [|n IH]; intros l0 l H0; cbn [lexer_after].
  - intros [= <-]. exact H0.
  - destruct (NextToken l0) as [[tok l1]| |] eqn:E; try discriminate.
    apply IH. exact (in_step_NextToken inp l0 tok l1 H0 E).
Qed.

Lemma skipWhitespace_twice l :
  skipWhitespace (skipWhitespace l) = skipWhitespace l.
Proof. apply skipWhitespace_id, skipWhitespace_exit. Qed.

(** [NextToken] looks at its lexer only after [skipWhitespace]. *)
Lemma NextToken_skip l : NextToken l = NextToken (skipWhitespace l).
Proof.
  unfold NextToken, loop_bound. rewrite skipWhitespace_input.
  rewrite (NextToken_rec_eq _ l), (NextToken_rec_eq _ (skipWhitespace l)).
  rewrite skipWhitespace_twice. reflexivity.
Qed.

Lemma byte_at_middle (pre : string) (c : ascii) (rest : string) :
  Nat.ltb (String.length pre) (String.length (pre +:+ String c rest)) = true
  /\ byte_at (pre +:+ String c rest) (String.length pre) = c.
Proof.
  split; [|apply byte_at_append].
  apply Nat.ltb_lt. rewrite length_append. cbn. lia.
Qed.

(** Line and column of a byte that is no newline. *)
Lemma stands_at_line (pre : string) (c : ascii) (rest : string) (l : Lexer) :
  stands_at (pre +:+ String c rest) (String.length pre) l ->
  Ascii.eqb c LF = false ->
  line l = S (newlines (pre +:+ String c rest) (String.length pre)) /\
  column l = S (column_after (pre +:+ String c rest) (String.length pre)).
Proof.
  intros [[(Hi & Hr & _ & Hl) Hc] Hp] Hn.
  destruct (byte_at_middle pre c rest) as [Hlt Hb].
  rewrite Hr, Hp in Hl, Hc. split.
  - rewrite Hl, newlines_S, Hb, Hn.
    apply Nat.ltb_lt in Hlt.
    destruct (Nat.leb_spec (String.length (pre +:+ String c rest))
                (String.length pre)); lia.
  - rewrite Hc. cbn [column_after]. rewrite Hlt, Hb, Hn. reflexivity.
Qed.

Lemma stands_at_ch (pre : string) (c : ascii) (rest : string) (l : Lexer) :
  stands_at (pre +:+ String c rest) (String.length pre) l -> ch l = c.
Proof. intros [[Hs _] Hp]. exact (in_step_ch_next pre c rest l Hs Hp). Qed.

Lemma stands_at_bound (inp : string) (n : nat) (l : Lexer) :
  stands_at inp n l -> loop_bound l = S (String.length inp).
Proof. intros [[(Hi & _) _] _]. unfold loop_bound. rewrite Hi. reflexivity. Qed.

Lemma digit_is_no_newline (c : ascii) :
  isDigit c = true -> Ascii.eqb c LF = false.
Proof.
  intros H. destruct (Ascii.eqb c LF) eqn:E; [|reflexivity].
  apply Ascii.eqb_eq in E. rewrite E in H. vm_compute in H. discriminate H.
Qed.

End Places.

(** X13. Identifiers, keywords and variables are read whole, wherever
    they stand.  Let the lexer, after the whitespace it skips, hold the
    first byte of a run [word] of letters and digits that follows the
    bytes [pre] of the input and is followed by a byte of another kind or
    by the end of the input.  If the run starts with a letter,
    [NextToken] returns one token: its text is the run, its type is what
    the keyword table gives for the run, its line is one more than the
    number of newlines before the run and its column the number of bytes
    from the last newline up to and with the first byte of the run; the
    lexer then holds the byte after the run.  After [$], any such run,
    also an empty one or one that starts with a digit, is the name of a
    VARIABLE token, whose line and column are those of the lexer after
    the name.  Every state the lexer reaches from the start of an input
    by calls of [NextToken] is such a state: in step with the input, with
    the column counted from the last newline. *)
Theorem word_is_read_whole (pre word rest : string) (l : Lexer) :
  all_bytes word_byte word = true ->
  stops word_byte rest = true ->
  (forall c w,
     word = String c w -> isLetter c = true ->
     stands_at (pre +:+ word +:+ rest) (String.length pre)
       (skipWhitespace l) ->
     exists l',
       NextToken l
       = Ok ({| Type_ := LookupIdent word; Literal := word;
                Line := S (newlines (pre +:+ word +:+ rest)
                             (String.length pre));
                Column := S (column_after (pre +:+ word +:+ rest)
                               (String.length pre));
                Position := 0 |}, l') /\
       stands_at (pre +:+ word +:+ rest)
         (String.length pre + String.length word) l') /\
  (stands_at (pre +:+ String "$" (word +:+ rest)) (String.length pre)
     (skipWhitespace l) ->
   exists tok l',
     NextToken l = Ok (tok, l') /\
     Type_ tok = VARIABLE /\ Literal tok = String "$" word /\
     Line tok = line l' /\ Column tok = column l' /\
     stands_at (pre +:+ String "$" (word +:+ rest))
       (String.length pre + 1 + String.length word) l') /\
  (forall inp n l0,
     lexer_after n (New inp) = Ok l0 -> placed inp (skipWhitespace l0)).
Proof.
  intros Hw Hr. split; [|split; [|intros inp n l0;
      apply (placed_lexer_after inp n (New inp) l0 (placed_New inp))]].
  - intros c w -> Hc Hst. rewrite NextToken_skip.
    set (l1 := skipWhitespace l) in *.
    set (inp := pre +:+ String c w +:+ rest) in *.
    pose proof (stands_at_ch pre c (w +:+ rest) l1 Hst) as Hch.
    destruct (stands_at_line pre c (w +:+ rest) l1 Hst
                (letter_is_no_newline c Hc)) as [Hline Hcol].
    fold inp in Hline, Hcol.
    rewrite (NextToken_at_letter l1) by (rewrite Hch; exact Hc).
    unfold readIdentifier. cbn [fst snd].
    change (fun c0 : ascii => isLetter c0 || isDigit c0) with word_byte.
    pose proof (stands_at_bound _ _ _ Hst) as Hb.
    destruct Hst as [Hpl Hp].
    destruct (readWhile_text word_byte eq_refl (String c w) pre rest
                (loop_bound l1) l1 Hw Hr (proj1 Hpl) Hp) as [Hs' Hp'].
    { rewrite Hb. unfold inp. rewrite !length_append. lia. }
    fold inp in Hs'.
    destruct Hs' as (Hi' & _). rewrite Hi', Hp', Hp.
    unfold inp at 1. rewrite (slice_middle pre (String c w) rest).
    eexists. split.
    + rewrite Hline, Hcol. reflexivity.
    + split; [|exact Hp'].
      exact (placed_reads inp l1 _ (readWhile_reads _ _ _) Hpl).
  - intros Hst. rewrite NextToken_skip.
    set (l1 := skipWhitespace l) in *.
    set (inp := pre +:+ String "$" (word +:+ rest)) in *.
    pose proof (stands_at_ch pre "$" (word +:+ rest) l1 Hst) as Hch.
    rewrite (NextToken_at_dollar l1 Hch).
    unfold readIdentifier. cbn [fst snd].
    change (fun c0 : ascii => isLetter c0 || isDigit c0) with word_byte.
    pose proof (stands_at_bound _ _ _ Hst) as Hb.
    destruct Hst as [Hpl Hp].
    assert (Einp : inp = (pre +:+ String "$" EmptyString) +:+ word +:+ rest).
    { unfold inp. rewrite append_assoc. reflexivity. }
    assert (Hpl2 : placed inp (readChar l1)) by (apply placed_readChar, Hpl).
    assert (Hb2 : loop_bound (readChar l1) = S (String.length inp)).
    { unfold loop_bound. rewrite readChar_input. exact Hb. }
    destruct (readWhile_text word_byte eq_refl word
                (pre +:+ String "$" EmptyString) rest
                (loop_bound (readChar l1)) (readChar l1) Hw Hr)
      as [Hs' Hp'].
    { rewrite <- Einp. exact (proj1 Hpl2). }
    { change (position (readChar l1)) with (readPosition l1).
      destruct Hpl as [(_ & Hrp & _) _]. rewrite Hrp, Hp, length_append.
      cbn. lia. }
    { rewrite Hb2, Einp, !length_append. lia. }
    rewrite <- Einp in Hs'. destruct Hs' as (Hi' & _).
    rewrite Hi', Hp'.
    change (position (readChar l1)) with (readPosition l1).
    replace (readPosition l1)
      with (String.length (pre +:+ String "$" EmptyString))
      by (destruct Hpl as [(_ & Hrp & _) _]; rewrite Hrp, Hp, length_append;
          cbn; lia).
    assert (Hsl : slice inp (String.length (pre +:+ String "$" EmptyString))
                    (String.length (pre +:+ String "$" EmptyString)
                     + String.length word) = Ok word).
    { rewrite Einp. apply slice_middle. }
    rewrite Hsl.
    do 2 eexists. split; [reflexivity|]. cbn [Type_ Literal Line Column].
    do 4 (split; [reflexivity|]). split.
    + exact (placed_reads inp _ _ (readWhile_reads _ _ _) Hpl2).
    + rewrite Hp', length_append. cbn. lia.
Qed.

Lemma word_is_read_whole_witness :
  exists l l',
    lexer_after 4 (New "$n = 7; return $n;") = Ok l /\
    NextToken l
    = Ok ({| Type_ := RETURN; Literal := "return"; Line := 1; Column := 9;
             Position := 0 |}, l') /\
    stands_at "$n = 7; return $n;" 14 l'.
Proof.
  set (l := readChar (readChar (readChar (readChar (readChar
              (readChar (readChar (New "$n = 7; return $n;")))))))).
  destruct (proj1 (word_is_read_whole "$n = 7; " "return" " $n;" l
                     eq_refl eq_refl)
              "r"%char "eturn" eq_refl eq_refl) as (l' & H1 & H2).
  { split; [|reflexivity].
    apply placed_skipWhitespace.
    do 7 apply placed_readChar. apply placed_New. }
  exists l, l'. split; [vm_compute; reflexivity|].
  split; [exact H1|exact H2].
Defined.

(** X22. A number is a run of digits, with one fraction of a point and
    digits when they follow at once, wherever it stands.  Let the lexer,
    after the whitespace it skips, hold the first byte of a digit run that
    follows the bytes [pre] of the input.  If neither a digit nor a point
    and a digit follow the run, [NextToken] returns an INT token of exactly
    the run and the lexer then holds the byte after it; if a point and a
    second digit run follow, it returns a FLOAT token of the three.
    Nothing else belongs to a number: an exponent, a base prefix such as
    [0x], a second point or a point without digits are lexed as tokens of
    their own, so [0x1F] is the INT [0] and the identifier [x1F].  Every
    state the lexer reaches from the start of an input by calls of
    [NextToken] is in step with the input, as the two general parts
    require. *)
Theorem number_is_digits_with_one_fraction :
  (forall pre c w rest l,
     all_bytes isDigit (String c w) = true ->
     no_fraction rest = true ->
     stands_at (pre +:+ String c w +:+ rest) (String.length pre)
       (skipWhitespace l) ->
     exists tok l',
       NextToken l = Ok (tok, l') /\
       Type_ tok = INT /\ Literal tok = String c w /\
       stands_at (pre +:+ String c w +:+ rest)
         (String.length pre + String.length (String c w)) l')
  /\
  (forall pre c w d f rest l,
     all_bytes isDigit (String c w) = true ->
     all_bytes isDigit (String d f) = true ->
     stops isDigit rest = true ->
     stands_at (pre +:+ String c w +:+ String "." (String d f) +:+ rest)
       (String.length pre) (skipWhitespace l) ->
     exists tok l',
       NextToken l = Ok (tok, l') /\
       Type_ tok = FLOAT /\
       Literal tok = String c w +:+ String "." (String d f) /\
       stands_at (pre +:+ String c w +:+ String "." (String d f) +:+ rest)
         (String.length pre
          + String.length (String c w +:+ String "." (String d f))) l')
  /\ token_texts 3 (New "0x1F") = Ok [(INT, "0"); (IDENT, "x1F"); (EOF, "")]
  /\ token_texts 3 (New "1e5") = Ok [(INT, "1"); (IDENT, "e5"); (EOF, "")]
  /\ token_texts 4 (New "1.5.2")
     = Ok [(FLOAT, "1.5"); (CONCAT, "."); (INT, "2"); (EOF, "")]
  /\ token_texts 3 (New "7.") = Ok [(INT, "7"); (CONCAT, "."); (EOF, "")]
  /\ token_texts 3 (New ".5") = Ok [(CONCAT, "."); (INT, "5"); (EOF, "")]
  /\
  (forall inp n l0,
     lexer_after n (New inp) = Ok l0 -> placed inp (skipWhitespace l0)).
Proof.
  split; [|split;
           [|do 5 (split; [vm_compute; reflexivity|]);
             intros inp n l0;
      apply (placed_lexer_after inp n (New inp) l0 (placed_New inp))]].
  - intros pre c w rest l Hd Hn Hst. rewrite NextToken_skip.
    set (l1 := skipWhitespace l) in *.
    set (digits := String c w) in *.
    set (inp := pre +:+ digits +:+ rest) in *.
    assert (Hc : isDigit c = true).
    { cbn [all_bytes] in Hd. apply andb_true_iff in Hd as [Hc _]. exact Hc. }
    pose proof (stands_at_ch pre c (w +:+ rest) l1 Hst) as Hch.
    pose proof (stands_at_bound _ _ _ Hst) as Hb.
    destruct Hst as [Hpl Hp].
    rewrite (NextToken_at_digit l1) by (rewrite Hch; exact Hc).
    unfold readNumber.
    destruct (readWhile_text isDigit eq_refl digits pre rest
                (loop_bound l1) l1 Hd (no_fraction_stops _ Hn)
                (proj1 Hpl) Hp) as [Hs Hp'].
    { rewrite Hb. unfold inp. rewrite !length_append. lia. }
    fold inp in Hs.
    pose proof (placed_reads inp l1 _ (readWhile_reads isDigit
                                         (loop_bound l1) l1) Hpl) as Hpl'.
    set (l2 := readWhile isDigit (loop_bound l1) l1) in *.
    assert (Einp : inp = (pre +:+ digits) +:+ rest).
    { unfold inp. rewrite append_assoc. reflexivity. }
    assert (Hp2 : position l2 = String.length (pre +:+ digits)).
    { rewrite Hp', length_append. reflexivity. }
    assert (Hno : Ascii.eqb (ch l2) "." && isDigit (peekChar l2) = false).
    { rewrite Einp in Hs. destruct rest as [|r tail].
      - rewrite append_empty in Hs.
        rewrite (in_step_ch_end (pre +:+ digits) l2 Hs Hp2). reflexivity.
      - rewrite (in_step_ch_next (pre +:+ digits) r tail l2 Hs Hp2).
        rewrite (in_step_peek (pre +:+ digits) r tail l2 Hs Hp2).
        cbn [no_fraction] in Hn. apply andb_true_iff in Hn as [_ Hn].
        apply negb_true_iff in Hn. destruct tail; exact Hn. }
    rewrite Hno. destruct Hs as (Hi & _). rewrite Hi, Hp', Hp.
    assert (Hsl : slice inp (String.length pre)
                    (String.length pre + String.length digits) = Ok digits)
      by exact (slice_middle pre digits rest).
    rewrite Hsl.
    do 2 eexists. split; [reflexivity|]. do 2 (split; [reflexivity|]).
    split; [exact Hpl'|exact Hp'].
  - intros pre c w d f rest l Hd Hf Hr Hst. rewrite NextToken_skip.
    set (l1 := skipWhitespace l) in *.
    set (digits := String c w) in *. set (frac := String d f) in *.
    set (inp := pre +:+ digits +:+ String "." frac +:+ rest) in *.
    assert (Hc : isDigit c = true).
    { cbn [all_bytes] in Hd. apply andb_true_iff in Hd as [Hc _]. exact Hc. }
    assert (Hdd : isDigit d = true).
    { cbn [all_bytes] in Hf. apply andb_true_iff in Hf as [Hdd _].
      exact Hdd. }
    pose proof (stands_at_ch pre c (w +:+ String "." frac +:+ rest) l1 Hst)
      as Hch.
    pose proof (stands_at_bound _ _ _ Hst) as Hb.
    destruct Hst as [Hpl Hp].
    assert (Einp : inp = pre +:+ digits +:+ String "." (frac +:+ rest)).
    { reflexivity. }
    assert (Einp2 : inp = (pre +:+ digits) +:+ String "." (frac +:+ rest)).
    { rewrite Einp. symmetry. apply append_assoc. }
    assert (Einp3 : inp = ((pre +:+ digits) +:+ String "." EmptyString)
                          +:+ frac +:+ rest).
    { rewrite Einp2. symmetry.
      exact (append_assoc (pre +:+ digits) (String "." EmptyString)
               (frac +:+ rest)). }
    assert (Einp4 : inp = pre +:+ (digits +:+ String "." frac) +:+ rest).
    { rewrite Einp. f_equal. symmetry.
      exact (append_assoc digits (String "." frac) rest). }
    rewrite (NextToken_at_digit l1) by (rewrite Hch; exact Hc).
    unfold readNumber.
    destruct (readWhile_text isDigit eq_refl digits pre
                (String "." (frac +:+ rest))
                (loop_bound l1) l1 Hd eq_refl) as [Hs Hp'].
    { rewrite <- Einp. exact (proj1 Hpl). }
    { exact Hp. }
    { rewrite Hb, Einp, !length_append. lia. }
    rewrite <- Einp in Hs.
    pose proof (placed_reads inp l1 _ (readWhile_reads isDigit
                                         (loop_bound l1) l1) Hpl) as Hpl'.
    set (l2 := readWhile isDigit (loop_bound l1) l1) in *.
    assert (Hp2 : position l2 = String.length (pre +:+ digits)).
    { rewrite Hp', length_append. reflexivity. }
    assert (Hs2 : in_step ((pre +:+ digits) +:+ String "." (frac +:+ rest))
                    l2) by (rewrite <- Einp2; exact Hs).
    rewrite (in_step_ch_next (pre +:+ digits) "." (frac +:+ rest) l2 Hs2 Hp2).
    assert (Hpk : peekChar l2 = d)
      by exact (in_step_peek (pre +:+ digits) "." (frac +:+ rest) l2 Hs2 Hp2).
    rewrite Hpk, Hdd. cbn [Ascii.eqb Bool.eqb andb].
    pose proof (placed_readChar inp l2 Hpl') as Hpl3.
    destruct (readWhile_text isDigit eq_refl frac
                ((pre +:+ digits) +:+ String "." EmptyString) rest
                (loop_bound (readChar l2)) (readChar l2) Hf Hr)
      as [Hs3 Hp3].
    { rewrite <- Einp3. exact (proj1 Hpl3). }
    { destruct Hs as (_ & Hrp & _). rewrite length_append.
      change (position (readChar l2)) with (readPosition l2).
      rewrite Hrp, Hp2. cbn. lia. }
    { destruct Hpl3 as [(Hi3 & _) _]. unfold loop_bound. rewrite Hi3, Einp3.
      rewrite !length_append. lia. }
    rewrite <- Einp3 in Hs3.
    pose proof (placed_reads inp _ _
                  (readWhile_reads isDigit (loop_bound (readChar l2))
                     (readChar l2)) Hpl3) as Hpl4.
    destruct Hs3 as (Hi3 & _). rewrite Hi3, Hp3, Hp.
    assert (Hsl : slice inp (String.length pre)
                    (String.length ((pre +:+ digits) +:+ String "." EmptyString)
                     + String.length frac)
                  = Ok (digits +:+ String "." frac)).
    { replace (String.length ((pre +:+ digits) +:+ String "." EmptyString)
               + String.length frac)
        with (String.length pre
              + String.length (digits +:+ String "." frac))
        by (rewrite !length_append; cbn; lia).
      rewrite Einp4. apply slice_middle. }
    rewrite Hsl.
    do 2 eexists. split; [reflexivity|]. do 2 (split; [reflexivity|]).
    split; [exact Hpl4|].
    rewrite Hp3, !length_append. cbn. lia.
Qed.

Lemma number_is_digits_with_one_fraction_witness :
  (exists l tok l',
     lexer_after 2 (New "$n = 2024e3;") = Ok l /\
     NextToken l = Ok (tok, l') /\
     Type_ tok = INT /\ Literal tok = "2024" /\
     stands_at "$n = 2024e3;" 9 l')
  /\
  (exists l tok l',
     lexer_after 2 (New "$pi = 3.14.15;") = Ok l /\
     NextToken l = Ok (tok, l') /\
     Type_ tok = FLOAT /\ Literal tok = "3.14" /\
     stands_at "$pi = 3.14.15;" 10 l').
Proof.
  split.
  - set (l := readChar (readChar (readChar (readChar
                (New "$n = 2024e3;"))))).
    destruct (proj1 number_is_digits_with_one_fraction
                "$n = " "2"%char "024" "e3;" l eq_refl eq_refl)
      as (tok & l' & H).
    { split; [|reflexivity]. apply placed_skipWhitespace.
      do 4 apply placed_readChar. apply placed_New. }
    exists l, tok, l'. split; [vm_compute; reflexivity|exact H].
  - set (l := readChar (readChar (readChar (readChar (readChar
                (New "$pi = 3.14.15;")))))).
    destruct (proj1 (proj2 number_is_digits_with_one_fraction)
                "$pi = " "3"%char EmptyString "1"%char "4" ".15;" l
                eq_refl eq_refl eq_refl)
      as (tok & l' & H).
    { split; [|reflexivity]. apply placed_skipWhitespace.
      do 5 apply placed_readChar. apply placed_New. }
    exists l, tok, l'. split; [vm_compute; reflexivity|exact H].
Defined.

Section StringsAnywhere.

Variable d : ascii.
Hypothesis Hd : d = DQUOTE \/ d = SQUOTE.
Variables pre body : string.
Hypothesis Hplain : plain_text d body = true.

(** The lexer at the opening delimiter, and where the body leaves it. *)
Lemma readString_loop_literal (tail : string) (l : Lexer) (fuel : nat) :
  stands_at (pre +:+ String d (body +:+ tail)) (String.length pre) l ->
  exists l',
    readString_loop d (String.length body + fuel) l
    = readString_loop d fuel l' /\
    input l' = pre +:+ String d (body +:+ tail) /\
    readPosition l' = String.length pre + 1 + String.length body /\
    reads l l'.
Proof.
  intros [[(Hi & Hr & _) _] Hp].
  assert (G : forall b p t f x,
             plain_text d b = true ->
             input x = p +:+ b +:+ t ->
             readPosition x = String.length p ->
             exists x',
               readString_loop d (String.length b + f) x
               = readString_loop d f x' /\
               readPosition x' = String.length p + String.length b /\
               reads x x').
  { induction b as [|c b IH]; intros p t f x Hb Hx Hrx.
    - exists x. split; [reflexivity|]. split; [cbn; lia|constructor].
    - cbn [plain_text] in Hb.
      apply andb_true_iff in Hb as [Hb Hrest].
      apply andb_true_iff in Hb as [Hb Hbs].
      apply andb_true_iff in Hb as [Hdl Hn].
      apply negb_true_iff in Hdl, Hn, Hbs.
      assert (Hc : ch (readChar x) = c).
      { apply (readChar_next x p c (b +:+ t)); assumption. }
      destruct (IH (p +:+ String c EmptyString) t f (readChar x) Hrest)
        as (x' & H1 & H2 & H3).
      + rewrite readChar_input, Hx, append_assoc. reflexivity.
      + rewrite readChar_readPosition, Hrx, length_append. cbn. lia.
      + exists x'. cbn [String.length plus readString_loop].
        rewrite Hc, Hdl, Hn, Hbs. cbn [orb]. split; [exact H1|].
        split; [rewrite H2, length_append; cbn; lia|].
        apply (reads_trans _ (readChar x)); [apply reads_one|exact H3]. }
  destruct (G body (pre +:+ String d EmptyString) tail fuel l Hplain)
    as (l' & H1 & H2 & H3).
  - rewrite Hi, append_assoc. reflexivity.
  - rewrite Hr, Hp, length_append. cbn. lia.
  - exists l'. split; [exact H1|]. split.
    + rewrite (reads_input _ _ H3). exact Hi.
    + split; [|exact H3]. rewrite H2, length_append. cbn. lia.
Qed.

Lemma literal_bound (tail : string) (l : Lexer) :
  stands_at (pre +:+ String d (body +:+ tail)) (String.length pre) l ->
  loop_bound l
  = String.length body + S (S (String.length pre + String.length tail)).
Proof.
  intros H. rewrite (stands_at_bound _ _ _ H), length_append.
  cbn [String.length]. rewrite length_append. lia.
Qed.

Lemma literal_slice (tail : string) :
  slice (pre +:+ String d (body +:+ tail)) (String.length pre + 1)
    (String.length pre + 1 + String.length body)
  = Ok body.
Proof.
  replace (pre +:+ String d (body +:+ tail))
    with ((pre +:+ String d EmptyString) +:+ body +:+ tail)
    by (rewrite append_assoc; reflexivity).
  replace (String.length pre + 1)
    with (String.length (pre +:+ String d EmptyString))
    by (rewrite length_append; reflexivity).
  apply slice_middle.
Qed.

End StringsAnywhere.

(** X11. A string literal whose text has no delimiter, backslash or 0
    byte, wherever it stands in the input.  Let the lexer, after the
    whitespace it skips, hold the opening delimiter, which follows the
    bytes [pre].  When the literal is closed, [NextToken] returns a
    STRING token with its text, and the lexer then holds the byte after
    the closing delimiter.  When the input ends before the closing
    delimiter, it returns the same token, without any error.  When the
    input ends with a backslash inside the literal, [readString] reads
    two bytes past the end and its slice of the input is out of range:
    [NextToken] panics.  Every state the lexer reaches from the start of
    an input by calls of [NextToken] is in step with the input, as the
    three cases require. *)
Theorem string_literal_is_read_back_or_panics
  (d : ascii) (pre body : string) (l : Lexer) :
  d = DQUOTE \/ d = SQUOTE ->
  plain_text d body = true ->
  (forall rest,
     stands_at (pre +:+ String d (body +:+ String d rest))
       (String.length pre) (skipWhitespace l) ->
     exists tok l',
       NextToken l = Ok (tok, l') /\
       Type_ tok = STRING /\ Literal tok = body /\
       stands_at (pre +:+ String d (body +:+ String d rest))
         (String.length pre + String.length body + 2) l') /\
  (stands_at (pre +:+ String d body) (String.length pre) (skipWhitespace l) ->
   exists tok l',
     NextToken l = Ok (tok, l') /\
     Type_ tok = STRING /\ Literal tok = body) /\
  (stands_at (pre +:+ String d (body +:+ String BACKSLASH EmptyString))
     (String.length pre) (skipWhitespace l) ->
   NextToken l = Panic) /\
  (forall inp n l0,
     lexer_after n (New inp) = Ok l0 -> placed inp (skipWhitespace l0)).
Proof.
  intros Hd Hp. destruct (delimiter_is_no_backslash d Hd) as [Hb Hn].
  split; [|split; [|split; [|intros inp n l0;
      apply (placed_lexer_after inp n (New inp) l0 (placed_New inp))]]].
  - intros rest Hst. rewrite NextToken_skip.
    set (l1 := skipWhitespace l) in *.
    pose proof (stands_at_ch pre d (body +:+ String d rest) l1 Hst) as Hch.
    rewrite (NextToken_at_quote l1 d Hch Hd).
    rewrite (literal_bound d pre body (String d rest) l1 Hst).
    destruct (readString_loop_literal d pre body Hp (String d rest) l1
                (S (S (String.length pre + String.length (String d rest))))
                Hst) as (l' & -> & Hi & Hr & Hrd).
    cbn [readString_loop].
    assert (Hc : ch (readChar l') = d).
    { apply (readChar_next l' (pre +:+ String d body) d rest).
      - rewrite Hi, append_assoc. reflexivity.
      - rewrite Hr, length_append. cbn. lia. }
    rewrite Hc, Ascii.eqb_refl. cbn [orb].
    rewrite readChar_input, Hi.
    change (position (readChar l')) with (readPosition l').
    rewrite Hr, (proj2 Hst).
    rewrite (literal_slice d pre body (String d rest)).
    do 2 eexists. split; [reflexivity|]. do 2 (split; [reflexivity|]).
    split.
    + apply (placed_reads _ l1); [|exact (proj1 Hst)].
      do 2 apply reads_more. exact Hrd.
    + change (position (readChar (readChar l')))
        with (readPosition (readChar l')).
      rewrite readChar_readPosition, Hr. lia.
  - intros Hst. rewrite <- (append_empty body) in Hst at 1.
    rewrite NextToken_skip.
    set (l1 := skipWhitespace l) in *.
    pose proof (stands_at_ch pre d (body +:+ EmptyString) l1 Hst) as Hch.
    rewrite (NextToken_at_quote l1 d Hch Hd).
    rewrite (literal_bound d pre body EmptyString l1 Hst).
    destruct (readString_loop_literal d pre body Hp EmptyString l1
                (S (S (String.length pre + String.length EmptyString)))
                Hst) as (l' & -> & Hi & Hr & Hrd).
    cbn [readString_loop].
    assert (Hc : ch (readChar l') = NUL).
    { apply readChar_at_end. rewrite Hi, Hr, length_append.
      cbn [String.length]. rewrite length_append. cbn. lia. }
    rewrite Hc, orb_true_r.
    rewrite readChar_input, Hi.
    change (position (readChar l')) with (readPosition l').
    rewrite Hr, (proj2 Hst).
    rewrite (literal_slice d pre body EmptyString).
    do 2 eexists. split; [reflexivity|]. split; reflexivity.
  - intros Hst. rewrite NextToken_skip.
    set (l1 := skipWhitespace l) in *.
    pose proof (stands_at_ch pre d (body +:+ String BACKSLASH EmptyString)
                  l1 Hst) as Hch.
    rewrite (NextToken_at_quote l1 d Hch Hd).
    rewrite (literal_bound d pre body (String BACKSLASH EmptyString) l1 Hst).
    destruct (readString_loop_literal d pre body Hp
                (String BACKSLASH EmptyString) l1
                (S (S (String.length pre
                       + String.length (String BACKSLASH EmptyString))))
                Hst) as (l' & -> & Hi & Hr & Hrd).
    cbn [readString_loop String.length].
    assert (Hc : ch (readChar l') = BACKSLASH).
    { apply (readChar_next l' (pre +:+ String d body) BACKSLASH EmptyString).
      - rewrite Hi, append_assoc. reflexivity.
      - rewrite Hr, length_append. cbn. lia. }
    assert (Hlen : String.length (input l')
                   = String.length pre + String.length body + 2).
    { rewrite Hi, length_append. cbn [String.length].
      rewrite length_append. cbn. lia. }
    assert (Hc2 : ch (readChar (readChar l')) = NUL).
    { apply readChar_at_end.
      rewrite readChar_input, readChar_readPosition, Hlen, Hr. lia. }
    assert (Hc3 : ch (readChar (readChar (readChar l'))) = NUL).
    { apply readChar_at_end.
      rewrite !readChar_input, !readChar_readPosition, Hlen, Hr. lia. }
    rewrite Hc, Hb. cbn [orb Ascii.eqb Bool.eqb BACKSLASH NUL].
    replace (String.length pre + 1) with (S (String.length pre)) by lia.
    cbn [readString_loop].
    rewrite Hc3, orb_true_r.
    unfold slice. rewrite !readChar_input, Hlen.
    change (position (readChar ?x)) with (readPosition x).
    rewrite !readChar_readPosition, Hr.
    destruct (Nat.leb_spec (S (S (String.length pre + 1 + String.length body)))
                (String.length pre + String.length body + 2)); [lia|].
    reflexivity.
Qed.

Lemma string_literal_is_read_back_or_panics_witness :
  (exists l tok l',
     lexer_after 2 (New "$s = 'it'; ") = Ok l /\
     NextToken l = Ok (tok, l') /\
     Type_ tok = STRING /\ Literal tok = "it" /\
     stands_at "$s = 'it'; " 9 l')
  /\
  (exists l,
     lexer_after 2 (New (String "$" (String "p" (String "="
                      (String DQUOTE "C:\"))))) = Ok l /\
     NextToken l = Panic).
Proof.
  split.
  - set (l := readChar (readChar (readChar (readChar (New "$s = 'it'; "))))).
    destruct (proj1 (string_literal_is_read_back_or_panics SQUOTE "$s = "
                       "it" l (or_intror eq_refl) eq_refl) "; ")
      as (tok & l' & H).
    { split; [|reflexivity]. apply placed_skipWhitespace.
      do 4 apply placed_readChar. apply placed_New. }
    exists l, tok, l'. split; [vm_compute; reflexivity|exact H].
  - set (inp := String "$" (String "p" (String "=" (String DQUOTE "C:\")))).
    set (l := readChar (readChar (readChar (New inp)))).
    exists l. split; [vm_compute; reflexivity|].
    apply (proj1 (proj2 (proj2 (string_literal_is_read_back_or_panics DQUOTE
                                  "$p=" "C:" l (or_introl eq_refl)
                                  eq_refl)))).
    split; [|reflexivity]. apply placed_skipWhitespace.
    do 3 apply placed_readChar. apply placed_New.
Defined.

Section Comments.

Local Ltac break_if :=
  match goal with
  | |- context [if ?b then _ else _] => destruct b eqn:?
  end.

(** The bound matters at [//] only. *)
Lemma NextToken_rec_S (fuel : nat) (l : Lexer) :
  NextToken_rec (S fuel) l
  = if Ascii.eqb (ch (skipWhitespace l)) "/"
       && Ascii.eqb (peekChar (skipWhitespace l)) "/"
    then NextToken_rec fuel (skipComment (skipWhitespace l))
    else NextToken_rec 0 l.
Proof.
  rewrite (NextToken_rec_eq0 l), (NextToken_rec_eq fuel l).
  set (l1 := skipWhitespace l).
  destruct (Ascii.eqb (ch l1) "/" && Ascii.eqb (peekChar l1) "/") eqn:E.
  - apply andb_true_iff in E as [E1 E2]. rewrite E2.
    apply Ascii.eqb_eq in E1. rewrite E1. reflexivity.
  - repeat break_if; try reflexivity.
    all: cbn [andb] in E; discriminate E.
Qed.

Lemma NextToken_rec_0 (l : Lexer) :
  Ascii.eqb (ch (skipWhitespace l)) "/"
  && Ascii.eqb (peekChar (skipWhitespace l)) "/" = true ->
  NextToken_rec 0 l = Timeout.
Proof.
  intros E. rewrite (NextToken_rec_eq0 l).
  apply andb_true_iff in E as [E1 E2]. rewrite E2.
  apply Ascii.eqb_eq in E1. rewrite E1. reflexivity.
Qed.

(** More fuel than the comments need changes nothing. *)
Lemma NextToken_rec_more : forall fuel l,
  NextToken_rec fuel l <> Timeout ->
  NextToken_rec (S fuel) l = NextToken_rec fuel l.
Proof.
  induction fuel as [|f IH]; intros l H.
  - rewrite NextToken_rec_S.
    destruct (Ascii.eqb (ch (skipWhitespace l)) "/"
              && Ascii.eqb (peekChar (skipWhitespace l)) "/") eqn:E;
      [|reflexivity].
    exfalso. apply H, NextToken_rec_0, E.
  - rewrite (NextToken_rec_S (S f) l), (NextToken_rec_S f l).
    rewrite (NextToken_rec_S f l) in H.
    destruct (Ascii.eqb (ch (skipWhitespace l)) "/"
              && Ascii.eqb (peekChar (skipWhitespace l)) "/");
      [apply IH, H|reflexivity].
Qed.

Lemma NextToken_at_comment (inp : string) (l : Lexer) :
  in_step inp l ->
  ch (skipWhitespace l) = "/"%char -> peekChar (skipWhitespace l) = "/"%char ->
  NextToken l = NextToken (skipComment (skipWhitespace l)).
Proof.
  intros Hl Hc Hp. set (l1 := skipWhitespace l) in *.
  destruct (skipComment_progress l1 Hc Hp) as [Hi Hr].
  pose proof (skipWhitespace_input l) as Hi1. fold l1 in Hi1.
  unfold NextToken at 1. unfold loop_bound.
  rewrite NextToken_rec_S. fold l1. rewrite Hc, Hp.
  cbn [Ascii.eqb Bool.eqb andb].
  unfold NextToken, loop_bound. rewrite Hi, Hi1.
  symmetry. apply NextToken_rec_more, NextToken_rec_no_timeout.
  rewrite Hi, Hi1.
  assert (readPosition l1 < String.length (input l1)).
  { apply peekChar_in_range. rewrite Hp. discriminate. }
  rewrite Hi1 in H. lia.
Qed.

End Comments.

(** X12. [NextToken] skips a comment only at [//], in every state of the
    lexer.  Where, after the whitespace, the lexer holds [/] and the next
    byte is not [/] (so also at [/*]), the token is DIVIDE [/] and one
    byte is read; where it holds [#], the token is ILLEGAL [#].  Only
    where it holds [//] is [skipComment] called, which there takes its
    line-comment branch, and the token is the one that follows the rest
    of the line.  So a block comment is lexed as the tokens of its text,
    and the block-comment and hash branches of [skipComment] are not used
    by [NextToken].  Every state the lexer reaches from the start of an
    input by calls of [NextToken] is in step with the input. *)
Theorem block_and_hash_comments_are_tokens :
  (forall inp l,
     in_step inp l ->
     let l1 := skipWhitespace l in
     (ch l1 = "/"%char -> peekChar l1 <> "/"%char ->
      NextToken l
      = Ok ({| Type_ := DIVIDE; Literal := "/"; Line := line l1;
               Column := column l1; Position := 0 |}, readChar l1)) /\
     (ch l1 = "#"%char ->
      NextToken l
      = Ok ({| Type_ := ILLEGAL; Literal := "#"; Line := line l1;
               Column := column l1; Position := 0 |}, readChar l1)) /\
     (ch l1 = "/"%char -> peekChar l1 = "/"%char ->
      skipComment l1 = readWhile not_eol (loop_bound l1) l1 /\
      NextToken l = NextToken (skipComment l1)))
  /\ token_texts 8 (New "1 /* c */ 2")
     = Ok [(INT, "1"); (DIVIDE, "/"); (MULTIPLY, "*"); (IDENT, "c");
           (MULTIPLY, "*"); (DIVIDE, "/"); (INT, "2"); (EOF, "")]
  /\ token_texts 4 (New "1 # c")
     = Ok [(INT, "1"); (ILLEGAL, "#"); (IDENT, "c"); (EOF, "")]
  /\ token_texts 3 (New (String "1" (String " " (String "/" (String "/"
                      (String " " (String "c" (String LF "2"))))))))
     = Ok [(INT, "1"); (INT, "2"); (EOF, "")]
  /\
  (forall inp n l,
     lexer_after n (New inp) = Ok l -> in_step inp l).
Proof.
  split; [|do 3 (split; [vm_compute; reflexivity|]);
           intros inp n l;
           apply (in_step_lexer_after inp n (New inp) l (in_step_New inp))].
  intros inp l Hl l1. split; [|split].
  - intros Hc Hp. rewrite NextToken_skip. fold l1.
    apply NextToken_slash; [exact Hc|].
    destruct (Ascii.eqb (peekChar l1) "/") eqn:E; [|reflexivity].
    apply Ascii.eqb_eq in E. contradiction.
  - intros Hc. rewrite NextToken_skip. fold l1.
    apply NextToken_hash. exact Hc.
  - intros Hc Hp. split.
    + unfold skipComment. rewrite Hc, Hp. reflexivity.
    + exact (NextToken_at_comment inp l Hl Hc Hp).
Qed.

Lemma block_and_hash_comments_are_tokens_witness :
  exists l,
    lexer_after 1 (New "1 /* c */ 2") = Ok l /\
    NextToken l
    = Ok ({| Type_ := DIVIDE; Literal := "/"; Line := 1; Column := 3;
             Position := 0 |}, readChar (skipWhitespace l)).
Proof.
  set (l := readChar (New "1 /* c */ 2")).
  exists l. split; [vm_compute; reflexivity|].
  apply (proj1 (proj1 block_and_hash_comments_are_tokens "1 /* c */ 2" l
                  (in_step_next _ _ (in_step_New _))));
    [reflexivity|discriminate].
Defined.

Section EndOfInput.

Local Ltac break_if :=
  match goal with
  | |- context [if ?b then _ else _] => destruct b eqn:?
  end.

Lemma LookupIdent_no_EOF (s : string) : LookupIdent s <> EOF.
Proof.
  unfold LookupIdent, keywords. repeat break_if; discriminate.
Qed.

Local Ltac eof_leaf l :=
  let H := fresh "H" in
  let Ht := fresh "Ht" in
  unfold readNumber;
  try match goal with
      | |- context [readString ?c ?x] => destruct (readString c x) as [? ?]
      | |- context [readIdentifier ?x] =>
          destruct (readIdentifier x) as [? ?]
      end;
  intros H Ht;
  unfold Lexer.advance, single, twoCharToken, lexLess, lexQuestion, tokenAt,
    newToken, withLiteral in H;
  repeat match type of H with
         | context [if ?b then _ else _] =>
             destruct b; cbv beta iota zeta in H
         | context [slice ?a ?b ?c] => destruct (slice a b c)
         | context [match ?x with _ => _ end] => is_var x; destruct x
         end;
  cbv beta iota zeta in H;
  try discriminate H;
  injection H as <- <-; cbn [Type_ Literal fst snd] in Ht |- *;
  first [ discriminate Ht
        | exfalso; exact (LookupIdent_no_EOF _ Ht)
        | exists (skipWhitespace l);
          split; [apply readWhile_reads|];
          split; [apply Ascii.eqb_eq; assumption|reflexivity] ].

Lemma NextToken_rec_0_EOF (l : Lexer) (tok : Token) (l' : Lexer) :
  NextToken_rec 0 l = Ok (tok, l') -> Type_ tok = EOF ->
  exists l0, reads l l0 /\ ch l0 = NUL /\ l' = readChar l0.
Proof.
  rewrite NextToken_rec_eq0. repeat break_if; try eof_leaf l.
  all: discriminate.
Qed.

(** EOF is answered only at a 0 byte: the end of the input, or a 0 byte in
    it. *)
Lemma NextToken_rec_EOF : forall fuel l tok l',
  NextToken_rec fuel l = Ok (tok, l') -> Type_ tok = EOF ->
  exists l0, reads l l0 /\ ch l0 = NUL /\ l' = readChar l0.
Proof.
  induction fuel as [|f IH]; intros l tok l'; [apply NextToken_rec_0_EOF|].
  rewrite NextToken_rec_S.
  destruct (Ascii.eqb (ch (skipWhitespace l)) "/"
            && Ascii.eqb (peekChar (skipWhitespace l)) "/");
    [|apply NextToken_rec_0_EOF].
  intros H Ht. destruct (IH _ _ _ H Ht) as (l0 & Hr & Hc & ->).
  exists l0. split; [|split; [exact Hc|reflexivity]].
  apply (reads_trans _ (skipWhitespace l)); [apply readWhile_reads|].
  apply (reads_trans _ (skipComment (skipWhitespace l)));
    [apply skipComment_reads|exact Hr].
Qed.

End EndOfInput.

(** X9. Tokenising ends, and only at the end.  For every input, within as
    many calls of [NextToken] as the input has bytes, and one more, the
    lexer returns EOF, unless a call panics before; the same holds from
    every state the lexer is in between two calls.  Every call that
    returns reads at least one byte and leaves the lexer in step with the
    input.  A token other than EOF starts inside the input; and EOF is
    answered only where the lexer holds a 0 byte, which is the end of the
    input or a 0 byte in it.  Every state the lexer reaches from the start
    of the input by calls of [NextToken] is in step with it. *)
Theorem tokenising_reaches_EOF (inp : string) :
  (exists n,
     n <= String.length inp /\
     (nth_token n (New inp) = Panic \/
      exists tok l, nth_token n (New inp) = Ok (tok, l) /\ Type_ tok = EOF))
  /\
  (forall l,
     in_step inp l ->
     exists n,
       n <= S (String.length inp) - readPosition l /\
       (nth_token n l = Panic \/
        exists tok l', nth_token n l = Ok (tok, l') /\ Type_ tok = EOF))
  /\
  (forall l tok l',
     in_step inp l -> NextToken l = Ok (tok, l') ->
     in_step inp l' /\
     readPosition l < readPosition l' /\
     (Type_ tok <> EOF ->
      position (skipWhitespace l) < String.length inp /\
      ch (skipWhitespace l) <> NUL) /\
     (Type_ tok = EOF ->
      exists l0,
        reads l l0 /\ l' = readChar l0 /\ ch l0 = NUL /\
        (String.length inp <= position l0 \/
         byte_at inp (position l0) = NUL)))
  /\
  (forall n l, lexer_after n (New inp) = Ok l -> in_step inp l).
Proof.
  split; [|split; [|split]].
  - apply (nth_token_reaches_EOF inp (String.length inp) (New inp)).
    + apply in_step_New.
    + unfold New. rewrite readChar_readPosition. cbn [readPosition]. lia.
  - intros l Hl.
    exact (nth_token_reaches_EOF inp _ l Hl (Nat.le_refl _)).
  - intros l tok l' Hl H.
    split; [exact (in_step_NextToken inp l tok l' Hl H)|].
    destruct (NextToken_moved l tok l' H) as [Hr Hch].
    split.
    { apply reads_readPosition in Hr. rewrite readChar_readPosition in Hr.
      lia. }
    split.
    + intros Hne. specialize (Hch Hne). split; [|exact Hch].
      pose proof (readWhile_reads isWhitespace (loop_bound l) l) as Hws.
      fold (skipWhitespace l) in Hws.
      destruct (in_step_reads inp _ _ Hws Hl) as (_ & _ & Hc & _).
      rewrite Hc in Hch.
      destruct (Nat.leb_spec (String.length inp)
                  (position (skipWhitespace l))); [congruence|lia].
    + intros He.
      destruct (NextToken_rec_EOF _ _ _ _ H He) as (l0 & Hr0 & Hc0 & ->).
      exists l0. split; [exact Hr0|]. split; [reflexivity|].
      split; [exact Hc0|].
      destruct (in_step_reads inp _ _ Hr0 Hl) as (_ & _ & Hc & _).
      rewrite Hc in Hc0.
      destruct (Nat.leb_spec (String.length inp) (position l0));
        [left; assumption|right; exact Hc0].
  - intros n l.
    apply (in_step_lexer_after inp n (New inp) l (in_step_New inp)).
Qed.

Lemma tokenising_reaches_EOF_witness :
  exists l tok l',
    lexer_after 2 (New "$a = 1; // end") = Ok l /\
    NextToken l = Ok (tok, l') /\
    Type_ tok = INT /\
    readPosition l < readPosition l' /\
    position (skipWhitespace l) < String.length "$a = 1; // end".
Proof.
  set (l := readChar (readChar (readChar (readChar (New "$a = 1; // end"))))).
  assert (E : exists tok l', NextToken l = Ok (tok, l') /\ Type_ tok = INT).
  { do 2 eexists. split; [vm_compute; reflexivity|reflexivity]. }
  destruct E as (tok & l' & E & Ht).
  exists l, tok, l'. split; [vm_compute; reflexivity|].
  split; [exact E|]. split; [exact Ht|].
  destruct (proj1 (proj2 (proj2 (tokenising_reaches_EOF "$a = 1; // end")))
              l tok l')
    as (_ & Hmove & Hin & _).
  - do 4 apply in_step_next. apply in_step_New.
  - exact E.
  - split; [exact Hmove|]. apply Hin. rewrite Ht. discriminate.
Defined.

(** ** The decrement operator *)

Section Decrement.

Local Ltac break_if :=
  match goal with
  | |- context [if ?b then _ else _] => destruct b eqn:?
  end.

Lemma LookupIdent_no_DECREMENT (s : string) : LookupIdent s <> DECREMENT.
Proof.
  unfold LookupIdent, keywords. repeat break_if; discriminate.
Qed.

Local Ltac decrement_leaf :=
  let H := fresh "H" in
  let Ht := fresh "Ht" in
  unfold readNumber;
  try match goal with
      | |- context [readString ?c ?x] => destruct (readString c x) as [? ?]
      | |- context [readIdentifier ?x] =>
          destruct (readIdentifier x) as [? ?]
      end;
  intros H Ht;
  unfold Lexer.advance, single, twoCharToken, lexLess, lexQuestion, tokenAt,
    newToken, withLiteral in H;
  repeat match type of H with
         | context [if ?b then _ else _] =>
             destruct b; cbv beta iota zeta in H
         | context [slice ?a ?b ?c] => destruct (slice a b c)
         | context [match ?x with _ => _ end] => is_var x; destruct x
         end;
  cbv beta iota zeta in H;
  try discriminate H;
  injection H as <- <-; cbn [Type_ Literal fst snd] in Ht;
  first [ discriminate Ht
        | exact (LookupIdent_no_DECREMENT _ Ht) ].

Lemma NextToken_rec_0_no_DECREMENT (l : Lexer) (tok : Token) (l' : Lexer) :
  NextToken_rec 0 l = Ok (tok, l') -> Type_ tok <> DECREMENT.
Proof.
  rewrite NextToken_rec_eq0. unfold not. repeat break_if; try decrement_leaf.
  all: discriminate.
Qed.

Lemma NextToken_rec_no_DECREMENT : forall fuel l tok l',
  NextToken_rec fuel l = Ok (tok, l') -> Type_ tok <> DECREMENT.
Proof.
  induction fuel as [|f IH]; intros l tok l';
    [apply NextToken_rec_0_no_DECREMENT|].
  rewrite NextToken_rec_S.
  destruct (Ascii.eqb (ch (skipWhitespace l)) "/"
            && Ascii.eqb (peekChar (skipWhitespace l)) "/");
    [apply IH|apply NextToken_rec_0_no_DECREMENT].
Qed.

(** At [--] the lexer answers the token of one [-]. *)
Lemma NextToken_at_minus_minus (l : Lexer) :
  starts_with l "--" = true ->
  NextToken l
  = Ok ({| Type_ := MINUS; Literal := "-"; Line := line l;
           Column := column l; Position := 0 |}, readChar l).
Proof.
  intros H. split_start l H.
  unfold NextToken, loop_bound. rewrite NextToken_rec_eq.
  rewrite skipWhitespace_id by (rewrite Hb; reflexivity).
  unfold single, newToken, advance.
  rewrite peekChar_lookahead, Hb, Hb0. reflexivity.
Qed.

End Decrement.

(** C2. The lexer prefers the longest operator among those it reads, and
    it never reads [--].  No call of [NextToken] returns a DECREMENT
    token: wherever the input reads [--], the token is MINUS with the text
    [-], and one byte is consumed; so [$i--;] is lexed as VARIABLE, MINUS,
    MINUS, SEMICOLON, and parsed with an error, although [NewParser]
    registers a prefix and a postfix function for DECREMENT and the
    sibling [++] is one INCREMENT token of two bytes.  For the sixteen
    operators of more than one byte that [NextToken] does read, the claim
    holds at every place of the input: where the input reads such an
    operator and no longer one, [NextToken] returns that operator's token
    and consumes exactly its bytes; the input [<=>] is one SPACESHIP token
    followed by EOF, and [??=] one QUESTION_QUESTION_ASSIGN token followed
    by EOF. *)
Theorem lexer_never_reads_decrement :
  (forall l tok l', NextToken l = Ok (tok, l') -> Type_ tok <> DECREMENT)
  /\
  (forall l,
     starts_with l "--" = true ->
     NextToken l
     = Ok ({| Type_ := MINUS; Literal := "-"; Line := line l;
              Column := column l; Position := 0 |}, readChar l) /\
     readPosition (readChar l) = readPosition l + 1)
  /\
  (forall l,
     starts_with l "++" = true ->
     exists tok l',
       NextToken l = Ok (tok, l') /\
       Type_ tok = INCREMENT /\ Literal tok = "++" /\
       readPosition l' = readPosition l + 2)
  /\ prefixParseFns DECREMENT = Some parsePrefixExpression_fn
  /\ infixParseFns DECREMENT = Some parsePostfixExpression_fn
  /\ token_texts 5 (New "$i--;")
     = Ok [(VARIABLE, "$i"); (MINUS, "-"); (MINUS, "-"); (SEMICOLON, ";");
           (EOF, "")]
  /\ token_texts 4 (New "$i++;")
     = Ok [(VARIABLE, "$i"); (INCREMENT, "++"); (SEMICOLON, ";"); (EOF, "")]
  /\ (forall fuel, 8 <= fuel ->
        exists program,
          Parse fuel "<?php $i--; ?>"
          = Ok (program, ["no prefix parse function for SEMICOLON found"]))
  /\
  (forall (l : Lexer) op ty,
     In (op, ty) multi_char_operators ->
     starts_with l op = true ->
     (forall op' ty', In (op', ty') multi_char_operators ->
        starts_with l op' = true -> String.length op' <= String.length op) ->
     exists tok l', NextToken l = Ok (tok, l') /\
        Type_ tok = ty /\ Literal tok = op /\
        readPosition l' = readPosition l + String.length op)
  /\ token_texts 2 (New "<=>") = Ok [(SPACESHIP, "<=>"); (EOF, "")]
  /\ token_texts 2 (New "??=")
     = Ok [(QUESTION_QUESTION_ASSIGN, "??="); (EOF, "")].
Proof.
  split; [intros l tok l'; apply NextToken_rec_no_DECREMENT|].
  split.
  { intros l H. split; [exact (NextToken_at_minus_minus l H)|].
    rewrite readChar_readPosition. lia. }
  split.
  { intros l H.
    apply (NextToken_longest_operator l "++" INCREMENT);
      [cbn; tauto|exact H|].
    intros op' ty' Hin Hs. cbn in Hin.
    repeat (destruct Hin as [Hin|Hin];
            [inversion Hin; subst op' ty'; clear Hin; try (cbn; lia)|]);
      try contradiction.
    all: exfalso; split_start l H; split_start l Hs; congruence. }
  do 4 (split; [vm_compute; reflexivity|]).
  split.
  { intros fuel Hfuel. eexists.
    apply (Parse_mono 8 fuel _ _ Hfuel). vm_compute. reflexivity. }
  split; [exact NextToken_longest_operator|].
  split; vm_compute; reflexivity.
Qed.

Lemma lexer_never_reads_decrement_witness :
  exists l,
    lexer_after 1 (New "$i--;") = Ok l /\
    NextToken l
    = Ok ({| Type_ := MINUS; Literal := "-"; Line := 1; Column := 3;
             Position := 0 |}, readChar l).
Proof.
  exists (readChar (readChar (New "$i--;"))).
  split; [vm_compute; reflexivity|].
  apply (proj1 (proj2 lexer_never_reads_decrement)
           (readChar (readChar (New "$i--;")))).
  vm_compute. reflexivity.
Defined.

(** ** What the parser does not read: its own errors *)

Section Log.

Lemma withErrors_same (p : Parser) : withErrors p (errors p) = p.
Proof. destruct p; reflexivity. Qed.

Lemma writes_ret {A} (a : A) : writes (ret a).
Proof.
  intros p a' p' [= <- <-]. exists []. rewrite app_nil_r.
  split; [reflexivity|]. intros es. rewrite app_nil_r. reflexivity.
Qed.

Lemma writes_timeout {A} : writes (@timeout A).
Proof. intros p a p' H. discriminate H. Qed.

Lemma writes_panic {A} : writes (@panic A).
Proof. intros p a p' H. discriminate H. Qed.

Lemma writes_lift {A} (r : Res A) : writes (lift r).
Proof.
  intros p a p' H. unfold lift in *. destruct r; try discriminate H.
  injection H as <- <-. exists []. rewrite app_nil_r.
  split; [reflexivity|]. intros es. rewrite app_nil_r. reflexivity.
Qed.

Lemma writes_bind {A B} (m : M A) (k : A -> M B) :
  writes m -> (forall a, writes (k a)) -> writes (bind m k).
Proof.
  intros Hm Hk p b p' H. unfold bind in H.
  destruct (m p) as [[a p1]| |] eqn:E; try discriminate H.
  destruct (Hm _ _ _ E) as (new1 & E1 & W1).
  destruct (Hk _ _ _ _ H) as (new2 & E2 & W2).
  exists (new1 ++ new2). split.
  - rewrite E2, E1, app_assoc. reflexivity.
  - intros es. unfold bind. rewrite W1, W2, app_assoc. reflexivity.
Qed.

(** A computation that looks at the two tokens only. *)
Lemma writes_look {A} (f : Parser -> A) :
  (forall p es, f (withErrors p es) = f p) ->
  writes (fun p => Ok (f p, p)).
Proof.
  intros Hf p a p' [= <- <-]. exists []. rewrite app_nil_r.
  split; [reflexivity|]. intros es. rewrite app_nil_r, Hf. reflexivity.
Qed.

Lemma writes_cur : writes cur.
Proof. apply (writes_look curToken). reflexivity. Qed.
Lemma writes_peek : writes peek.
Proof. apply (writes_look peekToken). reflexivity. Qed.
Lemma writes_curTokenIs t : writes (curTokenIs t).
Proof.
  apply (writes_look (fun p => tt_eqb (Type_ (curToken p)) t)). reflexivity.
Qed.
Lemma writes_peekTokenIs t : writes (peekTokenIs t).
Proof.
  apply (writes_look (fun p => tt_eqb (Type_ (peekToken p)) t)). reflexivity.
Qed.
Lemma writes_curPrecedence : writes curPrecedence.
Proof.
  apply (writes_look (fun p => match precedences (Type_ (curToken p)) with
                               | Some n => n
                               | None => LOWEST
                               end)). reflexivity.
Qed.
Lemma writes_peekPrecedence : writes peekPrecedence.
Proof.
  apply (writes_look (fun p => match precedences (Type_ (peekToken p)) with
                               | Some n => n
                               | None => LOWEST
                               end)). reflexivity.
Qed.

Lemma writes_nextToken : writes nextToken.
Proof.
  intros p u p' H. unfold nextToken in *.
  change (l (withErrors p ?es)) with (l p).
  destruct (NextToken (l p)) as [[tok lx]| |]; try discriminate H.
  injection H as <- <-. exists []. cbn [errors]. rewrite app_nil_r.
  split; [reflexivity|]. intros es. rewrite app_nil_r. reflexivity.
Qed.

Lemma writes_addError msg : writes (addError msg).
Proof.
  intros p u p' [= <- <-]. exists [msg]. split; [reflexivity|].
  intros es. reflexivity.
Qed.

Lemma writes_peekError t : writes (peekError t).
Proof.
  intros p u p' H. unfold peekError in *.
  destruct (writes_addError _ _ _ _ H) as (new & E & W).
  exists new. split; [exact E|]. intros es. exact (W es).
Qed.

Lemma writes_noPrefixParseFnError t : writes (noPrefixParseFnError t).
Proof. apply writes_addError. Qed.

End Log.

Create HintDb note discriminated.
#[local] Hint Constants Opaque : note.
#[local] Hint Variables Opaque : note.

Ltac note :=
  cbv beta zeta;
  repeat
    match goal with
    | |- writes (ret _) => apply writes_ret
    | |- writes timeout => apply writes_timeout
    | |- writes panic => apply writes_panic
    | |- writes (lift _) => apply writes_lift
    | H : writes ?m |- writes ?m => exact H
    | H : forall x, writes (?a x) |- writes (?a _) => apply H
    | |- writes (bind _ _) => apply writes_bind; [ | intros ? ]
    | |- writes (if ?b then _ else _) => destruct b
    | |- writes (match ?x with _ => _ end) => destruct x
    | |- writes _ => solve [eauto 4 with note]
    end.

#[local] Hint Resolve writes_nextToken writes_addError writes_peekError
  writes_noPrefixParseFnError writes_cur writes_peek writes_curTokenIs
  writes_peekTokenIs writes_curPrecedence writes_peekPrecedence : note.

Lemma writes_identifierOfCur : writes identifierOfCur.
Proof. unfold identifierOfCur. note. Qed.
Lemma writes_isVisibility : writes isVisibility.
Proof. unfold isVisibility. note. Qed.
Lemma writes_variableOfCur : writes variableOfCur.
Proof. unfold variableOfCur. note. Qed.
Lemma writes_variableOfToken tok : writes (variableOfToken tok).
Proof. unfold variableOfToken. note. Qed.
Lemma writes_variablesOfTokens toks : writes (variablesOfTokens toks).
Proof.
  pose proof writes_variableOfToken.
  induction toks as [|tok toks IH]; cbn [variablesOfTokens]; note.
Qed.
Lemma writes_parseInterpolatedString : writes parseInterpolatedString.
Proof. unfold parseInterpolatedString. note. Qed.
#[local] Hint Resolve writes_identifierOfCur writes_isVisibility
  writes_variableOfCur writes_variablesOfTokens
  writes_parseInterpolatedString : note.

Lemma expectPeek_writes t : writes (expectPeek t).
Proof. unfold expectPeek. note. Qed.
#[local] Hint Resolve expectPeek_writes : note.

Lemma skipPeek_writes t : writes (skipPeek t).
Proof. unfold skipPeek. note. Qed.
#[local] Hint Resolve skipPeek_writes : note.

Lemma parseIdentifier_writes : writes parseIdentifier.
Proof. unfold parseIdentifier. note. Qed.
#[local] Hint Resolve parseIdentifier_writes : note.

Lemma parseVariable_writes : writes parseVariable.
Proof. unfold parseVariable. note. Qed.
#[local] Hint Resolve parseVariable_writes : note.

Lemma parseIntegerLiteral_writes : writes parseIntegerLiteral.
Proof. unfold parseIntegerLiteral. note. Qed.
#[local] Hint Resolve parseIntegerLiteral_writes : note.

Lemma parseFloatLiteral_writes : writes parseFloatLiteral.
Proof. unfold parseFloatLiteral. note. Qed.
#[local] Hint Resolve parseFloatLiteral_writes : note.

Lemma parseStringLiteral_writes : writes parseStringLiteral.
Proof. unfold parseStringLiteral. note. Qed.
#[local] Hint Resolve parseStringLiteral_writes : note.

Lemma parseBooleanLiteral_writes : writes parseBooleanLiteral.
Proof. unfold parseBooleanLiteral. note. Qed.
#[local] Hint Resolve parseBooleanLiteral_writes : note.

Lemma parsePostfixExpression_writes x1 : writes (parsePostfixExpression x1).
Proof. unfold parsePostfixExpression. note. Qed.
#[local] Hint Resolve parsePostfixExpression_writes : note.

Lemma parseNamespaceDeclaration_writes : writes parseNamespaceDeclaration.
Proof. unfold parseNamespaceDeclaration. note. Qed.
#[local] Hint Resolve parseNamespaceDeclaration_writes : note.

Lemma parseUseStatement_writes : writes parseUseStatement.
Proof. unfold parseUseStatement. note. Qed.
#[local] Hint Resolve parseUseStatement_writes : note.

Lemma parameters_loop_writes : forall (n : nat) x1,
    writes (parameters_loop n x1).
Proof.
  induction n as [|n IH]; intros; cbn [parameters_loop]; note.
Qed.
#[local] Hint Resolve parameters_loop_writes : note.

Lemma parseFunctionParameters_writes : forall (fuel : nat),
  writes (parseFunctionParameters fuel).
Proof. intros. unfold parseFunctionParameters. note. Qed.
#[local] Hint Resolve parseFunctionParameters_writes : note.

Lemma block_loop_writes : forall ps,
  writes ps ->
  forall (n : nat) x1,
    writes (block_loop ps n x1).
Proof.
  intros ? ?.
  induction n as [|n IH]; intros; cbn [block_loop]; note.
Qed.
#[local] Hint Resolve block_loop_writes : note.

Lemma parseBlockStatement_writes : forall (fuel : nat) ps,
  writes ps ->
  writes (parseBlockStatement fuel ps).
Proof. intros. unfold parseBlockStatement. note. Qed.
#[local] Hint Resolve parseBlockStatement_writes : note.

Lemma parseFunctionDeclaration_writes : forall (fuel : nat) ps,
  writes ps ->
  writes (parseFunctionDeclaration fuel ps).
Proof. intros. unfold parseFunctionDeclaration. note. Qed.
#[local] Hint Resolve parseFunctionDeclaration_writes : note.

Lemma parseReturnStatement_writes : forall pe,
  (forall precedence, writes (pe precedence)) ->
  writes (parseReturnStatement pe).
Proof. intros. unfold parseReturnStatement. note. Qed.
#[local] Hint Resolve parseReturnStatement_writes : note.

Lemma parseIfStatement_writes : forall (fuel : nat) pe ps,
  (forall precedence, writes (pe precedence)) ->
  writes ps ->
  writes (parseIfStatement fuel pe ps).
Proof. intros. unfold parseIfStatement. note. Qed.
#[local] Hint Resolve parseIfStatement_writes : note.

Lemma expressions_loop_writes : forall pe,
  (forall precedence, writes (pe precedence)) ->
  forall (n : nat) x1,
    writes (expressions_loop pe n x1).
Proof.
  intros ? ?.
  induction n as [|n IH]; intros; cbn [expressions_loop]; note.
Qed.
#[local] Hint Resolve expressions_loop_writes : note.

Lemma parseEchoStatement_writes : forall (fuel : nat) pe,
  (forall precedence, writes (pe precedence)) ->
  writes (parseEchoStatement fuel pe).
Proof. intros. unfold parseEchoStatement. note. Qed.
#[local] Hint Resolve parseEchoStatement_writes : note.

Lemma parseAssignmentExpressionFromVariable_writes : forall pe,
  (forall precedence, writes (pe precedence)) ->
  writes (parseAssignmentExpressionFromVariable pe).
Proof. intros. unfold parseAssignmentExpressionFromVariable. note. Qed.
#[local] Hint Resolve parseAssignmentExpressionFromVariable_writes : note.

Lemma parseExpressionStatement_writes : forall pe,
  (forall precedence, writes (pe precedence)) ->
  writes (parseExpressionStatement pe).
Proof. intros. unfold parseExpressionStatement. note. Qed.
#[local] Hint Resolve parseExpressionStatement_writes : note.

Lemma parsePrefixExpression_writes : forall pe,
  (forall precedence, writes (pe precedence)) ->
  writes (parsePrefixExpression pe).
Proof. intros. unfold parsePrefixExpression. note. Qed.
#[local] Hint Resolve parsePrefixExpression_writes : note.

Lemma parseInfixExpression_writes : forall pe x1,
  (forall precedence, writes (pe precedence)) ->
  writes (parseInfixExpression pe x1).
Proof. intros. unfold parseInfixExpression. note. Qed.
#[local] Hint Resolve parseInfixExpression_writes : note.

Lemma parseAssignmentExpression_writes : forall pe x1,
  (forall precedence, writes (pe precedence)) ->
  writes (parseAssignmentExpression pe x1).
Proof. intros. unfold parseAssignmentExpression. note. Qed.
#[local] Hint Resolve parseAssignmentExpression_writes : note.

Lemma parseGroupedExpression_writes : forall pe,
  (forall precedence, writes (pe precedence)) ->
  writes (parseGroupedExpression pe).
Proof. intros. unfold parseGroupedExpression. note. Qed.
#[local] Hint Resolve parseGroupedExpression_writes : note.

Lemma parseExpressionList_writes : forall (fuel : nat) pe x1,
  (forall precedence, writes (pe precedence)) ->
  writes (parseExpressionList fuel pe x1).
Proof. intros. unfold parseExpressionList. note. Qed.
#[local] Hint Resolve parseExpressionList_writes : note.

Lemma parseCallExpression_writes : forall (fuel : nat) pe x1,
  (forall precedence, writes (pe precedence)) ->
  writes (parseCallExpression fuel pe x1).
Proof. intros. unfold parseCallExpression. note. Qed.
#[local] Hint Resolve parseCallExpression_writes : note.

Lemma pairs_loop_writes : forall pe,
  (forall precedence, writes (pe precedence)) ->
  forall (n : nat) x1,
    writes (pairs_loop pe n x1).
Proof.
  intros ? ?.
  induction n as [|n IH]; intros; cbn [pairs_loop]; note.
Qed.
#[local] Hint Resolve pairs_loop_writes : note.

Lemma parseArrayLiteral_writes : forall (fuel : nat) pe,
  (forall precedence, writes (pe precedence)) ->
  writes (parseArrayLiteral fuel pe).
Proof. intros. unfold parseArrayLiteral. note. Qed.
#[local] Hint Resolve parseArrayLiteral_writes : note.

Lemma parseIndexExpression_writes : forall pe x1,
  (forall precedence, writes (pe precedence)) ->
  writes (parseIndexExpression pe x1).
Proof. intros. unfold parseIndexExpression. note. Qed.
#[local] Hint Resolve parseIndexExpression_writes : note.

Lemma parseForStatement_writes : forall (fuel : nat) pe ps,
  (forall precedence, writes (pe precedence)) ->
  writes ps ->
  writes (parseForStatement fuel pe ps).
Proof. intros. unfold parseForStatement. note. Qed.
#[local] Hint Resolve parseForStatement_writes : note.

Lemma parseWhileStatement_writes : forall (fuel : nat) pe ps,
  (forall precedence, writes (pe precedence)) ->
  writes ps ->
  writes (parseWhileStatement fuel pe ps).
Proof. intros. unfold parseWhileStatement. note. Qed.
#[local] Hint Resolve parseWhileStatement_writes : note.

Lemma parseForeachStatement_writes : forall (fuel : nat) pe ps,
  (forall precedence, writes (pe precedence)) ->
  writes ps ->
  writes (parseForeachStatement fuel pe ps).
Proof. intros. unfold parseForeachStatement. note. Qed.
#[local] Hint Resolve parseForeachStatement_writes : note.

Lemma parseLevel_writes : forall pe,
  (forall precedence, writes (pe precedence)) ->
  writes (parseLevel pe).
Proof. intros. unfold parseLevel. note. Qed.
#[local] Hint Resolve parseLevel_writes : note.

Lemma parseBreakStatement_writes : forall pe,
  (forall precedence, writes (pe precedence)) ->
  writes (parseBreakStatement pe).
Proof. intros. unfold parseBreakStatement. note. Qed.
#[local] Hint Resolve parseBreakStatement_writes : note.

Lemma parseContinueStatement_writes : forall pe,
  (forall precedence, writes (pe precedence)) ->
  writes (parseContinueStatement pe).
Proof. intros. unfold parseContinueStatement. note. Qed.
#[local] Hint Resolve parseContinueStatement_writes : note.

Lemma parsePropertyDeclaration_writes : forall pe x1 x2,
  (forall precedence, writes (pe precedence)) ->
  writes (parsePropertyDeclaration pe x1 x2).
Proof. intros. unfold parsePropertyDeclaration. note. Qed.
#[local] Hint Resolve parsePropertyDeclaration_writes : note.

Lemma parseMethodDeclaration_writes : forall (fuel : nat) ps x1 x2,
  writes ps ->
  writes (parseMethodDeclaration fuel ps x1 x2).
Proof. intros. unfold parseMethodDeclaration. note. Qed.
#[local] Hint Resolve parseMethodDeclaration_writes : note.

Lemma parseConstantDeclaration_writes : forall pe,
  (forall precedence, writes (pe precedence)) ->
  writes (parseConstantDeclaration pe).
Proof. intros. unfold parseConstantDeclaration. note. Qed.
#[local] Hint Resolve parseConstantDeclaration_writes : note.

Lemma names_loop_writes : forall (n : nat) x1 x2 x3 x4,
    writes (names_loop n x1 x2 x3 x4).
Proof.
  induction n as [|n IH]; intros; cbn [names_loop]; note.
Qed.
#[local] Hint Resolve names_loop_writes : note.

Lemma parseTraitUse_writes : forall (fuel : nat),
  writes (parseTraitUse fuel).
Proof. intros. unfold parseTraitUse. note. Qed.
#[local] Hint Resolve parseTraitUse_writes : note.

Lemma classMember_writes : forall (fuel : nat) pe ps x1,
  (forall precedence, writes (pe precedence)) ->
  writes ps ->
  writes (classMember fuel pe ps x1).
Proof. intros. unfold classMember. note. Qed.
#[local] Hint Resolve classMember_writes : note.

Lemma traitMember_writes : forall (fuel : nat) pe ps x1,
  (forall precedence, writes (pe precedence)) ->
  writes ps ->
  writes (traitMember fuel pe ps x1).
Proof. intros. unfold traitMember. note. Qed.
#[local] Hint Resolve traitMember_writes : note.

Lemma members_loop_writes : forall (member : Members -> M Members),
  (forall m, writes (member m)) ->
  forall (n : nat) x1,
    writes (members_loop n member x1).
Proof.
  intros ? ?.
  induction n as [|n IH]; intros; cbn [members_loop]; note.
Qed.
#[local] Hint Resolve members_loop_writes : note.

Lemma parseClassDeclaration_writes : forall (fuel : nat) pe ps,
  (forall precedence, writes (pe precedence)) ->
  writes ps ->
  writes (parseClassDeclaration fuel pe ps).
Proof. intros. unfold parseClassDeclaration. note. Qed.
#[local] Hint Resolve parseClassDeclaration_writes : note.

Lemma parseTraitDeclaration_writes : forall (fuel : nat) pe ps,
  (forall precedence, writes (pe precedence)) ->
  writes ps ->
  writes (parseTraitDeclaration fuel pe ps).
Proof. intros. unfold parseTraitDeclaration. note. Qed.
#[local] Hint Resolve parseTraitDeclaration_writes : note.

Lemma parseInterfaceMethod_writes : forall (fuel : nat),
  writes (parseInterfaceMethod fuel).
Proof. intros. unfold parseInterfaceMethod. note. Qed.
#[local] Hint Resolve parseInterfaceMethod_writes : note.

Lemma interface_loop_writes : forall (fuel : nat),
  forall (n : nat) x1,
    writes (interface_loop fuel n x1).
Proof.
  intros ?.
  induction n as [|n IH]; intros; cbn [interface_loop]; note.
Qed.
#[local] Hint Resolve interface_loop_writes : note.

Lemma parseInterfaceDeclaration_writes : forall (fuel : nat),
  writes (parseInterfaceDeclaration fuel).
Proof. intros. unfold parseInterfaceDeclaration. note. Qed.
#[local] Hint Resolve parseInterfaceDeclaration_writes : note.

Lemma parseNewExpression_writes : forall (fuel : nat) pe,
  (forall precedence, writes (pe precedence)) ->
  writes (parseNewExpression fuel pe).
Proof. intros. unfold parseNewExpression. note. Qed.
#[local] Hint Resolve parseNewExpression_writes : note.

Lemma parseObjectAccessExpression_writes : forall pe x1,
  (forall precedence, writes (pe precedence)) ->
  writes (parseObjectAccessExpression pe x1).
Proof. intros. unfold parseObjectAccessExpression. note. Qed.
#[local] Hint Resolve parseObjectAccessExpression_writes : note.

Lemma parseStaticAccessExpression_writes : forall pe x1,
  (forall precedence, writes (pe precedence)) ->
  writes (parseStaticAccessExpression pe x1).
Proof. intros. unfold parseStaticAccessExpression. note. Qed.
#[local] Hint Resolve parseStaticAccessExpression_writes : note.

Lemma parseCatchClause_writes : forall (fuel : nat) ps,
  writes ps ->
  writes (parseCatchClause fuel ps).
Proof. intros. unfold parseCatchClause. note. Qed.
#[local] Hint Resolve parseCatchClause_writes : note.

Lemma catches_loop_writes : forall (fuel : nat) ps,
  writes ps ->
  forall (n : nat) x1,
    writes (catches_loop fuel ps n x1).
Proof.
  intros ? ? ?.
  induction n as [|n IH]; intros; cbn [catches_loop]; note.
Qed.
#[local] Hint Resolve catches_loop_writes : note.

Lemma parseTryStatement_writes : forall (fuel : nat) ps,
  writes ps ->
  writes (parseTryStatement fuel ps).
Proof. intros. unfold parseTryStatement. note. Qed.
#[local] Hint Resolve parseTryStatement_writes : note.

Lemma parseThrowStatement_writes : forall pe,
  (forall precedence, writes (pe precedence)) ->
  writes (parseThrowStatement pe).
Proof. intros. unfold parseThrowStatement. note. Qed.
#[local] Hint Resolve parseThrowStatement_writes : note.

Lemma parseAnonymousFunction_writes : forall (fuel : nat) ps,
  writes ps ->
  writes (parseAnonymousFunction fuel ps).
Proof. intros. unfold parseAnonymousFunction. note. Qed.
#[local] Hint Resolve parseAnonymousFunction_writes : note.

Lemma parseYieldExpression_writes : forall pe,
  (forall precedence, writes (pe precedence)) ->
  writes (parseYieldExpression pe).
Proof. intros. unfold parseYieldExpression. note. Qed.
#[local] Hint Resolve parseYieldExpression_writes : note.

Lemma parseTernaryExpression_writes : forall pe x1,
  (forall precedence, writes (pe precedence)) ->
  writes (parseTernaryExpression pe x1).
Proof. intros. unfold parseTernaryExpression. note. Qed.
#[local] Hint Resolve parseTernaryExpression_writes : note.

Lemma callPrefix_writes : forall (fuel : nat) pe ps x1,
  (forall precedence, writes (pe precedence)) ->
  writes ps ->
  writes (callPrefix fuel pe ps x1).
Proof. intros. unfold callPrefix. note. Qed.
#[local] Hint Resolve callPrefix_writes : note.

Lemma callInfix_writes : forall (fuel : nat) pe x1 x2,
  (forall precedence, writes (pe precedence)) ->
  writes (callInfix fuel pe x1 x2).
Proof. intros. unfold callInfix. note. Qed.
#[local] Hint Resolve callInfix_writes : note.

Lemma climb_writes : forall (fuel : nat) pe,
  (forall precedence, writes (pe precedence)) ->
  forall (n : nat) x1 x2,
    writes (climb fuel pe n x1 x2).
Proof.
  intros ? ? ?.
  induction n as [|n IH]; intros; cbn [climb]; note.
Qed.
#[local] Hint Resolve climb_writes : note.

Lemma parseExpression_body_writes : forall (fuel : nat) pe ps x1,
  (forall precedence, writes (pe precedence)) ->
  writes ps ->
  writes (parseExpression_body fuel pe ps x1).
Proof. intros. unfold parseExpression_body. note. Qed.
#[local] Hint Resolve parseExpression_body_writes : note.

Lemma parseStatement_body_writes : forall (fuel : nat) pe ps,
  (forall precedence, writes (pe precedence)) ->
  writes ps ->
  writes (parseStatement_body fuel pe ps).
Proof. intros. unfold parseStatement_body, orNil. note. Qed.
#[local] Hint Resolve parseStatement_body_writes : note.

Lemma parse_writes : forall fuel,
  (forall precedence, writes (parseExpression fuel precedence)) /\
  writes (parseStatement fuel).
Proof.
  induction fuel as [|f [IHe IHs]].
  - split; [intros precedence|]; apply writes_timeout.
  - split.
    + intros precedence.
      change (parseExpression (S f) precedence)
        with (parseExpression_body f (parseExpression f) (parseStatement f)
                precedence).
      apply parseExpression_body_writes; assumption.
    + change (parseStatement (S f))
        with (parseStatement_body f (parseExpression f) (parseStatement f)).
      apply parseStatement_body_writes; assumption.
Qed.

Lemma program_loop_writes : forall (n : nat) stmts,
  writes (program_loop n stmts).
Proof.
  induction n as [|n IH]; intros; cbn [program_loop]; [note|].
  pose proof (proj2 (parse_writes n)). note.
Qed.

(** ** What an unsupported token costs *)

Section Unsupported.

(** Wherever the parser looks for an expression at an unsupported token,
    it records one error, yields no expression and stays where it is. *)
Lemma parseExpression_ILLEGAL fuel precedence (p : Parser) :
  Type_ (curToken p) = ILLEGAL ->
  parseExpression (S fuel) precedence p
  = Ok (None,
        withErrors p
          (errors p ++ ["no prefix parse function for ILLEGAL found"])).
Proof.
  destruct p as [lx [ty lit ln col pos] pk errs]. cbn [curToken Type_].
  intros ->. reflexivity.
Qed.

(** The statements the loop has collected are handed through. *)
Lemma program_loop_collects : forall n stmts (p : Parser),
  program_loop n stmts p
  = bind (program_loop n []) (fun rest => ret (stmts ++ rest)) p.
Proof.
  induction n as [|n IH]; intros stmts p.
  - cbn [program_loop]. unfold bind, curTokenIs, ret, timeout.
    destruct (tt_eqb (Type_ (curToken p)) EOF);
      [rewrite app_nil_r|]; reflexivity.
  - cbn [program_loop]. unfold bind, curTokenIs, ret.
    destruct (tt_eqb (Type_ (curToken p)) EOF);
      [rewrite app_nil_r; reflexivity|].
    destruct (tt_eqb (Type_ (curToken p)) PHP_OPEN
              || tt_eqb (Type_ (curToken p)) PHP_CLOSE).
    + destruct (nextToken p) as [[[] p1]| |]; [|reflexivity|reflexivity].
      rewrite IH. reflexivity.
    + destruct (parseStatement n p) as [[stmt p1]| |];
        [|reflexivity|reflexivity].
      destruct (nextToken p1) as [[[] p2]| |]; [|reflexivity|reflexivity].
      rewrite (IH (stmts ++ [stmt]) p2), (IH ([] ++ [stmt]) p2).
      unfold bind, ret.
      destruct (program_loop n [] p2) as [[rest q]| |];
        [|reflexivity|reflexivity].
      rewrite <- !app_assoc. reflexivity.
Qed.

Lemma skip_writes : writes (do _ <- skipPeek SEMICOLON; nextToken)%parser.
Proof.
  apply writes_bind; [|intros ?; apply writes_nextToken].
  unfold skipPeek. apply writes_bind; [apply writes_peekTokenIs|].
  intros []; [apply writes_nextToken|apply writes_ret].
Qed.

Lemma skip_errors (p : Parser) u p1 :
  (do _ <- skipPeek SEMICOLON; nextToken)%parser p = Ok (u, p1) ->
  errors p1 = errors p.
Proof.
  intros H. unfold skipPeek, bind, peekTokenIs, ret in H.
  destruct (tt_eqb (Type_ (peekToken p)) SEMICOLON).
  - destruct (nextToken p) as [[[] p0]| |] eqn:E0; try discriminate H.
    rewrite (nextToken_errors _ _ _ H), (nextToken_errors _ _ _ E0).
    reflexivity.
  - exact (nextToken_errors _ _ _ H).
Qed.

End Unsupported.

(** C3 (as amended). An unsupported token is not fatal, and where it
    begins a statement it costs exactly one error.  Wherever the parser
    looks for an expression at such a token, it records that the token
    has no prefix function, yields no expression and does not move.
    Where the token begins a statement, the loop of [ParseProgram] keeps
    the statements parsed before it, appends an expression statement
    without expression for it, steps over the token (and a semicolon
    after it) and goes on with what follows; compared with the parse of
    what follows alone, the statements after the token are the same and
    the error list has this one error more.  So [$a = 1; & $b = 2;] gives
    both assignments, the empty statement between them, and one error.
    Inside a statement the count depends on the construct around the
    token: one error in [echo &;], [$a = 1 + & 2;] and
    [if (&) { $a = 1; }]. *)
Theorem unsupported_token_at_statement_start :
  (forall fuel precedence (p : Parser),
     Type_ (curToken p) = ILLEGAL ->
     parseExpression (S fuel) precedence p
     = Ok (None,
           withErrors p
             (errors p ++ ["no prefix parse function for ILLEGAL found"])))
  /\
  (forall n stmts (p : Parser),
     Type_ (curToken p) = ILLEGAL ->
     program_loop (S (S (S n))) stmts p
     = bind (noPrefixParseFnError ILLEGAL) (fun _ =>
         bind (skipPeek SEMICOLON) (fun _ =>
           bind nextToken (fun _ =>
             bind (program_loop (S (S n)) []) (fun rest =>
               ret (stmts ++ ExpressionStatement (curToken p) None
                          :: rest))))) p)
  /\
  (forall n stmts (p p1 : Parser) rest q,
     Type_ (curToken p) = ILLEGAL ->
     bind (skipPeek SEMICOLON) (fun _ => nextToken) p = Ok (tt, p1) ->
     program_loop (S (S n)) [] p1 = Ok (rest, q) ->
     exists later,
       errors p1 = errors p /\
       errors q = errors p ++ later /\
       program_loop (S (S (S n))) stmts p
       = Ok (stmts ++ ExpressionStatement (curToken p) None :: rest,
             withErrors q
               (errors p ++ "no prefix parse function for ILLEGAL found"
                       :: later)))
  /\
  (forall fuel, 8 <= fuel ->
     exists t1 t2 t3 t4 t5 t6 t7 a b,
       Parse fuel "<?php $a = 1; & $b = 2; ?>"
       = Ok ({| Statements :=
                  [ExpressionStatement t1
                     (Some (AssignmentExpression t2 a
                              (Some (IntegerLiteral t3 1))));
                   ExpressionStatement t4 None;
                   ExpressionStatement t5
                     (Some (AssignmentExpression t6 b
                              (Some (IntegerLiteral t7 2))))] |},
             ["no prefix parse function for ILLEGAL found"])
       /\ VarName a = "a" /\ VarName b = "b" /\ Type_ t4 = ILLEGAL)
  /\
  (forall fuel inp,
     8 <= fuel ->
     In inp ["<?php echo &; ?>"; "<?php $a = 1 + & 2; ?>";
             "<?php if (&) { $a = 1; } ?>"] ->
     exists program,
       Parse fuel inp
       = Ok (program, ["no prefix parse function for ILLEGAL found"])).
Proof.
  split; [exact parseExpression_ILLEGAL|]. split; [|split; [|split]].
  - intros n stmts p H.
    rewrite program_loop_statement by (rewrite H; reflexivity).
    rewrite (parseStatement_ILLEGAL n p H).
    unfold bind, noPrefixParseFnError, addError, ret.
    destruct (skipPeek SEMICOLON _) as [[[] p1]| |];
      [|reflexivity|reflexivity].
    destruct (nextToken p1) as [[[] p2]| |]; [|reflexivity|reflexivity].
    rewrite program_loop_collects. unfold bind, ret.
    destruct (program_loop (S (S n)) [] p2) as [[rest q]| |];
      [|reflexivity|reflexivity].
    rewrite <- app_assoc. reflexivity.
  - intros n stmts p p1 rest q H Hskip Hrest.
    destruct (program_loop_writes _ _ _ _ _ Hrest) as (later & El & Wl).
    destruct (skip_writes _ _ _ Hskip) as (none & En & Wn).
    pose proof (skip_errors _ _ _ Hskip) as E1.
    exists later. split; [exact E1|]. split; [rewrite <- E1; exact El|].
    assert (Hnone : none = []).
    { rewrite E1 in En. rewrite <- (app_nil_r (errors p)) in En at 1.
      apply app_inv_head in En. symmetry. exact En. }
    subst none.
    rewrite program_loop_statement by (rewrite H; reflexivity).
    rewrite (parseStatement_ILLEGAL n p H).
    set (msg := "no prefix parse function for ILLEGAL found").
    specialize (Wn (errors p ++ [msg])). rewrite app_nil_r in Wn.
    specialize (Wl (errors p ++ [msg])).
    unfold bind in Wn.
    unfold bind, noPrefixParseFnError, addError, ret.
    change {| l := l p; curToken := curToken p; peekToken := peekToken p;
              errors := errors p ++ _ |}
      with (withErrors p (errors p ++ [msg])).
    destruct (skipPeek SEMICOLON (withErrors p (errors p ++ [msg])))
      as [[[] p0]| |]; try discriminate Wn.
    rewrite Wn, program_loop_collects. unfold bind, ret.
    rewrite Wl, <- !app_assoc. reflexivity.
  - intros fuel Hfuel. do 9 eexists. split.
    + apply (Parse_mono 8 fuel _ _ Hfuel). vm_compute. reflexivity.
    + repeat split; reflexivity.
  - intros fuel inp Hfuel Hin. cbn [In] in Hin.
    destruct Hin as [<-|[<-|[<-|[]]]]; eexists;
      apply (Parse_mono 8 fuel _ _ Hfuel); vm_compute; reflexivity.
Qed.

Lemma unsupported_token_at_statement_start_witness :
  exists p p1 rest q,
    parserOf "& $b = 2; $c = ;" = Ok p /\
    bind (skipPeek SEMICOLON) (fun _ => nextToken) p = Ok (tt, p1) /\
    program_loop 4 [] p1 = Ok (rest, q) /\
    List.length rest = 2 /\
    errors q = ["no prefix parse function for SEMICOLON found"] /\
    program_loop 5 [] p
    = Ok (ExpressionStatement (curToken p) None :: rest,
          withErrors q
            ["no prefix parse function for ILLEGAL found";
             "no prefix parse function for SEMICOLON found"]).
Proof.
  assert (E : exists p p1 rest q,
             parserOf "& $b = 2; $c = ;" = Ok p /\
             bind (skipPeek SEMICOLON) (fun _ => nextToken) p = Ok (tt, p1) /\
             program_loop 4 [] p1 = Ok (rest, q) /\
             List.length rest = 2 /\
             errors q = ["no prefix parse function for SEMICOLON found"] /\
             Type_ (curToken p) = ILLEGAL /\ errors p = []).
  { do 4 eexists. repeat (split; [vm_compute; reflexivity|]).
    vm_compute. reflexivity. }
  destruct E as (p & p1 & rest & q & E1 & E2 & E3 & E4 & E5 & Ht & Ee).
  exists p, p1, rest, q. do 5 (split; [assumption|]).
  destruct (proj1 (proj2 (proj2 unsupported_token_at_statement_start))
              2 [] p p1 rest q Ht E2 E3) as (later & _ & El & Hrun).
  rewrite Ee in El, Hrun. cbn [app] in El, Hrun.
  rewrite E5 in El. subst later. exact Hrun.
Defined.
